(** * contacts-mcp: the record codec, the duplicate detector, the merge
      resolver and the git-backed store, embedded from the TypeScript sources.

    JavaScript strings are sequences of UTF-16 code units; they are modelled
    as [list N].  Optional properties ([x?: T]) are [option T], with [None]
    for [undefined].  Plain objects used as dictionaries are [gmap]s. *)

From Stdlib Require Import NArith ZArith QArith Qround Lia List Bool String Ascii.
From stdpp Require Import gmap.
Import ListNotations.

(* ===================================================================== *)
(** * Part I.  Definitions                                                 *)
(* ===================================================================== *)

(** ** JavaScript string primitives used by the sources *)

Module Js.

Abbreviation str := (list N).

(** An ASCII literal as a string of code units. *)
Definition lit (s : string) : str := map N_of_ascii (list_ascii_of_string s).

Definition BACKSLASH : N := 92.
Definition SEMI : N := 59.
Definition COMMA : N := 44.
Definition COLON : N := 58.
Definition LF : N := 10.
Definition CR : N := 13.
Definition SPACE : N := 32.
Definition TAB : N := 9.
Definition LOWER_N : N := 110.
Definition QUOTE : N := 34.
Definition CRLF : str := [CR; LF].

Fixpoint str_eqb (a b : str) : bool :=
  match a, b with
  | [], [] => true
  | x :: a', y :: b' => N.eqb x y && str_eqb a' b'
  | _, _ => false
  end.

(** [a < b] in the order of [Array.prototype.sort] without a comparator and
    of [<] on strings: lexicographic on code units. *)
Fixpoint str_ltb (a b : str) : bool :=
  match a, b with
  | _, [] => false
  | [], _ :: _ => true
  | x :: a', y :: b' => N.ltb x y || (N.eqb x y && str_ltb a' b')
  end.

(** [s.startsWith(p)] *)
Fixpoint startsWith (p s : str) : bool :=
  match p, s with
  | [], _ => true
  | x :: p', y :: s' => N.eqb x y && startsWith p' s'
  | _ :: _, [] => false
  end.

(** [s.includes(c)] and [s.indexOf(c)] for a one-unit [c]. *)
Definition includes (c : N) (s : str) : bool := existsb (N.eqb c) s.

Fixpoint indexOf (c : N) (s : str) : option nat :=
  match s with
  | [] => None
  | x :: t => if N.eqb x c then Some 0 else option_map S (indexOf c t)
  end.

(** [s.split(c)] for a one-unit separator: never the empty array. *)
Fixpoint split (c : N) (s : str) : list str :=
  match s with
  | [] => [[]]
  | x :: t =>
      if N.eqb x c then [] :: split c t
      else match split c t with
           | h :: r => (x :: h) :: r
           | [] => [[x]]
           end
  end.

(** [s.split('\r\n')] *)
Fixpoint split_crlf (s : str) : list str :=
  match s with
  | [] => [[]]
  | x :: t =>
      match t with
      | y :: t' =>
          if N.eqb x CR && N.eqb y LF then [] :: split_crlf t'
          else match split_crlf t with
               | h :: r => (x :: h) :: r
               | [] => [[x]]
               end
      | [] => [[x]]
      end
  end.

(** [l.join(sep)] *)
Fixpoint join (sep : str) (l : list str) : str :=
  match l with
  | [] => []
  | x :: t => match t with
              | [] => x
              | _ :: _ => x ++ sep ++ join sep t
              end
  end.

(** [s.replace(/c/g, r)] for a one-unit pattern. *)
Definition replace1 (c : N) (r : str) (s : str) : str :=
  flat_map (fun x => if N.eqb x c then r else [x]) s.

(** [s.replace(/ab/g, r)] for a two-unit literal pattern: leftmost matches,
    not overlapping, the replacement text is not scanned again. *)
Fixpoint replace2 (a b : N) (r : str) (s : str) : str :=
  match s with
  | [] => []
  | x :: t =>
      match t with
      | y :: t' =>
          if N.eqb x a && N.eqb y b then r ++ replace2 a b r t'
          else x :: replace2 a b r t
      | [] => [x]
      end
  end.

(** [String.prototype.toUpperCase] and [toLowerCase] on the ASCII letters.
    The codec applies them to property names and parameters only, which are
    ASCII in every line the encoder writes; other code units are left as
    they are. *)
Definition upper_unit (c : N) : N :=
  if N.leb 97 c && N.leb c 122 then (c - 32)%N else c.
Definition lower_unit (c : N) : N :=
  if N.leb 65 c && N.leb c 90 then (c + 32)%N else c.
Definition toUpperCase (s : str) : str := map upper_unit s.
Definition toLowerCase (s : str) : str := map lower_unit s.

(** ECMAScript WhiteSpace and LineTerminator code units ([\s], [trim]). *)
Definition is_ws (c : N) : bool :=
  (N.leb 9 c && N.leb c 13) || N.eqb c 32 || N.eqb c 160 || N.eqb c 5760
  || (N.leb 8192 c && N.leb c 8202) || N.eqb c 8232 || N.eqb c 8233
  || N.eqb c 8239 || N.eqb c 8287 || N.eqb c 12288 || N.eqb c 65279.

Fixpoint trimStart (s : str) : str :=
  match s with
  | [] => []
  | c :: t => if is_ws c then trimStart t else s
  end.

Definition trim (s : str) : str := rev (trimStart (rev (trimStart s))).

(** [s.split(/\s+/)]; [prev] tells that the unit before was white space. *)
Fixpoint split_ws_from (prev : bool) (s : str) : list str :=
  match s with
  | [] => [[]]
  | c :: t =>
      if is_ws c then
        (if prev then split_ws_from true t else [] :: split_ws_from true t)
      else match split_ws_from false t with
           | h :: r => (c :: h) :: r
           | [] => [[c]]
           end
  end.

Definition split_ws (s : str) : list str := split_ws_from false s.

(** [Buffer.byteLength(s, 'utf-8')]: a surrogate pair takes four octets, a
    lone surrogate is written as U+FFFD and takes three. *)
Definition is_high (c : N) : bool := N.leb 55296 c && N.leb c 56319.
Definition is_low (c : N) : bool := N.leb 56320 c && N.leb c 57343.

Fixpoint byteLength (s : str) : nat :=
  match s with
  | [] => 0
  | c :: t =>
      if N.ltb c 128 then 1 + byteLength t
      else if N.ltb c 2048 then 2 + byteLength t
      else if is_high c then
        match t with
        | d :: t' => if is_low d then 4 + byteLength t' else 3 + byteLength t
        | [] => 3
        end
      else 3 + byteLength t
  end.

(** The text [fs.readFile(path, 'utf-8')] returns for a file that
    [fs.writeFile(path, s, 'utf-8')] wrote: the encoder writes U+FFFD for a
    surrogate that is not part of a pair. *)
Fixpoint utf8_text (s : str) : str :=
  match s with
  | [] => []
  | c :: t =>
      if is_high c then
        match t with
        | d :: t' =>
            if is_low d then c :: d :: utf8_text t'
            else 65533%N :: utf8_text t
        | [] => [65533%N]
        end
      else if is_low c then 65533%N :: utf8_text t
      else c :: utf8_text t
  end.

(** Truthiness of an optional string: defined and not empty. *)
Definition truthy (o : option str) : bool :=
  match o with
  | Some (_ :: _) => true
  | _ => false
  end.

(** [s || undefined] *)
Definition or_undefined (s : str) : option str :=
  match s with
  | [] => None
  | _ :: _ => Some s
  end.

(** [o ?? ''] *)
Definition or_empty (o : option str) : str :=
  match o with
  | Some s => s
  | None => []
  end.

(** Decimal digits of a number ([`${n}`]). *)
Fixpoint uint_digits (u : Decimal.uint) : str :=
  match u with
  | Decimal.Nil => []
  | Decimal.D0 r => 48%N :: uint_digits r
  | Decimal.D1 r => 49%N :: uint_digits r
  | Decimal.D2 r => 50%N :: uint_digits r
  | Decimal.D3 r => 51%N :: uint_digits r
  | Decimal.D4 r => 52%N :: uint_digits r
  | Decimal.D5 r => 53%N :: uint_digits r
  | Decimal.D6 r => 54%N :: uint_digits r
  | Decimal.D7 r => 55%N :: uint_digits r
  | Decimal.D8 r => 56%N :: uint_digits r
  | Decimal.D9 r => 57%N :: uint_digits r
  end.

Definition show_N (n : N) : str := uint_digits (N.to_uint n).

End Js.

Import Js.

(** ** The data model: [src/types/contact.ts] *)

Module Types.

Record ContactEmail := {
  e_value : str;
  e_type : option str;
  e_primary : option bool }.

Record ContactPhone := {
  p_value : str;
  p_originalValue : option str;
  p_type : option str;
  p_primary : option bool }.

Record ContactAddress := {
  a_street : option str;
  a_city : option str;
  a_state : option str;
  a_postalCode : option str;
  a_country : option str;
  a_type : option str }.

Record ContactOrganization := {
  o_name : option str;
  o_department : option str;
  o_title : option str }.

Record ContactName := {
  n_prefix : option str;
  n_givenName : option str;
  n_middleName : option str;
  n_familyName : option str;
  n_suffix : option str }.

Record ContactUrl := {
  u_value : str;
  u_type : option str }.

(** [providerIds: Record<string, string>] is a finite map; the key
    [__proto__], which a JavaScript object does not store as a property,
    is outside the model. *)
Record ContactMetadata := {
  created : str;
  modified : str;
  source : option str;
  providerIds : gmap str str;
  archived : bool;
  etag : option str }.

Record Contact := {
  id : str;
  fullName : str;
  name : ContactName;
  emails : list ContactEmail;
  phones : list ContactPhone;
  addresses : list ContactAddress;
  organization : option ContactOrganization;
  birthday : option str;
  anniversary : option str;
  urls : list ContactUrl;
  notes : option str;
  categories : list str;
  photo : option str;
  metadata : ContactMetadata }.

(** [Partial<Contact> & { fullName: string }] *)
Record ContactFields := {
  f_id : option str;
  f_fullName : str;
  f_name : option ContactName;
  f_emails : option (list ContactEmail);
  f_phones : option (list ContactPhone);
  f_addresses : option (list ContactAddress);
  f_organization : option ContactOrganization;
  f_birthday : option str;
  f_anniversary : option str;
  f_urls : option (list ContactUrl);
  f_notes : option str;
  f_categories : option (list str);
  f_photo : option str;
  f_metadata : option ContactMetadata }.

Record ContactSummary := {
  s_id : str;
  s_fullName : str;
  s_primaryEmail : option str;
  s_primaryPhone : option str;
  s_organization : option str;
  s_archived : bool }.

Definition is_true_flag (o : option bool) : bool :=
  match o with
  | Some true => true
  | _ => false
  end.

Definition toSummary (c : Contact) : ContactSummary :=
  {| s_id := id c;
     s_fullName := fullName c;
     s_primaryEmail :=
       match find (fun e => is_true_flag (e_primary e)) (emails c) with
       | Some e => Some (e_value e)
       | None => option_map e_value (head (emails c))
       end;
     s_primaryPhone :=
       match find (fun p => is_true_flag (p_primary p)) (phones c) with
       | Some p => Some (p_value p)
       | None => option_map p_value (head (phones c))
       end;
     s_organization :=
       match organization c with
       | Some o => o_name o
       | None => None
       end;
     s_archived := archived (metadata c) |}.

(** Field updates, written out as the sources assign them. *)
Definition set_modified (m : str) (md : ContactMetadata) : ContactMetadata :=
  {| created := created md; modified := m; source := source md;
     providerIds := providerIds md; archived := archived md; etag := etag md |}.

Definition set_created (cr : str) (md : ContactMetadata) : ContactMetadata :=
  {| created := cr; modified := modified md; source := source md;
     providerIds := providerIds md; archived := archived md; etag := etag md |}.

Definition set_archived (b : bool) (md : ContactMetadata) : ContactMetadata :=
  {| created := created md; modified := modified md; source := source md;
     providerIds := providerIds md; archived := b; etag := etag md |}.

Definition set_providerIds (ids : gmap str str) (md : ContactMetadata)
  : ContactMetadata :=
  {| created := created md; modified := modified md; source := source md;
     providerIds := ids; archived := archived md; etag := etag md |}.

Definition set_metadata (md : ContactMetadata) (c : Contact) : Contact :=
  {| id := id c; fullName := fullName c; name := name c; emails := emails c;
     phones := phones c; addresses := addresses c;
     organization := organization c; birthday := birthday c;
     anniversary := anniversary c; urls := urls c; notes := notes c;
     categories := categories c; photo := photo c; metadata := md |}.

Definition set_id (i : str) (c : Contact) : Contact :=
  {| id := i; fullName := fullName c; name := name c; emails := emails c;
     phones := phones c; addresses := addresses c;
     organization := organization c; birthday := birthday c;
     anniversary := anniversary c; urls := urls c; notes := notes c;
     categories := categories c; photo := photo c; metadata := metadata c |}.

End Types.

Import Types.

(** ** [src/contacts/model.ts] *)

Module ContactModel.

Definition emptyName : ContactName :=
  {| n_prefix := None; n_givenName := None; n_middleName := None;
     n_familyName := None; n_suffix := None |}.

Definition hasNameFields (name : option ContactName) : bool :=
  match name with
  | None => false
  | Some n =>
      truthy (n_givenName n) || truthy (n_familyName n)
      || truthy (n_middleName n) || truthy (n_prefix n) || truthy (n_suffix n)
  end.

(** Best-effort name parsing from a full name string. *)
Definition parseName (fullName : str) : ContactName :=
  let trimmed := trim fullName in
  match trimmed with
  | [] => emptyName
  | _ :: _ =>
      match split_ws trimmed with
      | [] => emptyName
      | [g] =>
          {| n_prefix := None; n_givenName := Some g; n_middleName := None;
             n_familyName := None; n_suffix := None |}
      | [g; f] =>
          {| n_prefix := None; n_givenName := Some g; n_middleName := None;
             n_familyName := Some f; n_suffix := None |}
      | g :: rest =>
          {| n_prefix := None; n_givenName := Some g;
             n_middleName := Some (join [SPACE] (removelast rest));
             n_familyName := Some (List.last rest []); n_suffix := None |}
      end
  end.

(** [now] is the reading of [new Date().toISOString()] and [fresh] the
    result of [generateId()]. *)
Definition createContact (now fresh : str) (fields : ContactFields) : Contact :=
  {| id := default fresh (f_id fields);
     fullName := f_fullName fields;
     name := if hasNameFields (f_name fields)
             then default emptyName (f_name fields)
             else parseName (f_fullName fields);
     emails := default [] (f_emails fields);
     phones := default [] (f_phones fields);
     addresses := default [] (f_addresses fields);
     organization := f_organization fields;
     birthday := f_birthday fields;
     anniversary := f_anniversary fields;
     urls := default [] (f_urls fields);
     notes := f_notes fields;
     categories := default [] (f_categories fields);
     photo := f_photo fields;
     metadata := default {| created := now; modified := now; source := None;
                            providerIds := ∅; archived := false;
                            etag := None |} (f_metadata fields) |}.

End ContactModel.

Import ContactModel.

(** ** [JSON.stringify] and [JSON.parse] on [Record<string, string>]

    The platform's two functions, on the values the codec passes them: an
    object whose properties are strings.  [JSON.stringify] writes the
    properties in the object's property order, which the finite map does not
    record; the model writes them in the order of [map_to_list].
    [JSON.parse] is modelled on texts that denote such an object and raises
    [SyntaxError] ([None]) on malformed text; a well-formed text that denotes
    another kind of value is outside [Record<string, string>] and is treated
    as an error too. *)

Module Json.

Definition hex_digit (n : N) : N :=
  if N.ltb n 10 then (48 + n)%N else (87 + n)%N.

Definition unicode_escape (c : N) : str :=
  [BACKSLASH; 117%N; hex_digit (c / 4096); hex_digit ((c / 256) mod 16);
   hex_digit ((c / 16) mod 16); hex_digit (c mod 16)]%N.

(** QuoteJSONString, without the surrounding quotes. *)
Fixpoint quote_units (s : str) : str :=
  match s with
  | [] => []
  | c :: t =>
      if N.eqb c 8 then BACKSLASH :: 98%N :: quote_units t
      else if N.eqb c 9 then BACKSLASH :: 116%N :: quote_units t
      else if N.eqb c 10 then BACKSLASH :: 110%N :: quote_units t
      else if N.eqb c 12 then BACKSLASH :: 102%N :: quote_units t
      else if N.eqb c 13 then BACKSLASH :: 114%N :: quote_units t
      else if N.eqb c QUOTE then BACKSLASH :: QUOTE :: quote_units t
      else if N.eqb c BACKSLASH then BACKSLASH :: BACKSLASH :: quote_units t
      else if N.ltb c 32 then unicode_escape c ++ quote_units t
      else if is_high c then
        match t with
        | d :: t' =>
            if is_low d then c :: d :: quote_units t'
            else unicode_escape c ++ quote_units t
        | [] => unicode_escape c
        end
      else if is_low c then unicode_escape c ++ quote_units t
      else c :: quote_units t
  end.

Definition quote (s : str) : str := QUOTE :: quote_units s ++ [QUOTE].

Definition member (kv : str * str) : str :=
  quote (fst kv) ++ [COLON] ++ quote (snd kv).

Definition stringify (m : gmap str str) : str :=
  [123%N] ++ join [COMMA] (map member (map_to_list m)) ++ [125%N].

Definition json_ws (c : N) : bool :=
  N.eqb c 32 || N.eqb c 9 || N.eqb c 10 || N.eqb c 13.

Fixpoint skip_ws (s : str) : str :=
  match s with
  | [] => []
  | c :: t => if json_ws c then skip_ws t else s
  end.

Definition hex_value (c : N) : option N :=
  if N.leb 48 c && N.leb c 57 then Some (c - 48)%N
  else if N.leb 97 c && N.leb c 102 then Some (c - 87)%N
  else if N.leb 65 c && N.leb c 70 then Some (c - 55)%N
  else None.

Definition hex4 (a b c d : N) : option N :=
  match hex_value a, hex_value b, hex_value c, hex_value d with
  | Some x, Some y, Some z, Some w => Some (((x * 16 + y) * 16 + z) * 16 + w)%N
  | _, _, _, _ => None
  end.

Definition simple_escape (e : N) : option N :=
  if N.eqb e QUOTE then Some QUOTE
  else if N.eqb e BACKSLASH then Some BACKSLASH
  else if N.eqb e 47 then Some 47%N
  else if N.eqb e 98 then Some 8%N
  else if N.eqb e 102 then Some 12%N
  else if N.eqb e 110 then Some 10%N
  else if N.eqb e 114 then Some 13%N
  else if N.eqb e 116 then Some 9%N
  else None.

Definition prepend (c : N) (r : str * str) : str * str := (c :: fst r, snd r).

(** The characters of a string after its opening quote: the string's value
    and the text after its closing quote. *)
Fixpoint parse_chars (s : str) : option (str * str) :=
  match s with
  | [] => None
  | c :: t =>
      if N.eqb c QUOTE then Some ([], t)
      else if N.eqb c BACKSLASH then
        match t with
        | [] => None
        | e :: t1 =>
            if N.eqb e 117 then
              match t1 with
              | h1 :: h2 :: h3 :: h4 :: t2 =>
                  match hex4 h1 h2 h3 h4 with
                  | Some u => option_map (prepend u) (parse_chars t2)
                  | None => None
                  end
              | _ => None
              end
            else
              match simple_escape e with
              | Some u => option_map (prepend u) (parse_chars t1)
              | None => None
              end
        end
      else if N.ltb c 32 then None
      else option_map (prepend c) (parse_chars t)
  end.

(** A string token at the head of [s], white space skipped. *)
Definition parse_string (s : str) : option (str * str) :=
  match skip_ws s with
  | q :: t => if N.eqb q QUOTE then parse_chars t else None
  | [] => None
  end.

Definition expect (c : N) (s : str) : option str :=
  match skip_ws s with
  | x :: t => if N.eqb x c then Some t else None
  | [] => None
  end.

(** The members of an object after its opening brace; [acc] holds the
    members read so far, the latest first. *)
Fixpoint parse_members (fuel : nat) (s : str) (acc : list (str * str))
  : option (list (str * str)) :=
  match fuel with
  | 0 => None
  | S fuel' =>
      match parse_string s with
      | None => None
      | Some (k, r) =>
          match expect COLON r with
          | None => None
          | Some r1 =>
              match parse_string r1 with
              | None => None
              | Some (v, r2) =>
                  match skip_ws r2 with
                  | d :: r3 =>
                      if N.eqb d COMMA then
                        parse_members fuel' r3 ((k, v) :: acc)
                      else if N.eqb d 125 then
                        match skip_ws r3 with
                        | [] => Some ((k, v) :: acc)
                        | _ :: _ => None
                        end
                      else None
                  | [] => None
                  end
              end
          end
      end
  end.

(** A property written twice keeps its last value: [list_to_map] lets the
    head of the list win, and the head is the member read last. *)
Definition parse (s : str) : option (gmap str str) :=
  match expect 123 s with
  | None => None
  | Some t =>
      match skip_ws t with
      | d :: r =>
          if N.eqb d 125 then
            match skip_ws r with
            | [] => Some ∅
            | _ :: _ => None
            end
          else option_map list_to_map (parse_members (length t) t [])
      | [] => None
      end
  end.

End Json.

(** ** [src/contacts/vcard.ts] *)

Module VCard.

Record VCardProperty := {
  vp_name : str;
  vp_params : list str;
  vp_value : str }.

(** [PropertyMap]: the entries in the order they were added. *)
Abbreviation PropertyMap := (list VCardProperty).

Definition getAll (props : PropertyMap) (name : str) : list VCardProperty :=
  List.filter (fun e => str_eqb (vp_name e) (toUpperCase name)) props.

Definition get (props : PropertyMap) (name : str) : option str :=
  option_map vp_value
    (find (fun e => str_eqb (vp_name e) (toUpperCase name)) props).

Definition getFirstValue (props : PropertyMap) (name : str) : option str :=
  get props name.

Definition escapeVCardValue (value : str) : str :=
  replace1 LF [BACKSLASH; LOWER_N]
    (replace1 COMMA [BACKSLASH; COMMA]
       (replace1 SEMI [BACKSLASH; SEMI]
          (replace1 BACKSLASH [BACKSLASH; BACKSLASH] value))).

Definition unescapeVCardValue (value : str) : str :=
  replace2 BACKSLASH BACKSLASH [BACKSLASH]
    (replace2 BACKSLASH SEMI [SEMI]
       (replace2 BACKSLASH COMMA [COMMA]
          (replace2 BACKSLASH LOWER_N [LF] value))).

(** The inner loop of [foldLines]: lower [cutPoint] while the prefix is
    longer than [limit] octets. *)
Fixpoint lower_cut (limit : nat) (remaining : str) (cutPoint : nat) : nat :=
  match cutPoint with
  | 0 => 0
  | S c =>
      if Nat.ltb limit (byteLength (firstn cutPoint remaining))
      then lower_cut limit remaining c
      else cutPoint
  end.

(** The outer loop of [foldLines], one iteration per unit of [fuel]; [None]
    when the fuel runs out before the loop ends. *)
Fixpoint fold_loop (fuel : nat) (remaining : str) (first : bool)
  : option (list str) :=
  if Nat.ltb 75 (byteLength remaining) then
    match fuel with
    | 0 => None
    | S fuel' =>
        let limit := if first then 75 else 74 in
        let cutPoint := lower_cut limit remaining limit in
        option_map (cons (firstn cutPoint remaining))
                   (fold_loop fuel' (skipn cutPoint remaining) false)
    end
  else Some (match remaining with [] => [] | _ :: _ => [remaining] end).

(** A line of [n] code units is folded in at most [n] iterations
    ([fold_loop_total] below), so the second branch is never taken. *)
Definition fold_line (line : str) : str :=
  if Nat.leb (byteLength line) 75 then line
  else match fold_loop (length line) line true with
       | Some result => join (CRLF ++ [SPACE]) result
       | None => line
       end.

(** RFC 6350 line folding: lines longer than 75 octets are folded with
    CRLF + space. *)
Definition foldLines (text : str) : str :=
  join CRLF (map fold_line (split_crlf text)).

Definition is_continuation (line : str) : bool :=
  startsWith [SPACE] line || startsWith [TAB] line.

(** One step of the loop of [unfoldLines]; [result] is kept with its last
    element first. *)
Definition unfold_step (result : list str) (line : str) : list str :=
  match result with
  | last :: before =>
      if is_continuation line then (last ++ skipn 1 line) :: before
      else line :: result
  | [] => [line]
  end.

(** Unfold continuation lines (lines starting with space or tab). *)
Definition unfoldLines (text : str) : list str :=
  let raw := split LF (replace1 CR [LF] (replace2 CR LF [LF] text)) in
  let result := rev (fold_left unfold_step raw []) in
  List.filter (fun l => negb (Nat.eqb (length l) 0)) result.

Definition parse_line (line : str) : option VCardProperty :=
  match indexOf COLON line with
  | None => None
  | Some colonIdx =>
      let left := firstn colonIdx line in
      let value := skipn (S colonIdx) line in
      let parts := split SEMI left in
      let name := toUpperCase (hd [] parts) in
      let params := tl parts in
      if str_eqb name (lit "BEGIN") || str_eqb name (lit "END") then None
      else Some {| vp_name := name; vp_params := params; vp_value := value |}
  end.

Definition parseProperties (lines : list str) : PropertyMap :=
  omap parse_line lines.

(** [value.replace(/^urn:uuid:/, '')], [undefined] for the empty string. *)
Definition extractUid (value : str) : option str :=
  match value with
  | [] => None
  | _ :: _ =>
      Some (if startsWith (lit "urn:uuid:") value
            then skipn 9 value else value)
  end.

Fixpoint extractType (params : list str) : option str :=
  match params with
  | [] => None
  | p :: rest =>
      if startsWith (lit "TYPE=") (toUpperCase p)
      then Some (toLowerCase (skipn 5 p))
      else extractType rest
  end.

Definition hasPref (params : list str) : bool :=
  existsb (fun p => startsWith (lit "PREF") (toUpperCase p)) params.

Definition paramStr (params : list str) : str :=
  match params with
  | [] => []
  | _ :: _ => SEMI :: join [SEMI] params
  end.

Definition typeParam (t : option str) : list str :=
  if truthy t then [lit "TYPE=" ++ or_empty t] else [].

Definition prefParam (p : option bool) : list str :=
  if is_true_flag p then [lit "PREF=1"] else [].

Definition nLine (n : ContactName) : str :=
  lit "N:" ++ escapeVCardValue (or_empty (n_familyName n)) ++ [SEMI]
  ++ escapeVCardValue (or_empty (n_givenName n)) ++ [SEMI]
  ++ escapeVCardValue (or_empty (n_middleName n)) ++ [SEMI]
  ++ escapeVCardValue (or_empty (n_prefix n)) ++ [SEMI]
  ++ escapeVCardValue (or_empty (n_suffix n)).

Definition emailLine (email : ContactEmail) : str :=
  lit "EMAIL" ++ paramStr (typeParam (e_type email) ++ prefParam (e_primary email))
  ++ [COLON] ++ escapeVCardValue (e_value email).

Definition phoneLine (phone : ContactPhone) : str :=
  lit "TEL" ++ paramStr (typeParam (p_type phone) ++ prefParam (p_primary phone))
  ++ [COLON] ++ escapeVCardValue (p_value phone).

(** ADR: PO Box;Ext Address;Street;City;State;Postal;Country *)
Definition addressLine (addr : ContactAddress) : str :=
  lit "ADR" ++ paramStr (typeParam (a_type addr)) ++ lit ":;;"
  ++ escapeVCardValue (or_empty (a_street addr)) ++ [SEMI]
  ++ escapeVCardValue (or_empty (a_city addr)) ++ [SEMI]
  ++ escapeVCardValue (or_empty (a_state addr)) ++ [SEMI]
  ++ escapeVCardValue (or_empty (a_postalCode addr)) ++ [SEMI]
  ++ escapeVCardValue (or_empty (a_country addr)).

Definition urlLine (url : ContactUrl) : str :=
  lit "URL" ++ paramStr (typeParam (u_type url))
  ++ [COLON] ++ escapeVCardValue (u_value url).

Definition orgLines (org : option ContactOrganization) : list str :=
  match org with
  | None => []
  | Some o =>
      (if truthy (o_name o)
       then [lit "ORG:" ++ escapeVCardValue (or_empty (o_name o))
             ++ (if truthy (o_department o)
                 then SEMI :: escapeVCardValue (or_empty (o_department o))
                 else [])]
       else [])
      ++ (if truthy (o_title o)
          then [lit "TITLE:" ++ escapeVCardValue (or_empty (o_title o))]
          else [])
  end.

(** A line written only when its optional text is truthy. *)
Definition optLine (label : str) (conv : str -> str) (o : option str)
  : list str :=
  if truthy o then [label ++ conv (or_empty o)] else [].

Definition vcardLines (contact : Contact) : list str :=
  [ lit "BEGIN:VCARD";
    lit "VERSION:4.0";
    lit "UID:urn:uuid:" ++ id contact;
    lit "FN:" ++ escapeVCardValue (fullName contact);
    nLine (name contact) ]
  ++ map emailLine (emails contact)
  ++ map phoneLine (phones contact)
  ++ map addressLine (addresses contact)
  ++ orgLines (organization contact)
  ++ optLine (lit "BDAY:") (fun s => s) (birthday contact)
  ++ optLine (lit "ANNIVERSARY:") (fun s => s) (anniversary contact)
  ++ map urlLine (urls contact)
  ++ optLine (lit "NOTE:") escapeVCardValue (notes contact)
  ++ (match categories contact with
      | [] => []
      | _ :: _ =>
          [lit "CATEGORIES:"
           ++ join [COMMA] (map escapeVCardValue (categories contact))]
      end)
  ++ optLine (lit "PHOTO:") (fun s => s) (photo contact)
  ++ [lit "REV:" ++ modified (metadata contact)]
  ++ optLine (lit "X-CONTACTS-MCP-SOURCE:") escapeVCardValue
       (source (metadata contact))
  ++ (if bool_decide (providerIds (metadata contact) = ∅) then []
      else [lit "X-CONTACTS-MCP-PROVIDER-IDS:"
            ++ escapeVCardValue (Json.stringify (providerIds (metadata contact)))])
  ++ [lit "X-CONTACTS-MCP-CREATED:" ++ created (metadata contact)]
  ++ (if archived (metadata contact)
      then [lit "X-CONTACTS-MCP-ARCHIVED:true"] else [])
  ++ [lit "END:VCARD"].

(** Serialize a Contact to vCard 4.0 format (RFC 6350). *)
Definition contactToVCard (contact : Contact) : str :=
  foldLines (join CRLF (vcardLines contact)).

(** [parts[i] || undefined] after [split(';').map(unescapeVCardValue)] *)
Definition part (parts : list str) (i : nat) : option str :=
  match nth_error parts i with
  | Some s => or_undefined s
  | None => None
  end.

Definition decodeName (props : PropertyMap) : ContactName :=
  let nValue := default (lit ";;;;") (getFirstValue props (lit "N")) in
  let nParts := map unescapeVCardValue (split SEMI nValue) in
  {| n_familyName := part nParts 0;
     n_givenName := part nParts 1;
     n_middleName := part nParts 2;
     n_prefix := part nParts 3;
     n_suffix := part nParts 4 |}.

Definition decodeEmail (p : VCardProperty) : ContactEmail :=
  {| e_value := unescapeVCardValue (vp_value p);
     e_type := extractType (vp_params p);
     e_primary := Some (hasPref (vp_params p)) |}.

Definition decodePhone (p : VCardProperty) : ContactPhone :=
  {| p_value := unescapeVCardValue (vp_value p);
     p_originalValue := None;
     p_type := extractType (vp_params p);
     p_primary := Some (hasPref (vp_params p)) |}.

Definition decodeAddress (p : VCardProperty) : ContactAddress :=
  let parts := map unescapeVCardValue (split SEMI (vp_value p)) in
  {| a_street := part parts 2;
     a_city := part parts 3;
     a_state := part parts 4;
     a_postalCode := part parts 5;
     a_country := part parts 6;
     a_type := extractType (vp_params p) |}.

Definition decodeUrl (p : VCardProperty) : ContactUrl :=
  {| u_value := unescapeVCardValue (vp_value p);
     u_type := extractType (vp_params p) |}.

Definition decodeOrganization (props : PropertyMap)
  : option ContactOrganization :=
  let orgValue := getFirstValue props (lit "ORG") in
  let titleValue := getFirstValue props (lit "TITLE") in
  if truthy orgValue || truthy titleValue then
    Some {| o_name :=
              if truthy orgValue
              then Some (unescapeVCardValue
                           (hd [] (split SEMI (or_empty orgValue))))
              else None;
            o_department :=
              match orgValue with
              | Some v =>
                  if includes SEMI v
                  then Some (unescapeVCardValue (nth 1 (split SEMI v) []))
                  else None
              | None => None
              end;
            o_title :=
              if truthy titleValue
              then Some (unescapeVCardValue (or_empty titleValue))
              else None |}
  else None.

(** The provider ids of a card.  The code keeps whatever [JSON.parse]
    returns.  A text that denotes an object of strings gives the [Contact]
    the type describes; a well-formed text of another value ([null], a
    number) gives a record outside that type, which [Contact] here cannot
    hold: the model reads it as no provider ids, and says nothing true of
    what the code does with such a card afterwards. *)
Definition decodeProviderIds (props : PropertyMap) : gmap str str :=
  let providerIdsRaw := getFirstValue props (lit "X-CONTACTS-MCP-PROVIDER-IDS") in
  if truthy providerIdsRaw then
    match Json.parse (unescapeVCardValue (or_empty providerIdsRaw)) with
    | Some ids => ids
    | None => ∅
    end
  else ∅.

(** Parse a vCard 4.0 string into a Contact object.  [now] is the reading
    of [new Date().toISOString()]. *)
Definition vcardToContact (now : str) (vcard : str) : Contact :=
  let lines := unfoldLines vcard in
  let props := parseProperties lines in
  let uid := default [] (extractUid (default [] (get props (lit "UID")))) in
  let fullName :=
    unescapeVCardValue (default (lit "Unknown") (getFirstValue props (lit "FN"))) in
  let notesValue := getFirstValue props (lit "NOTE") in
  let rev := getFirstValue props (lit "REV") in
  let catValue := getFirstValue props (lit "CATEGORIES") in
  let sourceValue := getFirstValue props (lit "X-CONTACTS-MCP-SOURCE") in
  let createdValue :=
    match getFirstValue props (lit "X-CONTACTS-MCP-CREATED") with
    | Some c => c
    | None => default now rev
    end in
  let archivedValue :=
    match getFirstValue props (lit "X-CONTACTS-MCP-ARCHIVED") with
    | Some v => str_eqb v (lit "true")
    | None => false
    end in
  createContact now []
    {| f_id := Some uid;
       f_fullName := fullName;
       f_name := Some (decodeName props);
       f_emails := Some (map decodeEmail (getAll props (lit "EMAIL")));
       f_phones := Some (map decodePhone (getAll props (lit "TEL")));
       f_addresses := Some (map decodeAddress (getAll props (lit "ADR")));
       f_organization := decodeOrganization props;
       f_birthday := getFirstValue props (lit "BDAY");
       f_anniversary := getFirstValue props (lit "ANNIVERSARY");
       f_urls := Some (map decodeUrl (getAll props (lit "URL")));
       f_notes :=
         if truthy notesValue
         then Some (unescapeVCardValue (or_empty notesValue)) else None;
       f_categories :=
         Some (if truthy catValue
               then map unescapeVCardValue (split COMMA (or_empty catValue))
               else []);
       f_photo := getFirstValue props (lit "PHOTO");
       f_metadata :=
         Some {| created := createdValue;
                 modified := default now rev;
                 source :=
                   if truthy sourceValue
                   then Some (unescapeVCardValue (or_empty sourceValue))
                   else None;
                 providerIds := decodeProviderIds props;
                 archived := archivedValue;
                 etag := None |} |}.

End VCard.

Import VCard.

(** ** What the sources take from the platform and from libraries

    [String.prototype.toLowerCase] on arbitrary text, the phone number
    parser of libphonenumber-js, [Date] parsing, git's hashes and the order
    [Array.prototype.sort] gives under a comparator that is not a
    consistent order are not code of the repository.  The duplicate
    detector, the merge resolver and the store are stated over any choice
    of them. *)

Class Platform := {
  (** [s.toLowerCase()] *)
  lowercase : str -> str;
  (** [parsePhoneNumberFromString(raw, 'US')], rendered in E.164 when the
      result is a valid or possible number, [None] otherwise. *)
  parsePhoneNumber : str -> option str;
  (** [new Date(s).getTime()], [None] for [NaN]. *)
  dateTime : str -> option Z;
  (** The hash git gives a commit made on a history of [n] commits. *)
  commitHash : nat -> str;
  (** [[...contacts].sort(cmp)] when [cmp] answers [NaN] ([None]) for some
      pair of the contacts: the order is the engine's. *)
  sortInconsistent :
    (Contact -> Contact -> option Z) -> list Contact -> list Contact }.

(** ** [src/contacts/normalize.ts] *)

Module Normalize.
Section WithPlatform.
Context `{Platform}.

Definition is_formatting (c : N) : bool :=
  is_ws c || N.eqb c 45 || N.eqb c 40 || N.eqb c 41 || N.eqb c 46.

(** Normalize a phone number to E.164 format. Returns original if parsing
    fails. *)
Definition normalizePhone (raw : str) : str :=
  match parsePhoneNumber raw with
  | Some e164 => e164
  | None =>
      let stripped := List.filter (fun c => negb (is_formatting c)) raw in
      match stripped with
      | [] => raw
      | _ :: _ => stripped
      end
  end.

(** Normalize an email address (lowercase, trim). *)
Definition normalizeEmail (email : str) : str := lowercase (trim email).

Definition normalizeEmailEntry (email : ContactEmail) : ContactEmail :=
  {| e_value := normalizeEmail (e_value email);
     e_type := e_type email;
     e_primary := e_primary email |}.

Definition normalizePhoneEntry (phone : ContactPhone) : ContactPhone :=
  let normalized := normalizePhone (p_value phone) in
  if str_eqb normalized (p_value phone) then phone
  else {| p_value := normalized;
          p_originalValue := Some (p_value phone);
          p_type := p_type phone;
          p_primary := p_primary phone |}.

Definition trimIfTruthy (o : option str) : option str :=
  if truthy o then Some (trim (or_empty o)) else o.

Definition normalizeName (n : ContactName) : ContactName :=
  {| n_prefix := n_prefix n;
     n_givenName := trimIfTruthy (n_givenName n);
     n_middleName := trimIfTruthy (n_middleName n);
     n_familyName := trimIfTruthy (n_familyName n);
     n_suffix := n_suffix n |}.

(** Normalize all phone numbers and emails on a contact and return it. *)
Definition normalizeContact (contact : Contact) : Contact :=
  {| id := id contact;
     fullName := trim (fullName contact);
     name := normalizeName (name contact);
     emails := map normalizeEmailEntry (emails contact);
     phones := map normalizePhoneEntry (phones contact);
     addresses := addresses contact;
     organization := organization contact;
     birthday := birthday contact;
     anniversary := anniversary contact;
     urls := urls contact;
     notes := notes contact;
     categories := categories contact;
     photo := photo contact;
     metadata := metadata contact |}.

End WithPlatform.
End Normalize.

Import Normalize.

(** ** [src/contacts/dedup.ts]

    Scores and similarities are rationals.  Every score the code forms is
    one of 0, 0.5, 0.7, 0.9, 0.95, or one of these plus 0.15 cut at 1, and a
    similarity is compared with 0.85 and 0.65 only, where the quotient
    [levDist / maxLen] differs from the bound by at least [1 / (20 * maxLen)]
    or meets it exactly; on these values the double-precision operations of
    the source give the results of the exact ones. *)

Module Dedup.

Inductive MatchType := exact | fuzzy | normalized.

Record MatchedField := {
  field : str;
  valueA : str;
  valueB : str;
  similarity : Q;
  matchType : MatchType }.

Record DuplicateCandidate := {
  contactA : ContactSummary;
  contactB : ContactSummary;
  confidence : Q;
  matchedFields : list MatchedField }.

(** [limit] is a number; [slice] takes its integer part
    ([ToIntegerOrInfinity], with [NaN] as 0), which is what the model
    holds.  An infinite limit is not modelled. *)
Record DedupOptions := {
  threshold : option Q;
  limit : option Z }.

Record Comparison := {
  cmp_confidence : Q;
  cmp_matchedFields : list MatchedField }.

(** [Math.max], [Math.min] and [Math.round(x * 100) / 100] *)
Definition Math_max (a b : Q) : Q := if Qle_bool a b then b else a.
Definition Math_min (a b : Q) : Q := if Qle_bool a b then a else b.
Definition round2 (x : Q) : Q := Qfloor (x * 100 + (1 # 2))%Q # 100.

(** One row of the table of [levenshtein]: [prev] is the row above from
    column [j - 1] on, [left] is the entry to the left. *)
Fixpoint lev_row (ca : N) (b : str) (prev : list nat) (left : nat) : list nat :=
  match b, prev with
  | cb :: b', diag :: prev' =>
      match prev' with
      | up :: _ =>
          let v := if N.eqb ca cb then diag
                   else 1 + Nat.min (Nat.min up left) diag in
          v :: lev_row ca b' prev' v
      | [] => []
      end
  | _, _ => []
  end.

Fixpoint lev_rows (a b : str) (i : nat) (row : list nat) : list nat :=
  match a with
  | [] => row
  | ca :: a' => lev_rows a' b (S i) (S i :: lev_row ca b row (S i))
  end.

Definition levenshtein (a b : str) : nat :=
  List.last (lev_rows a b 0 (seq 0 (S (length b)))) 0.

Section WithPlatform.
Context `{Platform}.

Definition lowerOf (o : option str) : str := lowercase (or_empty o).

Definition computeNameSimilarity (a b : Contact) : Q :=
  let nameA := trim (lowercase (fullName a)) in
  let nameB := trim (lowercase (fullName b)) in
  if str_eqb nameA nameB then 1%Q
  else
    let givenA := lowerOf (n_givenName (name a)) in
    let familyA := lowerOf (n_familyName (name a)) in
    let givenB := lowerOf (n_givenName (name b)) in
    let familyB := lowerOf (n_familyName (name b)) in
    let allParts :=
      negb (str_eqb givenA []) && negb (str_eqb familyA [])
      && negb (str_eqb givenB []) && negb (str_eqb familyB []) in
    if allParts && str_eqb givenA givenB && str_eqb familyA familyB then 1%Q
    else if allParts && str_eqb givenA familyB && str_eqb familyA givenB
    then (9 # 10)%Q
    else if allParts && str_eqb familyA familyB
            && str_eqb (firstn 1 givenA) (firstn 1 givenB)
            && (Nat.eqb (length givenA) 1 || Nat.eqb (length givenB) 1)
    then (75 # 100)%Q
    else
      let levDist := levenshtein nameA nameB in
      let maxLen := Nat.max (length nameA) (length nameB) in
      if Nat.eqb maxLen 0 then 1%Q
      else Math_max 0 (1 - (Z.of_nat levDist # Pos.of_nat maxLen))%Q.

Definition orgName (c : Contact) : option str :=
  match organization c with
  | Some o => o_name o
  | None => None
  end.

Definition compareContacts (a b : Contact) : Comparison :=
  (* Email matching *)
  let emailsA := map (fun e => normalizeEmail (e_value e)) (emails a) in
  let emailsB := map (fun e => normalizeEmail (e_value e)) (emails b) in
  let '(score, fields) :=
    match find (fun email => existsb (str_eqb email) emailsB) emailsA with
    | Some email =>
        (Math_max 0 (95 # 100),
         [{| field := lit "email"; valueA := email; valueB := email;
             similarity := 1; matchType := exact |}])
    | None => (0%Q, [])
    end in
  (* Phone matching (normalized) *)
  let phonesA := map (fun p => normalizePhone (p_value p)) (phones a) in
  let phonesB := map (fun p => normalizePhone (p_value p)) (phones b) in
  let '(score, fields) :=
    match find (fun phone => existsb (str_eqb phone) phonesB) phonesA with
    | Some phone =>
        (Math_max score (90 # 100),
         fields ++ [{| field := lit "phone"; valueA := phone; valueB := phone;
                       similarity := 1; matchType := normalized |}])
    | None => (score, fields)
    end in
  (* Name matching *)
  let nameSim := computeNameSimilarity a b in
  let '(score, fields) :=
    if Qle_bool (85 # 100) nameSim then
      (Math_max score (70 # 100),
       fields ++ [{| field := lit "name"; valueA := fullName a;
                     valueB := fullName b; similarity := nameSim;
                     matchType := if Qeq_bool nameSim 1 then exact else fuzzy |}])
    else if Qle_bool (65 # 100) nameSim then
      (Math_max score (50 # 100),
       fields ++ [{| field := lit "name"; valueA := fullName a;
                     valueB := fullName b; similarity := nameSim;
                     matchType := fuzzy |}])
    else (score, fields) in
  (* Organization boost (additive, not standalone) *)
  let '(score, fields) :=
    if truthy (orgName a) && truthy (orgName b)
       && str_eqb (lowerOf (orgName a)) (lowerOf (orgName b))
       && negb (Qle_bool score 0)
    then (Math_min 1 (score + (15 # 100))%Q,
          fields ++ [{| field := lit "organization";
                        valueA := or_empty (orgName a);
                        valueB := or_empty (orgName b);
                        similarity := 1; matchType := exact |}])
    else (score, fields) in
  {| cmp_confidence := round2 score; cmp_matchedFields := fields |}.

(** [keys.add(k)] on a [Set] kept in insertion order. *)
Definition set_add (k : str) (keys : list str) : list str :=
  if existsb (str_eqb k) keys then keys else keys ++ [k].

(** [(s)[0]?.toLowerCase() ?? ''] *)
Definition firstLower (s : str) : str :=
  match s with
  | [] => []
  | c :: _ => lowercase [c]
  end.

Definition is_digit (c : N) : bool := N.leb 48 c && N.leb c 57.

Definition blockKeys (contact : Contact) : list str :=
  let g := firstLower
             (match n_givenName (name contact) with
              | Some given => given
              | None => hd [] (split SPACE (fullName contact))
              end) in
  let f := firstLower
             (match n_familyName (name contact) with
              | Some family => family
              | None => List.last (split SPACE (fullName contact)) []
              end) in
  let keys :=
    match g ++ f with
    | [] => []
    | _ :: _ => [lit "name:" ++ g ++ f]
    end in
  let keys :=
    fold_left
      (fun keys email =>
         match nth_error (split 64 (e_value email)) 1 with
         | Some d =>
             match lowercase d with
             | [] => keys
             | domain => set_add (lit "domain:" ++ domain) keys
             end
         | None => keys
         end)
      (emails contact) keys in
  fold_left
    (fun keys phone =>
       let digits := List.filter is_digit (p_value phone) in
       if Nat.leb 7 (length digits)
       then set_add (lit "phone:" ++ skipn (length digits - 7) digits) keys
       else keys)
    (phones contact) keys.

(** [blocks.get(key)] then [push], or [blocks.set(key, [contact])]: the map
    keeps its keys in insertion order. *)
Fixpoint block_push (key : str) (contact : Contact)
  (blocks : list (str * list Contact)) : list (str * list Contact) :=
  match blocks with
  | [] => [(key, [contact])]
  | (k, block) :: rest =>
      if str_eqb k key then (k, block ++ [contact]) :: rest
      else (k, block) :: block_push key contact rest
  end.

(** Build blocking groups to reduce comparison count. *)
Definition buildBlocks (contacts : list Contact) : list (str * list Contact) :=
  fold_left
    (fun blocks contact =>
       fold_left (fun blocks key => block_push key contact blocks)
                 (blockKeys contact) blocks)
    contacts [].

(** The pairs [(block[i], block[j])], [i < j], in the order of the loops. *)
Fixpoint block_pairs (block : list Contact) : list (Contact * Contact) :=
  match block with
  | [] => []
  | a :: rest => map (pair a) rest ++ block_pairs rest
  end.

(** [[a.id, b.id].sort().join(':')] *)
Definition pairKey (a b : Contact) : str :=
  if str_ltb (id b) (id a) then id b ++ [COLON] ++ id a
  else id a ++ [COLON] ++ id b.

(** The body of the innermost loop, on the set [seen] and the candidates
    found so far. *)
Definition visit (threshold : Q)
  (state : list str * list DuplicateCandidate) (ab : Contact * Contact)
  : list str * list DuplicateCandidate :=
  let '(seen, candidates) := state in
  let '(a, b) := ab in
  let key := pairKey a b in
  if existsb (str_eqb key) seen then state
  else
    let result := compareContacts a b in
    (key :: seen,
     if Qle_bool threshold (cmp_confidence result)
     then candidates ++ [{| contactA := toSummary a; contactB := toSummary b;
                            confidence := cmp_confidence result;
                            matchedFields := cmp_matchedFields result |}]
     else candidates).

(** [candidates.sort((a, b) => b.confidence - a.confidence)]: the sort is
    stable; [insert_desc] puts a candidate after those that do not sort
    after it. *)
Fixpoint insert_desc (x : DuplicateCandidate) (sorted : list DuplicateCandidate)
  : list DuplicateCandidate :=
  match sorted with
  | [] => [x]
  | y :: rest =>
      if Qle_bool (confidence x) (confidence y) then y :: insert_desc x rest
      else x :: y :: rest
  end.

Definition sort_desc (l : list DuplicateCandidate) : list DuplicateCandidate :=
  fold_left (fun sorted x => insert_desc x sorted) l [].

(** [l.slice(0, limit)]: a negative [limit] counts from the end. *)
Definition slice_to {A} (limit : Z) (l : list A) : list A :=
  if Z.ltb limit 0
  then firstn (Z.to_nat (Z.max (Z.of_nat (length l) + limit) 0)) l
  else firstn (Z.to_nat limit) l.

Definition findDuplicates (contacts : list Contact) (options : DedupOptions)
  : list DuplicateCandidate :=
  let threshold := default (6 # 10)%Q (threshold options) in
  let limit := default 50%Z (limit options) in
  let blocks := buildBlocks contacts in
  let pairs := flat_map (fun kb => block_pairs (snd kb)) blocks in
  let '(_, candidates) := fold_left (visit threshold) pairs ([], []) in
  slice_to limit (sort_desc candidates).

End WithPlatform.
End Dedup.

(** ** Errors: [src/utils/errors.ts], and what the platform throws *)

Inductive Error :=
| ContactNotFoundError (id : str)
| StoreError (message : str)
| PlainError (message : str)   (* [new Error(message)] *)
| GitError (operation : str)   (* a failed git command *)
| FsError (code : str).        (* a failed file system call *)

(** ** [src/contacts/merge.ts] *)

Module Merge.

Inductive MergeStrategy := keep_newest | keep_oldest | union.

Record MergeResult := {
  mergedContact : Contact;
  sourceContactIds : list str;
  fieldsFromEach : gmap str str }.

(** [Array.prototype.sort] with a comparator that is a consistent order:
    the sort is stable, so its result is determined - an element goes
    after the elements it does not sort before. *)
Fixpoint insert_by {A} (cmp : A -> A -> Z) (x : A) (sorted : list A) : list A :=
  match sorted with
  | [] => [x]
  | y :: rest =>
      if Z.ltb (cmp x y) 0 then x :: y :: rest
      else y :: insert_by cmp x rest
  end.

Definition sort_by {A} (cmp : A -> A -> Z) (l : list A) : list A :=
  fold_left (fun sorted x => insert_by cmp x sorted) l [].

(** The properties every plain object inherits from [Object.prototype];
    each holds a function or an object. *)
Definition objectPrototypeNames : list str :=
  [lit "constructor"; lit "hasOwnProperty"; lit "isPrototypeOf";
   lit "propertyIsEnumerable"; lit "toLocaleString"; lit "toString";
   lit "valueOf"; lit "__proto__"; lit "__defineGetter__";
   lit "__defineSetter__"; lit "__lookupGetter__"; lit "__lookupSetter__"].

(** Truthiness of [obj[key]] for a plain object whose own properties are
    strings: the own property when there is one, else what the object
    inherits. *)
Definition truthyAt (obj : gmap str str) (key : str) : bool :=
  match obj !! key with
  | Some v => truthy (Some v)
  | None => existsb (str_eqb key) objectPrototypeNames
  end.

(** [contacts.find(c => c.id === contactId)] *)
Definition find_by_id (contacts : list Contact) (contactId : str)
  : option Contact :=
  find (fun c => str_eqb (id c) contactId) contacts.

Definition set_name_fields (fn : str) (n : ContactName) (c : Contact) : Contact :=
  {| id := id c; fullName := fn; name := n; emails := emails c;
     phones := phones c; addresses := addresses c;
     organization := organization c; birthday := birthday c;
     anniversary := anniversary c; urls := urls c; notes := notes c;
     categories := categories c; photo := photo c; metadata := metadata c |}.

Definition set_emails (v : list ContactEmail) (c : Contact) : Contact :=
  {| id := id c; fullName := fullName c; name := name c; emails := v;
     phones := phones c; addresses := addresses c;
     organization := organization c; birthday := birthday c;
     anniversary := anniversary c; urls := urls c; notes := notes c;
     categories := categories c; photo := photo c; metadata := metadata c |}.

Definition set_phones (v : list ContactPhone) (c : Contact) : Contact :=
  {| id := id c; fullName := fullName c; name := name c; emails := emails c;
     phones := v; addresses := addresses c;
     organization := organization c; birthday := birthday c;
     anniversary := anniversary c; urls := urls c; notes := notes c;
     categories := categories c; photo := photo c; metadata := metadata c |}.

Definition set_addresses (v : list ContactAddress) (c : Contact) : Contact :=
  {| id := id c; fullName := fullName c; name := name c; emails := emails c;
     phones := phones c; addresses := v;
     organization := organization c; birthday := birthday c;
     anniversary := anniversary c; urls := urls c; notes := notes c;
     categories := categories c; photo := photo c; metadata := metadata c |}.

Definition set_organization (v : option ContactOrganization) (c : Contact)
  : Contact :=
  {| id := id c; fullName := fullName c; name := name c; emails := emails c;
     phones := phones c; addresses := addresses c;
     organization := v; birthday := birthday c;
     anniversary := anniversary c; urls := urls c; notes := notes c;
     categories := categories c; photo := photo c; metadata := metadata c |}.

Definition set_birthday (v : option str) (c : Contact) : Contact :=
  {| id := id c; fullName := fullName c; name := name c; emails := emails c;
     phones := phones c; addresses := addresses c;
     organization := organization c; birthday := v;
     anniversary := anniversary c; urls := urls c; notes := notes c;
     categories := categories c; photo := photo c; metadata := metadata c |}.

Definition set_anniversary (v : option str) (c : Contact) : Contact :=
  {| id := id c; fullName := fullName c; name := name c; emails := emails c;
     phones := phones c; addresses := addresses c;
     organization := organization c; birthday := birthday c;
     anniversary := v; urls := urls c; notes := notes c;
     categories := categories c; photo := photo c; metadata := metadata c |}.

Definition set_urls (v : list ContactUrl) (c : Contact) : Contact :=
  {| id := id c; fullName := fullName c; name := name c; emails := emails c;
     phones := phones c; addresses := addresses c;
     organization := organization c; birthday := birthday c;
     anniversary := anniversary c; urls := v; notes := notes c;
     categories := categories c; photo := photo c; metadata := metadata c |}.

Definition set_notes (v : option str) (c : Contact) : Contact :=
  {| id := id c; fullName := fullName c; name := name c; emails := emails c;
     phones := phones c; addresses := addresses c;
     organization := organization c; birthday := birthday c;
     anniversary := anniversary c; urls := urls c; notes := v;
     categories := categories c; photo := photo c; metadata := metadata c |}.

Definition set_categories (v : list str) (c : Contact) : Contact :=
  {| id := id c; fullName := fullName c; name := name c; emails := emails c;
     phones := phones c; addresses := addresses c;
     organization := organization c; birthday := birthday c;
     anniversary := anniversary c; urls := urls c; notes := notes c;
     categories := v; photo := photo c; metadata := metadata c |}.

Definition set_photo (v : option str) (c : Contact) : Contact :=
  {| id := id c; fullName := fullName c; name := name c; emails := emails c;
     phones := phones c; addresses := addresses c;
     organization := organization c; birthday := birthday c;
     anniversary := anniversary c; urls := urls c; notes := notes c;
     categories := categories c; photo := v; metadata := metadata c |}.

Definition applyFieldOverride (target source : Contact) (field : str) : Contact :=
  if str_eqb field (lit "fullName")
  then set_name_fields (fullName source) (name source) target
  else if str_eqb field (lit "emails") then set_emails (emails source) target
  else if str_eqb field (lit "phones") then set_phones (phones source) target
  else if str_eqb field (lit "addresses")
  then set_addresses (addresses source) target
  else if str_eqb field (lit "organization")
  then set_organization (organization source) target
  else if str_eqb field (lit "birthday")
  then set_birthday (birthday source) target
  else if str_eqb field (lit "notes") then set_notes (notes source) target
  else if str_eqb field (lit "categories")
  then set_categories (categories source) target
  else if str_eqb field (lit "photo") then set_photo (photo source) target
  else target.

(** The union loops: append what the set of keys does not hold yet. *)
Fixpoint union_by {A} (key : A -> str) (seen : list str) (acc : list A)
  (others : list A) : list A :=
  match others with
  | [] => acc
  | x :: rest =>
      if existsb (str_eqb (key x)) seen then union_by key seen acc rest
      else union_by key (key x :: seen) (acc ++ [x]) rest
  end.

(** Addresses are compared by their [JSON.stringify] text, which for two
    address objects with their properties in the same order is equality of
    the fields. *)
Definition option_str_eqb (a b : option str) : bool :=
  match a, b with
  | Some x, Some y => str_eqb x y
  | None, None => true
  | _, _ => false
  end.

Definition address_eqb (a b : ContactAddress) : bool :=
  option_str_eqb (a_street a) (a_street b)
  && option_str_eqb (a_city a) (a_city b)
  && option_str_eqb (a_state a) (a_state b)
  && option_str_eqb (a_postalCode a) (a_postalCode b)
  && option_str_eqb (a_country a) (a_country b)
  && option_str_eqb (a_type a) (a_type b).

Fixpoint union_addresses (acc others : list ContactAddress)
  : list ContactAddress :=
  match others with
  | [] => acc
  | x :: rest =>
      if existsb (address_eqb x) acc then union_addresses acc rest
      else union_addresses (acc ++ [x]) rest
  end.

(** [[primary.notes, other.notes].filter(Boolean).join('\n---\n')] *)
Definition NOTE_SEPARATOR : str := [LF; 45%N; 45%N; 45%N; LF].

Definition combineNotes (primaryNotes otherNotes : option str) : option str :=
  if truthy otherNotes
     && negb (option_str_eqb otherNotes primaryNotes)
  then Some (join NOTE_SEPARATOR
               ((if truthy primaryNotes then [or_empty primaryNotes] else [])
                ++ [or_empty otherNotes]))
  else primaryNotes.

Section WithPlatform.
Context `{Platform}.

(** [new Date(x).getTime() - new Date(y).getTime()], [None] for [NaN]. *)
Definition timeDiff (x y : str) : option Z :=
  match dateTime x, dateTime y with
  | Some tx, Some ty => Some (tx - ty)%Z
  | _, _ => None
  end.

(** [[...contacts].sort(cmp)] for a comparator that takes the difference of
    two of the contacts' times.  When every time is a number the
    differences are a consistent order; otherwise some are [NaN] and the
    order is the engine's. *)
Definition sortByTime (time : Contact -> str)
  (cmp : Contact -> Contact -> option Z) (contacts : list Contact)
  : list Contact :=
  if forallb (fun c => match dateTime (time c) with
                       | Some _ => true
                       | None => false
                       end) contacts
  then sort_by (fun a b => default 0%Z (cmp a b)) contacts
  else sortInconsistent cmp contacts.

(** [new Date(x) < new Date(y)] *)
Definition dateBefore (x y : str) : bool :=
  match dateTime x, dateTime y with
  | Some tx, Some ty => Z.ltb tx ty
  | _, _ => false
  end.

Definition mergeKeepNewest (contacts : list Contact) : option Contact :=
  head (sortByTime (fun c => modified (metadata c))
          (fun a b => timeDiff (modified (metadata b))
                               (modified (metadata a))) contacts).

Definition mergeKeepOldest (contacts : list Contact) : option Contact :=
  head (sortByTime (fun c => modified (metadata c))
          (fun a b => timeDiff (modified (metadata a))
                               (modified (metadata b))) contacts).

(** One iteration of the loop of [mergeUnion]. *)
Definition unionStep (primary other : Contact) : Contact :=
  let longer := Nat.ltb (length (fullName primary)) (length (fullName other)) in
  {| id := id primary;
     fullName := if longer then fullName other else fullName primary;
     name := if longer then name other else name primary;
     emails :=
       union_by (fun e => lowercase (e_value e))
         (map (fun e => lowercase (e_value e)) (emails primary))
         (emails primary) (emails other);
     phones :=
       union_by p_value (map p_value (phones primary))
         (phones primary) (phones other);
     addresses := union_addresses (addresses primary) (addresses other);
     organization :=
       if negb (truthy (match organization primary with
                        | Some o => o_name o
                        | None => None
                        end))
          && truthy (match organization other with
                     | Some o => o_name o
                     | None => None
                     end)
       then organization other else organization primary;
     birthday :=
       if negb (truthy (birthday primary)) && truthy (birthday other)
       then birthday other else birthday primary;
     anniversary := anniversary primary;
     urls :=
       union_by u_value (map u_value (urls primary))
         (urls primary) (urls other);
     notes := combineNotes (notes primary) (notes other);
     categories :=
       union_by (fun c => c) (categories primary)
         (categories primary) (categories other);
     photo :=
       if negb (truthy (photo primary)) && truthy (photo other)
       then photo other else photo primary;
     metadata :=
       if dateBefore (created (metadata other)) (created (metadata primary))
       then set_created (created (metadata other)) (metadata primary)
       else metadata primary |}.

Definition mergeUnion (contacts : list Contact) : option Contact :=
  match contacts with
  | [] => None
  | first :: others => Some (fold_left unionStep others first)
  end.

(** The inner loop over [Object.entries(contact.metadata.providerIds)]:
    [if (!ids[provider]) ids[provider] = remoteId]. *)
Definition addProviderId (ids : gmap str str) (entry : str * str)
  : gmap str str :=
  if truthyAt ids (fst entry) then ids
  else <[fst entry := snd entry]> ids.

Definition addProviderIds (ids : gmap str str) (contact : Contact)
  : gmap str str :=
  fold_left addProviderId (map_to_list (providerIds (metadata contact))) ids.

(** Merge multiple contacts into one using the specified strategy.  The
    first contact is the "primary" - its ID is kept.  [fieldOverrides] are
    the entries of the optional object, [now] the reading of the clock. *)
Definition mergeContacts (now : str) (contacts : list Contact)
  (strategy : MergeStrategy) (fieldOverrides : list (str * str))
  : Error + MergeResult :=
  match contacts with
  | primary :: _ :: _ =>
      let merged :=
        default primary
          match strategy with
          | keep_newest => mergeKeepNewest contacts
          | keep_oldest => mergeKeepOldest contacts
          | union => mergeUnion contacts
          end in
      (* Apply manual overrides *)
      let '(merged, fieldsFromEach) :=
        fold_left
          (fun state override =>
             let '(merged, fieldsFromEach) := state in
             let '(field, contactId) := override in
             match find_by_id contacts contactId with
             | None => state
             | Some source =>
                 (applyFieldOverride merged source field,
                  <[field := contactId]> fieldsFromEach)
             end)
          fieldOverrides (merged, ∅) in
      (* Always keep primary's ID *)
      let merged := set_id (id primary) merged in
      let merged :=
        set_metadata (set_archived false (set_modified now (metadata merged)))
                     merged in
      (* Merge provider IDs from all contacts *)
      let ids := fold_left addProviderIds contacts
                   (providerIds (metadata merged)) in
      inr {| mergedContact := set_metadata (set_providerIds ids (metadata merged)) merged;
             sourceContactIds := map id contacts;
             fieldsFromEach := fieldsFromEach |}
  | _ => inl (PlainError (lit "Need at least 2 contacts to merge"))
  end.

End WithPlatform.
End Merge.

(** ** [src/store/git-store.ts], over [git-ops.ts] and [file-layout.ts]

    The store directory is modelled as its two areas, each a finite map
    from record id to file text ([contacts/<id>.vcf], [archive/<id>.vcf]),
    with git's history beside them.  A record's id is the name of its
    file: the model is of ids that are file names (no [/], no pattern
    character of git's pathspecs).  A directory that holds no file exists
    or not; the file system fails with [ENOENT] only.  git is modelled one file at a time: a commit records, for every
    staged path, the text before and after; reverting it restores the text
    before on each path and conflicts when a path no longer holds the text
    after; a revert that conflicts leaves the model's state as it was. *)

Module Store.

Inductive Area := Active | Archive.

Record Change := {
  ch_area : Area;
  ch_id : str;
  ch_before : option str;
  ch_after : option str }.

Record Commit := {
  hash : str;
  message : str;
  changes : list Change }.

Record State := {
  contactsDir : gmap str str;
  archiveDir : gmap str str;
  (** the tree of HEAD *)
  headContacts : gmap str str;
  headArchive : gmap str str;
  (** the staged paths *)
  index : list (Area * str);
  (** the history, newest first *)
  log : list Commit;
  tags : list str;
  (** the modification time of [.lock], when the file exists *)
  lock : option Z;
  (** [.metadata/merge-log.json]: (timestamp, primaryId, secondaryIds) *)
  mergeLog : list (str * str * list str);
  (** whether [contacts/] and [archive/] exist while they hold no file:
      [mkdir] and [fs.rename] leave an empty directory, git removes one *)
  contactsMade : bool;
  archiveMade : bool }.

(** The readings of [Date.now()] and [new Date().toISOString()] an
    operation takes; one reading serves the whole operation. *)
Record Clock := {
  nowMs : Z;
  nowIso : str }.

(** Operations: a state transformer that returns a value or throws. *)
Definition M (A : Type) : Type := State -> (Error + A) * State.

#[global] Instance M_ret : MRet M := fun A a st => (inr a, st).
#[global] Instance M_bind : MBind M := fun A B k m st =>
  match m st with
  | (inr a, st') => k a st'
  | (inl e, st') => (inl e, st')
  end.

Definition throw {A} (e : Error) : M A := fun st => (inl e, st).

(** [try { m } catch { h }] *)
Definition try_catch {A} (m : M A) (h : Error -> M A) : M A := fun st =>
  match m st with
  | (inl e, st') => h e st'
  | r => r
  end.

(** [try { m } finally { f }] *)
Definition try_finally {A} (m : M A) (f : State -> State) : M A := fun st =>
  let '(r, st') := m st in (r, f st').

Definition modify (f : State -> State) : M unit := fun st => (inr tt, f st).

Definition dir (area : Area) (st : State) : gmap str str :=
  match area with
  | Active => contactsDir st
  | Archive => archiveDir st
  end.

Definition headDir (area : Area) (st : State) : gmap str str :=
  match area with
  | Active => headContacts st
  | Archive => headArchive st
  end.

Definition with_dir (area : Area) (f : gmap str str -> gmap str str)
  (st : State) : State :=
  {| contactsDir := match area with Active => f (contactsDir st)
                                  | Archive => contactsDir st end;
     archiveDir := match area with Active => archiveDir st
                                 | Archive => f (archiveDir st) end;
     headContacts := headContacts st; headArchive := headArchive st;
     index := index st; log := log st; tags := tags st; lock := lock st;
     mergeLog := mergeLog st;
     contactsMade := contactsMade st; archiveMade := archiveMade st |}.

Definition with_head (area : Area) (f : gmap str str -> gmap str str)
  (st : State) : State :=
  {| contactsDir := contactsDir st; archiveDir := archiveDir st;
     headContacts := match area with Active => f (headContacts st)
                                   | Archive => headContacts st end;
     headArchive := match area with Active => headArchive st
                                  | Archive => f (headArchive st) end;
     index := index st; log := log st; tags := tags st; lock := lock st;
     mergeLog := mergeLog st;
     contactsMade := contactsMade st; archiveMade := archiveMade st |}.

Definition with_index (ix : list (Area * str)) (st : State) : State :=
  {| contactsDir := contactsDir st; archiveDir := archiveDir st;
     headContacts := headContacts st; headArchive := headArchive st;
     index := ix; log := log st; tags := tags st; lock := lock st;
     mergeLog := mergeLog st;
     contactsMade := contactsMade st; archiveMade := archiveMade st |}.

Definition with_log (l : list Commit) (st : State) : State :=
  {| contactsDir := contactsDir st; archiveDir := archiveDir st;
     headContacts := headContacts st; headArchive := headArchive st;
     index := index st; log := l; tags := tags st; lock := lock st;
     mergeLog := mergeLog st;
     contactsMade := contactsMade st; archiveMade := archiveMade st |}.

Definition with_tags (t : list str) (st : State) : State :=
  {| contactsDir := contactsDir st; archiveDir := archiveDir st;
     headContacts := headContacts st; headArchive := headArchive st;
     index := index st; log := log st; tags := t; lock := lock st;
     mergeLog := mergeLog st;
     contactsMade := contactsMade st; archiveMade := archiveMade st |}.

Definition with_lock (l : option Z) (st : State) : State :=
  {| contactsDir := contactsDir st; archiveDir := archiveDir st;
     headContacts := headContacts st; headArchive := headArchive st;
     index := index st; log := log st; tags := tags st; lock := l;
     mergeLog := mergeLog st;
     contactsMade := contactsMade st; archiveMade := archiveMade st |}.

Definition with_mergeLog (l : list (str * str * list str)) (st : State) : State :=
  {| contactsDir := contactsDir st; archiveDir := archiveDir st;
     headContacts := headContacts st; headArchive := headArchive st;
     index := index st; log := log st; tags := tags st; lock := lock st;
     mergeLog := l;
     contactsMade := contactsMade st; archiveMade := archiveMade st |}.

Definition with_made (area : Area) (b : bool) (st : State) : State :=
  {| contactsDir := contactsDir st; archiveDir := archiveDir st;
     headContacts := headContacts st; headArchive := headArchive st;
     index := index st; log := log st; tags := tags st; lock := lock st;
     mergeLog := mergeLog st;
     contactsMade := match area with Active => b
                                   | Archive => contactsMade st end;
     archiveMade := match area with Active => archiveMade st
                                  | Archive => b end |}.

(** *** The file system *)

(** A directory exists when it holds a file, or was made and not removed
    since. *)
Definition dirExists (area : Area) (st : State) : bool :=
  match map_to_list (dir area st) with
  | [] => match area with
          | Active => contactsMade st
          | Archive => archiveMade st
          end
  | _ :: _ => true
  end.

(** [fs.mkdir(dir, { recursive: true })] *)
Definition mkdir (area : Area) : M unit :=
  modify (fun st => if dirExists area st then st else with_made area true st).

Definition ENOENT : Error := FsError (lit "ENOENT").

Definition readFile (area : Area) (id : str) : M str := fun st =>
  match dir area st !! id with
  | Some text => (inr text, st)
  | None => (inl ENOENT, st)
  end.

(** [fs.writeFile(path, text, 'utf-8')]: it creates the file, not its
    directory.  The file holds the text as it is read back. *)
Definition writeFile (area : Area) (id : str) (text : str) : M unit :=
  fun st =>
    if dirExists area st
    then (inr tt, with_dir area (insert id (utf8_text text)) st)
    else (inl ENOENT, st).

(** [fs.rename] from one area to the other; the directory the file leaves
    stays. *)
Definition rename (from to : Area) (id : str) : M unit := fun st =>
  match dir from st !! id with
  | Some text =>
      if dirExists to st
      then (inr tt,
            with_made from true
              (with_dir to (insert id text) (with_dir from (delete id) st)))
      else (inl ENOENT, st)
  | None => (inl ENOENT, st)
  end.

(** *** [GitOps] *)

Section WithPlatform.
Context `{Platform}.

Definition git_add (area : Area) (id : str) : M unit :=
  modify (fun st => with_index (index st ++ [(area, id)]) st).

Definition git_addMultiple (paths : list (Area * str)) : M unit :=
  modify (fun st => with_index (index st ++ paths) st).

Definition stagedChange (st : State) (path : Area * str) : Change :=
  {| ch_area := fst path; ch_id := snd path;
     ch_before := headDir (fst path) st !! snd path;
     ch_after := dir (fst path) st !! snd path |}.

Definition applyToHead (st : State) (c : Change) : State :=
  with_head (ch_area c)
    (match ch_after c with
     | Some text => insert (ch_id c) text
     | None => delete (ch_id c)
     end) st.

Definition git_commit (message : str) : M str := fun st =>
  let changes := map (stagedChange st) (index st) in
  let h := commitHash (length (log st)) in
  let commit := {| hash := h; message := message; changes := changes |} in
  (inr h, with_log (commit :: log st)
            (with_index [] (fold_left applyToHead changes st))).

(** [git.log({ maxCount })]: [--max-count] is passed only when [maxCount]
    is truthy. *)
Definition git_log (maxCount : nat) : M (list Commit) := fun st =>
  (inr (match maxCount with
        | 0 => log st
        | S _ => firstn maxCount (log st)
        end), st).

Definition git_tag (tagName : str) : M unit := fun st =>
  if existsb (str_eqb tagName) (tags st)
  then (inl (GitError (lit "tag")), st)
  else (inr tt, with_tags (tags st ++ [tagName]) st).

Definition git_listTags : M (list str) := fun st => (inr (tags st), st).

(** Remove a file from the working tree and stage the removal; git
    removes the directory with its last file. *)
Definition git_remove (area : Area) (id : str) : M unit := fun st =>
  match dir area st !! id with
  | Some _ =>
      (inr tt, with_index (index st ++ [(area, id)])
                 (with_made area false (with_dir area (delete id) st)))
  | None => (inl (GitError (lit "rm")), st)
  end.

(** Move/rename a file and stage it. *)
Definition git_move (from to : Area) (id : str) : M unit :=
  (* Ensure destination directory exists *)
  mkdir to;;
  rename from to id;; git_addMultiple [(from, id); (to, id)].

Definition option_eqb (a b : option str) : bool :=
  match a, b with
  | Some x, Some y => str_eqb x y
  | None, None => true
  | _, _ => false
  end.

Definition revertible (st : State) (c : Change) : bool :=
  option_eqb (dir (ch_area c) st !! ch_id c) (ch_after c).

Definition undo (st : State) (c : Change) : State :=
  match ch_before c with
  | Some text =>
      with_head (ch_area c) (insert (ch_id c) text)
        (with_dir (ch_area c) (insert (ch_id c) text) st)
  | None =>
      with_head (ch_area c) (delete (ch_id c))
        (with_made (ch_area c) false
           (with_dir (ch_area c) (delete (ch_id c)) st))
  end.

Definition inverse (c : Change) : Change :=
  {| ch_area := ch_area c; ch_id := ch_id c;
     ch_before := ch_after c; ch_after := ch_before c |}.

(** [git revert <hash> --no-edit] *)
Definition git_revert (commit : Commit) : M unit := fun st =>
  if forallb (revertible st) (changes commit) then
    let st' := fold_left undo (changes commit) st in
    (inr tt,
     with_log ({| hash := commitHash (length (log st));
                  message := lit "Revert " ++ [QUOTE] ++ message commit ++ [QUOTE];
                  changes := map inverse (changes commit) |} :: log st) st')
  else (inl (GitError (lit "revert")), st).

(** Initialize the git repo and directory structure. *)
Definition init : M unit :=
  (* Create directories first so simpleGit can initialize *)
  mkdir Active;;
  mkdir Archive;;
  ((fun st =>
      match log st with
      | [] => (git_commit (lit "Initial commit");; mret tt) st
      | _ :: _ => (inr tt, st)
      end) : M unit).

(** *** Locking *)

Definition acquireLock (now : Clock) : M unit := fun st =>
  match lock st with
  | None => (inr tt, with_lock (Some (nowMs now)) st)
  | Some mtime =>
      (* Check if lock is stale (> 30 seconds old) *)
      if Z.ltb 30000 (nowMs now - mtime)
      then (inr tt, with_lock (Some (nowMs now)) st)
      else (inl (StoreError (lit "Store is locked by another operation")), st)
  end.

Definition releaseLock (st : State) : State := with_lock None st.

Definition withLock {A} (now : Clock) (fn : M A) : M A :=
  acquireLock now;; try_finally fn releaseLock.

(** *** CRUD *)

Definition with_id (i : option str) (fields : ContactFields) : ContactFields :=
  {| f_id := i; f_fullName := f_fullName fields; f_name := f_name fields;
     f_emails := f_emails fields; f_phones := f_phones fields;
     f_addresses := f_addresses fields;
     f_organization := f_organization fields;
     f_birthday := f_birthday fields; f_anniversary := f_anniversary fields;
     f_urls := f_urls fields; f_notes := f_notes fields;
     f_categories := f_categories fields; f_photo := f_photo fields;
     f_metadata := f_metadata fields |}.

(** [fresh] is the result of [generateId()]. *)
Definition create (now : Clock) (fresh : str) (fields : ContactFields)
  : M Contact :=
  withLock now (
    let contact :=
      normalizeContact
        (createContact (nowIso now) fresh
           (with_id (Some (default fresh (f_id fields))) fields)) in
    let vcard := contactToVCard contact in
    writeFile Active (id contact) vcard;;
    git_add Active (id contact);;
    git_commit (lit "Create contact: " ++ fullName contact ++ lit " ("
                ++ id contact ++ lit ")");;
    mret contact).

(** Check contacts/ first, then archive/ *)
Definition get (now : Clock) (id : str) : M Contact :=
  try_catch
    (vcard ← readFile Active id; mret (vcardToContact (nowIso now) vcard))
    (fun _ =>
       try_catch
         (vcard ← readFile Archive id; mret (vcardToContact (nowIso now) vcard))
         (fun _ => throw (ContactNotFoundError id))).

(** A property of [updates.name]: absent, or present with its value (which
    may be [undefined]). *)
Record NameUpdates := {
  nu_prefix : option (option str);
  nu_givenName : option (option str);
  nu_middleName : option (option str);
  nu_familyName : option (option str);
  nu_suffix : option (option str) }.

(** [Partial<Omit<Contact, 'id' | 'metadata'>>]: [None] is a field that is
    absent (or [undefined]). *)
Record Updates := {
  upd_fullName : option str;
  upd_name : option NameUpdates;
  upd_emails : option (list ContactEmail);
  upd_phones : option (list ContactPhone);
  upd_addresses : option (list ContactAddress);
  upd_organization : option ContactOrganization;
  upd_birthday : option str;
  upd_anniversary : option str;
  upd_urls : option (list ContactUrl);
  upd_notes : option str;
  upd_categories : option (list str);
  upd_photo : option str }.

(** [{ ...existing.name, ...updates.name }] *)
Definition spreadName (existing : ContactName) (u : NameUpdates) : ContactName :=
  {| n_prefix := default (n_prefix existing) (nu_prefix u);
     n_givenName := default (n_givenName existing) (nu_givenName u);
     n_middleName := default (n_middleName existing) (nu_middleName u);
     n_familyName := default (n_familyName existing) (nu_familyName u);
     n_suffix := default (n_suffix existing) (nu_suffix u) |}.

Definition fullNameChanges (existing : Contact) (updates : Updates) : bool :=
  match upd_fullName updates with
  | Some fn => negb (str_eqb fn (fullName existing))
  | None => false
  end.

(** The assignments of [update], field by field. *)
Definition applyUpdates (existing : Contact) (updates : Updates) : Contact :=
  {| id := id existing;
     fullName := if fullNameChanges existing updates
                 then default (fullName existing) (upd_fullName updates)
                 else fullName existing;
     name := match upd_name updates with
             | Some u => spreadName (name existing) u
             | None => name existing
             end;
     emails := default (emails existing) (upd_emails updates);
     phones := default (phones existing) (upd_phones updates);
     addresses := default (addresses existing) (upd_addresses updates);
     organization := match upd_organization updates with
                     | Some o => Some o
                     | None => organization existing
                     end;
     birthday := match upd_birthday updates with
                 | Some v => Some v
                 | None => birthday existing
                 end;
     anniversary := match upd_anniversary updates with
                    | Some v => Some v
                    | None => anniversary existing
                    end;
     urls := default (urls existing) (upd_urls updates);
     notes := match upd_notes updates with
              | Some v => Some v
              | None => notes existing
              end;
     categories := default (categories existing) (upd_categories updates);
     photo := match upd_photo updates with
              | Some v => Some v
              | None => photo existing
              end;
     metadata := metadata existing |}.

Definition pushIf {A} (b : bool) (x : A) : list A := if b then [x] else [].

Definition isSome {A} (o : option A) : bool :=
  match o with
  | Some _ => true
  | None => false
  end.

Definition changedFields (existing : Contact) (updates : Updates) : list str :=
  pushIf (fullNameChanges existing updates || isSome (upd_name updates))
         (lit "name")
  ++ pushIf (isSome (upd_emails updates)) (lit "emails")
  ++ pushIf (isSome (upd_phones updates)) (lit "phones")
  ++ pushIf (isSome (upd_addresses updates)) (lit "addresses")
  ++ pushIf (isSome (upd_organization updates)) (lit "organization")
  ++ pushIf (isSome (upd_birthday updates)) (lit "birthday")
  ++ pushIf (isSome (upd_anniversary updates)) (lit "anniversary")
  ++ pushIf (isSome (upd_urls updates)) (lit "urls")
  ++ pushIf (isSome (upd_notes updates)) (lit "notes")
  ++ pushIf (isSome (upd_categories updates)) (lit "categories")
  ++ pushIf (isSome (upd_photo updates)) (lit "photo").

Definition update (now : Clock) (id : str) (updates : Updates) : M Contact :=
  withLock now (
    existing ← get now id;
    let changed := changedFields existing updates in
    let existing := applyUpdates existing updates in
    let existing :=
      set_metadata (set_modified (nowIso now) (metadata existing)) existing in
    let normalized := normalizeContact existing in
    let vcard := contactToVCard normalized in
    writeFile Active id vcard;;
    git_add Active id;;
    let fieldList := match changed with
                     | [] => lit "metadata"
                     | _ :: _ => join (lit ", ") changed
                     end in
    git_commit (lit "Update contact: " ++ fullName normalized
                ++ lit " - changed " ++ fieldList);;
    mret normalized).

Definition delete (now : Clock) (id : str) (permanent : bool) : M unit :=
  withLock now (
    contact ← get now id;
    if permanent then
      (* Hard delete - remove file entirely *)
      try_catch (git_remove Active id) (fun _ => git_remove Archive id);;
      git_commit (lit "Delete contact permanently: " ++ fullName contact
                  ++ lit " (" ++ id ++ lit ")");;
      mret tt
    else
      (* Soft delete - move to archive *)
      git_move Active Archive id;;
      git_commit (lit "Archive contact: " ++ fullName contact
                  ++ lit " (" ++ id ++ lit ")");;
      mret tt).

(** *** Rollback *)

Inductive RollbackMode := last_n | to_commit | to_tag.

Record RollbackOptions := {
  mode : RollbackMode;
  count : option nat;
  commitHash_opt : option str;
  tagName : option str;
  dryRun : option bool }.

Record RollbackResult := {
  revertedCommits : nat;
  safetyTag : str }.

(** The loops over [log.all]: stop at an entry [stop] accepts, and at the
    first revert that fails. *)
Fixpoint revertLoop (stop : Commit -> bool) (entries : list Commit)
  (revertedCommits : nat) : M nat :=
  match entries with
  | [] => mret revertedCommits
  | entry :: rest =>
      if stop entry then mret revertedCommits
      else fun st =>
        match git_revert entry st with
        | (inr _, st') => revertLoop stop rest (S revertedCommits) st'
        | (inl _, st') => (inr revertedCommits, st')
        end
  end.

Definition rollback (now : Clock) (options : RollbackOptions)
  : M RollbackResult :=
  withLock now (
    let safetyTag := lit "pre-rollback-" ++ show_N (Z.to_N (nowMs now)) in
    git_tag safetyTag;;
    if is_true_flag (dryRun options)
    then mret {| revertedCommits := 0; safetyTag := safetyTag |}
    else
      n ← match mode options with
          | last_n =>
              entries ← git_log (default 1 (count options));
              (* Revert from newest to oldest *)
              revertLoop (fun _ => false) entries 0
          | to_commit =>
              if negb (truthy (commitHash_opt options))
              then throw (StoreError (lit "commitHash required for to-commit mode"))
              else
                let commitHash := or_empty (commitHash_opt options) in
                entries ← git_log 100;
                revertLoop
                  (fun entry => str_eqb (hash entry) commitHash
                                || startsWith commitHash (hash entry))
                  entries 0
          | to_tag =>
              if negb (truthy (tagName options))
              then throw (StoreError (lit "tagName required for to-tag mode"))
              else
                entries ← git_log 100;
                tags ← git_listTags;
                if negb (existsb (str_eqb (or_empty (tagName options))) tags)
                then throw (StoreError (lit "Tag not found: "
                                        ++ or_empty (tagName options)))
                else
                  (* Revert all commits since the tag *)
                  revertLoop (fun _ => false) entries 0
          end;
      mret {| revertedCommits := n; safetyTag := safetyTag |}).

(** *** Merge support *)

Fixpoint archiveSecondaries (secondaryIds : list str)
  : M (list (Area * str)) :=
  match secondaryIds with
  | [] => mret []
  | secId :: rest =>
      paths ← try_catch (rename Active Archive secId;;
                         mret [(Active, secId); (Archive, secId)])
                        (fun _ => mret []);
      more ← archiveSecondaries rest;
      mret (paths ++ more)
  end.

Definition mergeAndArchive (now : Clock) (primaryId : str)
  (secondaryIds : list str) (mergedContact : Contact) : M str :=
  withLock now (
    (* Write merged contact *)
    let vcard := contactToVCard mergedContact in
    writeFile Active primaryId vcard;;
    (* Archive secondary contacts *)
    paths ← archiveSecondaries secondaryIds;
    git_addMultiple ((Active, primaryId) :: paths);;
    let names := join (lit " + ") (fullName mergedContact :: secondaryIds) in
    hash ← git_commit (lit "Merge contacts: " ++ names ++ lit " -> "
                       ++ fullName mergedContact);
    (* Update merge log *)
    modify (fun st => with_mergeLog
                        (mergeLog st ++ [(nowIso now, primaryId, secondaryIds)])
                        st);;
    mret hash).

End WithPlatform.

(** A directory that is not a repository yet. *)
Definition blank : State :=
  {| contactsDir := ∅; archiveDir := ∅; headContacts := ∅; headArchive := ∅;
     index := []; log := []; tags := []; lock := None; mergeLog := [];
     contactsMade := false; archiveMade := false |}.

End Store.

(* ===================================================================== *)
(** * Part I, continued.  The tools around the store                      *)
(* ===================================================================== *)

(** ** [src/tools/export.ts] *)

Module ExportTool.

(** A field of a CSV row. *)
Definition csvEscape (value : str) : str :=
  if includes COMMA value || includes QUOTE value || includes LF value
  then [QUOTE] ++ replace1 QUOTE [QUOTE; QUOTE] value ++ [QUOTE]
  else value.

Definition csvHeaders : list str :=
  [lit "ID"; lit "Full Name"; lit "Given Name"; lit "Family Name";
   lit "Email"; lit "Phone"; lit "Organization"; lit "Title";
   lit "Birthday"; lit "Categories"; lit "Notes"].

Definition csvFields (c : Contact) : list str :=
  [ id c;
    csvEscape (fullName c);
    csvEscape (or_empty (n_givenName (name c)));
    csvEscape (or_empty (n_familyName (name c)));
    csvEscape (join (lit "; ") (map e_value (emails c)));
    csvEscape (join (lit "; ") (map p_value (phones c)));
    csvEscape (or_empty (match organization c with
                         | Some o => o_name o
                         | None => None
                         end));
    csvEscape (or_empty (match organization c with
                         | Some o => o_title o
                         | None => None
                         end));
    or_empty (birthday c);
    csvEscape (join (lit "; ") (categories c));
    csvEscape (or_empty (notes c)) ].

Definition contactsToCsv (contacts : list Contact) : str :=
  join [LF]
    (join [COMMA] csvHeaders
     :: map (fun c => join [COMMA] (csvFields c)) contacts).

(** The [vcf] format: [contacts.map(contactToVCard).join('\r\n')]. *)
Definition exportVcf (contacts : list Contact) : str :=
  join CRLF (map contactToVCard contacts).

(** The export is written with [fs.writeFile(outputPath, output, 'utf-8')],
    and the import reads its file with [fs.readFile(filePath, 'utf-8')]:
    the text the import has of a [vcf] export. *)
Definition exportedFile (contacts : list Contact) : str :=
  utf8_text (exportVcf contacts).

End ExportTool.

(** ** [src/tools/import.ts]

    [String.prototype.toUpperCase] on a line of the imported file, which is
    arbitrary text, is the platform's. *)

Class Casing := {
  (** [s.toUpperCase()] *)
  uppercase : str -> str }.

Module ImportTool.

(** [raw.split(/\r?\n/)] *)
Fixpoint split_lines (s : str) : list str :=
  match s with
  | [] => [[]]
  | x :: t =>
      if N.eqb x LF then [] :: split_lines t
      else
        match t with
        | y :: t' =>
            if N.eqb x CR && N.eqb y LF then [] :: split_lines t'
            else match split_lines t with
                 | h :: r => (x :: h) :: r
                 | [] => [[x]]
                 end
        | [] => [[x]]
        end
  end.

Section WithCasing.
Context `{Casing}.

Definition isBegin (line : str) : bool :=
  startsWith (lit "BEGIN:VCARD") (uppercase line).

Definition isEnd (line : str) : bool :=
  startsWith (lit "END:VCARD") (uppercase line).

(** The state of the loop of [splitVCards]: [cards], [current] and
    [inCard]. *)
Definition splitStep (state : list str * list str * bool) (line : str)
  : list str * list str * bool :=
  let '(cards, current, inCard) := state in
  if isBegin line then (cards, [line], true)
  else if isEnd line then
    ((if inCard then cards ++ [join CRLF (current ++ [line])] else cards),
     [], false)
  else if inCard then (cards, current ++ [line], inCard)
  else state.

(** Split a multi-contact vCard file into individual vCard strings. *)
Definition splitVCards (raw : str) : list str :=
  fst (fst (fold_left splitStep (split_lines raw) ([], [], false))).

End WithCasing.

(** The cards read one after the other; [nowAt i] is the reading of the
    clock [vcardToContact] takes for card [i]. *)
Fixpoint parseCards (nowAt : nat -> str) (i : nat) (vcards : list str)
  : list Contact :=
  match vcards with
  | [] => []
  | vcard :: rest =>
      vcardToContact (nowAt i) vcard :: parseCards nowAt (S i) rest
  end.

Section WithPlatform.
Context `{Platform}.

(** [parsed.some(p => p.id === i)] *)
Definition isNew (parsed : list Contact) (i : str) : bool :=
  existsb (fun p => str_eqb (id p) i) parsed.

(** [dupeIds.add(i)] *)
Definition addId (i : str) (ids : list str) : list str :=
  if existsb (str_eqb i) ids then ids else ids ++ [i].

(** The loop over the duplicate candidates: if one of the pair is from
    the new import, skip it. *)
Definition markDuplicate (parsed : list Contact) (dupeIds : list str)
  (dupe : Dedup.DuplicateCandidate) : list str :=
  let isNewA := isNew parsed (s_id (Dedup.contactA dupe)) in
  let isNewB := isNew parsed (s_id (Dedup.contactB dupe)) in
  let dupeIds :=
    if isNewA && negb isNewB
    then addId (s_id (Dedup.contactA dupe)) dupeIds else dupeIds in
  if isNewB && negb isNewA
  then addId (s_id (Dedup.contactB dupe)) dupeIds else dupeIds.

(** The contacts of the file that are imported when [skipDuplicates] is
    set (and [dryRun] is not). *)
Definition toImport (existing parsed : list Contact) : list Contact :=
  let combined := existing ++ parsed in
  let dupes :=
    Dedup.findDuplicates combined
      {| Dedup.threshold := Some (8 # 10)%Q; Dedup.limit := None |} in
  let dupeIds := fold_left (markDuplicate parsed) dupes [] in
  List.filter (fun c => negb (existsb (str_eqb (id c)) dupeIds)) parsed.

End WithPlatform.
End ImportTool.

(** ** [src/sync/conflict.ts] *)

Module Conflict.

Inductive ConflictStrategy := local_wins | remote_wins | newest_wins | manual.

Inductive Winner := winner_local | winner_remote | winner_none.

Record ConflictResult := {
  resolved : bool;
  winner : Winner;
  contact : Contact }.

Section WithPlatform.
Context `{Platform}.

(** [localTime >= remoteTime] on the readings of [getTime()], false when
    one of them is [NaN]. *)
Definition notOlder (local remote : Contact) : bool :=
  match dateTime (modified (metadata local)),
        dateTime (modified (metadata remote)) with
  | Some localTime, Some remoteTime => Z.leb remoteTime localTime
  | _, _ => false
  end.

(** Resolve a conflict between local and remote versions of a contact. *)
Definition resolveConflict (local remote : Contact)
  (strategy : ConflictStrategy) : ConflictResult :=
  match strategy with
  | local_wins =>
      {| resolved := true; winner := winner_local; contact := local |}
  | remote_wins =>
      {| resolved := true; winner := winner_remote; contact := remote |}
  | newest_wins =>
      if notOlder local remote
      then {| resolved := true; winner := winner_local; contact := local |}
      else {| resolved := true; winner := winner_remote; contact := remote |}
  | manual =>
      (* Can't auto-resolve; return local and flag as unresolved *)
      {| resolved := false; winner := winner_none; contact := local |}
  end.

End WithPlatform.
End Conflict.

(** ** [src/store/git-store.ts], continued: listing, bulk creation and
    history *)

Module StoreMore.
Import Store.








Section WithPlatform.
Context `{Platform}.




(** The files of a directory are read in the order of [fs.readdir], which
    the finite map does not record; the model reads them in the order of
    [map_to_list].  Every file of the model's directories is a [.vcf]
    file. *)
Definition readArea (now : Clock) (area : Area) : M (list Contact) :=
  fun st =>
    (inr (map (fun entry => vcardToContact (nowIso now) (snd entry))
              (map_to_list (dir area st))), st).

(** [list(includeArchived)] *)
Definition listContacts (now : Clock) (includeArchived : bool)
  : M (list Contact) :=
  contacts ← readArea now Active;
  if includeArchived then
    archived ← readArea now Archive;
    mret (contacts
          ++ map (fun c => set_metadata (set_archived true (metadata c)) c)
                 archived)
  else mret contacts.

Definition listSummaries (now : Clock) (includeArchived : bool)
  : M (list ContactSummary) :=
  contacts ← listContacts now includeArchived;
  mret (map toSummary contacts).





End WithPlatform.
End StoreMore.

(* ===================================================================== *)
(** * Part II.  Specification-side definitions                             *)
(* ===================================================================== *)

(** ** The edit distance by its recurrence

    [lev_rec x y] is the distance between two texts read from their last
    unit backwards: the table of [levenshtein] holds, at row [i] and column
    [j], the distance between the first [i] units of [a] and the first [j]
    units of [b]. *)

Module DedupSpec.
Import Dedup.

Fixpoint lev_rec (x : str) : str -> nat :=
  match x with
  | [] => fun y => length y
  | c :: x' =>
      fix inner (y : str) : nat :=
        match y with
        | [] => S (length x')
        | d :: y' =>
            if N.eqb c d then lev_rec x' y'
            else 1 + Nat.min (Nat.min (lev_rec x' y) (inner y')) (lev_rec x' y')
        end
  end.

(** The row of the table for the text [x], from the column of [yb] on. *)
Fixpoint rowOf (x yb bs : str) : list nat :=
  lev_rec x yb :: match bs with
                  | [] => []
                  | d :: bs' => rowOf x (d :: yb) bs'
                  end.

Section WithPlatform.
Context `{Platform}.

(** Whether two lists of normalized values share a value. *)
Definition shares (la lb : list str) : bool :=
  existsb (fun x => existsb (str_eqb x) lb) la.

Definition emailMatch (a b : Contact) : bool :=
  shares (map (fun e => normalizeEmail (e_value e)) (emails a))
         (map (fun e => normalizeEmail (e_value e)) (emails b)).

Definition phoneMatch (a b : Contact) : bool :=
  shares (map (fun p => normalizePhone (p_value p)) (phones a))
         (map (fun p => normalizePhone (p_value p)) (phones b)).

(** Both organization names are present, not empty, and equal up to case. *)
Definition orgMatch (a b : Contact) : bool :=
  truthy (orgName a) && truthy (orgName b)
  && str_eqb (lowerOf (orgName a)) (lowerOf (orgName b)).

(** What the name similarity adds to the score. *)
Definition nameContribution (sim : Q) : Q :=
  if Qle_bool (85 # 100) sim then (70 # 100)%Q
  else if Qle_bool (65 # 100) sim then (50 # 100)%Q
  else 0%Q.

(** The score of [compareContacts] before rounding, from the four
    comparisons. *)
Definition scoreOf (email phone : bool) (sim : Q) (org : bool) : Q :=
  let s := if email then Math_max 0 (95 # 100) else 0%Q in
  let s := if phone then Math_max s (90 # 100) else s in
  let s := if Qle_bool (85 # 100) sim then Math_max s (70 # 100)
           else if Qle_bool (65 # 100) sim then Math_max s (50 # 100)
           else s in
  if org && negb (Qle_bool s 0) then Math_min 1 (s + (15 # 100))%Q else s.

(** The confidence of a pair that shares a normalized e-mail address. *)
Definition sharedEmailConfidence (a b : Contact) : Q :=
  if orgMatch a b then (100 # 100)%Q else (95 # 100)%Q.

(** The candidate pairs [a] with [b], in either order. *)
Definition pairs (cand : DuplicateCandidate) (a b : Contact) : Prop :=
  (contactA cand = toSummary a /\ contactB cand = toSummary b)
  \/ (contactA cand = toSummary b /\ contactB cand = toSummary a).

(** What [buildBlocks] does with one record. *)
Definition addContact (blocks : list (str * list Contact)) (c : Contact)
  : list (str * list Contact) :=
  fold_left (fun bs key => block_push key c bs) (blockKeys c) blocks.

(** The two records have a blocking key in common. *)
Definition shareBlock (a b : Contact) : Prop :=
  exists k, In k (blockKeys a) /\ In k (blockKeys b).

End WithPlatform.

(** The contacts a record adds to the block of [k]: itself, once for each
    time [k] is among its keys. *)
Definition added (k : str) (c : Contact) (keys : list str) : list Contact :=
  repeat c (length (List.filter (fun key => str_eqb key k) keys)).

(** The block filed under [k]. *)
Definition blockOf (k : str) (blocks : list (str * list Contact))
  : list Contact :=
  match find (fun kb => str_eqb (fst kb) k) blocks with
  | Some kb => snd kb
  | None => []
  end.

End DedupSpec.

(** ** Concrete inputs

    A platform for evaluating the code on concrete records: ASCII case
    mapping, a phone parser that recognises no number (so [normalizePhone]
    takes its fallback), timestamps ordered by their digits (which orders
    ISO 8601 timestamps of one format as [Date] does), and hashes [c0],
    [c1], ... *)

Module Examples.

Definition digitsTime (s : str) : option Z :=
  Some (Z.of_N (fold_left
                  (fun acc c => if N.leb 48 c && N.leb c 57
                                then (acc * 10 + (c - 48))%N else acc)
                  s 0%N)).

Definition examplePlatform : Platform :=
  {| lowercase := Js.toLowerCase;
     parsePhoneNumber := fun _ => None;
     dateTime := digitsTime;
     commitHash := fun n => lit "c" ++ show_N (N.of_nat n);
     sortInconsistent := fun _ contacts => contacts |}.

Definition noProviderIds (timestamp : str) : ContactMetadata :=
  {| created := timestamp; modified := timestamp; source := None;
     providerIds := ∅; archived := false; etag := None |}.

(** A record with a name and nothing else. *)
Definition person (i fn : str) (given family : option str) : Contact :=
  {| id := i; fullName := fn;
     name := {| n_prefix := None; n_givenName := given; n_middleName := None;
                n_familyName := family; n_suffix := None |};
     emails := []; phones := []; addresses := []; organization := None;
     birthday := None; anniversary := None; urls := []; notes := None;
     categories := []; photo := None;
     metadata := noProviderIds (lit "2025-01-01T00:00:00.000Z") |}.

(** The example of the specification: two records with one e-mail
    address, and the same two as employees of one organization. *)
Definition withEmail (e : str) (c : Contact) : Contact :=
  Merge.set_emails [{| e_value := e; e_type := None; e_primary := None |}] c.

Definition withOrganization (o : str) (c : Contact) : Contact :=
  Merge.set_organization
    (Some {| o_name := Some o; o_department := None; o_title := None |}) c.

Definition janeSmith : Contact :=
  withEmail (lit "jane@x.com")
    (person (lit "id-1") (lit "Jane Smith") (Some (lit "Jane")) (Some (lit "Smith"))).

Definition jSmith : Contact :=
  withEmail (lit "jane@x.com")
    (person (lit "id-2") (lit "J. Smith") (Some (lit "J.")) (Some (lit "Smith"))).

Definition janeAtAcme : Contact := withOrganization (lit "Acme Corp") janeSmith.
Definition jAtAcme : Contact := withOrganization (lit "ACME corp") jSmith.

(** Two records with one address that has no domain part, and names with
    other initials: they share no blocking key. *)
Definition aliceBob : Contact :=
  withEmail (lit "bob")
    (person (lit "id-3") (lit "Alice") (Some (lit "Alice")) None).
Definition zedBob : Contact :=
  withEmail (lit "BOB")
    (person (lit "id-4") (lit "Zed") (Some (lit "Zed")) None).

Definition defaults : Dedup.DedupOptions :=
  {| Dedup.threshold := None; Dedup.limit := None |}.

Definition johnSmith : Contact :=
  person (lit "id-1") (lit "John Smith") (Some (lit "John")) (Some (lit "Smith")).

Definition smithJohn : Contact :=
  person (lit "id-2") (lit "Smith John") (Some (lit "Smith")) (Some (lit "John")).


Definition withNotes (n : str) (c : Contact) : Contact := Merge.set_notes (Some n) c.

Definition withProviderIds (timestamp : str) (ids : list (str * str))
  (c : Contact) : Contact :=
  set_metadata {| created := timestamp; modified := timestamp; source := None;
                  providerIds := list_to_map ids; archived := false;
                  etag := None |} c.

(** Three records to merge, the first and the third with the same note. *)
Definition noteX1 : Contact :=
  withNotes (lit "x") (person (lit "id-a") (lit "Jane") (Some (lit "Jane")) None).
Definition noteY : Contact :=
  withNotes (lit "y") (person (lit "id-b") (lit "Jane") (Some (lit "Jane")) None).
Definition noteX2 : Contact :=
  withNotes (lit "x") (person (lit "id-c") (lit "Jane") (Some (lit "Jane")) None).

(** Two records that name the same external system with different
    identifiers; the second was modified last. *)
Definition linkedOld : Contact :=
  withProviderIds (lit "2020-01-01T00:00:00.000Z") [(lit "google", lit "g-old")]
    (person (lit "id-a") (lit "Old Jane") (Some (lit "Old")) (Some (lit "Jane"))).
Definition linkedNew : Contact :=
  withProviderIds (lit "2024-06-01T00:00:00.000Z")
    [(lit "google", lit "g-new"); (lit "fastmail", lit "fm-456")]
    (person (lit "id-b") (lit "New Jane") (Some (lit "New")) (Some (lit "Jane"))).

(** Two records, the second linked to a system called [constructor]; and
    two records linked to one system, the first with the empty identifier
    that the Google provider writes for a person without a resource
    name. *)
Definition unlinked : Contact :=
  person (lit "id-a") (lit "Jane") (Some (lit "Jane")) None.
Definition linkedConstructor : Contact :=
  withProviderIds (lit "2025-01-01T00:00:00.000Z")
    [(lit "constructor", lit "remote-7")]
    (person (lit "id-b") (lit "Jane") (Some (lit "Jane")) None).
Definition linkedEmpty : Contact :=
  withProviderIds (lit "2025-01-01T00:00:00.000Z") [(lit "google", [])]
    (person (lit "id-a") (lit "Jane") (Some (lit "Jane")) None).
Definition linkedLater : Contact :=
  withProviderIds (lit "2025-01-01T00:00:00.000Z") [(lit "google", lit "g-2")]
    (person (lit "id-b") (lit "Jane") (Some (lit "Jane")) None).


(** *** A name whose line folds inside a character

    69 letters, twice U+1F600 (the surrogate pair D83D DE00), 68 letters:
    with the three units of [FN:] the line has 72 one-octet units before
    the first pair. *)

Definition GRIN : str := [55357%N; 56832%N].

Definition longName : str :=
  repeat 97%N 69 ++ GRIN ++ GRIN ++ repeat 98%N 68.

Definition longNamed : Contact :=
  person (lit "id-long") longName (Some (lit "A")) (Some (lit "B")).

(** *** A store and its clock *)

Definition clock (ms : Z) (iso : str) : Store.Clock :=
  {| Store.nowMs := ms; Store.nowIso := iso |}.

Definition janeFields : ContactFields :=
  {| f_id := None; f_fullName := lit "Jane Smith"; f_name := None;
     f_emails := Some [{| e_value := lit "jane@test.com"; e_type := None;
                          e_primary := Some false |}];
     f_phones := None; f_addresses := None; f_organization := None;
     f_birthday := None; f_anniversary := None; f_urls := None;
     f_notes := Some (lit "Original note"); f_categories := None;
     f_photo := None; f_metadata := None |}.

Definition noUpdates : Store.Updates :=
  {| Store.upd_fullName := None; Store.upd_name := None;
     Store.upd_emails := None; Store.upd_phones := None;
     Store.upd_addresses := None; Store.upd_organization := None;
     Store.upd_birthday := None; Store.upd_anniversary := None;
     Store.upd_urls := None; Store.upd_notes := None;
     Store.upd_categories := None; Store.upd_photo := None |}.

(** [{ notes: x }] *)
Definition notesOnly (x : str) : Store.Updates :=
  {| Store.upd_fullName := None; Store.upd_name := None;
     Store.upd_emails := None; Store.upd_phones := None;
     Store.upd_addresses := None; Store.upd_organization := None;
     Store.upd_birthday := None; Store.upd_anniversary := None;
     Store.upd_urls := None; Store.upd_notes := Some x;
     Store.upd_categories := None; Store.upd_photo := None |}.

Definition run {A} (m : Store.M A) (st : Store.State) : Store.State := snd (m st).

Definition janeId : str := lit "id-jane".

(** [init()], then [create({ fullName: 'Jane Smith', ... })]. *)
Definition storeInit : Store.State :=
  run (@Store.init examplePlatform) Store.blank.

Definition storeCreated : Store.State :=
  run (@Store.create examplePlatform
         (clock 1000 (lit "2025-01-01T00:00:01.000Z")) janeId janeFields)
      storeInit.

(** ... then [delete(id)], [update(id, { notes: 'x' })] and
    [delete(id, true)]. *)
Definition storeArchived : Store.State :=
  run (@Store.delete examplePlatform
         (clock 2000 (lit "2025-01-01T00:00:02.000Z")) janeId false)
      storeCreated.

Definition storeUpdatedArchived : Store.State :=
  run (@Store.update examplePlatform
         (clock 3000 (lit "2025-01-01T00:00:03.000Z")) janeId
         (notesOnly (lit "x")))
      storeArchived.

Definition storeDeleted : Store.State :=
  run (@Store.delete examplePlatform
         (clock 4000 (lit "2025-01-01T00:00:04.000Z")) janeId true)
      storeUpdatedArchived.

(** The record as [mergeAndArchive] stores it when the merged record it is
    given carries an e-mail address in capitals. *)
Definition janeCapitals : Contact :=
  Merge.set_emails [{| e_value := lit "JANE@TEST.COM"; e_type := None;
                       e_primary := Some false |}]
    (person janeId (lit "Jane Smith") (Some (lit "Jane")) (Some (lit "Smith"))).

Definition storeMerged : Store.State :=
  run (@Store.mergeAndArchive examplePlatform
         (clock 2000 (lit "2025-01-01T00:00:02.000Z")) janeId [] janeCapitals)
      storeCreated.

Definition toCommit (h : str) : Store.RollbackOptions :=
  {| Store.mode := Store.to_commit; Store.count := None;
     Store.commitHash_opt := Some h; Store.tagName := None;
     Store.dryRun := None |}.

End Examples.

(** ** The merge resolver's provider identifiers, by what they must be *)

Module MergeSpec.
Import Merge.

(** The identifier the first record of [contacts] that names [provider]
    gives it. *)
Fixpoint firstProviderId (contacts : list Contact) (provider : str)
  : option str :=
  match contacts with
  | [] => None
  | c :: rest =>
      match providerIds (metadata c) !! provider with
      | Some v => Some v
      | None => firstProviderId rest provider
      end
  end.

(** A name no plain object inherits a property under. *)
Definition ownName (k : str) : bool :=
  negb (existsb (str_eqb k) objectPrototypeNames).

(** Every provider identifier of the record is a non-empty text, under a
    name that no object inherits. *)
Definition idsPlain (c : Contact) : bool :=
  forallb (fun kv => negb (str_eqb (snd kv) []) && ownName (fst kv))
          (map_to_list (providerIds (metadata c))).

Definition plainEntries (m : gmap str str) : Prop :=
  forall k v, m !! k = Some v -> v <> [] /\ ownName k = true.

End MergeSpec.

(** ** The store's update, by its effect on the fields *)

Module StoreSpec.
Import Store.

(** The lock file is absent, or older than 30 seconds. *)
Definition lockFree (now : Clock) (st : State) : bool :=
  match lock st with
  | None => true
  | Some mtime => Z.ltb 30000 (nowMs now - mtime)
  end.

End StoreSpec.

(** ** The codec, by what it must preserve *)

Module CodecSpec.

(** The escape of one code unit. *)
Definition esc (c : N) : str :=
  if N.eqb c BACKSLASH then [BACKSLASH; BACKSLASH]
  else if N.eqb c SEMI then [BACKSLASH; SEMI]
  else if N.eqb c COMMA then [BACKSLASH; COMMA]
  else if N.eqb c LF then [BACKSLASH; LOWER_N]
  else [c].

(** The text after each pass of [unescapeVCardValue], as the escape of its
    units: with line feeds restored, then commas, then semicolons. *)
Definition esc1 (c : N) : str :=
  if N.eqb c BACKSLASH then [BACKSLASH; BACKSLASH]
  else if N.eqb c SEMI then [BACKSLASH; SEMI]
  else if N.eqb c COMMA then [BACKSLASH; COMMA]
  else [c].

Definition esc2 (c : N) : str :=
  if N.eqb c BACKSLASH then [BACKSLASH; BACKSLASH]
  else if N.eqb c SEMI then [BACKSLASH; SEMI]
  else [c].

Definition esc3 (c : N) : str :=
  if N.eqb c BACKSLASH then [BACKSLASH; BACKSLASH] else [c].

(** No backslash of the text is followed by the letter [n]. *)
Fixpoint bs_n_free (s : str) : bool :=
  match s with
  | [] => true
  | c :: t =>
      negb (N.eqb c BACKSLASH
            && match t with
               | d :: _ => N.eqb d LOWER_N
               | [] => false
               end)
      && bs_n_free t
  end.

(** The first unit of the text, if any, is not [b]. *)
Definition headNot (b : N) (s : str) : Prop :=
  match s with
  | y :: _ => N.eqb y b = false
  | [] => True
  end.

(** A logical line the encoder may write: not empty, on one line, and not
    a continuation. *)
Definition goodLine (l : str) : Prop :=
  l <> [] /\ includes CR l = false /\ includes LF l = false
  /\ VCard.is_continuation l = false.

(** The physical lines of the pieces of a folded line. *)
Definition phys (chunks : list str) : list str :=
  match chunks with
  | [] => []
  | c1 :: rest => c1 :: map (cons SPACE) rest
  end.

(** The physical lines [fold_line] writes for a logical line. *)
Definition physical (l : str) : list str :=
  if Nat.leb (byteLength l) 75 then [l]
  else match VCard.fold_loop (length l) l true with
       | Some chunks => phys chunks
       | None => [l]
       end.

(** *** The properties of a card, by section

    The encoder writes a card section by section; every line of a section
    has the section's property name, its parameters behind semicolons, a
    colon and its value. *)

Abbreviation section := (str * list (list str * str))%type.

Definition prop (n : str) (pv : list str * str) : VCard.VCardProperty :=
  {| VCard.vp_name := n; VCard.vp_params := fst pv; VCard.vp_value := snd pv |}.

Definition lineOf (n : str) (pv : list str * str) : str :=
  n ++ VCard.paramStr (fst pv) ++ COLON :: snd pv.

Definition entriesOf (s : section) : list VCard.VCardProperty :=
  map (prop (fst s)) (snd s).

Definition linesOf (s : section) : list str := map (lineOf (fst s)) (snd s).

Definition nValue (n : ContactName) : str :=
  VCard.escapeVCardValue (or_empty (n_familyName n)) ++ [SEMI]
  ++ VCard.escapeVCardValue (or_empty (n_givenName n)) ++ [SEMI]
  ++ VCard.escapeVCardValue (or_empty (n_middleName n)) ++ [SEMI]
  ++ VCard.escapeVCardValue (or_empty (n_prefix n)) ++ [SEMI]
  ++ VCard.escapeVCardValue (or_empty (n_suffix n)).

Definition emailPV (e : ContactEmail) : list str * str :=
  (VCard.typeParam (e_type e) ++ VCard.prefParam (e_primary e),
   VCard.escapeVCardValue (e_value e)).

Definition phonePV (p : ContactPhone) : list str * str :=
  (VCard.typeParam (p_type p) ++ VCard.prefParam (p_primary p),
   VCard.escapeVCardValue (p_value p)).

Definition addressValue (a : ContactAddress) : str :=
  [SEMI; SEMI]
  ++ VCard.escapeVCardValue (or_empty (a_street a)) ++ [SEMI]
  ++ VCard.escapeVCardValue (or_empty (a_city a)) ++ [SEMI]
  ++ VCard.escapeVCardValue (or_empty (a_state a)) ++ [SEMI]
  ++ VCard.escapeVCardValue (or_empty (a_postalCode a)) ++ [SEMI]
  ++ VCard.escapeVCardValue (or_empty (a_country a)).

Definition addressPV (a : ContactAddress) : list str * str :=
  (VCard.typeParam (a_type a), addressValue a).

Definition urlPV (u : ContactUrl) : list str * str :=
  (VCard.typeParam (u_type u), VCard.escapeVCardValue (u_value u)).

Definition orgValue (o : ContactOrganization) : str :=
  VCard.escapeVCardValue (or_empty (o_name o))
  ++ (if truthy (o_department o)
      then SEMI :: VCard.escapeVCardValue (or_empty (o_department o))
      else []).

Definition orgPV (org : option ContactOrganization) : list (list str * str) :=
  match org with
  | Some o => if truthy (o_name o) then [([], orgValue o)] else []
  | None => []
  end.

Definition titlePV (org : option ContactOrganization)
  : list (list str * str) :=
  match org with
  | Some o =>
      if truthy (o_title o)
      then [([], VCard.escapeVCardValue (or_empty (o_title o)))] else []
  | None => []
  end.

Definition optPV (conv : str -> str) (o : option str)
  : list (list str * str) :=
  if truthy o then [([], conv (or_empty o))] else [].

Definition categoriesPV (cats : list str) : list (list str * str) :=
  match cats with
  | [] => []
  | _ :: _ => [([], join [COMMA] (map VCard.escapeVCardValue cats))]
  end.

Definition providerIdsPV (ids : gmap str str) : list (list str * str) :=
  if bool_decide (ids = ∅) then []
  else [([], VCard.escapeVCardValue (Json.stringify ids))].

Definition archivedPV (a : bool) : list (list str * str) :=
  if a then [([], lit "true")] else [].

Definition sections (c : Contact) : list section :=
  [ (lit "VERSION", [([], lit "4.0")]);
    (lit "UID", [([], lit "urn:uuid:" ++ id c)]);
    (lit "FN", [([], VCard.escapeVCardValue (fullName c))]);
    (lit "N", [([], nValue (name c))]);
    (lit "EMAIL", map emailPV (emails c));
    (lit "TEL", map phonePV (phones c));
    (lit "ADR", map addressPV (addresses c));
    (lit "ORG", orgPV (organization c));
    (lit "TITLE", titlePV (organization c));
    (lit "BDAY", optPV (fun s => s) (birthday c));
    (lit "ANNIVERSARY", optPV (fun s => s) (anniversary c));
    (lit "URL", map urlPV (urls c));
    (lit "NOTE", optPV VCard.escapeVCardValue (notes c));
    (lit "CATEGORIES", categoriesPV (categories c));
    (lit "PHOTO", optPV (fun s => s) (photo c));
    (lit "REV", [([], modified (metadata c))]);
    (lit "X-CONTACTS-MCP-SOURCE",
     optPV VCard.escapeVCardValue (source (metadata c)));
    (lit "X-CONTACTS-MCP-PROVIDER-IDS",
     providerIdsPV (providerIds (metadata c)));
    (lit "X-CONTACTS-MCP-CREATED", [([], created (metadata c))]);
    (lit "X-CONTACTS-MCP-ARCHIVED", archivedPV (archived (metadata c))) ].

(** The properties the decoder reads from the card of [c]. *)
Definition entries (c : Contact) : list VCard.VCardProperty :=
  flat_map entriesOf (sections c).

(** The test of [PropertyMap.get] and [getAll]. *)
Definition named (n : str) (e : VCard.VCardProperty) : bool :=
  str_eqb (VCard.vp_name e) (toUpperCase n).

(** *** The contacts the codec preserves *)

Definition nonEmpty (s : str) : bool := negb (Nat.eqb (length s) 0).

(** An optional text that is absent, or present and not empty with [P]. *)
Definition optAll (P : str -> bool) (o : option str) : bool :=
  match o with
  | None => true
  | Some s => nonEmpty s && P s
  end.

Definition defined {A} (o : option A) : bool :=
  match o with Some _ => true | None => false end.

(** Text written as it is: on one line. *)
Definition rawText (s : str) : bool :=
  negb (includes CR s) && negb (includes LF s).

(** Text written escaped: no carriage return, and no backslash before an
    [n]. *)
Definition escText (s : str) : bool := negb (includes CR s) && bs_n_free s.

(** A component of a structured value, and an item of a list value. *)
Definition partText (s : str) : bool := escText s && negb (includes SEMI s).
Definition itemText (s : str) : bool := escText s && negb (includes COMMA s).

(** A [type]: small ASCII letters, as all the types of [types/contact.ts]
    are. *)
Definition is_lower (c : N) : bool := N.leb 97 c && N.leb c 122.
Definition typeText (s : str) : bool := forallb is_lower s.

(** A provider name or identifier that [JSON.stringify] writes as it is. *)
Definition plain_unit (c : N) : bool :=
  N.leb 32 c && negb (N.eqb c QUOTE) && negb (N.eqb c BACKSLASH)
  && negb (is_high c) && negb (is_low c).
Definition plainText (s : str) : bool := forallb plain_unit s.

Definition plainMember (kv : str * str) : bool :=
  plainText (fst kv) && plainText (snd kv).

Definition safeName (n : ContactName) : bool :=
  optAll partText (n_prefix n) && optAll partText (n_givenName n)
  && optAll partText (n_middleName n) && optAll partText (n_familyName n)
  && optAll partText (n_suffix n).

Definition safeEmail (e : ContactEmail) : bool :=
  escText (e_value e) && optAll typeText (e_type e) && defined (e_primary e).

Definition safePhone (p : ContactPhone) : bool :=
  escText (p_value p) && optAll typeText (p_type p) && defined (p_primary p)
  && negb (defined (p_originalValue p)).

Definition safeAddress (a : ContactAddress) : bool :=
  optAll partText (a_street a) && optAll partText (a_city a)
  && optAll partText (a_state a) && optAll partText (a_postalCode a)
  && optAll partText (a_country a) && optAll typeText (a_type a).

Definition safeUrl (u : ContactUrl) : bool :=
  escText (u_value u) && optAll typeText (u_type u).

Definition safeOrganization (org : option ContactOrganization) : bool :=
  match org with
  | None => true
  | Some o =>
      optAll partText (o_name o) && optAll partText (o_department o)
      && optAll escText (o_title o)
      && (truthy (o_name o)
          || (truthy (o_title o) && negb (defined (o_department o))))
  end.

Definition safeCategories (cats : list str) : bool :=
  forallb itemText cats
  && match cats with [[]] => false | _ => true end.

Definition safeMetadata (m : ContactMetadata) : bool :=
  rawText (created m) && rawText (modified m) && optAll escText (source m)
  && forallb plainMember (map_to_list (providerIds m))
  && negb (defined (etag m)).

(** The contacts [contactToVCard] and [vcardToContact] take round. *)
Definition codec_safe (c : Contact) : bool :=
  rawText (id c) && escText (fullName c) && safeName (name c)
  && (ContactModel.hasNameFields (Some (name c))
      || negb (nonEmpty (trim (fullName c))))
  && forallb safeEmail (emails c) && forallb safePhone (phones c)
  && forallb safeAddress (addresses c)
  && safeOrganization (organization c)
  && optAll rawText (birthday c) && optAll rawText (anniversary c)
  && forallb safeUrl (urls c) && optAll escText (notes c)
  && safeCategories (categories c) && optAll rawText (photo c)
  && safeMetadata (metadata c).

(** *** The lines the decoder reads back *)

(** A word of the left side of a line: no colon, no semicolon, no line
    break. *)
Definition wordOk (s : str) : bool :=
  negb (includes COLON s) && negb (includes SEMI s) && rawText s.

(** A property name as the encoder writes them. *)
Definition nameOk (n : str) : bool :=
  wordOk n && str_eqb (toUpperCase n) n
  && negb (str_eqb n (lit "BEGIN")) && negb (str_eqb n (lit "END"))
  && nonEmpty n && negb (VCard.is_continuation n).

Definition pvOk (pv : list str * str) : bool :=
  forallb wordOk (fst pv) && rawText (snd pv).

Abbreviation allOk := (Forall (fun pv => pvOk pv = true)).

Definition sectionOk (s : section) : Prop :=
  nameOk (fst s) = true /\ allOk (snd s).

(** Text without control characters and backslashes. *)
Definition cleanText (s : str) : bool :=
  forallb (fun c => N.leb 32 c && negb (N.eqb c BACKSLASH)) s.

End CodecSpec.

(** ** Cards of the codec *)

Module CodecExamples.
Import Examples.

Definition stamp : str := lit "2025-03-04T05:06:07.000Z".

(** Reading at [stamp] the card written for [c]. *)
Definition roundTrip (c : Contact) : Contact :=
  VCard.vcardToContact stamp (VCard.contactToVCard c).

Definition jurgen : str := lit "J" ++ [252%N] ++ lit "rgen".
Definition muller : str := lit "M" ++ [252%N] ++ lit "ller".

(** A record with text outside ASCII and a surrogate pair, a note of
    several lines that is folded, backslashes, semicolons and commas where
    the codec keeps them, and repeated e-mail addresses, phones and
    addresses. *)
Definition ada : Contact :=
  {| id := lit "3f2c1a9e-7b1d-4c55-9a0e-5d2f8e6b0c11";
     fullName := lit "Dr. " ++ jurgen ++ [SPACE] ++ muller ++ lit ", Jr. "
                 ++ [55357%N; 56832%N];
     name := {| n_prefix := Some (lit "Dr.");
                n_givenName := Some jurgen;
                n_middleName := None;
                n_familyName := Some muller;
                n_suffix := Some (lit "Jr., PhD") |};
     emails := [ {| e_value := lit "jurgen@example.com";
                    e_type := Some (lit "work"); e_primary := Some true |};
                 {| e_value := lit "jm@example.org";
                    e_type := None; e_primary := Some false |} ];
     phones := [ {| p_value := lit "+14155550100"; p_originalValue := None;
                    p_type := Some (lit "mobile"); p_primary := Some true |};
                 {| p_value := lit "+14155550101"; p_originalValue := None;
                    p_type := None; p_primary := Some false |} ];
     addresses := [ {| a_street := Some (lit "1 Main St, Suite 5");
                       a_city := Some (lit "Springfield");
                       a_state := None;
                       a_postalCode := Some (lit "12345");
                       a_country := Some (lit "US");
                       a_type := Some (lit "home") |};
                    {| a_street := None; a_city := Some (lit "Berlin");
                       a_state := None; a_postalCode := None;
                       a_country := Some (lit "DE"); a_type := None |} ];
     organization := Some {| o_name := Some (lit "Acme, Inc.");
                             o_department := Some (lit "R&D");
                             o_title := Some (lit "Engineer; Lead") |};
     birthday := Some (lit "1980-01-02");
     anniversary := None;
     urls := [ {| u_value := lit "https://example.com/a;b,c";
                  u_type := Some (lit "work") |} ];
     notes := Some (lit "Met at the conference; talked about parsers, "
                    ++ lit "codecs and line folding." ++ [LF]
                    ++ lit "Files are under C:\\dir " ++ [BACKSLASH]
                    ++ lit " on the share.");
     categories := [lit "friends"; lit "work; team"];
     photo := None;
     metadata := {| created := lit "2024-12-31T23:59:59.000Z";
                    modified := stamp;
                    source := Some (lit "import; csv");
                    providerIds := {[ lit "google" := lit "people/c42" ]};
                    archived := true;
                    etag := None |} |}.

(** Three records of the kinds the specification names: a semicolon in a
    part of the structured name, a comma in a category, and a backslash
    before an [n] in a note. *)
Definition semicolonName : Contact :=
  person (lit "id-1") (lit "Ann Lee; Jr.") (Some (lit "Ann"))
    (Some (lit "Lee; Jr.")).

Definition commaCategory : Contact :=
  Merge.set_categories [lit "friends, close"]
    (person (lit "id-2") (lit "Ann Lee") (Some (lit "Ann")) (Some (lit "Lee"))).

Definition backslashNote : Contact :=
  Merge.set_notes (Some (lit "C:" ++ [BACKSLASH] ++ lit "new"))
    (person (lit "id-3") (lit "Ann Lee") (Some (lit "Ann")) (Some (lit "Lee"))).

End CodecExamples.

(** ** Further cards and records *)

Module CodecCases.
Import Examples.


(** A text with the four characters the codec escapes, and no backslash
    before an [n]. *)
Definition specialText : str :=
  lit "a;b,c" ++ [BACKSLASH] ++ lit "d" ++ [LF] ++ lit "e"
  ++ [BACKSLASH; BACKSLASH] ++ lit "f".

(** Three logical lines, the second of 160 octets. *)
Definition threeLines : list str :=
  [lit "FN:Ann"; lit "NOTE:" ++ repeat 120%N 155; lit "UID:1"].

(** A line of 150 octets: its second physical line takes 76. *)
Definition line150 : str := lit "NOTE:" ++ repeat 120%N 145.

(** A second record the codec keeps. *)
Definition bob : Contact :=
  person (lit "id-9") (lit "Bob Stone") (Some (lit "Bob")) (Some (lit "Stone")).

End CodecCases.

Module FoldSpec.

(** The sizes of the pieces [foldLines] cuts a line into: the first within
    75 octets ([first]) or 74, the following within 74, the last within
    75. *)
Fixpoint fits (first : bool) (chunks : list str) : Prop :=
  match chunks with
  | [] => True
  | c :: rest =>
      match rest with
      | [] => byteLength c <= 75
      | _ :: _ => byteLength c <= (if first then 75 else 74) /\ fits false rest
      end
  end.

(** The sizes of the physical lines: all within 75 octets but the last,
    which is within [bound]. *)
Fixpoint sized (bound : nat) (lines : list str) : Prop :=
  match lines with
  | [] => True
  | p :: rest =>
      match rest with
      | [] => byteLength p <= bound
      | _ :: _ => byteLength p <= 75 /\ sized bound rest
      end
  end.

End FoldSpec.

(** ** Files of cards *)

Module ImportSpec.
Import ImportTool.

(** [toUpperCase] on the ASCII letters only, as a platform. *)
Definition asciiCasing : Casing := {| uppercase := Js.toUpperCase |}.

Definition is_ascii (c : N) : bool := N.ltb c 128.

Section WithCasing.
Context `{Casing}.

(** What the proofs take from [toUpperCase]: the empty text stays empty,
    and an ASCII unit at the head of a text is converted by itself. *)
Definition asciiUpper : Prop :=
  uppercase [] = []
  /\ forall x s, is_ascii x = true ->
       uppercase (x :: s) = upper_unit x :: uppercase s.

(** A line that neither opens nor closes a card. *)
Definition inner (line : str) : Prop :=
  isBegin line = false /\ isEnd line = false.

(** A card [splitVCards] returns: a line that opens it, inner lines, and
    a line that closes it, joined by CRLF. *)
Definition cardShape (card : str) : Prop :=
  exists b mid e,
    card = join CRLF (b :: mid ++ [e])
    /\ isBegin b = true /\ Forall inner mid
    /\ isBegin e = false /\ isEnd e = true.

(** The cards of a list of lines, read from a line outside a card: a line
    that does not open a card is dropped; a card is an opening line, inner
    lines and a closing line; an opening line and inner lines that are
    followed by another opening line, or by the end of the lines, are
    dropped. *)
Inductive cardsOf : list str -> list (list str) -> Prop :=
| cards_none : cardsOf [] []
| cards_outside line lines cards :
    isBegin line = false -> cardsOf lines cards ->
    cardsOf (line :: lines) cards
| cards_card b mid e lines cards :
    isBegin b = true -> Forall inner mid ->
    isBegin e = false -> isEnd e = true ->
    cardsOf lines cards ->
    cardsOf (b :: mid ++ e :: lines) ((b :: mid ++ [e]) :: cards)
| cards_reopened b mid b' lines cards :
    isBegin b = true -> Forall inner mid -> isBegin b' = true ->
    cardsOf (b' :: lines) cards ->
    cardsOf (b :: mid ++ b' :: lines) cards
| cards_open b mid :
    isBegin b = true -> Forall inner mid -> cardsOf (b :: mid) [].

(** The state of the loop between two lines. *)
Definition splitInv (state : list str * list str * bool) : Prop :=
  Forall cardShape (fst (fst state))
  /\ (snd state = true ->
      exists b mid, snd (fst state) = b :: mid
                    /\ isBegin b = true /\ Forall inner mid).

End WithCasing.

(** The physical lines of the card of a contact. *)
Definition physLines (c : Contact) : list str :=
  concat (map CodecSpec.physical (VCard.vcardLines c)).

(** A file with text around and between two cards, the second opened
    twice. *)
Definition messyFile : str :=
  join [LF] [lit "junk"; lit "begin:vcard"; lit "FN:A"; lit "END:VCARD";
             lit "between"; lit "BEGIN:VCARD"; lit "FN:lost";
             lit "BEGIN:VCARD"; lit "FN:B"; lit "end:vcard"; lit "END:VCARD"].

End ImportSpec.

(** ** Candidates of the duplicate detector *)

Module DedupMoreSpec.
Import Dedup.

(** The values a confidence takes. *)
Definition confidenceValues : list Q :=
  [0 # 100; 50 # 100; 65 # 100; 70 # 100; 85 # 100; 90 # 100; 95 # 100;
   100 # 100]%Q.

(** [a] does not sort after [b]: its confidence is not the smaller one. *)
Definition notBelow (a b : DuplicateCandidate) : Prop :=
  (confidence b <= confidence a)%Q.

(** [[a.id, b.id].sort().join(':')] on the two summaries of a candidate. *)
Definition candidateKey (cand : DuplicateCandidate) : str :=
  if str_ltb (s_id (contactB cand)) (s_id (contactA cand))
  then s_id (contactB cand) ++ [COLON] ++ s_id (contactA cand)
  else s_id (contactA cand) ++ [COLON] ++ s_id (contactB cand).

(** Sorted with the greatest confidence first. *)
Fixpoint descending (l : list DuplicateCandidate) : Prop :=
  match l with
  | [] => True
  | x :: rest => Forall (notBelow x) rest /\ descending rest
  end.

Section WithPlatform.
Context `{Platform}.

(** The candidate [findDuplicates] files for the pair [a], [b]. *)
Definition candidateOf (a b : Contact) : DuplicateCandidate :=
  {| contactA := toSummary a; contactB := toSummary b;
     confidence := cmp_confidence (compareContacts a b);
     matchedFields := cmp_matchedFields (compareContacts a b) |}.

End WithPlatform.
End DedupMoreSpec.

(** ** Merged records *)

Module MergeMoreSpec.
Import Merge.

(** The fields a strategy fills, all but the id and the metadata, are the
    same in the two records. *)
Definition sameContent (a b : Contact) : Prop :=
  fullName a = fullName b /\ name a = name b /\ emails a = emails b
  /\ phones a = phones b /\ addresses a = addresses b
  /\ organization a = organization b /\ birthday a = birthday b
  /\ anniversary a = anniversary b /\ urls a = urls b /\ notes a = notes b
  /\ categories a = categories b /\ photo a = photo b.

(** [x] is in [l], up to [key]. *)
Definition heldBy {A} (key : A -> str) (l : list A) (x : A) : Prop :=
  exists y, In y l /\ key y = key x.

Section WithPlatform.
Context `{Platform}.

(** The reading of a record's modification time, 0 when it is no date. *)
Definition modifiedAt (c : Contact) : Z :=
  default 0%Z (dateTime (modified (metadata c))).

Definition datesParse (contacts : list Contact) : Prop :=
  forall c, In c contacts -> dateTime (modified (metadata c)) <> None.

(** Every e-mail address, phone and url of [c] is in [merged] up to the
    key the union compares, and every category of [c] as it is. *)
Definition allHeld (merged : Contact) (c : Contact) : Prop :=
  (forall e, In e (emails c) ->
     heldBy (fun e => lowercase (e_value e)) (emails merged) e)
  /\ (forall p, In p (phones c) -> heldBy p_value (phones merged) p)
  /\ (forall u, In u (urls c) -> heldBy u_value (urls merged) u)
  /\ (forall cat, In cat (categories c) -> In cat (categories merged)).

End WithPlatform.

(** A list in which no element has a larger key than an element before
    it. *)
Fixpoint ranked {A} (k : A -> Z) (l : list A) : Prop :=
  match l with
  | [] => True
  | x :: rest => (forall y, In y rest -> (k y <= k x)%Z) /\ ranked k rest
  end.

End MergeMoreSpec.

Module StoreMoreSpec.
Import Store StoreMore.

(** A text without a surrogate outside a pair: a file written with
    ['utf-8'] is read back as it was. *)
Fixpoint wellFormed (s : str) : bool :=
  match s with
  | [] => true
  | c :: t =>
      if is_high c then
        match t with
        | d :: t' => is_low d && wellFormed t'
        | [] => false
        end
      else negb (is_low c) && wellFormed t
  end.

(** An id that is the name of its file: [<id>.vcf] is one path segment of
    at most 255 octets that the file system and git take literally (no
    [NUL], no [/], and none of [*], [?], [[] and the backslash of git's
    pathspecs), and is read back as it was written. *)
Definition plainId (i : str) : bool :=
  wellFormed i
  && forallb (fun c => negb (existsb (N.eqb c) [0; 47; 42; 63; 91; 92]%N)) i
  && Nat.leb (byteLength i) 251.

Section WithPlatform.
Context `{Platform}.



End WithPlatform.

(** The store of the examples after its only card was deleted for good:
    git has removed [contacts/]. *)
Definition storeEmptied : State :=
  Examples.run (@Store.delete Examples.examplePlatform
                  (Examples.clock 2000 (lit "2025-01-01T00:00:02.000Z"))
                  Examples.janeId true)
               Examples.storeCreated.

End StoreMoreSpec.

Module HistorySpec.
Import StoreMore.





Section WithPlatform.
Context `{Platform}.



End WithPlatform.


End HistorySpec.

(** ** Reading a CSV row

    The reader of RFC 4180 for one record: fields are separated by commas; a
    field that starts with a quote runs to the next quote that is not
    doubled, and a doubled quote in it stands for one quote. *)

Module CsvSpec.
Import ExportTool.











End CsvSpec.

(* ===================================================================== *)
(** * Part III.  Theorems                                                  *)
(* ===================================================================== *)

(** ** Strings *)

Module JsFacts.

Lemma str_eqb_eq (a b : str) : str_eqb a b = true <-> a = b.
Proof.
  revert b. induction a as [|x a IH]; intros [|y b]; simpl; split;
    try congruence; try reflexivity.
  - intros Hab. apply andb_prop in Hab as [Hxy Hab].
    apply N.eqb_eq in Hxy. apply IH in Hab. congruence.
  - intros Hab. injection Hab as -> ->.
    rewrite N.eqb_refl. simpl. now apply IH.
Qed.

Lemma str_eqb_refl (a : str) : str_eqb a a = true.
Proof. now apply str_eqb_eq. Qed.

Lemma str_eqb_neq (a b : str) : str_eqb a b = false <-> a <> b.
Proof.
  rewrite <- str_eqb_eq. destruct (str_eqb a b); split; congruence.
Qed.

Lemma str_eqb_sym (a b : str) : str_eqb a b = str_eqb b a.
Proof.
  destruct (str_eqb a b) eqn:E.
  - apply str_eqb_eq in E. subst. symmetry. apply str_eqb_refl.
  - symmetry. apply str_eqb_neq. apply str_eqb_neq in E. congruence.
Qed.

Lemma str_eqb_spec (a b : str) : reflect (a = b) (str_eqb a b).
Proof.
  destruct (str_eqb a b) eqn:E; constructor.
  - now apply str_eqb_eq.
  - now apply str_eqb_neq.
Qed.

Lemma existsb_str_eqb_In (x : str) (l : list str) :
  existsb (str_eqb x) l = true <-> In x l.
Proof.
  rewrite existsb_exists. split.
  - intros (y & Hy & E). apply str_eqb_eq in E. now subst.
  - intros Hx. exists x. split; [assumption | apply str_eqb_refl].
Qed.

End JsFacts.

Import JsFacts.

(** ** The duplicate detector *)

Module DedupFacts.
Import Dedup DedupSpec.

(** *** [levenshtein] computes the recurrence, which is symmetric *)

Lemma lev_rec_nil_r (x : str) : lev_rec x [] = length x.
Proof. destruct x; reflexivity. Qed.

Lemma lev_rec_sym (x y : str) : lev_rec x y = lev_rec y x.
Proof.
  revert y. induction x as [|c x IHx]; intros y.
  - now rewrite lev_rec_nil_r.
  - induction y as [|d y IHy].
    + reflexivity.
    + simpl. rewrite (N.eqb_sym d c). destruct (N.eqb c d) eqn:E.
      * apply IHx.
      * simpl in IHy. rewrite <- IHy. rewrite (IHx (d :: y)), (IHx y).
        simpl. lia.
Qed.

Lemma rowOf_nil (yb bs : str) :
  rowOf [] yb bs = seq (length yb) (S (length bs)).
Proof.
  revert yb. induction bs as [|d bs IH]; intros yb; simpl.
  - reflexivity.
  - f_equal. apply (IH (d :: yb)).
Qed.

Lemma rowOf_last (x yb bs : str) :
  List.last (rowOf x yb bs) 0 = lev_rec x (rev bs ++ yb).
Proof.
  revert yb. induction bs as [|d bs IH]; intros yb.
  - reflexivity.
  - cbn [rowOf rev]. rewrite <- app_assoc. cbn [app]. rewrite <- IH.
    destruct bs; reflexivity.
Qed.

Lemma lev_row_spec (c : N) (x yb bs : str) :
  lev_row c bs (rowOf x yb bs) (lev_rec (c :: x) yb)
  = tl (rowOf (c :: x) yb bs).
Proof.
  revert yb. induction bs as [|d bs IH]; intros yb.
  - reflexivity.
  - cbn [rowOf lev_row tl].
    assert (Hv : (if N.eqb c d then lev_rec x yb
                  else 1 + Nat.min (Nat.min (lev_rec x (d :: yb))
                                            (lev_rec (c :: x) yb))
                                   (lev_rec x yb))
                 = lev_rec (c :: x) (d :: yb)) by reflexivity.
    destruct bs as [|d' bs'].
    + cbn [rowOf lev_row tl]. now rewrite Hv.
    + specialize (IH (d :: yb)).
      cbn [rowOf] in IH |- *. cbn [lev_row]. cbn [lev_row] in IH.
      rewrite Hv. f_equal. exact IH.
Qed.

Lemma lev_rows_spec (a b x : str) :
  lev_rows a b (length x) (rowOf x [] b) = rowOf (rev a ++ x) [] b.
Proof.
  revert x. induction a as [|c a IH]; intros x.
  - reflexivity.
  - cbn [lev_rows rev]. rewrite <- app_assoc. cbn [app].
    rewrite <- (IH (c :: x)). cbn [length]. f_equal.
    change (S (length x)) with (lev_rec (c :: x) []) at 2.
    rewrite lev_row_spec. destruct b; reflexivity.
Qed.

Lemma levenshtein_rec (a b : str) :
  levenshtein a b = lev_rec (rev a) (rev b).
Proof.
  unfold levenshtein.
  change (seq 0 (S (length b))) with (seq (length (@nil N)) (S (length b))).
  rewrite <- rowOf_nil.
  change (lev_rows a b 0) with (lev_rows a b (length (@nil N))).
  rewrite lev_rows_spec, rowOf_last. now rewrite !app_nil_r.
Qed.

Lemma levenshtein_sym (a b : str) : levenshtein a b = levenshtein b a.
Proof. rewrite !levenshtein_rec. apply lev_rec_sym. Qed.


(** *** The confidence of a pair depends on four comparisons only *)

Section WithPlatform.
Context `{Platform}.

Lemma find_existsb {A} (f : A -> bool) (l : list A) :
  match find f l with Some _ => true | None => false end = existsb f l.
Proof.
  induction l as [|x l IH]; simpl.
  - reflexivity.
  - destruct (f x); [reflexivity | exact IH].
Qed.

Lemma compare_confidence (a b : Contact) :
  cmp_confidence (compareContacts a b)
  = round2 (scoreOf (emailMatch a b) (phoneMatch a b)
                    (computeNameSimilarity a b) (orgMatch a b)).
Proof.
  unfold compareContacts, emailMatch, phoneMatch, shares, orgMatch, scoreOf.
  rewrite <- !find_existsb.
  destruct (find _ (map (fun e => normalizeEmail (e_value e)) (emails a)));
    destruct (find _ (map (fun p => normalizePhone (p_value p)) (phones a)));
    destruct (Qle_bool (85 # 100) (computeNameSimilarity a b));
    destruct (Qle_bool (65 # 100) (computeNameSimilarity a b));
    cbv beta iota zeta;
    match goal with
    | |- context [if ?c && negb (Qle_bool ?s 0) then _ else _] =>
        destruct (c && negb (Qle_bool s 0))
    end; reflexivity.
Qed.

Lemma shares_sym (la lb : list str) : shares la lb = shares lb la.
Proof.
  unfold shares. apply eq_true_iff_eq. rewrite !existsb_exists. split.
  - intros (x & Hx & Hex). apply existsb_str_eqb_In in Hex.
    exists x. split; [assumption | now apply existsb_str_eqb_In].
  - intros (x & Hx & Hex). apply existsb_str_eqb_In in Hex.
    exists x. split; [assumption | now apply existsb_str_eqb_In].
Qed.

Lemma emailMatch_sym (a b : Contact) : emailMatch a b = emailMatch b a.
Proof. apply shares_sym. Qed.

Lemma phoneMatch_sym (a b : Contact) : phoneMatch a b = phoneMatch b a.
Proof. apply shares_sym. Qed.

Lemma orgMatch_sym (a b : Contact) : orgMatch a b = orgMatch b a.
Proof.
  unfold orgMatch.
  rewrite (str_eqb_sym (lowerOf (orgName b)) (lowerOf (orgName a))).
  destruct (truthy (orgName a)), (truthy (orgName b)); reflexivity.
Qed.

Lemma computeNameSimilarity_sym (a b : Contact) :
  computeNameSimilarity a b = computeNameSimilarity b a.
Proof.
  unfold computeNameSimilarity. cbv zeta.
  rewrite (str_eqb_sym (trim (lowercase (fullName b)))
                       (trim (lowercase (fullName a)))).
  rewrite (levenshtein_sym (trim (lowercase (fullName b)))
                           (trim (lowercase (fullName a)))).
  rewrite (Nat.max_comm (length (trim (lowercase (fullName b))))).
  rewrite (str_eqb_sym (lowerOf (n_givenName (name b)))
                       (lowerOf (n_givenName (name a)))).
  rewrite (str_eqb_sym (lowerOf (n_familyName (name b)))
                       (lowerOf (n_familyName (name a)))).
  rewrite (str_eqb_sym (lowerOf (n_givenName (name b)))
                       (lowerOf (n_familyName (name a)))).
  rewrite (str_eqb_sym (lowerOf (n_familyName (name b)))
                       (lowerOf (n_givenName (name a)))).
  rewrite (str_eqb_sym (firstn 1 (lowerOf (n_givenName (name b))))
                       (firstn 1 (lowerOf (n_givenName (name a))))).
  destruct (str_eqb (trim (lowercase (fullName a)))
                    (trim (lowercase (fullName b)))); [reflexivity|].
  destruct (str_eqb (lowerOf (n_givenName (name a))) []),
           (str_eqb (lowerOf (n_familyName (name a))) []),
           (str_eqb (lowerOf (n_givenName (name b))) []),
           (str_eqb (lowerOf (n_familyName (name b))) []);
    cbn [negb andb]; try reflexivity.
  destruct (str_eqb (lowerOf (n_givenName (name a)))
                    (lowerOf (n_givenName (name b)))),
           (str_eqb (lowerOf (n_familyName (name a)))
                    (lowerOf (n_familyName (name b)))),
           (str_eqb (lowerOf (n_givenName (name a)))
                    (lowerOf (n_familyName (name b)))),
           (str_eqb (lowerOf (n_familyName (name a)))
                    (lowerOf (n_givenName (name b))));
    cbn [andb]; try reflexivity;
    destruct (str_eqb (firstn 1 (lowerOf (n_givenName (name a))))
                      (firstn 1 (lowerOf (n_givenName (name b)))));
    cbn [andb]; try reflexivity;
    destruct (Nat.eqb (length (lowerOf (n_givenName (name a)))) 1),
             (Nat.eqb (length (lowerOf (n_givenName (name b)))) 1);
    reflexivity.
Qed.

Lemma scoreOf_sym (a b : Contact) :
  scoreOf (emailMatch a b) (phoneMatch a b) (computeNameSimilarity a b)
          (orgMatch a b)
  = scoreOf (emailMatch b a) (phoneMatch b a) (computeNameSimilarity b a)
            (orgMatch b a).
Proof.
  now rewrite emailMatch_sym, phoneMatch_sym, orgMatch_sym,
    computeNameSimilarity_sym.
Qed.

(** C10.  Pairwise duplicate scoring is symmetric: the confidence computed
    for the pair (a, b) equals the confidence computed for the pair (b, a),
    whatever [toLowerCase] and the phone number parser do. *)
Theorem compareContacts_confidence_symmetric (a b : Contact) :
  cmp_confidence (compareContacts a b) = cmp_confidence (compareContacts b a).
Proof. rewrite !compare_confidence. f_equal. apply scoreOf_sym. Qed.


(** *** Transposed names *)

Lemma swapped_similarity (a b : Contact) :
  lowerOf (n_givenName (name a)) <> [] ->
  lowerOf (n_familyName (name a)) <> [] ->
  lowerOf (n_givenName (name b)) <> [] ->
  lowerOf (n_familyName (name b)) <> [] ->
  lowerOf (n_givenName (name a)) = lowerOf (n_familyName (name b)) ->
  lowerOf (n_familyName (name a)) = lowerOf (n_givenName (name b)) ->
  trim (lowercase (fullName a)) <> trim (lowercase (fullName b)) ->
  ~ (lowerOf (n_givenName (name a)) = lowerOf (n_givenName (name b))
     /\ lowerOf (n_familyName (name a)) = lowerOf (n_familyName (name b))) ->
  computeNameSimilarity a b = (9 # 10)%Q.
Proof.
  intros Hga Hfa Hgb Hfb Hgf Hfg Hfull Hdirect.
  unfold computeNameSimilarity. cbv zeta.
  apply str_eqb_neq in Hfull, Hga, Hfa, Hgb, Hfb.
  rewrite Hfull, Hga, Hfa, Hgb, Hfb. cbn [negb andb].
  destruct (str_eqb_spec (lowerOf (n_givenName (name a)))
                         (lowerOf (n_givenName (name b)))) as [Eg|Eg];
    destruct (str_eqb_spec (lowerOf (n_familyName (name a)))
                           (lowerOf (n_familyName (name b)))) as [Ef|Ef];
    cbn [andb]; try (exfalso; apply Hdirect; now split);
    rewrite Hgf, Hfg, !str_eqb_refl; reflexivity.
Qed.

Lemma score_with_swapped_names (email phone org : bool) :
  Qle_bool (70 # 100) (round2 (scoreOf email phone (9 # 10) org)) = true.
Proof. destruct email, phone, org; vm_compute; reflexivity. Qed.

Lemma name_field_recorded (a b : Contact) :
  computeNameSimilarity a b = (9 # 10)%Q ->
  In {| field := lit "name"; valueA := fullName a; valueB := fullName b;
        similarity := (9 # 10)%Q; matchType := fuzzy |}
     (cmp_matchedFields (compareContacts a b)).
Proof.
  intros Hsim. unfold compareContacts. rewrite Hsim.
  change (Qle_bool (85 # 100) (9 # 10)) with true.
  change (Qeq_bool (9 # 10) 1) with false.
  destruct (find _ (map (fun e => normalizeEmail (e_value e)) (emails a)));
    destruct (find _ (map (fun p => normalizePhone (p_value p)) (phones a)));
    cbv beta iota zeta;
    match goal with
    | |- context [if ?c then _ else _] => destruct c
    end; cbn [cmp_matchedFields]; rewrite ?in_app_iff; cbn [In]; tauto.
Qed.

(** C8.  For every pair of contacts where both have non-empty given-name
    and family-name parts, the given name of one equals the family name of
    the other in both directions (case-insensitive), the full lowercase
    names are not equal, and the given/family parts are not directly equal,
    the name similarity is 0.90, which falls in the >= 0.85 bucket: the name
    is recorded as a matched field with that similarity, contributes 0.70
    (not 0.50), the confidence of the pair is at least 0.70, and exactly
    0.70 when no email, phone or organization matches. *)
Theorem swapped_names_contribute_70 (a b : Contact) :
  lowerOf (n_givenName (name a)) <> [] ->
  lowerOf (n_familyName (name a)) <> [] ->
  lowerOf (n_givenName (name b)) <> [] ->
  lowerOf (n_familyName (name b)) <> [] ->
  lowerOf (n_givenName (name a)) = lowerOf (n_familyName (name b)) ->
  lowerOf (n_familyName (name a)) = lowerOf (n_givenName (name b)) ->
  trim (lowercase (fullName a)) <> trim (lowercase (fullName b)) ->
  ~ (lowerOf (n_givenName (name a)) = lowerOf (n_givenName (name b))
     /\ lowerOf (n_familyName (name a)) = lowerOf (n_familyName (name b))) ->
  computeNameSimilarity a b = (9 # 10)%Q
  /\ nameContribution (computeNameSimilarity a b) = (70 # 100)%Q
  /\ In {| field := lit "name"; valueA := fullName a; valueB := fullName b;
           similarity := (9 # 10)%Q; matchType := fuzzy |}
        (cmp_matchedFields (compareContacts a b))
  /\ Qle_bool (70 # 100) (cmp_confidence (compareContacts a b)) = true
  /\ (emailMatch a b = false -> phoneMatch a b = false ->
      orgMatch a b = false ->
      cmp_confidence (compareContacts a b) = (70 # 100)%Q).
Proof.
  intros Hga Hfa Hgb Hfb Hgf Hfg Hfull Hdirect.
  pose proof (swapped_similarity a b Hga Hfa Hgb Hfb Hgf Hfg Hfull Hdirect)
    as Hsim.
  split; [exact Hsim|]. split; [now rewrite Hsim|].
  split; [now apply name_field_recorded|].
  rewrite compare_confidence, Hsim. split.
  - apply score_with_swapped_names.
  - intros -> -> ->. reflexivity.
Qed.

End WithPlatform.

(** "John Smith" against "Smith John". *)
Lemma swapped_names_contribute_70_witness :
  @computeNameSimilarity Examples.examplePlatform
     Examples.johnSmith Examples.smithJohn = (9 # 10)%Q
  /\ cmp_confidence (@compareContacts Examples.examplePlatform
                       Examples.johnSmith Examples.smithJohn) = (70 # 100)%Q.
Proof.
  pose proof (@swapped_names_contribute_70 Examples.examplePlatform
                Examples.johnSmith Examples.smithJohn) as T.
  destruct T as (Hsim & _ & _ & _ & Hconf);
    try (vm_compute; congruence).
  - vm_compute. intros [E _]. congruence.
  - split; [exact Hsim | apply Hconf; reflexivity].
Defined.

End DedupFacts.

(** ** What [findDuplicates] reports for a pair with a shared e-mail *)

Module DedupReport.
Import Dedup DedupSpec DedupFacts.

(** *** Blocks *)

Lemma blockOf_push (k key : str) (c : Contact)
  (blocks : list (str * list Contact)) :
  blockOf k (block_push key c blocks)
  = if str_eqb key k then blockOf k blocks ++ [c] else blockOf k blocks.
Proof.
  unfold blockOf. induction blocks as [|[k0 bl] rest IH]; cbn [block_push].
  - cbn [find fst snd]. destruct (str_eqb key k); reflexivity.
  - destruct (str_eqb_spec k0 key) as [->|Hne]; cbn [find fst snd].
    + destruct (str_eqb key k); reflexivity.
    + destruct (str_eqb_spec k0 k) as [->|Hne'].
      * apply str_eqb_neq in Hne. rewrite str_eqb_sym in Hne.
        now rewrite Hne.
      * exact IH.
Qed.

Lemma blockOf_push_keys (k : str) (c : Contact) (keys : list str)
  (blocks : list (str * list Contact)) :
  blockOf k (fold_left (fun bs key => block_push key c bs) keys blocks)
  = blockOf k blocks ++ added k c keys.
Proof.
  unfold added. revert blocks.
  induction keys as [|key keys IH]; intros blocks; cbn [fold_left List.filter].
  - cbn. now rewrite app_nil_r.
  - rewrite IH, blockOf_push. destruct (str_eqb key k); cbn [length repeat].
    + now rewrite <- app_assoc.
    + reflexivity.
Qed.

Lemma added_In (k : str) (c : Contact) (keys : list str) :
  In k keys -> In c (added k c keys).
Proof.
  unfold added. intros Hk.
  destruct (List.filter (fun key => str_eqb key k) keys) as [|x l] eqn:E.
  - assert (Hin : In k (List.filter (fun key => str_eqb key k) keys))
      by (apply filter_In; split; [assumption | apply str_eqb_refl]).
    rewrite E in Hin. destruct Hin.
  - now left.
Qed.

Lemma In_block_pairs (a b : Contact) (l : list Contact) :
  In a l -> In b l -> a <> b ->
  In (a, b) (block_pairs l) \/ In (b, a) (block_pairs l).
Proof.
  induction l as [|x l IH]; intros Ha Hb Hne; [destruct Ha|].
  cbn [block_pairs]. rewrite !in_app_iff, !in_map_iff.
  destruct Ha as [->|Ha], Hb as [->|Hb].
  - congruence.
  - left. left. now exists b.
  - right. left. now exists a.
  - destruct (IH Ha Hb Hne); tauto.
Qed.

Lemma block_pairs_In (x y : Contact) (l : list Contact) :
  In (x, y) (block_pairs l) -> In x l /\ In y l.
Proof.
  induction l as [|z l IH]; [intros []|].
  cbn [block_pairs]. rewrite in_app_iff, in_map_iff.
  intros [(w & E & Hw)|Hxy].
  - injection E as <- <-. split; [now left | now right].
  - destruct (IH Hxy). split; now right.
Qed.

Section WithPlatform.
Context `{Platform}.

Lemma buildBlocks_blockOf (k : str) (contacts : list Contact)
  (blocks : list (str * list Contact)) :
  blockOf k (fold_left addContact contacts blocks)
  = blockOf k blocks
    ++ flat_map (fun c => added k c (blockKeys c)) contacts.
Proof.
  revert blocks. induction contacts as [|c cs IH]; intros blocks.
  - cbn. now rewrite app_nil_r.
  - cbn [fold_left flat_map]. rewrite IH. unfold addContact.
    rewrite blockOf_push_keys. now rewrite <- app_assoc.
Qed.

Lemma blockOf_buildBlocks_In (k : str) (contacts : list Contact) (c : Contact) :
  In c contacts -> In k (blockKeys c) ->
  In c (blockOf k (buildBlocks contacts)).
Proof.
  intros Hc Hk. unfold buildBlocks.
  change (fun blocks contact =>
            fold_left (fun blocks0 key => block_push key contact blocks0)
                      (blockKeys contact) blocks) with addContact.
  rewrite buildBlocks_blockOf. cbn [blockOf find app].
  apply in_flat_map. exists c. split; [assumption | now apply added_In].
Qed.

(** A block that is not empty is one of the blocks. *)
Lemma blockOf_is_block (k : str) (blocks : list (str * list Contact))
  (c : Contact) :
  In c (blockOf k blocks) -> exists kb, In kb blocks /\ snd kb = blockOf k blocks.
Proof.
  unfold blockOf.
  destruct (find (fun kb => str_eqb (fst kb) k) blocks) as [kb|] eqn:E.
  - intros _. exists kb. split; [|reflexivity].
    apply find_some in E. tauto.
  - intros [].
Qed.

(** Every member of a block is one of the contacts. *)
Lemma block_push_members (key : str) (c : Contact)
  (blocks : list (str * list Contact)) (P : Contact -> Prop) :
  P c ->
  (forall kb x, In kb blocks -> In x (snd kb) -> P x) ->
  forall kb x, In kb (block_push key c blocks) -> In x (snd kb) -> P x.
Proof.
  intros Pc. induction blocks as [|[k0 bl] rest IH]; intros Hall kb x;
    cbn [block_push].
  - intros [<-|[]] [<-|[]]. exact Pc.
  - destruct (str_eqb k0 key).
    + intros [<-|Hkb] Hx.
      * cbn [snd] in Hx. apply in_app_iff in Hx as [Hx|[<-|[]]];
          [|exact Pc]. apply (Hall (k0, bl)); [now left | exact Hx].
      * apply (Hall kb); [now right | exact Hx].
    + intros [<-|Hkb] Hx.
      * apply (Hall (k0, bl)); [now left | exact Hx].
      * apply (IH (fun kb' x' Hkb' => Hall kb' x' (or_intror Hkb')) kb x Hkb Hx).
Qed.

Lemma buildBlocks_members (contacts : list Contact) (kb : str * list Contact)
  (x : Contact) :
  In kb (buildBlocks contacts) -> In x (snd kb) -> In x contacts.
Proof.
  unfold buildBlocks.
  enough (G : forall cs blocks (P : Contact -> Prop),
            (forall c, In c cs -> P c) ->
            (forall kb x, In kb blocks -> In x (snd kb) -> P x) ->
            forall kb x,
              In kb (fold_left
                       (fun blocks contact =>
                          fold_left (fun bs key => block_push key contact bs)
                                    (blockKeys contact) blocks) cs blocks) ->
              In x (snd kb) -> P x).
  { apply (G contacts [] (fun c => In c contacts)); [auto | intros ? ? []]. }
  induction cs as [|c cs IH]; intros blocks P Hcs Hblocks; cbn [fold_left].
  - exact Hblocks.
  - apply IH; [intros c' Hc'; apply Hcs; now right|].
    assert (Pc : P c) by (apply Hcs; now left).
    generalize (blockKeys c). intros keys. revert blocks Hblocks.
    induction keys as [|key keys IHk]; intros blocks Hblocks; cbn [fold_left].
    + exact Hblocks.
    + apply IHk. now apply block_push_members.
Qed.

(** *** Pair keys *)

Lemma colon_split (u v u' v' : str) :
  includes COLON u = false -> includes COLON u' = false ->
  u ++ [COLON] ++ v = u' ++ [COLON] ++ v' -> u = u' /\ v = v'.
Proof.
  unfold includes. revert u'.
  induction u as [|x u IH]; intros [|x' u']; cbn [existsb app];
    intros Hu Hu' E.
  - injection E as ->. now split.
  - injection E as <- _. cbn in Hu'. discriminate.
  - injection E as -> _. cbn in Hu. discriminate.
  - injection E as -> E.
    apply orb_false_elim in Hu as [_ Hu], Hu' as [_ Hu'].
    destruct (IH u' Hu Hu' E) as [-> ->]. now split.
Qed.

Lemma pairKey_inj (x y a b : Contact) :
  includes COLON (id x) = false -> includes COLON (id y) = false ->
  includes COLON (id a) = false -> includes COLON (id b) = false ->
  pairKey x y = pairKey a b ->
  (id x = id a /\ id y = id b) \/ (id x = id b /\ id y = id a).
Proof.
  intros Hx Hy Ha Hb. unfold pairKey.
  destruct (str_ltb (id y) (id x)), (str_ltb (id b) (id a)); intros E;
    apply colon_split in E as [E1 E2]; auto.
Qed.

(** *** The loop over the pairs *)

Lemma visit_keeps (threshold : Q) (seen : list str)
  (cands : list DuplicateCandidate) (ab : Contact * Contact)
  (cand : DuplicateCandidate) :
  In cand cands -> In cand (snd (visit threshold (seen, cands) ab)).
Proof.
  intros Hc. unfold visit. destruct ab as [x y].
  destruct (existsb _ seen); [exact Hc|]. cbn [snd].
  destruct (Qle_bool _ _); [apply in_app_iff; now left | exact Hc].
Qed.

Lemma visit_loop (threshold : Q) (a b : Contact)
  (good : DuplicateCandidate -> Prop) (ps : list (Contact * Contact)) :
  (forall x y, In (x, y) ps -> pairKey x y = pairKey a b ->
     Qle_bool threshold (cmp_confidence (compareContacts x y)) = true
     /\ good {| contactA := toSummary x; contactB := toSummary y;
                confidence := cmp_confidence (compareContacts x y);
                matchedFields := cmp_matchedFields (compareContacts x y) |}) ->
  forall seen cands,
    (In (pairKey a b) seen -> exists cand, In cand cands /\ good cand) ->
    ((exists x y, In (x, y) ps /\ pairKey x y = pairKey a b)
     \/ In (pairKey a b) seen) ->
    exists cand,
      In cand (snd (fold_left (visit threshold) ps (seen, cands)))
      /\ good cand.
Proof.
  induction ps as [|[x y] ps IH]; intros Hgood seen cands Hseen Hex.
  - cbn. destruct Hex as [(x & y & [] & _)|Hin]. now apply Hseen.
  - cbn [fold_left].
    assert (Hgood' : forall x' y', In (x', y') ps ->
              pairKey x' y' = pairKey a b ->
              Qle_bool threshold (cmp_confidence (compareContacts x' y')) = true
              /\ good {| contactA := toSummary x'; contactB := toSummary y';
                         confidence := cmp_confidence (compareContacts x' y');
                         matchedFields :=
                           cmp_matchedFields (compareContacts x' y') |})
      by (intros x' y' Hin; apply Hgood; now right).
    unfold visit at 2.
    destruct (existsb (str_eqb (pairKey x y)) seen) eqn:Eseen.
    + apply (IH Hgood' seen cands Hseen).
      destruct Hex as [(x' & y' & [E|Hin] & Hk)|Hin]; [| |now right].
      * injection E as <- <-. right. rewrite <- Hk.
        now apply existsb_str_eqb_In.
      * left. now exists x', y'.
    + destruct (str_eqb_spec (pairKey x y) (pairKey a b)) as [Hk|Hk].
      * destruct (Hgood x y (or_introl eq_refl) Hk) as [Hthr Hg].
        rewrite Hthr.
        apply IH; [exact Hgood' | | right; rewrite <- Hk; now left].
        intros _. eexists. split; [apply in_app_iff; right; now left|].
        exact Hg.
      * apply IH; [exact Hgood' | |].
        -- intros [E|Hin]; [congruence|].
           destruct (Hseen Hin) as (cand & Hc & Hg). exists cand.
           split; [|exact Hg].
           destruct (Qle_bool _ _); [apply in_app_iff; now left | exact Hc].
        -- destruct Hex as [(x' & y' & [E|Hin] & Hk')|Hin].
           ++ injection E as <- <-. congruence.
           ++ left. now exists x', y'.
           ++ right. now right.
Qed.

(** *** Sorting and the limit *)

Lemma insert_desc_In (x y : DuplicateCandidate) (l : list DuplicateCandidate) :
  In y (insert_desc x l) <-> y = x \/ In y l.
Proof.
  induction l as [|z l IH]; cbn [insert_desc In].
  - intuition.
  - destruct (Qle_bool (confidence x) (confidence z)); cbn [In];
      rewrite ?IH; intuition.
Qed.

Lemma sort_desc_In (l : list DuplicateCandidate) (y : DuplicateCandidate) :
  In y (sort_desc l) <-> In y l.
Proof.
  unfold sort_desc.
  enough (G : forall acc,
            In y (fold_left (fun sorted x => insert_desc x sorted) l acc)
            <-> In y acc \/ In y l) by (rewrite G; cbn; tauto).
  induction l as [|x l IH]; intros acc; cbn [fold_left In].
  - tauto.
  - rewrite IH, insert_desc_In. intuition.
Qed.

Lemma firstn_short {A} (n : nat) (l : list A) :
  length (firstn n l) < n -> firstn n l = l.
Proof.
  revert l. induction n as [|n IH]; intros l; [cbn; lia|].
  destruct l as [|x l]; [reflexivity|]. cbn [firstn length]. intros Hlen.
  f_equal. apply IH. lia.
Qed.

Lemma slice_to_prefix {A} (limit : Z) (l : list A) :
  exists n, slice_to limit l = firstn n l.
Proof. unfold slice_to. destruct (Z.ltb limit 0); eauto. Qed.

Lemma slice_to_short {A} (limit : Z) (l : list A) :
  (Z.of_nat (length (slice_to limit l)) < limit)%Z -> slice_to limit l = l.
Proof.
  unfold slice_to. destruct (Z.ltb_spec limit 0) as [Hneg|Hpos]; [lia|].
  intros Hlen. apply firstn_short. lia.
Qed.

(** *** The confidence of a pair with a shared e-mail address *)

Lemma shared_email_confidence (a b : Contact) :
  emailMatch a b = true ->
  cmp_confidence (compareContacts a b) = sharedEmailConfidence a b.
Proof.
  intros Hem. rewrite compare_confidence, Hem.
  unfold sharedEmailConfidence, scoreOf.
  destruct (phoneMatch a b), (orgMatch a b),
    (Qle_bool (85 # 100) (computeNameSimilarity a b)),
    (Qle_bool (65 # 100) (computeNameSimilarity a b)); reflexivity.
Qed.

Lemma sharedEmailConfidence_sym (a b : Contact) :
  sharedEmailConfidence a b = sharedEmailConfidence b a.
Proof. unfold sharedEmailConfidence. now rewrite orgMatch_sym. Qed.


(** *** The report *)

Lemma str_ltb_irrefl (a : str) : str_ltb a a = false.
Proof.
  induction a as [|x a IH]; [reflexivity|]. cbn [str_ltb].
  now rewrite N.ltb_irrefl, N.eqb_refl, IH.
Qed.

Lemma str_ltb_total (a b : str) :
  a <> b -> str_ltb a b = negb (str_ltb b a).
Proof.
  revert b. induction a as [|x a IH]; intros [|y b] Hne;
    cbn [str_ltb]; try reflexivity; [congruence|].
  destruct (N.compare_spec x y) as [->|Hlt|Hgt].
  - rewrite N.ltb_irrefl, N.eqb_refl. cbn [orb andb].
    apply IH. congruence.
  - assert (E1 : N.ltb x y = true) by now apply N.ltb_lt.
    assert (E2 : N.ltb y x = false) by (apply N.ltb_ge; lia).
    assert (E3 : N.eqb y x = false) by (apply N.eqb_neq; lia).
    now rewrite E1, E2, E3.
  - assert (E1 : N.ltb x y = false) by (apply N.ltb_ge; lia).
    assert (E2 : N.ltb y x = true) by now apply N.ltb_lt.
    assert (E3 : N.eqb x y = false) by (apply N.eqb_neq; lia).
    now rewrite E1, E2, E3.
Qed.

Lemma pairKey_sym (a b : Contact) :
  id a <> id b -> pairKey b a = pairKey a b.
Proof.
  intros Hne. unfold pairKey. rewrite (str_ltb_total (id a) (id b) Hne).
  destruct (str_ltb (id b) (id a)); reflexivity.
Qed.

Lemma NoDup_map_injective {A B} (f : A -> B) (l : list A) (x y : A) :
  List.NoDup (map f l) -> In x l -> In y l -> f x = f y -> x = y.
Proof.
  induction l as [|z l IH]; [intros _ []|].
  cbn [map]. rewrite NoDup_cons_iff. intros [Hnotin Hnd] [->|Hx] [->|Hy] E.
  - reflexivity.
  - exfalso. apply Hnotin. rewrite E. now apply in_map.
  - exfalso. apply Hnotin. rewrite <- E. now apply in_map.
  - now apply IH.
Qed.

(** C2, as the code has it.  For every input list whose ids are pairwise
    distinct and free of colons, and every two of its records that share
    at least one normalized email value: the confidence of the pair is
    exactly 0.95, whatever their phones and names, unless both carry an
    organization name and the two names are equal up to case, in which case
    it is 1.00; and [findDuplicates] reports the pair with that confidence
    when the two records have a blocking key in common, the threshold does
    not exceed the confidence, and the result is not cut at the limit. *)
Theorem shared_email_pair_reported (contacts : list Contact)
  (options : DedupOptions) (a b : Contact) :
  In a contacts -> In b contacts -> id a <> id b ->
  List.NoDup (map id contacts) ->
  (forall c, In c contacts -> includes COLON (id c) = false) ->
  shareBlock a b ->
  emailMatch a b = true ->
  Qle_bool (default (6 # 10)%Q (threshold options))
           (sharedEmailConfidence a b) = true ->
  (Z.of_nat (length (findDuplicates contacts options))
   < default 50 (limit options))%Z ->
  cmp_confidence (compareContacts a b) = sharedEmailConfidence a b
  /\ exists cand,
       In cand (findDuplicates contacts options)
       /\ pairs cand a b
       /\ confidence cand = sharedEmailConfidence a b.
Proof.
  intros Ha Hb Hid Hnd Hcolon (k & Hka & Hkb) Hem Hthr Hlimit.
  split; [now apply shared_email_confidence|].
  unfold findDuplicates in *. cbv zeta in *.
  set (thr := default (6 # 10)%Q (threshold options)) in *.
  set (ps := flat_map (fun kb => block_pairs (snd kb)) (buildBlocks contacts))
    in *.
  assert (Hmem : forall x y, In (x, y) ps -> In x contacts /\ In y contacts).
  { intros x y Hxy. apply in_flat_map in Hxy as (kb & Hkb' & Hxy).
    apply block_pairs_In in Hxy as [Hx Hy].
    split; eapply buildBlocks_members; eauto. }
  destruct (visit_loop thr a b
              (fun cand => pairs cand a b
                           /\ confidence cand = sharedEmailConfidence a b)
              ps) with (seen := @nil str) (cands := @nil DuplicateCandidate)
    as (cand & Hcand & Hpairs & Hconf).
  - intros x y Hxy Hkey. destruct (Hmem x y Hxy) as [Hx Hy].
    apply pairKey_inj in Hkey as [[Ex Ey]|[Ex Ey]]; auto.
    + apply (NoDup_map_injective id contacts x a Hnd Hx Ha) in Ex.
      apply (NoDup_map_injective id contacts y b Hnd Hy Hb) in Ey.
      subst x y. rewrite shared_email_confidence by assumption.
      repeat split; try assumption. left. now split.
    + apply (NoDup_map_injective id contacts x b Hnd Hx Hb) in Ex.
      apply (NoDup_map_injective id contacts y a Hnd Hy Ha) in Ey.
      subst x y.
      rewrite shared_email_confidence by (now rewrite emailMatch_sym).
      rewrite (sharedEmailConfidence_sym b a).
      repeat split; try assumption. right. now split.
  - intros [].
  - left.
    pose proof (blockOf_buildBlocks_In k contacts a Ha Hka) as Hina.
    pose proof (blockOf_buildBlocks_In k contacts b Hb Hkb) as Hinb.
    destruct (blockOf_is_block k (buildBlocks contacts) a Hina)
      as (kb & Hkb' & Ekb).
    rewrite <- Ekb in Hina, Hinb.
    destruct (In_block_pairs a b (snd kb) Hina Hinb) as [Hab|Hba];
      [congruence | |].
    + exists a, b. split; [|reflexivity].
      apply in_flat_map. now exists kb.
    + exists b, a. split; [|now apply pairKey_sym].
      apply in_flat_map. now exists kb.
  - destruct (fold_left (visit thr) ps ([], [])) as [seen cands].
    cbn [snd] in Hcand. exists cand. split; [|now split].
    rewrite (slice_to_short _ _ Hlimit). now apply sort_desc_In.
Qed.

End WithPlatform.

(** The example of the specification: "Jane Smith" and "J. Smith" with
    the address jane@x.com, at the default threshold and limit. *)
Lemma shared_email_pair_reported_witness :
  exists cand,
    @findDuplicates Examples.examplePlatform
       [Examples.janeSmith; Examples.jSmith] Examples.defaults = [cand]
    /\ confidence cand = (95 # 100)%Q.
Proof.
  destruct (@shared_email_pair_reported Examples.examplePlatform
              [Examples.janeSmith; Examples.jSmith] Examples.defaults
              Examples.janeSmith Examples.jSmith)
    as (_ & cand & Hin & _ & Hconf).
  - now left.
  - right. now left.
  - vm_compute. discriminate.
  - repeat constructor; vm_compute; intuition discriminate.
  - intros c [<-|[<-|[]]]; reflexivity.
  - exists (lit "name:js"). split; vm_compute; auto.
  - vm_compute. reflexivity.
  - vm_compute. reflexivity.
  - vm_compute. reflexivity.
  - exists cand. split; [|exact Hconf].
    assert (Hlen : length (@findDuplicates Examples.examplePlatform
                     [Examples.janeSmith; Examples.jSmith] Examples.defaults)
                   = 1) by (vm_compute; reflexivity).
    destruct (@findDuplicates Examples.examplePlatform
                [Examples.janeSmith; Examples.jSmith] Examples.defaults)
      as [|c0 [|c1 rest]]; try discriminate.
    destruct Hin as [->|[]]. reflexivity.
Defined.

(** C2 as stated fails.  Two records with the address jane@x.com and the
    organization "Acme Corp" / "ACME corp" are reported with confidence
    1.00, not 0.95; and two records with the address "bob" / "BOB", which
    has no domain part, and names with other initials share a normalized
    address but no blocking key, and are not reported at all. *)
Lemma shared_email_not_always_95 :
  let ex := Examples.examplePlatform in
  @emailMatch ex Examples.janeAtAcme Examples.jAtAcme = true
  /\ map confidence
       (@findDuplicates ex [Examples.janeAtAcme; Examples.jAtAcme]
          Examples.defaults) = [(100 # 100)%Q]
  /\ @emailMatch ex Examples.aliceBob Examples.zedBob = true
  /\ @findDuplicates ex [Examples.aliceBob; Examples.zedBob]
       {| threshold := Some 0%Q; limit := None |} = [].
Proof. cbv zeta. repeat split; vm_compute; reflexivity. Qed.

End DedupReport.

(** ** Line folding *)

Module FoldFacts.

(** *** The loop of [foldLines] ends *)

Lemma byteLength_unit (c : N) : 1 <= byteLength [c] <= 3.
Proof.
  simpl. destruct (N.ltb c 128), (N.ltb c 2048), (is_high c); simpl; lia.
Qed.

Lemma byteLength_nonempty (s : str) : 0 < byteLength s -> s <> [].
Proof. destruct s; cbn; [lia | discriminate]. Qed.

Lemma lower_cut_le (limit : nat) (s : str) (cp : nat) :
  lower_cut limit s cp <= cp.
Proof.
  induction cp as [|c IH]; cbn [lower_cut]; [lia|].
  destruct (Nat.ltb limit (byteLength (firstn (S c) s))); lia.
Qed.

Lemma lower_cut_pos (limit : nat) (s : str) (cp : nat) :
  3 <= limit -> 1 <= cp -> 1 <= lower_cut limit s cp.
Proof.
  intros Hlimit. induction cp as [|c IH]; [lia|]. intros _.
  cbn [lower_cut].
  destruct (Nat.ltb limit (byteLength (firstn (S c) s))) eqn:E; [|lia].
  destruct c as [|c]; [|apply IH; lia].
  apply Nat.ltb_lt in E. exfalso.
  destruct s as [|x s]; [cbn in E; lia|].
  change (firstn 1 (x :: s)) with [x] in E.
  pose proof (byteLength_unit x). lia.
Qed.

(** The prefix the inner loop settles on fits the limit. *)
Lemma lower_cut_fits (limit : nat) (s : str) (cp : nat) :
  byteLength (firstn (lower_cut limit s cp) s) <= limit.
Proof.
  induction cp as [|c IH]; cbn [lower_cut].
  - change (firstn 0 s) with (@nil N). cbn [byteLength]. lia.
  - destruct (Nat.ltb limit (byteLength (firstn (S c) s))) eqn:E;
      [exact IH|].
    now apply Nat.ltb_ge in E.
Qed.

(** With one unit of fuel per code unit the outer loop never runs out. *)
Lemma fold_loop_total (fuel : nat) (s : str) (first : bool) :
  length s <= fuel -> exists chunks, fold_loop fuel s first = Some chunks.
Proof.
  revert s first. induction fuel as [|fuel IH]; intros s first Hlen.
  - destruct s; [|cbn in Hlen; lia]. cbn. eauto.
  - cbn [fold_loop]. destruct (Nat.ltb 75 (byteLength s)) eqn:E; [|eauto].
    apply Nat.ltb_lt in E.
    set (limit := if first then 75 else 74).
    assert (Hcut : 1 <= lower_cut limit s limit)
      by (apply lower_cut_pos; destruct first; cbn; lia).
    assert (Hs : s <> []) by (apply byteLength_nonempty; lia).
    destruct (IH (skipn (lower_cut limit s limit) s) false) as [chunks ->].
    + rewrite length_skipn. destruct s; [congruence|]. cbn [length] in *. lia.
    + cbn. eauto.
Qed.

(** What the loop returns: non-empty pieces of the line, in order, the
    first within 75 octets and all but the last within 74. *)
Lemma fold_loop_chunks (fuel : nat) (s : str) (first : bool)
  (chunks : list str) :
  fold_loop fuel s first = Some chunks ->
  concat chunks = s /\ Forall (fun c => c <> []) chunks.
Proof.
  revert s first chunks.
  induction fuel as [|fuel IH]; intros s first chunks; cbn [fold_loop].
  - destruct (Nat.ltb 75 (byteLength s)); [discriminate|].
    intros E. injection E as <-.
    destruct s; cbn; [auto|]. rewrite app_nil_r. split; [reflexivity|].
    constructor; [discriminate | constructor].
  - destruct (Nat.ltb 75 (byteLength s)) eqn:Elong.
    + set (limit := if first then 75 else 74).
      destruct (fold_loop fuel (skipn (lower_cut limit s limit) s) false)
        as [rest|] eqn:Erest; [|discriminate].
      cbn [option_map]. intros E. injection E as <-.
      apply IH in Erest as [Hcat Hne]. cbn [concat]. rewrite Hcat.
      split; [apply firstn_skipn|]. constructor; [|assumption].
      apply Nat.ltb_lt in Elong.
      assert (Hcut : 1 <= lower_cut limit s limit)
        by (apply lower_cut_pos; destruct first; cbn; lia).
      destruct s as [|x s]; [cbn in Elong; lia|].
      destruct (lower_cut limit (x :: s) limit); [lia | discriminate].
    + intros E. injection E as <-.
      destruct s; cbn; [auto|]. rewrite app_nil_r. split; [reflexivity|].
      constructor; [discriminate | constructor].
Qed.

(** *** A fold inside a character, and a line of 76 octets *)

(** C9 (the code departs from the claim).  The record named with 69
    letters, two U+1F600 and 68 letters is encoded with its [FN] line in
    two physical lines: the first ends with the high surrogate D83D of the
    first U+1F600 and the second starts, after the space, with its low
    surrogate DE00, so the fold falls inside the four-octet character; and
    the second physical line takes 76 octets, one more than the bound. *)
Theorem fold_splits_surrogate_pair :
  let physical := split_crlf (contactToVCard Examples.longNamed) in
  let line1 := lit "FN:" ++ repeat 97%N 69 ++ [55357%N] in
  let line2 := [SPACE; 56832%N] ++ Examples.GRIN ++ repeat 98%N 68 in
  nth_error physical 3 = Some line1
  /\ nth_error physical 4 = Some line2
  /\ line1 ++ skipn 1 line2 = lit "FN:" ++ fullName Examples.longNamed
  /\ byteLength (lit "FN:" ++ fullName Examples.longNamed) = 148
  /\ byteLength line2 = 76
  /\ Nat.ltb 75 (byteLength line2) = true.
Proof.
  cbv zeta. repeat split; vm_compute; reflexivity.
Qed.

End FoldFacts.

(** ** The merge resolver *)

Module MergeFacts.
Import Merge MergeSpec.

Section WithPlatform.
Context `{Platform}.

(** *** Notes *)

(** The repository's own test, "should not duplicate identical notes": two
    records with the same note. *)
Lemma combineNotes_same (n : option str) : combineNotes n n = n.
Proof.
  unfold combineNotes. destruct n as [[|c s]|]; cbn; try reflexivity.
  now rewrite N.eqb_refl, str_eqb_refl.
Qed.

(** C7 (the code departs from the claim).  Merging three records whose
    notes are "x", "y", "x" under the union strategy gives the note
    "x / y / x": the note of the first and third record appears twice,
    because each note is compared with the accumulated text, not with the
    notes seen so far. *)
Theorem union_repeats_nonadjacent_note (now : str) :
  exists r,
    mergeContacts now [Examples.noteX1; Examples.noteY; Examples.noteX2]
                  union [] = inr r
    /\ notes (mergedContact r)
       = Some (lit "x" ++ NOTE_SEPARATOR ++ lit "y" ++ NOTE_SEPARATOR ++ lit "x").
Proof. eexists. split; reflexivity. Qed.

(** *** Provider identifiers *)

Lemma applyFieldOverride_metadata (target src : Contact) (field : str) :
  metadata (applyFieldOverride target src field) = metadata target.
Proof.
  unfold applyFieldOverride.
  repeat match goal with
         | |- context [if ?c then _ else _] => destruct c
         end; reflexivity.
Qed.

Lemma overrides_metadata (contacts : list Contact) (ov : list (str * str))
  (m : Contact) (fe : gmap str str) :
  metadata (fst (fold_left
    (fun state override =>
       let '(merged, fieldsFromEach) := state in
       let '(field, contactId) := override in
       match find_by_id contacts contactId with
       | None => state
       | Some source =>
           (applyFieldOverride merged source field,
            <[field := contactId]> fieldsFromEach)
       end) ov (m, fe))) = metadata m.
Proof.
  revert m fe. induction ov as [|[field cid] ov IH]; intros m fe.
  - reflexivity.
  - cbn [fold_left]. destruct (find_by_id contacts cid) as [src|].
    + rewrite IH. apply applyFieldOverride_metadata.
    + apply IH.
Qed.

Lemma truthyAt_own (ids : gmap str str) (k : str) :
  ownName k = true -> truthyAt ids k = truthy (ids !! k).
Proof.
  unfold ownName, truthyAt. intros Hk. apply negb_true_iff in Hk.
  destruct (ids !! k); [reflexivity | exact Hk].
Qed.

Lemma idsPlain_entries (c : Contact) :
  idsPlain c = true -> plainEntries (providerIds (metadata c)).
Proof.
  unfold idsPlain, plainEntries. intros Hall k v Hkv.
  rewrite forallb_forall in Hall.
  specialize (Hall (k, v)). cbn [fst snd] in Hall.
  assert (Hin : In (k, v) (map_to_list (providerIds (metadata c))))
    by (apply list_elem_of_In, elem_of_map_to_list; exact Hkv).
  apply Hall, andb_prop in Hin as [Hv Hk].
  apply negb_true_iff, str_eqb_neq in Hv. now split.
Qed.

Lemma addProviderId_union (ids : gmap str str) (k v : str) :
  plainEntries ids -> ownName k = true ->
  addProviderId ids (k, v) = ids ∪ {[k := v]}.
Proof.
  intros Hids Hk. unfold addProviderId. cbn [fst snd].
  rewrite (truthyAt_own ids k Hk).
  destruct (ids !! k) as [w|] eqn:E.
  - destruct w as [|c w]; [now apply Hids in E as [E _]|]. cbn [truthy].
    apply map_eq. intros j. rewrite lookup_union.
    destruct (decide (k = j)) as [<-|Hne].
    + rewrite E, lookup_singleton_eq. reflexivity.
    + rewrite lookup_singleton_ne by assumption.
      destruct (ids !! j); reflexivity.
  - cbn [truthy]. apply map_eq. intros j. rewrite lookup_union.
    destruct (decide (k = j)) as [<-|Hne].
    + rewrite lookup_insert_eq, E, lookup_singleton_eq. reflexivity.
    + rewrite lookup_insert_ne, lookup_singleton_ne by assumption.
      destruct (ids !! j); reflexivity.
Qed.

Lemma plainEntries_union (m1 m2 : gmap str str) :
  plainEntries m1 -> plainEntries m2 -> plainEntries (m1 ∪ m2).
Proof.
  intros H1 H2 k v Hkv. apply lookup_union_Some_raw in Hkv as [E|[_ E]].
  - now apply H1 in E.
  - now apply H2 in E.
Qed.

Lemma fold_addProviderId (l : list (str * str)) (ids : gmap str str) :
  plainEntries ids ->
  (forall kv, In kv l -> snd kv <> [] /\ ownName (fst kv) = true) ->
  fold_left addProviderId l ids = ids ∪ list_to_map l.
Proof.
  revert ids. induction l as [|[k v] l IH]; intros ids Hids Hl.
  - cbn. now rewrite (right_id_L ∅ (∪)).
  - cbn [fold_left list_to_map foldr].
    destruct (Hl (k, v) (or_introl eq_refl)) as [Hv Hk]. cbn [fst snd] in *.
    rewrite addProviderId_union by assumption.
    rewrite IH.
    + rewrite <- (assoc_L (∪)). f_equal.
      now rewrite insert_union_singleton_l.
    + apply plainEntries_union; [assumption|].
      intros j w Hj. apply lookup_singleton_Some in Hj as [<- <-].
      now split.
    + intros kv Hkv. apply Hl. now right.
Qed.

Lemma addProviderIds_union (ids : gmap str str) (c : Contact) :
  plainEntries ids -> idsPlain c = true ->
  addProviderIds ids c = ids ∪ providerIds (metadata c).
Proof.
  intros Hids Hc. unfold addProviderIds.
  rewrite fold_addProviderId; [now rewrite list_to_map_to_list | assumption |].
  intros [k v] Hkv. apply (idsPlain_entries c Hc k).
  now apply elem_of_map_to_list, list_elem_of_In.
Qed.

Lemma fold_addProviderIds_lookup (contacts : list Contact)
  (ids : gmap str str) (p : str) :
  plainEntries ids ->
  forallb idsPlain contacts = true ->
  fold_left addProviderIds contacts ids !! p
  = match ids !! p with
    | Some v => Some v
    | None => firstProviderId contacts p
    end.
Proof.
  revert ids. induction contacts as [|c cs IH]; intros ids Hids Hall.
  - cbn. destruct (ids !! p); reflexivity.
  - cbn [forallb] in Hall. apply andb_prop in Hall as [Hc Hcs].
    cbn [fold_left firstProviderId].
    rewrite addProviderIds_union by assumption.
    rewrite IH; [|apply plainEntries_union;
                   [assumption | now apply idsPlain_entries] | assumption].
    rewrite lookup_union.
    destruct (ids !! p), (providerIds (metadata c) !! p); reflexivity.
Qed.

(** The sort keeps the elements of its input. *)
Lemma insert_by_In {A} (cmp : A -> A -> Z) (x y : A) (l : list A) :
  In y (insert_by cmp x l) <-> y = x \/ In y l.
Proof.
  induction l as [|z l IH]; cbn.
  - intuition.
  - destruct (Z.ltb (cmp x z) 0); cbn; rewrite ?IH; intuition.
Qed.

Lemma sort_by_In {A} (cmp : A -> A -> Z) (l : list A) (y : A) :
  In y (sort_by cmp l) <-> In y l.
Proof.
  unfold sort_by.
  enough (G : forall acc, In y (fold_left (fun s x => insert_by cmp x s) l acc)
                          <-> In y acc \/ In y l)
    by (rewrite G; cbn; tauto).
  induction l as [|x l IH]; intros acc; cbn.
  - tauto.
  - rewrite IH, insert_by_In. intuition.
Qed.

Lemma head_sort_by_In {A} (cmp : A -> A -> Z) (l : list A) (c : A) :
  head (sort_by cmp l) = Some c -> In c l.
Proof.
  intros Hc. apply (sort_by_In cmp l c).
  destruct (sort_by cmp l); [discriminate|].
  injection Hc as ->. now left.
Qed.

Lemma sort_by_nonempty {A} (cmp : A -> A -> Z) (x : A) (l : list A) :
  exists y, head (sort_by cmp (x :: l)) = Some y.
Proof.
  destruct (sort_by cmp (x :: l)) as [|y s] eqn:E.
  - assert (Hx : In x (sort_by cmp (x :: l))) by (apply sort_by_In; now left).
    rewrite E in Hx. destruct Hx.
  - now exists y.
Qed.

(** The union strategy leaves the first record's provider identifiers. *)
Lemma unionStep_providerIds (primary other : Contact) :
  providerIds (metadata (unionStep primary other))
  = providerIds (metadata primary).
Proof.
  unfold unionStep. cbn [metadata].
  destruct (dateBefore _ _); reflexivity.
Qed.

Lemma mergeUnion_providerIds (c : Contact) (cs : list Contact) :
  providerIds (metadata (fold_left unionStep cs c))
  = providerIds (metadata c).
Proof.
  revert c. induction cs as [|o cs IH]; intros c; cbn.
  - reflexivity.
  - rewrite IH. apply unionStep_providerIds.
Qed.

Lemma mergeUnion_providerIds_merged (now : str) (c c' : Contact)
  (cs : list Contact) (ov : list (str * str)) :
  exists r,
    mergeContacts now (c :: c' :: cs) union ov = inr r
    /\ providerIds (metadata (mergedContact r))
       = fold_left addProviderIds (c :: c' :: cs) (providerIds (metadata c)).
Proof.
  unfold mergeContacts.
  pose proof (overrides_metadata (c :: c' :: cs) ov
    (default c (mergeUnion (c :: c' :: cs))) ∅) as Hov.
  destruct (fold_left _ ov _) as [merged fe] eqn:Efold.
  cbn [fst] in Hov.
  eexists. split; [reflexivity|].
  cbn [mergedContact metadata set_metadata set_providerIds providerIds
       set_id set_archived set_modified].
  rewrite Hov. cbn [mergeUnion].
  change (default c (Some ?x)) with x.
  now rewrite mergeUnion_providerIds.
Qed.

(** Where first-write-wins holds: under the union strategy, when every
    provider identifier is a non-empty text under a name that no object
    inherits, every system named by a record has an entry, and the entry is
    that of the first record of the input list that names the system. *)
Lemma union_providerIds_first_write_wins (now : str)
  (contacts : list Contact) (fieldOverrides : list (str * str)) :
  2 <= length contacts ->
  forallb idsPlain contacts = true ->
  exists r,
    mergeContacts now contacts union fieldOverrides = inr r
    /\ forall p, providerIds (metadata (mergedContact r)) !! p
                 = firstProviderId contacts p.
Proof.
  intros Hlen Hall.
  destruct contacts as [|c [|c' cs]]; cbn in Hlen; try lia.
  destruct (mergeUnion_providerIds_merged now c c' cs fieldOverrides)
    as (r & Hr & Hids).
  exists r. split; [exact Hr|]. intros p. rewrite Hids.
  rewrite fold_addProviderIds_lookup; [| |exact Hall].
  - cbn [firstProviderId].
    destruct (providerIds (metadata c) !! p); reflexivity.
  - apply idsPlain_entries. cbn [forallb] in Hall.
    now apply andb_prop in Hall as [Hc _].
Qed.

End WithPlatform.

(** C6 (the code departs from the claim).  Under the union strategy, a
    record linked to a system called [constructor] is merged after a record
    without links: the merged record has no entry for the system.  And a
    record whose identifier for [google] is the empty text is merged before
    one whose identifier is [g-2]: the first record's entry is overwritten
    by the later one.  In both cases the loop tests [!ids[provider]], which
    is false for a name every object inherits and true for an empty
    identifier. *)
Theorem provider_ids_lost_and_overwritten :
  let ex := Examples.examplePlatform in
  let now := lit "2025-02-02T00:00:00.000Z" in
  (exists r,
      @mergeContacts ex now [Examples.unlinked; Examples.linkedConstructor]
        union [] = inr r
      /\ providerIds (metadata Examples.linkedConstructor)
           !! lit "constructor" = Some (lit "remote-7")
      /\ providerIds (metadata (mergedContact r)) !! lit "constructor" = None)
  /\ (exists r,
        @mergeContacts ex now [Examples.linkedEmpty; Examples.linkedLater]
          union [] = inr r
        /\ providerIds (metadata Examples.linkedEmpty) !! lit "google"
           = Some []
        /\ providerIds (metadata (mergedContact r)) !! lit "google"
           = Some (lit "g-2")).
Proof.
  cbv zeta. split; eexists; (split; [reflexivity|]);
    split; vm_compute; reflexivity.
Qed.

(** Union of the two linked records: the first one's identifier stays. *)
Lemma union_providerIds_first_write_wins_example :
  exists r,
    @mergeContacts Examples.examplePlatform (lit "2025-02-02T00:00:00.000Z")
      [Examples.linkedOld; Examples.linkedNew] union [] = inr r
    /\ providerIds (metadata (mergedContact r)) !! lit "google"
       = Some (lit "g-old")
    /\ providerIds (metadata (mergedContact r)) !! lit "fastmail"
       = Some (lit "fm-456").
Proof.
  destruct (@union_providerIds_first_write_wins Examples.examplePlatform
              (lit "2025-02-02T00:00:00.000Z")
              [Examples.linkedOld; Examples.linkedNew] [])
    as (r & Hr & Hunion).
  - cbn. lia.
  - vm_compute. reflexivity.
  - exists r. split; [exact Hr|].
    split; rewrite Hunion; vm_compute; reflexivity.
Qed.

(** Under keep-newest the newest record's identifier is kept, although the
    first record of the input list names the same system with another
    identifier. *)
Lemma keep_newest_keeps_newest_providerId :
  exists r,
    @mergeContacts Examples.examplePlatform (lit "2025-02-02T00:00:00.000Z")
      [Examples.linkedOld; Examples.linkedNew] keep_newest [] = inr r
    /\ providerIds (metadata (mergedContact r)) !! lit "google"
       = Some (lit "g-new")
    /\ firstProviderId [Examples.linkedOld; Examples.linkedNew] (lit "google")
       = Some (lit "g-old").
Proof.
  eexists. split; [reflexivity|]. split; vm_compute; reflexivity.
Qed.

End MergeFacts.

(** ** The store *)

Module StoreFacts.
Import Store StoreSpec.

Section WithPlatform.
Context `{Platform}.

Lemma fold_applyToHead_dirs (changes : list Change) (s : State) :
  contactsDir (fold_left applyToHead changes s) = contactsDir s
  /\ archiveDir (fold_left applyToHead changes s) = archiveDir s.
Proof.
  revert s. induction changes as [|c cs IH]; intros s; [now split|].
  cbn [fold_left]. destruct (IH (applyToHead s c)) as [-> ->].
  unfold applyToHead, with_head. now split.
Qed.

(** *** Running an operation *)

Lemma bind_inr {A B} (m : M A) (k : A -> M B) (st st' : State) (b : B) :
  (m ≫= k) st = (inr b, st') ->
  exists a st1, m st = (inr a, st1) /\ k a st1 = (inr b, st').
Proof.
  unfold mbind, M_bind. destruct (m st) as [[e|a] st1].
  - discriminate.
  - intros E. now exists a, st1.
Qed.

Lemma withLock_inr {A} (now : Clock) (fn : M A) (st st' : State) (a : A) :
  withLock now fn st = (inr a, st') ->
  exists st1 st2,
    acquireLock now st = (inr tt, st1)
    /\ fn st1 = (inr a, st2) /\ st' = releaseLock st2.
Proof.
  unfold withLock. intros E. apply bind_inr in E as ([] & st1 & Ea & E).
  unfold try_finally in E. destruct (fn st1) as [r st2] eqn:Ef.
  injection E as -> <-. now exists st1, st2.
Qed.

Lemma acquireLock_dirs (now : Clock) (st st1 : State) :
  acquireLock now st = (inr tt, st1) ->
  contactsDir st1 = contactsDir st /\ archiveDir st1 = archiveDir st.
Proof.
  unfold acquireLock. destruct (lock st) as [m|].
  - destruct (Z.ltb 30000 (nowMs now - m)); [|discriminate].
    intros E. injection E as <-. now split.
  - intros E. injection E as <-. now split.
Qed.

Lemma git_commit_dirs (msg : str) (st : State) :
  exists h st', git_commit msg st = (inr h, st')
    /\ contactsDir st' = contactsDir st /\ archiveDir st' = archiveDir st.
Proof.
  unfold git_commit. eexists. eexists. split; [reflexivity|].
  cbn [with_log with_index contactsDir archiveDir].
  destruct (fold_applyToHead_dirs (map (stagedChange st) (index st)) st)
    as [-> ->].
  now split.
Qed.

(** *** [get] *)

Lemma get_spec (now : Clock) (id : str) (st : State) :
  get now id st
  = (match contactsDir st !! id with
     | Some vcard => inr (vcardToContact (nowIso now) vcard)
     | None =>
         match archiveDir st !! id with
         | Some vcard => inr (vcardToContact (nowIso now) vcard)
         | None => inl (ContactNotFoundError id)
         end
     end, st).
Proof.
  unfold get, try_catch, readFile, mbind, M_bind, mret, M_ret, throw.
  cbn [dir]. destruct (contactsDir st !! id); [reflexivity|].
  destruct (archiveDir st !! id); reflexivity.
Qed.

(** [get] fails exactly when the id is in neither area, and then with
    [ContactNotFoundError]. *)
Lemma get_fails_iff (now : Clock) (id : str) (st : State) (err : Error) :
  fst (get now id st) = inl err
  <-> (contactsDir st !! id = None /\ archiveDir st !! id = None
       /\ err = ContactNotFoundError id).
Proof.
  rewrite get_spec. cbn [fst].
  destruct (contactsDir st !! id), (archiveDir st !! id); split;
    try discriminate; try (intros (? & ? & ?); discriminate).
  - intros E. injection E as <-. auto.
  - intros (_ & _ & ->). reflexivity.
Qed.

Lemma acquireLock_free (now : Clock) (st : State) :
  lockFree now st = true ->
  acquireLock now st = (inr tt, with_lock (Some (nowMs now)) st).
Proof.
  unfold lockFree, acquireLock. destruct (lock st) as [mtime|].
  - intros ->. reflexivity.
  - reflexivity.
Qed.

(** *** [delete] *)


Lemma rename_inr (from to : Area) (id : str) (st st' : State) :
  rename from to id st = (inr tt, st') ->
  exists text,
    dir from st !! id = Some text
    /\ st' = with_made from true
               (with_dir to (insert id text)
                  (with_dir from (base.delete id) st)).
Proof.
  unfold rename. destruct (dir from st !! id) as [text|]; [|discriminate].
  destruct (dirExists to st); [|discriminate].
  intros E. injection E as <-. eauto.
Qed.

(** After a soft delete that succeeds the record is in the archive, and
    [get] returns it. *)
Lemma get_after_soft_delete (now now' : Clock) (id : str) (st st' : State) :
  delete now id false st = (inr tt, st') ->
  contactsDir st' !! id = None
  /\ exists c, fst (get now' id st') = inr c.
Proof.
  unfold delete. intros E.
  apply withLock_inr in E as (st1 & st2 & _ & E & ->).
  apply bind_inr in E as (c & st1' & Eg & E).
  rewrite get_spec in Eg. injection Eg as _ <-.
  apply bind_inr in E as ([] & st3 & Em & E).
  apply bind_inr in E as (h & st4 & Ec & E).
  injection E as <-.
  unfold git_move in Em.
  apply bind_inr in Em as ([] & stm & Emk & Em).
  apply bind_inr in Em as ([] & st5 & Er & Em).
  unfold git_addMultiple, modify in Em. injection Em as <-.
  apply rename_inr in Er as (text & _ & ->).
  destruct (git_commit_dirs
              (lit "Archive contact: " ++ fullName c ++ lit " (" ++ id ++ lit ")")
              (with_index
                 (index (with_made Active true
                           (with_dir Archive (insert id text)
                              (with_dir Active (base.delete id) stm)))
                  ++ [(Active, id); (Archive, id)])
                 (with_made Active true
                    (with_dir Archive (insert id text)
                       (with_dir Active (base.delete id) stm)))))
    as (h' & st4' & Ec' & Hc & Ha).
  rewrite Ec in Ec'. injection Ec' as <- <-.
  rewrite get_spec. cbn [releaseLock with_lock contactsDir archiveDir fst].
  rewrite Hc, Ha. cbn [with_index with_dir with_made contactsDir archiveDir].
  rewrite lookup_delete_eq, lookup_insert_eq. eauto.
Qed.

(** After a permanent delete that succeeds on a record held by one area
    only, [get] fails with [ContactNotFoundError]. *)
Lemma get_after_permanent_delete (now now' : Clock) (id : str)
  (st st' : State) :
  (contactsDir st !! id = None \/ archiveDir st !! id = None) ->
  delete now id true st = (inr tt, st') ->
  fst (get now' id st') = inl (ContactNotFoundError id).
Proof.
  unfold delete. intros Hone E.
  apply withLock_inr in E as (st1 & st2 & Ea & E & ->).
  apply acquireLock_dirs in Ea as [Hc1 Ha1]. rewrite <- Hc1, <- Ha1 in Hone.
  apply bind_inr in E as (c & st1' & Eg & E).
  rewrite get_spec in Eg. injection Eg as _ <-.
  apply bind_inr in E as ([] & st3 & Er & E).
  apply bind_inr in E as (h & st4 & Ec & E).
  injection E as <-.
  destruct (git_commit_dirs
              (lit "Delete contact permanently: " ++ fullName c ++ lit " ("
               ++ id ++ lit ")") st3) as (h' & st4' & Ec' & Hc & Ha).
  rewrite Ec in Ec'. injection Ec' as <- <-.
  rewrite get_spec. cbn [releaseLock with_lock contactsDir archiveDir fst].
  rewrite Hc, Ha. clear Ec Hc Ha.
  unfold try_catch, git_remove in Er. cbn [dir] in Er.
  destruct (contactsDir st1 !! id) as [text|] eqn:Ecd.
  - injection Er as <-.
    cbn [with_index with_dir with_made contactsDir archiveDir].
    rewrite lookup_delete_eq.
    destruct Hone as [Hone|Hone]; [discriminate|]. now rewrite Hone.
  - destruct (archiveDir st1 !! id) as [text|] eqn:Ead; [|discriminate].
    injection Er as <-.
    cbn [with_index with_dir with_made contactsDir archiveDir].
    now rewrite Ecd, lookup_delete_eq.
Qed.

(** *** [rollback] *)

(** A rollback on a free lock creates the safety tag before anything else;
    a dry run then returns, leaving files and history as they were. *)
Lemma rollback_dry_run (now : Clock) (options : RollbackOptions) (st : State) :
  lockFree now st = true ->
  dryRun options = Some true ->
  let tag := lit "pre-rollback-" ++ show_N (Z.to_N (nowMs now)) in
  existsb (str_eqb tag) (tags st) = false ->
  exists st',
    rollback now options st
    = (inr {| revertedCommits := 0; safetyTag := tag |}, st')
    /\ tags st' = tags st ++ [tag]
    /\ log st' = log st
    /\ contactsDir st' = contactsDir st
    /\ archiveDir st' = archiveDir st.
Proof.
  intros Hl Hdry tag Htag.
  unfold rollback, withLock, try_finally.
  unfold mbind, M_bind at 1. rewrite (acquireLock_free now st Hl).
  unfold mbind, M_bind at 1. unfold git_tag.
  cbn [tags with_lock]. fold tag. rewrite Htag, Hdry.
  cbn [is_true_flag]. unfold mret, M_ret.
  eexists. split; [reflexivity|]. repeat split.
Qed.

(** A [to-tag] rollback that names a tag the repository does not have
    fails with [StoreError] after the safety tag is created, and reverts
    nothing. *)
Lemma rollback_unknown_tag (now : Clock) (options : RollbackOptions)
  (st : State) (name : str) :
  lockFree now st = true ->
  dryRun options <> Some true ->
  mode options = to_tag ->
  tagName options = Some name -> name <> [] ->
  let tag := lit "pre-rollback-" ++ show_N (Z.to_N (nowMs now)) in
  existsb (str_eqb tag) (tags st) = false ->
  existsb (str_eqb name) (tags st ++ [tag]) = false ->
  exists st',
    rollback now options st
    = (inl (StoreError (lit "Tag not found: " ++ name)), st')
    /\ tags st' = tags st ++ [tag]
    /\ log st' = log st
    /\ contactsDir st' = contactsDir st
    /\ archiveDir st' = archiveDir st.
Proof.
  intros Hl Hdry Hmode Hname Hne tag Htag Hunknown.
  unfold rollback, withLock, try_finally.
  unfold mbind, M_bind at 1. rewrite (acquireLock_free now st Hl).
  unfold mbind, M_bind at 1. unfold git_tag.
  cbn [tags with_lock]. fold tag. rewrite Htag.
  assert (Hflag : is_true_flag (dryRun options) = false).
  { destruct (dryRun options) as [[|]|]; try reflexivity. congruence. }
  rewrite Hflag, Hmode, Hname.
  destruct name as [|c name]; [congruence|].
  cbn [truthy negb or_empty].
  unfold git_log, git_listTags, mbind, M_bind, throw.
  cbn [tags with_tags]. rewrite Hunknown. cbn [negb].
  eexists. split; [reflexivity|]. repeat split.
Qed.

End WithPlatform.

(** *** A permanent delete after an update of an archived record *)

(** C5 (the code departs from the claim).  [create], then [delete(id)]
    (soft), [update(id, { notes: 'x' })] and [delete(id, true)], each of
    which succeeds: [update] reads the archived record and writes it to the
    active area, so the id is in both areas; the permanent delete removes
    the active file only, and [get(id)] afterwards still returns the record
    from the archive, without the note. *)
Theorem get_after_permanent_delete_succeeds :
  let ex := Examples.examplePlatform in
  let id := Examples.janeId in
  is_Some (contactsDir Examples.storeCreated !! id)
  /\ contactsDir Examples.storeArchived !! id = None
  /\ is_Some (archiveDir Examples.storeArchived !! id)
  /\ is_Some (contactsDir Examples.storeUpdatedArchived !! id)
  /\ is_Some (archiveDir Examples.storeUpdatedArchived !! id)
  /\ fst (@delete ex (Examples.clock 4000 (lit "2025-01-01T00:00:04.000Z"))
            id true Examples.storeUpdatedArchived) = inr tt
  /\ contactsDir Examples.storeDeleted !! id = None
  /\ exists c,
       fst (get (Examples.clock 5000 (lit "2025-01-01T00:00:05.000Z")) id
              Examples.storeDeleted) = inr c
       /\ fullName c = lit "Jane Smith"
       /\ notes c = Some (lit "Original note").
Proof.
  cbv zeta. repeat split; vm_compute; eauto.
Qed.

(** *** Rollback to a commit that does not exist *)

(** C4 (the code departs from the claim).  On the store holding the initial
    commit and one created record, [rollback({ mode: 'to-commit',
    commitHash: 'ffff' })], where no commit's hash starts with [ffff],
    returns normally: it has reverted both commits, the record is gone, and
    no [StoreError] is raised.  (The safety tag was created first.) *)
Theorem rollback_to_unknown_commit_reverts :
  let ex := Examples.examplePlatform in
  let now := Examples.clock 6000 (lit "2025-01-01T00:00:06.000Z") in
  let result := @rollback ex now (Examples.toCommit (lit "ffff"))
                  Examples.storeCreated in
  map hash (log Examples.storeCreated) = [lit "c1"; lit "c0"]
  /\ fst result = inr {| revertedCommits := 2;
                         safetyTag := lit "pre-rollback-6000" |}
  /\ tags (snd result) = [lit "pre-rollback-6000"]
  /\ is_Some (contactsDir Examples.storeCreated !! Examples.janeId)
  /\ contactsDir (snd result) !! Examples.janeId = None
  /\ length (log (snd result)) = 4.
Proof.
  cbv zeta. repeat split; vm_compute; eauto.
Qed.


(** C3 (the code departs from the claim).  On a store that holds a record
    written by [mergeAndArchive] whose e-mail address is in capitals,
    [update(id, { notes: 'x' })] succeeds and returns - and writes - the
    record with the address in lower case, although the update names
    [notes] only: [update] passes the whole record through
    [normalizeContact]. *)
Theorem update_changes_absent_field :
  let ex := Examples.examplePlatform in
  let now := Examples.clock 3000 (lit "2025-01-01T00:00:03.000Z") in
  exists e r st',
    fst (get now Examples.janeId Examples.storeMerged) = inr e
    /\ @update ex now Examples.janeId (Examples.notesOnly (lit "x"))
         Examples.storeMerged = (inr r, st')
    /\ map e_value (emails e) = [lit "JANE@TEST.COM"]
    /\ map e_value (emails r) = [lit "jane@test.com"]
    /\ notes r = Some (lit "x")
    /\ exists e', fst (get now Examples.janeId st') = inr e'
                  /\ map e_value (emails e') = [lit "jane@test.com"].
Proof.
  cbv zeta. eexists. eexists. eexists.
  split; [vm_compute; reflexivity|].
  split; [vm_compute; reflexivity|].
  split; [vm_compute; reflexivity|].
  split; [vm_compute; reflexivity|].
  split; [vm_compute; reflexivity|].
  eexists. split; vm_compute; reflexivity.
Qed.

(** An update made at the instant the record was created leaves [modified]
    as it was. *)
Lemma update_same_instant :
  let ex := Examples.examplePlatform in
  let now := Examples.clock 1000 (lit "2025-01-01T00:00:01.000Z") in
  exists e r,
    fst (get now Examples.janeId Examples.storeCreated) = inr e
    /\ fst (@update ex now Examples.janeId (Examples.notesOnly (lit "x"))
              Examples.storeCreated) = inr r
    /\ modified (metadata r) = modified (metadata e).
Proof.
  cbv zeta. eexists. eexists. repeat split; vm_compute; reflexivity.
Qed.

End StoreFacts.

(** ** The codec: escaping *)

Module EscapeFacts.
Import VCard CodecSpec.

Lemma flat_map_compose {A B C} (f : A -> list B) (g : B -> list C)
  (l : list A) :
  flat_map g (flat_map f l) = flat_map (fun x => flat_map g (f x)) l.
Proof.
  induction l as [|x l IH]; cbn [flat_map]; [reflexivity|].
  now rewrite flat_map_app, IH.
Qed.

(** The four passes of [escapeVCardValue] escape each unit on its own. *)
Lemma escape_units (value : str) :
  escapeVCardValue value = flat_map esc value.
Proof.
  unfold escapeVCardValue, replace1. rewrite !flat_map_compose.
  apply flat_map_ext. intros c. unfold esc.
  destruct (N.eqb_spec c BACKSLASH) as [->|H1]; [reflexivity|].
  destruct (N.eqb_spec c SEMI) as [->|H2]; [reflexivity|].
  destruct (N.eqb_spec c COMMA) as [->|H3]; [reflexivity|].
  destruct (N.eqb_spec c LF) as [->|H4]; [reflexivity|].
  apply N.eqb_neq in H1, H2, H3, H4.
  cbn [flat_map app]. rewrite H2. cbn [flat_map app]. rewrite H3.
  cbn [flat_map app]. now rewrite H4.
Qed.

(** *** One pass of [unescapeVCardValue] *)

Section Replace2.
Variables (a b : N) (r : str).

Lemma replace2_hit (s : str) :
  replace2 a b r (a :: b :: s) = r ++ replace2 a b r s.
Proof. cbn [replace2]. now rewrite !N.eqb_refl. Qed.

Lemma replace2_miss1 (x : N) (s : str) :
  N.eqb x a = false -> replace2 a b r (x :: s) = x :: replace2 a b r s.
Proof.
  intros E. destruct s as [|y s]; [reflexivity|].
  cbn [replace2]. now rewrite E.
Qed.

Lemma replace2_miss2 (x : N) (s : str) :
  headNot b s -> replace2 a b r (x :: s) = x :: replace2 a b r s.
Proof.
  destruct s as [|y s]; [reflexivity|]. cbn [headNot]. intros E.
  cbn [replace2]. rewrite E. now rewrite andb_false_r.
Qed.

End Replace2.

(** The first pass restores the line feeds. *)
Lemma unescape_pass1 (s : str) :
  bs_n_free s = true ->
  replace2 BACKSLASH LOWER_N [LF] (flat_map esc s) = flat_map esc1 s.
Proof.
  induction s as [|c t IH]; [reflexivity|].
  cbn [bs_n_free flat_map]. intros Hfree.
  apply andb_prop in Hfree as [Hc Ht]. specialize (IH Ht).
  unfold esc at 1, esc1 at 1.
  destruct (N.eqb_spec c BACKSLASH) as [->|H1].
  - cbn [app]. rewrite replace2_miss2 by reflexivity. f_equal.
    rewrite replace2_miss2; [now f_equal|].
    destruct t as [|d t']; [exact I|].
    cbn [flat_map]. unfold esc at 1.
    cbn in Hc. apply negb_true_iff in Hc.
    destruct (N.eqb d BACKSLASH); [reflexivity|].
    destruct (N.eqb d SEMI); [reflexivity|].
    destruct (N.eqb d COMMA); [reflexivity|].
    destruct (N.eqb d LF); [reflexivity|]. exact Hc.
  - destruct (N.eqb_spec c SEMI) as [->|H2].
    { cbn [app]. rewrite replace2_miss2 by reflexivity.
      rewrite replace2_miss1 by reflexivity. now rewrite IH. }
    destruct (N.eqb_spec c COMMA) as [->|H3].
    { cbn [app]. rewrite replace2_miss2 by reflexivity.
      rewrite replace2_miss1 by reflexivity. now rewrite IH. }
    destruct (N.eqb_spec c LF) as [->|H4].
    { cbn [app]. rewrite replace2_hit. now rewrite IH. }
    cbn [app]. apply N.eqb_neq in H1.
    rewrite replace2_miss1 by assumption. now rewrite IH.
Qed.

(** The second pass restores the commas. *)
Lemma unescape_pass2 (s : str) :
  replace2 BACKSLASH COMMA [COMMA] (flat_map esc1 s) = flat_map esc2 s.
Proof.
  induction s as [|c t IH]; [reflexivity|].
  cbn [flat_map]. unfold esc1 at 1, esc2 at 1.
  destruct (N.eqb_spec c BACKSLASH) as [->|H1].
  - cbn [app]. rewrite replace2_miss2 by reflexivity. f_equal.
    rewrite replace2_miss2; [now f_equal|].
    destruct t as [|d t']; [exact I|].
    cbn [flat_map]. unfold esc1 at 1.
    destruct (N.eqb d BACKSLASH); [reflexivity|].
    destruct (N.eqb d SEMI); [reflexivity|].
    destruct (N.eqb d COMMA) eqn:E; [reflexivity | exact E].
  - destruct (N.eqb_spec c SEMI) as [->|H2].
    { cbn [app]. rewrite replace2_miss2 by reflexivity.
      rewrite replace2_miss1 by reflexivity. now rewrite IH. }
    destruct (N.eqb_spec c COMMA) as [->|H3].
    { cbn [app]. rewrite replace2_hit. now rewrite IH. }
    cbn [app]. apply N.eqb_neq in H1.
    rewrite replace2_miss1 by assumption. now rewrite IH.
Qed.

(** The third pass restores the semicolons. *)
Lemma unescape_pass3 (s : str) :
  replace2 BACKSLASH SEMI [SEMI] (flat_map esc2 s) = flat_map esc3 s.
Proof.
  induction s as [|c t IH]; [reflexivity|].
  cbn [flat_map]. unfold esc2 at 1, esc3 at 1.
  destruct (N.eqb_spec c BACKSLASH) as [->|H1].
  - cbn [app]. rewrite replace2_miss2 by reflexivity. f_equal.
    rewrite replace2_miss2; [now f_equal|].
    destruct t as [|d t']; [exact I|].
    cbn [flat_map]. unfold esc2 at 1.
    destruct (N.eqb d BACKSLASH); [reflexivity|].
    destruct (N.eqb d SEMI) eqn:E; [reflexivity | exact E].
  - destruct (N.eqb_spec c SEMI) as [->|H2].
    { cbn [app]. rewrite replace2_hit. now rewrite IH. }
    cbn [app]. apply N.eqb_neq in H1.
    rewrite replace2_miss1 by assumption. now rewrite IH.
Qed.

(** The fourth pass restores the backslashes. *)
Lemma unescape_pass4 (s : str) :
  replace2 BACKSLASH BACKSLASH [BACKSLASH] (flat_map esc3 s) = s.
Proof.
  induction s as [|c t IH]; [reflexivity|].
  cbn [flat_map]. unfold esc3 at 1.
  destruct (N.eqb_spec c BACKSLASH) as [->|H1].
  - cbn [app]. rewrite replace2_hit. now rewrite IH.
  - cbn [app]. apply N.eqb_neq in H1.
    rewrite replace2_miss1 by assumption. now rewrite IH.
Qed.

(** Unescaping undoes escaping on every text in which no backslash is
    followed by the letter [n]. *)
Lemma unescape_escape (s : str) :
  bs_n_free s = true -> unescapeVCardValue (escapeVCardValue s) = s.
Proof.
  intros Hfree. unfold unescapeVCardValue. rewrite escape_units.
  now rewrite unescape_pass1, unescape_pass2, unescape_pass3, unescape_pass4.
Qed.

End EscapeFacts.

(** ** The codec: lines *)

Module LineFacts.
Import VCard CodecSpec EscapeFacts FoldFacts.

(** *** Splitting and joining *)

Lemma includes_app (c : N) (p q : str) :
  includes c (p ++ q) = includes c p || includes c q.
Proof. unfold includes. apply existsb_app. Qed.

Lemma includes_cons (c x : N) (s : str) :
  includes c (x :: s) = N.eqb c x || includes c s.
Proof. reflexivity. Qed.

Lemma split_free (c : N) (p : str) :
  includes c p = false -> split c p = [p].
Proof.
  induction p as [|x p IH]; [reflexivity|].
  rewrite includes_cons. intros E. apply orb_false_elim in E as [Ex Ep].
  cbn [split]. rewrite N.eqb_sym, Ex. now rewrite (IH Ep).
Qed.

Lemma split_app (c : N) (p rest : str) :
  includes c p = false -> split c (p ++ c :: rest) = p :: split c rest.
Proof.
  induction p as [|x p IH].
  - intros _. cbn [app split]. now rewrite N.eqb_refl.
  - rewrite includes_cons. intros E. apply orb_false_elim in E as [Ex Ep].
    cbn [app split]. rewrite N.eqb_sym, Ex. now rewrite (IH Ep).
Qed.

Lemma split_join (c : N) (ps : list str) :
  Forall (fun p => includes c p = false) ps -> ps <> [] ->
  split c (join [c] ps) = ps.
Proof.
  induction ps as [|p ps IH]; [congruence|].
  intros Hall _. inversion Hall as [|? ? Hp Hps]; subst.
  destruct ps as [|q ps].
  - cbn [join]. now apply split_free.
  - change (join [c] (p :: q :: ps)) with (p ++ c :: join [c] (q :: ps)).
    rewrite split_app by assumption. f_equal. now apply IH.
Qed.

Lemma split_crlf_cons (x y : N) (t : str) :
  split_crlf (x :: y :: t)
  = if N.eqb x CR && N.eqb y LF then [] :: split_crlf t
    else match split_crlf (y :: t) with
         | h :: r => (x :: h) :: r
         | [] => [[x]]
         end.
Proof. reflexivity. Qed.

Lemma split_crlf_free (p : str) :
  includes CR p = false -> split_crlf p = [p].
Proof.
  induction p as [|x p IH]; [reflexivity|].
  rewrite includes_cons. intros E. apply orb_false_elim in E as [Ex Ep].
  specialize (IH Ep). destruct p as [|y p]; [reflexivity|].
  rewrite split_crlf_cons, N.eqb_sym, Ex. cbn [andb]. now rewrite IH.
Qed.

Lemma split_crlf_app (p rest : str) :
  includes CR p = false ->
  split_crlf (p ++ CR :: LF :: rest) = p :: split_crlf rest.
Proof.
  induction p as [|x p IH].
  - intros _. reflexivity.
  - rewrite includes_cons. intros E. apply orb_false_elim in E as [Ex Ep].
    specialize (IH Ep). cbn [app].
    destruct (p ++ CR :: LF :: rest) as [|y t] eqn:Et;
      [destruct p; discriminate|].
    rewrite split_crlf_cons, N.eqb_sym, Ex. cbn [andb]. now rewrite IH.
Qed.

Lemma split_crlf_join (ps : list str) :
  Forall (fun p => includes CR p = false) ps -> ps <> [] ->
  split_crlf (join CRLF ps) = ps.
Proof.
  induction ps as [|p ps IH]; [congruence|].
  intros Hall _. inversion Hall as [|? ? Hp Hps]; subst.
  destruct ps as [|q ps].
  - cbn [join]. now apply split_crlf_free.
  - change (join CRLF (p :: q :: ps))
      with (p ++ CR :: LF :: join CRLF (q :: ps)).
    rewrite split_crlf_app by assumption. f_equal. now apply IH.
Qed.

Lemma replace2_free (a b : N) (r p s : str) :
  includes a p = false ->
  replace2 a b r (p ++ s) = p ++ replace2 a b r s.
Proof.
  induction p as [|x p IH]; [reflexivity|].
  rewrite includes_cons. intros E. apply orb_false_elim in E as [Ex Ep].
  cbn [app]. rewrite replace2_miss1 by (now rewrite N.eqb_sym).
  now rewrite (IH Ep).
Qed.

Lemma replace2_crlf_join (ps : list str) :
  Forall (fun p => includes CR p = false) ps ->
  replace2 CR LF [LF] (join CRLF ps) = join [LF] ps.
Proof.
  induction ps as [|p ps IH]; [reflexivity|].
  intros Hall. inversion Hall as [|? ? Hp Hps]; subst.
  destruct ps as [|q ps].
  - cbn [join]. rewrite <- (app_nil_r p) at 1.
    rewrite replace2_free by assumption. cbn. now rewrite app_nil_r.
  - change (join CRLF (p :: q :: ps))
      with (p ++ CR :: LF :: join CRLF (q :: ps)).
    change (join [LF] (p :: q :: ps)) with (p ++ LF :: join [LF] (q :: ps)).
    rewrite replace2_free by assumption. rewrite replace2_hit.
    now rewrite (IH Hps).
Qed.

Lemma replace1_free (c : N) (r s : str) :
  includes c s = false -> replace1 c r s = s.
Proof.
  unfold replace1. induction s as [|x s IH]; [reflexivity|].
  rewrite includes_cons. intros E. apply orb_false_elim in E as [Ex Es].
  cbn [flat_map]. rewrite N.eqb_sym, Ex. cbn [app]. now rewrite (IH Es).
Qed.

Lemma includes_join (c : N) (sep : str) (ps : list str) :
  includes c sep = false ->
  Forall (fun p => includes c p = false) ps ->
  includes c (join sep ps) = false.
Proof.
  intros Hsep. induction ps as [|p ps IH]; [reflexivity|].
  intros Hall. inversion Hall as [|? ? Hp Hps]; subst.
  destruct ps as [|q ps]; [exact Hp|].
  change (join sep (p :: q :: ps)) with (p ++ sep ++ join sep (q :: ps)).
  rewrite !includes_app, Hp, Hsep. now rewrite (IH Hps).
Qed.

Lemma join_phys (c1 : str) (rest : list str) :
  join (CRLF ++ [SPACE]) (c1 :: rest) = join CRLF (phys (c1 :: rest)).
Proof.
  cbn [phys]. revert c1. induction rest as [|c2 rest IH]; intros c1.
  - reflexivity.
  - change (join (CRLF ++ [SPACE]) (c1 :: c2 :: rest))
      with (c1 ++ (CRLF ++ [SPACE]) ++ join (CRLF ++ [SPACE]) (c2 :: rest)).
    cbn [map].
    change (join CRLF (c1 :: (SPACE :: c2) :: map (cons SPACE) rest))
      with (c1 ++ CRLF ++ join CRLF ((SPACE :: c2) :: map (cons SPACE) rest)).
    rewrite IH. f_equal. rewrite <- app_assoc. f_equal.
    destruct rest; reflexivity.
Qed.

Lemma join_app (sep : str) (ps qs : list str) :
  ps <> [] -> qs <> [] ->
  join sep (ps ++ qs) = join sep ps ++ sep ++ join sep qs.
Proof.
  induction ps as [|p ps IH]; [congruence|]. intros _ Hqs.
  destruct ps as [|p' ps].
  - cbn [app]. destruct qs; [congruence | reflexivity].
  - change (join sep ((p :: p' :: ps) ++ qs))
      with (p ++ sep ++ join sep ((p' :: ps) ++ qs)).
    rewrite IH by (congruence || assumption).
    change (join sep (p :: p' :: ps)) with (p ++ sep ++ join sep (p' :: ps)).
    now rewrite <- !app_assoc.
Qed.

Lemma join_concat (sep : str) (pss : list (list str)) :
  Forall (fun ps => ps <> []) pss ->
  join sep (map (join sep) pss) = join sep (concat pss).
Proof.
  induction pss as [|ps pss IH]; [reflexivity|].
  intros Hall. inversion Hall as [|? ? Hps Hpss]; subst.
  destruct pss as [|qs pss].
  - cbn. now rewrite app_nil_r.
  - cbn [map concat].
    change (join sep (join sep ps :: join sep qs :: map (join sep) pss))
      with (join sep ps ++ sep
            ++ join sep (map (join sep) (qs :: pss))).
    rewrite (IH Hpss). rewrite join_app; [reflexivity | assumption |].
    inversion Hpss; subst. destruct qs; [congruence | discriminate].
Qed.

(** *** The physical lines of a logical line *)

Lemma fold_line_physical (l : str) : fold_line l = join CRLF (physical l).
Proof.
  unfold fold_line, physical.
  destruct (Nat.leb (byteLength l) 75); [reflexivity|].
  destruct (fold_loop (length l) l true) as [[|c1 rest]|];
    [reflexivity | apply join_phys | reflexivity].
Qed.

(** They are the pieces of the line: the first not empty, the others each
    behind a space. *)
Lemma physical_pieces (l : str) :
  l <> [] ->
  exists c1 rest,
    physical l = phys (c1 :: rest) /\ c1 <> [] /\ concat (c1 :: rest) = l.
Proof.
  intros Hl. unfold physical.
  destruct (Nat.leb (byteLength l) 75).
  - exists l, []. cbn. rewrite app_nil_r. auto.
  - destruct (fold_loop_total (length l) l true (le_n _)) as [chunks E].
    rewrite E. apply fold_loop_chunks in E as [Hcat Hne].
    destruct chunks as [|c1 rest]; [cbn in Hcat; congruence|].
    exists c1, rest. inversion Hne; subst. auto.
Qed.

Lemma includes_concat (c : N) (chunks : list str) :
  includes c (concat chunks) = false ->
  Forall (fun p => includes c p = false) chunks.
Proof.
  induction chunks as [|p ps IH]; [constructor|].
  cbn [concat]. rewrite includes_app.
  intros E. apply orb_false_elim in E as [Hp Hps]. constructor; auto.
Qed.

Lemma phys_free (c : N) (chunks : list str) :
  N.eqb c SPACE = false ->
  Forall (fun p => includes c p = false) chunks ->
  Forall (fun p => includes c p = false) (phys chunks).
Proof.
  intros Hsp Hall. destruct chunks as [|c1 rest]; [constructor|].
  inversion Hall as [|? ? H1 Hrest]; subst. cbn [phys].
  constructor; [assumption|].
  apply Forall_map. eapply List.Forall_impl; [|exact Hrest].
  intros p Hp. rewrite includes_cons. now rewrite Hsp, Hp.
Qed.

Lemma is_continuation_prefix (c1 x : str) :
  c1 <> [] -> is_continuation (c1 ++ x) = is_continuation c1.
Proof. destruct c1; [congruence | reflexivity]. Qed.

(** The loop of [unfoldLines] puts the pieces of a line together again. *)
Lemma unfold_pieces (c1 : str) (rest : list str) (more acc : list str) :
  is_continuation c1 = false ->
  fold_left unfold_step (phys (c1 :: rest) ++ more) acc
  = fold_left unfold_step more (concat (c1 :: rest) :: acc).
Proof.
  intros Hc1. cbn [phys app fold_left concat].
  assert (E : unfold_step acc c1 = c1 :: acc).
  { unfold unfold_step. destruct acc; [reflexivity|]. now rewrite Hc1. }
  rewrite E. clear E Hc1. revert c1.
  induction rest as [|c2 rest IH]; intros c1.
  - cbn. now rewrite app_nil_r.
  - cbn [map app fold_left concat]. rewrite app_assoc. now rewrite <- IH.
Qed.

Lemma unfold_all (lines : list str) (acc : list str) :
  Forall goodLine lines ->
  fold_left unfold_step (concat (map physical lines)) acc = rev lines ++ acc.
Proof.
  revert acc. induction lines as [|l lines IH]; intros acc Hall.
  - reflexivity.
  - inversion Hall as [|? ? (Hne & _ & _ & Hcont) Hrest]; subst.
    cbn [map concat rev].
    destruct (physical_pieces l Hne) as (c1 & rest & -> & Hc1 & Hcat).
    rewrite unfold_pieces.
    + rewrite Hcat, (IH _ Hrest). now rewrite <- app_assoc.
    + rewrite <- Hcat in Hcont. cbn [concat] in Hcont.
      now rewrite is_continuation_prefix in Hcont.
Qed.

Lemma physical_nonempty (l : str) : l <> [] -> physical l <> [].
Proof.
  intros Hl. destruct (physical_pieces l Hl) as (c1 & rest & -> & _).
  discriminate.
Qed.

Lemma physical_free (c : N) (l : str) :
  N.eqb c SPACE = false -> l <> [] -> includes c l = false ->
  Forall (fun p => includes c p = false) (physical l).
Proof.
  intros Hsp Hl Hc.
  destruct (physical_pieces l Hl) as (c1 & rest & -> & _ & Hcat).
  apply phys_free; [assumption|]. apply includes_concat. now rewrite Hcat.
Qed.

Lemma Forall_concat {A} (P : A -> Prop) (ls : list (list A)) :
  Forall (Forall P) ls -> Forall P (concat ls).
Proof.
  induction 1 as [|l ls Hl _ IH]; cbn [concat]; [constructor|].
  apply Forall_app. now split.
Qed.

(** Unfolding undoes folding on the lines the encoder writes. *)
Lemma unfold_fold (lines : list str) :
  Forall goodLine lines -> lines <> [] ->
  unfoldLines (foldLines (join CRLF lines)) = lines.
Proof.
  intros Hall Hne.
  assert (Hcr : Forall (fun p => includes CR p = false) lines)
    by (eapply List.Forall_impl; [|exact Hall]; intros l (_ & H & _); exact H).
  unfold foldLines. rewrite split_crlf_join by assumption.
  rewrite (map_ext _ _ fold_line_physical), <- map_map.
  rewrite join_concat.
  2:{ apply Forall_map. eapply List.Forall_impl; [|exact Hall].
      intros l (Hl & _). now apply physical_nonempty. }
  set (P := concat (map physical lines)).
  assert (HPcr : Forall (fun p => includes CR p = false) P).
  { apply Forall_concat, Forall_map. eapply List.Forall_impl; [|exact Hall].
    intros l (Hl & Hc & _). now apply physical_free. }
  assert (HPlf : Forall (fun p => includes LF p = false) P).
  { apply Forall_concat, Forall_map. eapply List.Forall_impl; [|exact Hall].
    intros l (Hl & _ & Hc & _). now apply physical_free. }
  assert (HPne : P <> []).
  { subst P. destruct lines as [|l lines]; [congruence|].
    inversion Hall as [|? ? (Hl & _) _]; subst. cbn [map concat].
    pose proof (physical_nonempty l Hl).
    destruct (physical l); [congruence | discriminate]. }
  unfold unfoldLines.
  rewrite replace2_crlf_join by assumption.
  rewrite replace1_free by (now apply includes_join).
  rewrite split_join by assumption.
  subst P. rewrite unfold_all by assumption.
  rewrite app_nil_r, rev_involutive.
  clear -Hall. induction Hall as [|l lines (Hl & _) _ IH]; [reflexivity|].
  cbn [List.filter]. destruct l; [congruence|]. cbn. now f_equal.
Qed.

End LineFacts.

(** ** The codec: properties *)

Module ParseFacts.
Import VCard CodecSpec EscapeFacts LineFacts JsFacts.

Lemma indexOf_app (c : N) (p rest : str) :
  includes c p = false -> indexOf c (p ++ c :: rest) = Some (length p).
Proof.
  induction p as [|x p IH].
  - intros _. cbn [app indexOf]. now rewrite N.eqb_refl.
  - rewrite includes_cons. intros E. apply orb_false_elim in E as [Ex Ep].
    cbn [app indexOf length]. rewrite N.eqb_sym, Ex, (IH Ep). reflexivity.
Qed.

Lemma firstn_length_app {A} (p q : list A) : firstn (length p) (p ++ q) = p.
Proof. induction p as [|x p IH]; simpl; [reflexivity | now f_equal]. Qed.

Lemma skipn_length_app {A} (p q : list A) : skipn (length p) (p ++ q) = q.
Proof. induction p as [|x p IH]; simpl; [reflexivity | assumption]. Qed.

Lemma skipn_S_length_app {A} (p : list A) (c : A) (q : list A) :
  skipn (S (length p)) (p ++ c :: q) = q.
Proof. induction p as [|x p IH]; simpl; [reflexivity | assumption]. Qed.

Lemma wordOk_parts (s : str) :
  wordOk s = true ->
  includes COLON s = false /\ includes SEMI s = false /\ rawText s = true.
Proof.
  unfold wordOk. intros E. apply andb_prop in E as [E E3].
  apply andb_prop in E as [E1 E2]. apply negb_true_iff in E1, E2. auto.
Qed.

Lemma rawText_parts (s : str) :
  rawText s = true -> includes CR s = false /\ includes LF s = false.
Proof.
  unfold rawText. intros E. apply andb_prop in E as [E1 E2].
  split; now apply negb_true_iff.
Qed.

Lemma includes_paramStr (c : N) (params : list str) :
  N.eqb c SEMI = false ->
  Forall (fun p => includes c p = false) params ->
  includes c (paramStr params) = false.
Proof.
  intros Hc Hall. destruct params as [|p ps]; [reflexivity|].
  unfold paramStr. rewrite includes_cons, Hc. cbn [orb].
  apply includes_join; [|assumption]. cbn. now rewrite Hc.
Qed.

(** The left side of a line splits into the name and the parameters. *)
Lemma split_left (n : str) (params : list str) :
  includes SEMI n = false ->
  Forall (fun p => includes SEMI p = false) params ->
  split SEMI (n ++ paramStr params) = n :: params.
Proof.
  intros Hn Hps. destruct params as [|p ps].
  - cbn [paramStr]. rewrite app_nil_r. now apply split_free.
  - unfold paramStr. rewrite split_app by assumption. f_equal.
    apply split_join; [assumption | discriminate].
Qed.

Lemma parse_lineOf (n : str) (pv : list str * str) :
  nameOk n = true -> forallb wordOk (fst pv) = true ->
  parse_line (lineOf n pv) = Some (prop n pv).
Proof.
  intros Hn Hps. unfold nameOk in Hn.
  apply andb_prop in Hn as [Hn Hcont]. apply andb_prop in Hn as [Hn Hne].
  apply andb_prop in Hn as [Hn Hend]. apply andb_prop in Hn as [Hn Hbegin].
  apply andb_prop in Hn as [Hw Hup].
  apply negb_true_iff in Hend, Hbegin.
  apply str_eqb_eq in Hup. destruct (wordOk_parts _ Hw) as (Hcol & Hsemi & _).
  rewrite forallb_forall in Hps.
  assert (Hpc : Forall (fun p => includes COLON p = false) (fst pv)).
  { apply List.Forall_forall. intros p Hp. now apply wordOk_parts, Hps. }
  assert (Hpsm : Forall (fun p => includes SEMI p = false) (fst pv)).
  { apply List.Forall_forall. intros p Hp. now apply wordOk_parts, Hps. }
  unfold lineOf, parse_line. rewrite app_assoc.
  rewrite indexOf_app.
  2:{ rewrite includes_app, Hcol. now apply includes_paramStr. }
  cbv beta iota zeta.
  rewrite firstn_length_app, skipn_S_length_app, split_left by assumption.
  cbn [hd tl]. rewrite Hup, Hbegin, Hend. reflexivity.
Qed.

Lemma omap_app {A B} (f : A -> option B) (l1 l2 : list A) :
  omap f (l1 ++ l2) = omap f l1 ++ omap f l2.
Proof.
  induction l1 as [|x l1 IH]; [reflexivity|].
  cbn [app]. cbn. destruct (f x); cbn; now rewrite IH.
Qed.

Lemma omap_all {A B} (f : A -> option B) (g : A -> B) (l : list A) :
  Forall (fun x => f x = Some (g x)) l -> omap f l = map g l.
Proof.
  induction 1 as [|x l Hx _ IH]; [reflexivity|].
  cbn. rewrite Hx. cbn. now f_equal.
Qed.

Lemma parse_section (s : section) :
  sectionOk s -> omap parse_line (linesOf s) = entriesOf s.
Proof.
  intros [Hn Hps]. unfold linesOf, entriesOf.
  induction Hps as [|pv pvs Hpv _ IH]; [reflexivity|].
  apply andb_prop in Hpv as [Hpv _].
  cbn [map]. change (omap parse_line (lineOf (fst s) pv :: map (lineOf (fst s)) pvs))
    with (match parse_line (lineOf (fst s) pv) with
          | Some y => y :: omap parse_line (map (lineOf (fst s)) pvs)
          | None => omap parse_line (map (lineOf (fst s)) pvs)
          end).
  rewrite parse_lineOf by assumption. now rewrite IH.
Qed.

(** The decoder reads the sections' properties from the sections' lines. *)
Lemma parse_sections (secs : list section) :
  Forall sectionOk secs ->
  parseProperties (flat_map linesOf secs) = flat_map entriesOf secs.
Proof.
  unfold parseProperties.
  induction 1 as [|s secs Hs _ IH]; [reflexivity|].
  cbn [flat_map]. rewrite omap_app, IH. now rewrite parse_section.
Qed.

Lemma parse_frame (lines : list str) :
  parseProperties (lit "BEGIN:VCARD" :: lines ++ [lit "END:VCARD"])
  = parseProperties lines.
Proof.
  unfold parseProperties.
  change (lit "BEGIN:VCARD" :: lines ++ [lit "END:VCARD"])
    with ([lit "BEGIN:VCARD"] ++ lines ++ [lit "END:VCARD"]).
  rewrite !omap_app.
  change (omap parse_line [lit "BEGIN:VCARD"]) with (@nil VCardProperty).
  change (omap parse_line [lit "END:VCARD"]) with (@nil VCardProperty).
  now rewrite app_nil_r.
Qed.

(** *** Looking a property up *)

Lemma filter_entriesOf (n : str) (s : section) :
  List.filter (named n) (entriesOf s)
  = if str_eqb (fst s) (toUpperCase n) then entriesOf s else [].
Proof.
  unfold entriesOf. induction (snd s) as [|pv pvs IH].
  - now destruct (str_eqb (fst s) (toUpperCase n)).
  - cbn [map List.filter]. unfold named at 1. cbn [prop vp_name].
    rewrite IH. now destruct (str_eqb (fst s) (toUpperCase n)).
Qed.

Lemma getAll_sections (n : str) (secs : list section) :
  getAll (flat_map entriesOf secs) n
  = flat_map entriesOf
      (List.filter (fun s => str_eqb (fst s) (toUpperCase n)) secs).
Proof.
  unfold getAll. fold (named n).
  induction secs as [|s secs IH]; [reflexivity|].
  cbn [flat_map List.filter]. rewrite List.filter_app, filter_entriesOf, IH.
  now destruct (str_eqb (fst s) (toUpperCase n)).
Qed.

Lemma find_head_filter {A} (f : A -> bool) (l : list A) :
  find f l = hd_error (List.filter f l).
Proof.
  induction l as [|x l IH]; [reflexivity|].
  cbn [find List.filter]. now destruct (f x).
Qed.

Lemma get_getAll (props : PropertyMap) (n : str) :
  get props n = option_map vp_value (hd_error (getAll props n)).
Proof. unfold get, getAll. now rewrite find_head_filter. Qed.

End ParseFacts.

(** ** The codec: provider identifiers *)

Module JsonFacts.
Import Json CodecSpec LineFacts.

Lemma plain_unit_facts (c : N) :
  plain_unit c = true ->
  (32 <= c)%N /\ c <> 34%N /\ c <> 92%N
  /\ is_high c = false /\ is_low c = false.
Proof.
  unfold plain_unit, QUOTE, BACKSLASH. intros E.
  apply andb_prop in E as [E Hlow]. apply andb_prop in E as [E Hhigh].
  apply andb_prop in E as [E Hbs]. apply andb_prop in E as [Hle Hq].
  apply negb_true_iff in Hlow, Hhigh, Hbs, Hq.
  apply N.leb_le in Hle. apply N.eqb_neq in Hbs, Hq. auto.
Qed.

Ltac plain_tests c H :=
  destruct (plain_unit_facts c H) as (Hle & Hq & Hbs & Hhigh & Hlow);
  assert (E8 : N.eqb c 8 = false) by (apply N.eqb_neq; lia);
  assert (E9 : N.eqb c 9 = false) by (apply N.eqb_neq; lia);
  assert (E10 : N.eqb c 10 = false) by (apply N.eqb_neq; lia);
  assert (E12 : N.eqb c 12 = false) by (apply N.eqb_neq; lia);
  assert (E13 : N.eqb c 13 = false) by (apply N.eqb_neq; lia);
  assert (EQ : N.eqb c QUOTE = false) by (now apply N.eqb_neq);
  assert (EB : N.eqb c BACKSLASH = false) by (now apply N.eqb_neq);
  assert (E32 : N.ltb c 32 = false) by (apply N.ltb_ge; lia).

(** A plain text is written between the quotes as it is. *)
Lemma quote_units_plain (s : str) : plainText s = true -> quote_units s = s.
Proof.
  induction s as [|c s IH]; [reflexivity|].
  intros E. apply andb_prop in E as [Hc Hs]. plain_tests c Hc.
  specialize (IH Hs).
  change (quote_units (c :: s)) with
    (if N.eqb c 8 then BACKSLASH :: 98%N :: quote_units s
     else if N.eqb c 9 then BACKSLASH :: 116%N :: quote_units s
     else if N.eqb c 10 then BACKSLASH :: 110%N :: quote_units s
     else if N.eqb c 12 then BACKSLASH :: 102%N :: quote_units s
     else if N.eqb c 13 then BACKSLASH :: 114%N :: quote_units s
     else if N.eqb c QUOTE then BACKSLASH :: QUOTE :: quote_units s
     else if N.eqb c BACKSLASH then BACKSLASH :: BACKSLASH :: quote_units s
     else if N.ltb c 32 then unicode_escape c ++ quote_units s
     else if is_high c then
       match s with
       | d :: t' =>
           if is_low d then c :: d :: quote_units t'
           else unicode_escape c ++ quote_units s
       | [] => unicode_escape c
       end
     else if is_low c then unicode_escape c ++ quote_units s
     else c :: quote_units s).
  rewrite E8, E9, E10, E12, E13, EQ, EB, E32, Hhigh, Hlow. now rewrite IH.
Qed.

(** ... and read back as it is. *)
Lemma parse_chars_plain (s rest : str) :
  plainText s = true -> parse_chars (s ++ QUOTE :: rest) = Some (s, rest).
Proof.
  induction s as [|c s IH].
  - intros _. cbn [app parse_chars]. now rewrite N.eqb_refl.
  - intros E. apply andb_prop in E as [Hc Hs]. plain_tests c Hc.
    cbn [app parse_chars]. rewrite EQ, EB, E32, (IH Hs). reflexivity.
Qed.

Lemma parse_string_quote (s rest : str) :
  plainText s = true -> parse_string (quote s ++ rest) = Some (s, rest).
Proof.
  intros Hs. unfold quote. rewrite (quote_units_plain s Hs).
  change ((QUOTE :: s ++ [QUOTE]) ++ rest)
    with (QUOTE :: (s ++ [QUOTE]) ++ rest).
  rewrite <- app_assoc.
  change (parse_string (QUOTE :: s ++ [QUOTE] ++ rest))
    with (parse_chars (s ++ QUOTE :: rest)).
  now apply parse_chars_plain.
Qed.

Lemma parse_members_step (fuel : nat) (k v r3 : str) (d : N)
    (acc : list (str * str)) :
  plainText k = true -> plainText v = true -> json_ws d = false ->
  parse_members (S fuel) (member (k, v) ++ d :: r3) acc
  = if N.eqb d COMMA then parse_members fuel r3 ((k, v) :: acc)
    else if N.eqb d 125 then
      match skip_ws r3 with
      | [] => Some ((k, v) :: acc)
      | _ :: _ => None
      end
    else None.
Proof.
  intros Hk Hv Hd. unfold member. cbn [fst snd].
  rewrite <- !app_assoc. cbn [parse_members].
  rewrite (parse_string_quote k _ Hk). cbv iota beta.
  change ([COLON] ++ quote v ++ d :: r3) with (COLON :: quote v ++ d :: r3).
  change (expect COLON (COLON :: quote v ++ d :: r3))
    with (Some (quote v ++ d :: r3)).
  cbv iota beta. rewrite (parse_string_quote v _ Hv). cbv iota beta.
  cbn [skip_ws]. rewrite Hd. reflexivity.
Qed.

Lemma parse_members_all (kvs : list (str * str)) :
  forall (kv : str * str) (fuel : nat) (acc : list (str * str)),
    forallb plainMember (kv :: kvs) = true ->
    length kvs < fuel ->
    parse_members fuel (join [COMMA] (map member (kv :: kvs)) ++ [125%N]) acc
    = Some (rev (kv :: kvs) ++ acc).
Proof.
  induction kvs as [|kv' kvs IH]; intros [k v] fuel acc Hall Hfuel.
  - destruct fuel as [|fuel]; [lia|].
    cbn [forallb] in Hall. apply andb_prop in Hall as [Hkv _].
    apply andb_prop in Hkv as [Hk Hv]. cbn [fst snd] in Hk, Hv.
    cbn [map join]. rewrite parse_members_step by (assumption || reflexivity).
    reflexivity.
  - destruct fuel as [|fuel]; [lia|].
    cbn [forallb] in Hall. apply andb_prop in Hall as [Hkv Hrest].
    apply andb_prop in Hkv as [Hk Hv]. cbn [fst snd] in Hk, Hv.
    change (join [COMMA] (map member ((k, v) :: kv' :: kvs)))
      with (member (k, v) ++ COMMA :: join [COMMA] (map member (kv' :: kvs))).
    rewrite <- app_assoc.
    change ((COMMA :: join [COMMA] (map member (kv' :: kvs))) ++ [125%N])
      with (COMMA :: join [COMMA] (map member (kv' :: kvs)) ++ [125%N]).
    rewrite parse_members_step by (assumption || reflexivity).
    change (N.eqb COMMA COMMA) with true. cbv iota.
    rewrite IH by (assumption || (cbn [length] in Hfuel; lia)).
    cbn [rev]. now rewrite <- !app_assoc.
Qed.

Lemma length_join_members (l : list (str * str)) :
  length l <= length (join [COMMA] (map member l)).
Proof.
  induction l as [|x l IH]; [reflexivity|].
  destruct l as [|y l].
  - cbn. lia.
  - change (join [COMMA] (map member (x :: y :: l)))
      with (member x ++ COMMA :: join [COMMA] (map member (y :: l))).
    rewrite length_app. cbn [length] in *. lia.
Qed.

Lemma list_to_map_rev (m : gmap str str) :
  list_to_map (rev (map_to_list m)) = m.
Proof.
  rewrite <- (list_to_map_to_list m) at 2.
  apply list_to_map_proper.
  - rewrite map_rev. apply NoDup_ListNoDup, List.NoDup_rev, NoDup_ListNoDup.
    apply NoDup_fst_map_to_list.
  - symmetry. apply Permutation.Permutation_rev.
Qed.

(** [JSON.parse] reads back the object [JSON.stringify] wrote. *)
Lemma parse_stringify (m : gmap str str) :
  forallb plainMember (map_to_list m) = true ->
  parse (stringify m) = Some m.
Proof.
  intros Hall. unfold stringify, parse.
  change (expect 123 ([123%N] ++ join [COMMA] (map member (map_to_list m))
                      ++ [125%N]))
    with (Some (join [COMMA] (map member (map_to_list m)) ++ [125%N])).
  cbv iota beta.
  destruct (map_to_list m) as [|[k v] kvs] eqn:El.
  - apply map_to_list_empty_iff in El. subst m. reflexivity.
  - pose proof (length_join_members ((k, v) :: kvs)) as Hlen.
    rewrite parse_members_all;
      [| assumption | rewrite length_app; cbn [length] in *; lia].
    change (map member ((k, v) :: kvs))
      with (member (k, v) :: map member kvs).
    assert (Hhead : exists t, join [COMMA] (member (k, v) :: map member kvs)
                              ++ [125%N] = QUOTE :: t).
    { destruct (map member kvs); cbn; eauto. }
    destruct Hhead as [t ->].
    cbn [skip_ws]. change (json_ws QUOTE) with false.
    change (N.eqb QUOTE 125) with false. cbv iota.
    cbn [option_map]. f_equal. rewrite app_nil_r, <- El.
    apply list_to_map_rev.
Qed.

(** The text of the object holds no control character and no backslash. *)
Lemma cleanText_app (a b : str) :
  cleanText (a ++ b) = cleanText a && cleanText b.
Proof. apply forallb_app. Qed.

Lemma plain_clean (s : str) : plainText s = true -> cleanText s = true.
Proof.
  induction s as [|c s IH]; [reflexivity|].
  intros E. apply andb_prop in E as [Hc Hs]. plain_tests c Hc.
  cbn [cleanText forallb]. fold (cleanText s). rewrite (IH Hs), EB.
  apply N.leb_le in Hle. now rewrite Hle.
Qed.

Lemma cleanText_cons (c : N) (s : str) :
  cleanText (c :: s)
  = (N.leb 32 c && negb (N.eqb c BACKSLASH)) && cleanText s.
Proof. reflexivity. Qed.

Lemma cleanText_member (kv : str * str) :
  plainMember kv = true -> cleanText (member kv) = true.
Proof.
  destruct kv as [k v]. intros E. apply andb_prop in E as [Hk Hv].
  cbn [fst snd] in Hk, Hv.
  unfold member, quote. cbn [fst snd].
  rewrite !quote_units_plain by assumption.
  repeat rewrite ?cleanText_app, ?cleanText_cons.
  rewrite (plain_clean _ Hk), (plain_clean _ Hv). reflexivity.
Qed.

Lemma cleanText_stringify (m : gmap str str) :
  forallb plainMember (map_to_list m) = true ->
  cleanText (stringify m) = true.
Proof.
  intros Hall. unfold stringify. rewrite !cleanText_app.
  change (cleanText [123%N]) with true. change (cleanText [125%N]) with true.
  rewrite andb_true_r. cbn [andb].
  induction (map_to_list m) as [|kv kvs IH]; [reflexivity|].
  cbn [forallb] in Hall. apply andb_prop in Hall as [Hkv Hrest].
  destruct kvs as [|kv' kvs].
  - now apply cleanText_member.
  - change (join [COMMA] (map member (kv :: kv' :: kvs)))
      with (member kv ++ [COMMA] ++ join [COMMA] (map member (kv' :: kvs))).
    rewrite !cleanText_app, cleanText_member, IH by assumption. reflexivity.
Qed.

Lemma clean_free (c : N) (s : str) :
  (c < 32)%N \/ c = BACKSLASH -> cleanText s = true -> includes c s = false.
Proof.
  intros Hc. induction s as [|x s IH]; [reflexivity|].
  intros E. cbn [cleanText forallb] in E. apply andb_prop in E as [Hx Hs].
  apply andb_prop in Hx as [Hle Hbs]. apply N.leb_le in Hle.
  apply negb_true_iff, N.eqb_neq in Hbs.
  rewrite includes_cons, (IH Hs), orb_false_r. apply N.eqb_neq.
  destruct Hc as [Hc | ->]; [lia | congruence].
Qed.

Lemma clean_bs_n_free (s : str) : cleanText s = true -> bs_n_free s = true.
Proof.
  induction s as [|x s IH]; [reflexivity|].
  intros E. cbn [cleanText forallb] in E. apply andb_prop in E as [Hx Hs].
  apply andb_prop in Hx as [_ Hbs]. apply negb_true_iff in Hbs.
  specialize (IH Hs).
  change (bs_n_free (x :: s))
    with (negb (N.eqb x BACKSLASH
                && match s with
                   | d :: _ => N.eqb d LOWER_N
                   | [] => false
                   end) && bs_n_free s).
  now rewrite Hbs, IH.
Qed.

End JsonFacts.

(** ** The codec: the card of a contact *)

Module CardFacts.
Import VCard CodecSpec EscapeFacts LineFacts ParseFacts JsonFacts JsFacts.

Ltac andb_split H :=
  repeat match type of H with
         | andb _ _ = true =>
             let H' := fresh H in apply andb_prop in H as [H H']
         end.

(** *** What escaping leaves out *)

Lemma includes_flat_map (c : N) (f : N -> str) (s : str) :
  includes c (flat_map f s) = existsb (fun x => includes c (f x)) s.
Proof.
  induction s as [|x s IH]; [reflexivity|].
  cbn [flat_map existsb]. now rewrite includes_app, IH.
Qed.

Lemma esc_free (c x : N) :
  N.eqb c BACKSLASH = false -> N.eqb c LOWER_N = false ->
  N.eqb c x = false -> includes c (esc x) = false.
Proof.
  intros Hb Hn Hx. unfold esc.
  destruct (N.eqb_spec x BACKSLASH) as [->|_];
    [cbn [includes existsb]; now rewrite Hb|].
  destruct (N.eqb_spec x SEMI) as [->|_];
    [cbn [includes existsb]; now rewrite Hb, Hx|].
  destruct (N.eqb_spec x COMMA) as [->|_];
    [cbn [includes existsb]; now rewrite Hb, Hx|].
  destruct (N.eqb_spec x LF) as [->|_];
    [cbn [includes existsb]; now rewrite Hb, Hn|].
  cbn [includes existsb]. now rewrite Hx.
Qed.

Lemma escape_free (c : N) (s : str) :
  N.eqb c BACKSLASH = false -> N.eqb c LOWER_N = false ->
  includes c s = false -> includes c (escapeVCardValue s) = false.
Proof.
  intros Hb Hn. rewrite escape_units, includes_flat_map.
  induction s as [|x s IH]; [reflexivity|].
  rewrite includes_cons. intros E. apply orb_false_elim in E as [Ex Es].
  cbn [existsb]. now rewrite esc_free, IH.
Qed.

Lemma escape_free_LF (s : str) : includes LF (escapeVCardValue s) = false.
Proof.
  rewrite escape_units, includes_flat_map.
  induction s as [|x s IH]; [reflexivity|].
  cbn [existsb]. rewrite IH, orb_false_r. unfold esc.
  destruct (N.eqb_spec x BACKSLASH) as [->|_]; [reflexivity|].
  destruct (N.eqb_spec x SEMI) as [->|_]; [reflexivity|].
  destruct (N.eqb_spec x COMMA) as [->|_]; [reflexivity|].
  destruct (N.eqb_spec x LF) as [->|Hx]; [reflexivity|].
  cbn [includes existsb]. rewrite orb_false_r. apply N.eqb_neq. congruence.
Qed.

Lemma rawText_intro (s : str) :
  includes CR s = false -> includes LF s = false -> rawText s = true.
Proof. unfold rawText. now intros -> ->. Qed.

Lemma rawText_app (a b : str) :
  rawText a = true -> rawText b = true -> rawText (a ++ b) = true.
Proof.
  intros Ha Hb. apply rawText_parts in Ha as [Ha1 Ha2], Hb as [Hb1 Hb2].
  apply rawText_intro; rewrite includes_app; now rewrite ?Ha1, ?Ha2.
Qed.

Lemma escText_parts (s : str) :
  escText s = true -> includes CR s = false /\ bs_n_free s = true.
Proof.
  unfold escText. intros E. apply andb_prop in E as [E1 E2].
  now apply negb_true_iff in E1.
Qed.

Lemma escText_raw (s : str) :
  escText s = true -> rawText (escapeVCardValue s) = true.
Proof.
  intros E. apply escText_parts in E as [Hcr _].
  apply rawText_intro; [now apply escape_free | apply escape_free_LF].
Qed.

Lemma escText_round (s : str) :
  escText s = true -> unescapeVCardValue (escapeVCardValue s) = s.
Proof. intros E. apply escText_parts in E as [_ E]. now apply unescape_escape. Qed.

Lemma partText_parts (s : str) :
  partText s = true -> escText s = true /\ includes SEMI s = false.
Proof.
  unfold partText. intros E. apply andb_prop in E as [E1 E2].
  now apply negb_true_iff in E2.
Qed.

Lemma itemText_parts (s : str) :
  itemText s = true -> escText s = true /\ includes COMMA s = false.
Proof.
  unfold itemText. intros E. apply andb_prop in E as [E1 E2].
  now apply negb_true_iff in E2.
Qed.

(** An optional text with [P] is absent, or present, not empty and with
    [P]. *)
Lemma optAll_cases (P : str -> bool) (o : option str) :
  optAll P o = true ->
  o = None \/ exists x s, o = Some (x :: s) /\ P (x :: s) = true.
Proof.
  destruct o as [[|x s]|]; cbn; intros E; try discriminate; eauto.
Qed.

Lemma opt_esc_raw (o : option str) :
  optAll escText o = true -> rawText (escapeVCardValue (or_empty o)) = true.
Proof.
  intros E. destruct (optAll_cases _ _ E) as [->|(x & s & -> & Hs)];
    [reflexivity|]. now apply escText_raw.
Qed.

Lemma optAll_impl (P Q : str -> bool) (o : option str) :
  (forall s, P s = true -> Q s = true) ->
  optAll P o = true -> optAll Q o = true.
Proof.
  intros HPQ. destruct o as [s|]; [|reflexivity]. cbn [optAll].
  intros E. apply andb_prop in E as [-> E]. now rewrite (HPQ s E).
Qed.

Lemma opt_part_esc (o : option str) :
  optAll partText o = true -> optAll escText o = true.
Proof. apply optAll_impl. intros s E. now apply partText_parts in E. Qed.

Lemma opt_part_raw (o : option str) :
  optAll partText o = true -> rawText (escapeVCardValue (or_empty o)) = true.
Proof. intros E. now apply opt_esc_raw, opt_part_esc. Qed.

Lemma opt_raw (o : option str) :
  optAll rawText o = true -> rawText (or_empty o) = true.
Proof.
  intros E. destruct (optAll_cases _ _ E) as [->|(x & s & -> & Hs)];
    [reflexivity | assumption].
Qed.

(** *** Types and parameters *)

Lemma lower_free (c : N) (s : str) :
  (c < 97)%N -> typeText s = true -> includes c s = false.
Proof.
  intros Hc. induction s as [|x s IH]; [reflexivity|].
  cbn [typeText forallb]. intros E. apply andb_prop in E as [Hx Hs].
  unfold is_lower in Hx. apply andb_prop in Hx as [Hx _].
  apply N.leb_le in Hx. rewrite includes_cons, (IH Hs), orb_false_r.
  apply N.eqb_neq. lia.
Qed.

Lemma typeText_word (s : str) : typeText s = true -> wordOk s = true.
Proof.
  intros E. unfold wordOk, rawText.
  rewrite !lower_free by (assumption || (unfold COLON, SEMI, CR, LF; lia)).
  reflexivity.
Qed.

Lemma wordOk_app (a b : str) :
  wordOk a = true -> wordOk b = true -> wordOk (a ++ b) = true.
Proof.
  intros Ha Hb.
  apply wordOk_parts in Ha as (Ha1 & Ha2 & Ha3), Hb as (Hb1 & Hb2 & Hb3).
  unfold wordOk. rewrite !includes_app, Ha1, Ha2, Hb1, Hb2.
  now rewrite rawText_app.
Qed.

Lemma params_ok (t : option str) (p : option bool) :
  optAll typeText t = true ->
  forallb wordOk (typeParam t ++ prefParam p) = true.
Proof.
  intros E. rewrite forallb_app.
  assert (Hp : forallb wordOk (prefParam p) = true)
    by (destruct p as [[|]|]; reflexivity).
  rewrite Hp, andb_true_r.
  destruct (optAll_cases _ _ E) as [->|(x & s & -> & Hs)]; [reflexivity|].
  cbn [typeParam truthy or_empty forallb]. rewrite andb_true_r.
  apply wordOk_app; [reflexivity | now apply typeText_word].
Qed.

Lemma type_ok (t : option str) :
  optAll typeText t = true -> forallb wordOk (typeParam t) = true.
Proof.
  intros E. rewrite <- (app_nil_r (typeParam t)).
  exact (params_ok t None E).
Qed.

(** *** The lines of a card are the lines of its sections *)

Lemma linesOf_map {A} (n : str) (g : A -> list str * str) (l : list A) :
  linesOf (n, map g l) = map (fun x => lineOf n (g x)) l.
Proof. unfold linesOf. cbn [fst snd]. apply map_map. Qed.

Lemma linesOf_opt (n : str) (conv : str -> str) (o : option str) :
  linesOf (n, optPV conv o) = optLine (n ++ [COLON]) conv o.
Proof.
  unfold linesOf, optPV, optLine, lineOf. cbn [fst snd].
  destruct (truthy o); [|reflexivity]. cbn [map fst snd paramStr app].
  now rewrite <- app_assoc.
Qed.

Lemma linesOf_org (org : option ContactOrganization) :
  linesOf (lit "ORG", orgPV org) ++ linesOf (lit "TITLE", titlePV org)
  = orgLines org.
Proof.
  destruct org as [o|]; [|reflexivity].
  unfold linesOf, orgPV, titlePV, orgLines. cbn [fst snd].
  destruct (truthy (o_name o)), (truthy (o_title o)); reflexivity.
Qed.

Lemma vcardLines_sections (c : Contact) :
  vcardLines c
  = lit "BEGIN:VCARD" :: flat_map linesOf (sections c) ++ [lit "END:VCARD"].
Proof.
  unfold sections. cbn [flat_map].
  rewrite !linesOf_map, !linesOf_opt.
  rewrite (app_assoc (linesOf (lit "ORG", _))), linesOf_org.
  rewrite <- !(app_assoc (A := str)).
  unfold vcardLines.
  change (lit "BDAY" ++ [COLON]) with (lit "BDAY:").
  change (lit "ANNIVERSARY" ++ [COLON]) with (lit "ANNIVERSARY:").
  change (lit "NOTE" ++ [COLON]) with (lit "NOTE:").
  change (lit "PHOTO" ++ [COLON]) with (lit "PHOTO:").
  change (lit "X-CONTACTS-MCP-SOURCE" ++ [COLON])
    with (lit "X-CONTACTS-MCP-SOURCE:").
  unfold linesOf, categoriesPV, providerIdsPV, archivedPV. cbn [fst snd].
  destruct (categories c) as [|cat cats];
    destruct (bool_decide (providerIds (metadata c) = ∅));
    destruct (archived (metadata c)); reflexivity.
Qed.

(** *** The conditions of [codec_safe], one by one *)

Lemma codec_safe_parts (c : Contact) :
  codec_safe c = true ->
  rawText (id c) = true /\ escText (fullName c) = true
  /\ safeName (name c) = true
  /\ ContactModel.hasNameFields (Some (name c))
      || negb (nonEmpty (trim (fullName c))) = true
  /\ forallb safeEmail (emails c) = true
  /\ forallb safePhone (phones c) = true
  /\ forallb safeAddress (addresses c) = true
  /\ safeOrganization (organization c) = true
  /\ optAll rawText (birthday c) = true
  /\ optAll rawText (anniversary c) = true
  /\ forallb safeUrl (urls c) = true /\ optAll escText (notes c) = true
  /\ safeCategories (categories c) = true
  /\ optAll rawText (photo c) = true /\ safeMetadata (metadata c) = true.
Proof.
  unfold codec_safe. intros H. andb_split H. repeat split; assumption.
Qed.

Lemma safeName_parts (n : ContactName) :
  safeName n = true ->
  optAll partText (n_prefix n) = true
  /\ optAll partText (n_givenName n) = true
  /\ optAll partText (n_middleName n) = true
  /\ optAll partText (n_familyName n) = true
  /\ optAll partText (n_suffix n) = true.
Proof.
  unfold safeName. intros H. andb_split H. repeat split; assumption.
Qed.

Lemma safeAddress_parts (a : ContactAddress) :
  safeAddress a = true ->
  optAll partText (a_street a) = true /\ optAll partText (a_city a) = true
  /\ optAll partText (a_state a) = true
  /\ optAll partText (a_postalCode a) = true
  /\ optAll partText (a_country a) = true
  /\ optAll typeText (a_type a) = true.
Proof.
  unfold safeAddress. intros H. andb_split H. repeat split; assumption.
Qed.

Lemma safeOrganization_parts (o : ContactOrganization) :
  safeOrganization (Some o) = true ->
  optAll partText (o_name o) = true
  /\ optAll partText (o_department o) = true
  /\ optAll escText (o_title o) = true
  /\ truthy (o_name o)
      || truthy (o_title o) && negb (defined (o_department o)) = true.
Proof.
  unfold safeOrganization. intros H. andb_split H. repeat split; assumption.
Qed.

Lemma safeMetadata_parts (m : ContactMetadata) :
  safeMetadata m = true ->
  rawText (created m) = true /\ rawText (modified m) = true
  /\ optAll escText (source m) = true
  /\ forallb plainMember (map_to_list (providerIds m)) = true
  /\ etag m = None.
Proof.
  unfold safeMetadata. intros H. andb_split H.
  repeat split; try assumption. now destruct (etag m).
Qed.

(** *** Every section of a safe contact is well formed *)

Lemma single_ok (v : str) : rawText v = true -> allOk [([], v)].
Proof. intros Hv. constructor; [exact Hv | constructor]. Qed.

Lemma map_ok {A} (P : A -> bool) (g : A -> list str * str) (l : list A) :
  (forall x, P x = true -> pvOk (g x) = true) ->
  forallb P l = true -> allOk (map g l).
Proof.
  intros HP Hall. rewrite forallb_forall in Hall.
  apply Forall_map, List.Forall_forall. intros x Hx. now apply HP, Hall.
Qed.

Lemma opt_ok (conv : str -> str) (o : option str) :
  rawText (conv (or_empty o)) = true -> allOk (optPV conv o).
Proof.
  intros Hv. unfold optPV. destruct (truthy o); [|constructor].
  now apply single_ok.
Qed.

Lemma emailPV_ok (e : ContactEmail) :
  safeEmail e = true -> pvOk (emailPV e) = true.
Proof.
  unfold safeEmail. intros H. andb_split H.
  unfold pvOk, emailPV. cbn [fst snd].
  now rewrite params_ok, escText_raw.
Qed.

Lemma phonePV_ok (p : ContactPhone) :
  safePhone p = true -> pvOk (phonePV p) = true.
Proof.
  unfold safePhone. intros H. andb_split H.
  unfold pvOk, phonePV. cbn [fst snd].
  now rewrite params_ok, escText_raw.
Qed.

Lemma rawText_semi : rawText [SEMI] = true.
Proof. reflexivity. Qed.

Lemma addressPV_ok (a : ContactAddress) :
  safeAddress a = true -> pvOk (addressPV a) = true.
Proof.
  intros H.
  destruct (safeAddress_parts a H) as (H1 & H2 & H3 & H4 & H5 & H6).
  unfold pvOk, addressPV, addressValue. cbn [fst snd].
  rewrite type_ok by assumption. cbn [andb].
  repeat (apply rawText_app;
          [first [reflexivity | now apply opt_part_raw]|]).
  now apply opt_part_raw.
Qed.

Lemma urlPV_ok (u : ContactUrl) : safeUrl u = true -> pvOk (urlPV u) = true.
Proof.
  unfold safeUrl. intros H. andb_split H.
  unfold pvOk, urlPV. cbn [fst snd].
  now rewrite type_ok, escText_raw.
Qed.

Lemma nValue_raw (n : ContactName) :
  safeName n = true -> rawText (nValue n) = true.
Proof.
  intros H. destruct (safeName_parts n H) as (H1 & H2 & H3 & H4 & H5).
  unfold nValue.
  repeat (apply rawText_app;
          [first [reflexivity | now apply opt_part_raw]|]).
  now apply opt_part_raw.
Qed.

Lemma orgPV_ok (org : option ContactOrganization) :
  safeOrganization org = true -> allOk (orgPV org).
Proof.
  destruct org as [o|]; [|constructor]. intros H.
  destruct (safeOrganization_parts o H) as (H1 & H2 & H3 & _).
  unfold orgPV. destruct (truthy (o_name o)); [|constructor].
  apply single_ok. unfold orgValue.
  apply rawText_app; [now apply opt_part_raw|].
  destruct (truthy (o_department o)); [|reflexivity].
  apply (rawText_app [SEMI]); [reflexivity | now apply opt_part_raw].
Qed.

Lemma titlePV_ok (org : option ContactOrganization) :
  safeOrganization org = true -> allOk (titlePV org).
Proof.
  destruct org as [o|]; [|constructor]. intros H.
  destruct (safeOrganization_parts o H) as (H1 & H2 & H3 & _).
  unfold titlePV. destruct (truthy (o_title o)); [|constructor].
  apply single_ok. now apply opt_esc_raw.
Qed.

Lemma safeCategories_parts (cats : list str) :
  safeCategories cats = true ->
  Forall (fun s => escText s = true /\ includes COMMA s = false) cats
  /\ cats <> [[]].
Proof.
  unfold safeCategories. intros H. apply andb_prop in H as [H1 H2].
  split.
  - rewrite forallb_forall in H1. apply List.Forall_forall.
    intros s Hs. now apply itemText_parts, H1.
  - intros ->. discriminate.
Qed.

Lemma categoriesPV_ok (cats : list str) :
  safeCategories cats = true -> allOk (categoriesPV cats).
Proof.
  intros H. apply safeCategories_parts in H as [Hall _].
  unfold categoriesPV. destruct cats as [|cat cats]; [constructor|].
  apply single_ok, rawText_intro; (apply includes_join; [reflexivity|]);
    apply Forall_map; (eapply List.Forall_impl; [|exact Hall]);
    intros s [Hs _]; apply escText_raw, rawText_parts in Hs; tauto.
Qed.

Lemma providerIdsPV_ok (ids : gmap str str) :
  forallb plainMember (map_to_list ids) = true -> allOk (providerIdsPV ids).
Proof.
  intros H. unfold providerIdsPV.
  destruct (bool_decide (ids = ∅)); [constructor|].
  apply single_ok, rawText_intro; [|apply escape_free_LF].
  apply escape_free; [reflexivity | reflexivity |].
  apply clean_free; [left; reflexivity | now apply cleanText_stringify].
Qed.

Lemma sections_ok (c : Contact) :
  codec_safe c = true -> Forall sectionOk (sections c).
Proof.
  intros H.
  destruct (codec_safe_parts c H)
    as (Hid & Hfn & Hname & _ & Hemails & Hphones & Haddrs & Horg & Hbday
        & Hanniv & Hurls & Hnotes & Hcats & Hphoto & Hmeta).
  destruct (safeMetadata_parts _ Hmeta)
    as (Hcreated & Hmodified & Hsource & Hids & _).
  unfold sections.
  repeat (apply List.Forall_cons; [split; [reflexivity | cbn [snd]]|]);
    [..|constructor].
  - now apply single_ok.
  - now apply single_ok, rawText_app.
  - now apply single_ok, escText_raw.
  - now apply single_ok, nValue_raw.
  - now apply (map_ok safeEmail), Hemails; apply emailPV_ok.
  - now apply (map_ok safePhone), Hphones; apply phonePV_ok.
  - now apply (map_ok safeAddress), Haddrs; apply addressPV_ok.
  - now apply orgPV_ok.
  - now apply titlePV_ok.
  - now apply opt_ok, opt_raw.
  - now apply opt_ok, opt_raw.
  - now apply (map_ok safeUrl), Hurls; apply urlPV_ok.
  - now apply opt_ok, opt_esc_raw.
  - now apply categoriesPV_ok.
  - now apply opt_ok, opt_raw.
  - now apply single_ok.
  - now apply opt_ok, opt_esc_raw.
  - now apply providerIdsPV_ok.
  - now apply single_ok.
  - unfold archivedPV. destruct (archived (metadata c)); [|constructor].
    now apply single_ok.
Qed.

(** *** Reading the card back *)

Lemma goodLine_lineOf (n : str) (pv : list str * str) :
  nameOk n = true -> pvOk pv = true -> goodLine (lineOf n pv).
Proof.
  intros Hn Hpv. unfold nameOk in Hn.
  apply andb_prop in Hn as [Hn Hcont]. apply andb_prop in Hn as [Hn Hne].
  apply andb_prop in Hn as [Hn _]. apply andb_prop in Hn as [Hn _].
  apply andb_prop in Hn as [Hw _]. apply negb_true_iff in Hcont.
  apply wordOk_parts in Hw as (_ & _ & Hraw).
  apply rawText_parts in Hraw as [Hcr Hlf].
  apply andb_prop in Hpv as [Hps Hv].
  apply rawText_parts in Hv as [Hvcr Hvlf].
  rewrite forallb_forall in Hps.
  assert (Hpcr : Forall (fun p => includes CR p = false) (fst pv)).
  { apply List.Forall_forall. intros p Hp.
    destruct (wordOk_parts p (Hps p Hp)) as (_ & _ & Hr).
    now apply rawText_parts in Hr. }
  assert (Hplf : Forall (fun p => includes LF p = false) (fst pv)).
  { apply List.Forall_forall. intros p Hp.
    destruct (wordOk_parts p (Hps p Hp)) as (_ & _ & Hr).
    now apply rawText_parts in Hr. }
  assert (Hnn : n <> []) by (destruct n; [discriminate | congruence]).
  unfold goodLine, lineOf. repeat split.
  - destruct n; [congruence | discriminate].
  - rewrite !includes_app, Hcr, includes_paramStr by (reflexivity || assumption).
    now rewrite includes_cons, Hvcr.
  - rewrite !includes_app, Hlf, includes_paramStr by (reflexivity || assumption).
    now rewrite includes_cons, Hvlf.
  - now rewrite is_continuation_prefix.
Qed.

Lemma goodLine_section (s : section) :
  sectionOk s -> Forall goodLine (linesOf s).
Proof.
  intros [Hn Hps]. unfold linesOf. apply Forall_map.
  eapply List.Forall_impl; [|exact Hps].
  intros pv Hpv. now apply goodLine_lineOf.
Qed.

Lemma goodLine_sections (secs : list section) :
  Forall sectionOk secs -> Forall goodLine (flat_map linesOf secs).
Proof.
  induction 1 as [|s secs Hs _ IH]; [constructor|].
  cbn [flat_map]. apply Forall_app. split; [now apply goodLine_section | exact IH].
Qed.

(** The decoder finds the sections' properties in the card. *)
Lemma card_properties (c : Contact) :
  codec_safe c = true ->
  parseProperties (unfoldLines (contactToVCard c)) = entries c.
Proof.
  intros H. pose proof (sections_ok c H) as Hok.
  unfold contactToVCard. rewrite unfold_fold.
  - rewrite vcardLines_sections, parse_frame. now apply parse_sections.
  - rewrite vcardLines_sections. constructor.
    + repeat split; (reflexivity || discriminate).
    + apply Forall_app. split; [now apply goodLine_sections|].
      constructor; [|constructor].
      repeat split; (reflexivity || discriminate).
  - rewrite vcardLines_sections. discriminate.
Qed.

End CardFacts.

(** ** The codec: the contact read back *)

Module RoundTrip.
Import VCard CodecSpec EscapeFacts LineFacts ParseFacts JsonFacts CardFacts
  JsFacts.

(** *** Looking the sections up *)

Lemma first_entry (n : str) (pvs : list (list str * str)) :
  option_map vp_value (hd_error (entriesOf (n, pvs)))
  = option_map snd (hd_error pvs).
Proof. now destruct pvs. Qed.

Lemma getAll_section (c : Contact) (n n' : str) (pvs : list (list str * str)) :
  List.filter (fun s => str_eqb (fst s) (toUpperCase n)) (sections c)
  = [(n', pvs)] ->
  getAll (entries c) n = map (prop n') pvs.
Proof.
  intros E. unfold entries. rewrite getAll_sections, E.
  cbn [flat_map]. now rewrite app_nil_r.
Qed.

Lemma get_section (c : Contact) (n n' : str) (pvs : list (list str * str)) :
  List.filter (fun s => str_eqb (fst s) (toUpperCase n)) (sections c)
  = [(n', pvs)] ->
  get (entries c) n = option_map snd (hd_error pvs).
Proof.
  intros E. rewrite get_getAll, (getAll_section c n n' pvs E).
  apply first_entry.
Qed.

Lemma get_UID (c : Contact) :
  get (entries c) (lit "UID") = Some (lit "urn:uuid:" ++ id c).
Proof. now rewrite (get_section c _ (lit "UID") [([], lit "urn:uuid:" ++ id c)]). Qed.

Lemma get_FN (c : Contact) :
  get (entries c) (lit "FN") = Some (escapeVCardValue (fullName c)).
Proof.
  now rewrite (get_section c _ (lit "FN")
                 [([], escapeVCardValue (fullName c))]).
Qed.

Lemma get_N (c : Contact) :
  get (entries c) (lit "N") = Some (nValue (name c)).
Proof. now rewrite (get_section c _ (lit "N") [([], nValue (name c))]). Qed.

Lemma getAll_EMAIL (c : Contact) :
  getAll (entries c) (lit "EMAIL")
  = map (prop (lit "EMAIL")) (map emailPV (emails c)).
Proof. now apply getAll_section. Qed.

Lemma getAll_TEL (c : Contact) :
  getAll (entries c) (lit "TEL")
  = map (prop (lit "TEL")) (map phonePV (phones c)).
Proof. now apply getAll_section. Qed.

Lemma getAll_ADR (c : Contact) :
  getAll (entries c) (lit "ADR")
  = map (prop (lit "ADR")) (map addressPV (addresses c)).
Proof. now apply getAll_section. Qed.

Lemma getAll_URL (c : Contact) :
  getAll (entries c) (lit "URL")
  = map (prop (lit "URL")) (map urlPV (urls c)).
Proof. now apply getAll_section. Qed.

Lemma get_ORG (c : Contact) :
  get (entries c) (lit "ORG")
  = option_map snd (hd_error (orgPV (organization c))).
Proof. now apply (get_section c _ (lit "ORG")). Qed.

Lemma get_TITLE (c : Contact) :
  get (entries c) (lit "TITLE")
  = option_map snd (hd_error (titlePV (organization c))).
Proof. now apply (get_section c _ (lit "TITLE")). Qed.

Lemma get_BDAY (c : Contact) :
  get (entries c) (lit "BDAY")
  = option_map snd (hd_error (optPV (fun s => s) (birthday c))).
Proof. now apply (get_section c _ (lit "BDAY")). Qed.

Lemma get_ANNIVERSARY (c : Contact) :
  get (entries c) (lit "ANNIVERSARY")
  = option_map snd (hd_error (optPV (fun s => s) (anniversary c))).
Proof. now apply (get_section c _ (lit "ANNIVERSARY")). Qed.

Lemma get_NOTE (c : Contact) :
  get (entries c) (lit "NOTE")
  = option_map snd (hd_error (optPV escapeVCardValue (notes c))).
Proof. now apply (get_section c _ (lit "NOTE")). Qed.

Lemma get_CATEGORIES (c : Contact) :
  get (entries c) (lit "CATEGORIES")
  = option_map snd (hd_error (categoriesPV (categories c))).
Proof. now apply (get_section c _ (lit "CATEGORIES")). Qed.

Lemma get_PHOTO (c : Contact) :
  get (entries c) (lit "PHOTO")
  = option_map snd (hd_error (optPV (fun s => s) (photo c))).
Proof. now apply (get_section c _ (lit "PHOTO")). Qed.

Lemma get_REV (c : Contact) :
  get (entries c) (lit "REV") = Some (modified (metadata c)).
Proof.
  now rewrite (get_section c _ (lit "REV") [([], modified (metadata c))]).
Qed.

Lemma get_SOURCE (c : Contact) :
  get (entries c) (lit "X-CONTACTS-MCP-SOURCE")
  = option_map snd
      (hd_error (optPV escapeVCardValue (source (metadata c)))).
Proof. now apply (get_section c _ (lit "X-CONTACTS-MCP-SOURCE")). Qed.

Lemma get_PROVIDER_IDS (c : Contact) :
  get (entries c) (lit "X-CONTACTS-MCP-PROVIDER-IDS")
  = option_map snd
      (hd_error (providerIdsPV (providerIds (metadata c)))).
Proof. now apply (get_section c _ (lit "X-CONTACTS-MCP-PROVIDER-IDS")). Qed.

Lemma get_CREATED (c : Contact) :
  get (entries c) (lit "X-CONTACTS-MCP-CREATED")
  = Some (created (metadata c)).
Proof.
  now rewrite (get_section c _ (lit "X-CONTACTS-MCP-CREATED")
                 [([], created (metadata c))]).
Qed.

Lemma get_ARCHIVED (c : Contact) :
  get (entries c) (lit "X-CONTACTS-MCP-ARCHIVED")
  = option_map snd (hd_error (archivedPV (archived (metadata c)))).
Proof. now apply (get_section c _ (lit "X-CONTACTS-MCP-ARCHIVED")). Qed.

Lemma get_opt (conv : str -> str) (o : option str) :
  option_map snd (hd_error (optPV conv o))
  = if truthy o then Some (conv (or_empty o)) else None.
Proof. unfold optPV. now destruct (truthy o). Qed.

(** *** The fields, one by one *)

Lemma default_Some {A} (x y : A) : default x (Some y) = y.
Proof. reflexivity. Qed.

Lemma default_None {A} (x : A) : default x None = x.
Proof. reflexivity. Qed.

Lemma uid_round (c : Contact) :
  default [] (extractUid (default [] (get (entries c) (lit "UID")))) = id c.
Proof. rewrite get_UID. reflexivity. Qed.

Lemma fullName_round (c : Contact) :
  escText (fullName c) = true ->
  unescapeVCardValue
    (default (lit "Unknown") (getFirstValue (entries c) (lit "FN")))
  = fullName c.
Proof.
  intros H. unfold getFirstValue. rewrite get_FN, default_Some.
  now apply escText_round.
Qed.

Lemma opt_part_round (o : option str) :
  optAll partText o = true ->
  or_undefined (unescapeVCardValue (escapeVCardValue (or_empty o))) = o.
Proof.
  intros E. destruct (optAll_cases _ _ E) as [->|(x & s & -> & Hs)];
    [reflexivity|].
  apply partText_parts in Hs as [Hs _].
  cbn [or_empty]. now rewrite escText_round.
Qed.

Lemma opt_part_semi (o : option str) :
  optAll partText o = true ->
  includes SEMI (escapeVCardValue (or_empty o)) = false.
Proof.
  intros E. destruct (optAll_cases _ _ E) as [->|(x & s & -> & Hs)];
    [reflexivity|].
  apply partText_parts in Hs as [_ Hs].
  cbn [or_empty]. now apply escape_free.
Qed.

Lemma decodeName_round (c : Contact) :
  safeName (name c) = true -> decodeName (entries c) = name c.
Proof.
  intros H. destruct (safeName_parts _ H) as (H1 & H2 & H3 & H4 & H5).
  unfold decodeName, getFirstValue. rewrite get_N, default_Some.
  cbv zeta.
  change (nValue (name c))
    with (join [SEMI]
            [escapeVCardValue (or_empty (n_familyName (name c)));
             escapeVCardValue (or_empty (n_givenName (name c)));
             escapeVCardValue (or_empty (n_middleName (name c)));
             escapeVCardValue (or_empty (n_prefix (name c)));
             escapeVCardValue (or_empty (n_suffix (name c)))]).
  rewrite split_join;
    [| repeat (constructor; [now apply opt_part_semi|]); constructor
     | discriminate].
  cbn [map part nth_error]. rewrite !opt_part_round by assumption.
  now destruct (name c).
Qed.

Lemma optAll_not_truthy (P : str -> bool) (o : option str) :
  optAll P o = true -> truthy o = false -> o = None.
Proof.
  intros E. destruct (optAll_cases _ _ E) as [->|(x & s & -> & _)];
    [reflexivity | discriminate].
Qed.

(** [createContact] keeps the structured name of a safe contact. *)
Lemma name_kept (c : Contact) :
  safeName (name c) = true ->
  ContactModel.hasNameFields (Some (name c))
  || negb (nonEmpty (trim (fullName c))) = true ->
  (if ContactModel.hasNameFields (Some (name c))
   then default ContactModel.emptyName (Some (name c))
   else ContactModel.parseName (fullName c)) = name c.
Proof.
  intros H Hn. destruct (safeName_parts _ H) as (H1 & H2 & H3 & H4 & H5).
  destruct (ContactModel.hasNameFields (Some (name c))) eqn:E;
    [reflexivity|].
  cbn [orb] in Hn. unfold ContactModel.parseName.
  destruct (trim (fullName c)); [|discriminate].
  unfold ContactModel.hasNameFields in E.
  apply orb_false_elim in E as [E E5]. apply orb_false_elim in E as [E E4].
  apply orb_false_elim in E as [E E3]. apply orb_false_elim in E as [E1 E2].
  destruct (name c) as [pr gv md fm sf]. cbn [n_prefix n_givenName
    n_middleName n_familyName n_suffix] in *.
  rewrite (optAll_not_truthy _ _ H1 E4), (optAll_not_truthy _ _ H2 E1),
    (optAll_not_truthy _ _ H3 E3), (optAll_not_truthy _ _ H4 E2),
    (optAll_not_truthy _ _ H5 E5).
  reflexivity.
Qed.

(** *** Entries with parameters *)

Lemma lower_fixed (s : str) : typeText s = true -> toLowerCase s = s.
Proof.
  induction s as [|x s IH]; [reflexivity|].
  cbn [typeText forallb]. intros E. apply andb_prop in E as [Hx Hs].
  cbn [toLowerCase map]. fold (toLowerCase s). rewrite (IH Hs). f_equal.
  unfold is_lower in Hx. apply andb_prop in Hx as [Hx _].
  apply N.leb_le in Hx. unfold lower_unit.
  replace (N.leb x 90) with false by (symmetry; apply N.leb_gt; lia).
  now rewrite andb_false_r.
Qed.

Lemma extractType_params (t : option str) (p : option bool) :
  optAll typeText t = true ->
  extractType (typeParam t ++ prefParam p) = t.
Proof.
  intros E. destruct (optAll_cases _ _ E) as [->|(x & s & -> & Hs)].
  - destruct p as [[|]|]; reflexivity.
  - cbn [typeParam truthy or_empty app].
    change (extractType ((lit "TYPE=" ++ x :: s) :: prefParam p))
      with (Some (toLowerCase (x :: s))).
    now rewrite lower_fixed.
Qed.

Lemma extractType_type (t : option str) :
  optAll typeText t = true -> extractType (typeParam t) = t.
Proof.
  intros E. rewrite <- (app_nil_r (typeParam t)).
  exact (extractType_params t None E).
Qed.

Lemma hasPref_params (t : option str) (p : option bool) :
  hasPref (typeParam t ++ prefParam p) = is_true_flag p.
Proof.
  unfold hasPref. rewrite existsb_app.
  assert (Ht : existsb (fun q => startsWith (lit "PREF") (toUpperCase q))
                 (typeParam t) = false)
    by (destruct t as [[|x s]|]; reflexivity).
  rewrite Ht. destruct p as [[|]|]; reflexivity.
Qed.

Lemma map_fixed {A} (f : A -> A) (l : list A) :
  Forall (fun x => f x = x) l -> map f l = l.
Proof. induction 1 as [|x l Hx _ IH]; cbn [map]; congruence. Qed.

Lemma map_round {A} (P : A -> bool) (n : str) (pv : A -> list str * str)
    (dec : VCardProperty -> A) (l : list A) :
  (forall x, P x = true -> dec (prop n (pv x)) = x) ->
  forallb P l = true ->
  map dec (map (prop n) (map pv l)) = l.
Proof.
  intros Hdec Hall. rewrite !map_map. apply map_fixed.
  rewrite forallb_forall in Hall. apply List.Forall_forall.
  intros x Hx. now apply Hdec, Hall.
Qed.

Lemma decodeEmail_round (n : str) (e : ContactEmail) :
  safeEmail e = true -> decodeEmail (prop n (emailPV e)) = e.
Proof.
  unfold safeEmail. intros H. andb_split H.
  unfold decodeEmail, prop, emailPV. cbn [vp_value vp_params fst snd].
  rewrite escText_round, extractType_params, hasPref_params by assumption.
  destruct e as [v t [b|]]; [|discriminate]. now destruct b.
Qed.

Lemma decodePhone_round (n : str) (p : ContactPhone) :
  safePhone p = true -> decodePhone (prop n (phonePV p)) = p.
Proof.
  unfold safePhone. intros H. andb_split H.
  unfold decodePhone, prop, phonePV. cbn [vp_value vp_params fst snd].
  rewrite escText_round, extractType_params, hasPref_params by assumption.
  destruct p as [v [o|] t [b|]]; try discriminate. now destruct b.
Qed.

Lemma decodeUrl_round (n : str) (u : ContactUrl) :
  safeUrl u = true -> decodeUrl (prop n (urlPV u)) = u.
Proof.
  unfold safeUrl. intros H. andb_split H.
  unfold decodeUrl, prop, urlPV. cbn [vp_value vp_params fst snd].
  rewrite escText_round, extractType_type by assumption.
  now destruct u.
Qed.

Lemma decodeAddress_round (n : str) (a : ContactAddress) :
  safeAddress a = true -> decodeAddress (prop n (addressPV a)) = a.
Proof.
  intros H.
  destruct (safeAddress_parts a H) as (H1 & H2 & H3 & H4 & H5 & H6).
  unfold decodeAddress, prop, addressPV. cbn [vp_value vp_params fst snd].
  cbv zeta.
  change (addressValue a)
    with (join [SEMI]
            [[]; [];
             escapeVCardValue (or_empty (a_street a));
             escapeVCardValue (or_empty (a_city a));
             escapeVCardValue (or_empty (a_state a));
             escapeVCardValue (or_empty (a_postalCode a));
             escapeVCardValue (or_empty (a_country a))]).
  rewrite split_join;
    [| repeat (constructor;
               [first [reflexivity | now apply opt_part_semi]|]);
       constructor
     | discriminate].
  cbn [map part nth_error].
  rewrite !opt_part_round, extractType_type by assumption.
  now destruct a.
Qed.

Lemma emails_round (c : Contact) :
  forallb safeEmail (emails c) = true ->
  map decodeEmail (getAll (entries c) (lit "EMAIL")) = emails c.
Proof.
  rewrite getAll_EMAIL. apply map_round, decodeEmail_round.
Qed.

Lemma phones_round (c : Contact) :
  forallb safePhone (phones c) = true ->
  map decodePhone (getAll (entries c) (lit "TEL")) = phones c.
Proof.
  rewrite getAll_TEL. apply map_round, decodePhone_round.
Qed.

Lemma addresses_round (c : Contact) :
  forallb safeAddress (addresses c) = true ->
  map decodeAddress (getAll (entries c) (lit "ADR")) = addresses c.
Proof.
  rewrite getAll_ADR. apply map_round, decodeAddress_round.
Qed.

Lemma urls_round (c : Contact) :
  forallb safeUrl (urls c) = true ->
  map decodeUrl (getAll (entries c) (lit "URL")) = urls c.
Proof.
  rewrite getAll_URL. apply map_round, decodeUrl_round.
Qed.

(** *** Optional texts *)

Lemma escape_nonempty (x : N) (s : str) : escapeVCardValue (x :: s) <> [].
Proof.
  rewrite escape_units. cbn [flat_map]. unfold esc.
  destruct (N.eqb x BACKSLASH); [discriminate|].
  destruct (N.eqb x SEMI); [discriminate|].
  destruct (N.eqb x COMMA); [discriminate|].
  destruct (N.eqb x LF); discriminate.
Qed.

Lemma truthy_nonempty (s : str) : s <> [] -> truthy (Some s) = true.
Proof. destruct s; [congruence | reflexivity]. Qed.

Lemma truthy_app (s r : str) : s <> [] -> truthy (Some (s ++ r)) = true.
Proof. destruct s; [congruence | reflexivity]. Qed.

Lemma truthy_cons (x : N) (s : str) : truthy (Some (x :: s)) = true.
Proof. reflexivity. Qed.

Lemma truthy_None : truthy None = false.
Proof. reflexivity. Qed.

Lemma or_empty_Some (s : str) : or_empty (Some s) = s.
Proof. reflexivity. Qed.

Ltac optional_texts :=
  rewrite ?truthy_cons, ?truthy_None, ?or_empty_Some; cbv iota;
  cbn [hd_error option_map snd orb andb].

Lemma raw_round (n : str) (c : Contact) (o : option str) :
  optAll rawText o = true ->
  get (entries c) n = option_map snd (hd_error (optPV (fun s => s) o)) ->
  getFirstValue (entries c) n = o.
Proof.
  intros E G. unfold getFirstValue. rewrite G, get_opt.
  now destruct (optAll_cases _ _ E) as [->|(x & s & -> & Hs)].
Qed.

Lemma esc_round (n : str) (c : Contact) (o : option str) :
  optAll escText o = true ->
  get (entries c) n = option_map snd (hd_error (optPV escapeVCardValue o)) ->
  (if truthy (getFirstValue (entries c) n)
   then Some (unescapeVCardValue (or_empty (getFirstValue (entries c) n)))
   else None) = o.
Proof.
  intros E G. unfold getFirstValue. rewrite G, get_opt.
  destruct (optAll_cases _ _ E) as [->|(x & s & -> & Hs)]; [reflexivity|].
  optional_texts.
  rewrite (truthy_nonempty _ (escape_nonempty x s)).
  now rewrite escText_round.
Qed.

(** *** The organization *)

Lemma organization_round (c : Contact) :
  safeOrganization (organization c) = true ->
  decodeOrganization (entries c) = organization c.
Proof.
  intros H. unfold decodeOrganization, getFirstValue. cbv zeta.
  rewrite get_ORG, get_TITLE.
  destruct (organization c) as [o|]; [|reflexivity].
  destruct (safeOrganization_parts o H) as (H1 & H2 & H3 & H4).
  unfold orgPV, titlePV, orgValue.
  destruct o as [nm dp tl].
  cbn [o_name o_department o_title] in *.
  destruct (optAll_cases _ _ H3) as [->|(z & u & -> & Ht)];
    destruct (optAll_cases _ _ H1) as [->|(x & s & -> & Hn)];
    optional_texts.
  - discriminate.
  - apply partText_parts in Hn as [Hn Hsemi].
    rewrite (truthy_app _ _ (escape_nonempty x s)). optional_texts.
    destruct (optAll_cases _ _ H2) as [->|(y & t & -> & Hd)];
      optional_texts.
    + rewrite app_nil_r, split_free by (now apply escape_free).
      cbn [hd]. rewrite escText_round by assumption.
      now rewrite escape_free.
    + apply partText_parts in Hd as [Hd Hdsemi].
      rewrite split_app, split_free by (now apply escape_free).
      cbn [hd nth]. rewrite !escText_round by assumption.
      rewrite includes_app, includes_cons.
      change (N.eqb SEMI SEMI) with true. now rewrite orb_true_r.
  - cbn [orb andb] in H4. destruct dp as [d|]; [discriminate|].
    rewrite (truthy_nonempty _ (escape_nonempty z u)). optional_texts.
    now rewrite escText_round.
  - apply partText_parts in Hn as [Hn Hsemi].
    rewrite (truthy_app _ _ (escape_nonempty x s)).
    rewrite (truthy_nonempty _ (escape_nonempty z u)). optional_texts.
    rewrite (escText_round _ Ht).
    destruct (optAll_cases _ _ H2) as [->|(y & t & -> & Hd)];
      optional_texts.
    + rewrite app_nil_r, split_free by (now apply escape_free).
      cbn [hd]. rewrite escText_round by assumption.
      now rewrite escape_free.
    + apply partText_parts in Hd as [Hd Hdsemi].
      rewrite split_app, split_free by (now apply escape_free).
      cbn [hd nth]. rewrite !escText_round by assumption.
      rewrite includes_app, includes_cons.
      change (N.eqb SEMI SEMI) with true. now rewrite orb_true_r.
Qed.

(** *** The categories *)

Lemma categories_round (c : Contact) :
  safeCategories (categories c) = true ->
  (if truthy (getFirstValue (entries c) (lit "CATEGORIES"))
   then map unescapeVCardValue
          (split COMMA
             (or_empty (getFirstValue (entries c) (lit "CATEGORIES"))))
   else []) = categories c.
Proof.
  intros H. apply safeCategories_parts in H as [Hall Hne].
  unfold getFirstValue. rewrite get_CATEGORIES. unfold categoriesPV.
  destruct (categories c) as [|cat cats]; [reflexivity|].
  cbn [hd_error option_map snd]. rewrite or_empty_Some.
  assert (Htruthy : truthy (Some (join [COMMA]
                      (map escapeVCardValue (cat :: cats)))) = true).
  { destruct cats as [|cat' cats].
    - destruct cat as [|x s]; [congruence|].
      apply truthy_nonempty, escape_nonempty.
    - apply truthy_nonempty. cbn [map join].
      destruct (escapeVCardValue cat); discriminate. }
  rewrite Htruthy, split_join.
  - rewrite map_map. apply map_fixed.
    eapply List.Forall_impl; [|exact Hall].
    intros s [Hs _]. now apply escText_round.
  - apply Forall_map. eapply List.Forall_impl; [|exact Hall].
    intros s [_ Hs]. now apply escape_free.
  - discriminate.
Qed.

(** *** The metadata *)

Lemma providerIds_round (c : Contact) :
  forallb plainMember (map_to_list (providerIds (metadata c))) = true ->
  decodeProviderIds (entries c) = providerIds (metadata c).
Proof.
  intros H. unfold decodeProviderIds, getFirstValue. cbv zeta.
  rewrite get_PROVIDER_IDS. unfold providerIdsPV.
  destruct (bool_decide (providerIds (metadata c) = ∅)) eqn:E.
  - apply bool_decide_eq_true in E. now rewrite E.
  - cbn [hd_error option_map snd]. rewrite or_empty_Some.
    assert (Hne : escapeVCardValue (Json.stringify (providerIds (metadata c)))
                  <> []) by apply escape_nonempty.
    rewrite (truthy_nonempty _ Hne).
    rewrite unescape_escape
      by (now apply clean_bs_n_free, cleanText_stringify).
    now rewrite parse_stringify.
Qed.

Lemma archived_round (c : Contact) :
  match getFirstValue (entries c) (lit "X-CONTACTS-MCP-ARCHIVED") with
  | Some v => str_eqb v (lit "true")
  | None => false
  end = archived (metadata c).
Proof.
  unfold getFirstValue. rewrite get_ARCHIVED. unfold archivedPV.
  now destruct (archived (metadata c)).
Qed.

Lemma metadata_round (now : str) (c : Contact) :
  safeMetadata (metadata c) = true ->
  {| created :=
       match getFirstValue (entries c) (lit "X-CONTACTS-MCP-CREATED") with
       | Some v => v
       | None => default now (getFirstValue (entries c) (lit "REV"))
       end;
     modified := default now (getFirstValue (entries c) (lit "REV"));
     source :=
       if truthy (getFirstValue (entries c) (lit "X-CONTACTS-MCP-SOURCE"))
       then Some (unescapeVCardValue
                    (or_empty (getFirstValue (entries c)
                                 (lit "X-CONTACTS-MCP-SOURCE"))))
       else None;
     providerIds := decodeProviderIds (entries c);
     archived :=
       match getFirstValue (entries c) (lit "X-CONTACTS-MCP-ARCHIVED") with
       | Some v => str_eqb v (lit "true")
       | None => false
       end;
     etag := None |} = metadata c.
Proof.
  intros H.
  destruct (safeMetadata_parts _ H) as (H1 & H2 & H3 & H4 & H5).
  rewrite archived_round, providerIds_round by assumption.
  rewrite (esc_round _ c (source (metadata c)) H3 (get_SOURCE c)).
  unfold getFirstValue. rewrite get_CREATED, get_REV, default_Some.
  destruct (metadata c). cbn [etag] in H5. now rewrite H5.
Qed.

(** *** The whole contact *)

Lemma createContact_eq (now fresh : str) (fields : ContactFields)
    (c : Contact) :
  f_id fields = Some (id c) ->
  f_fullName fields = fullName c ->
  f_name fields = Some (name c) ->
  (if ContactModel.hasNameFields (Some (name c))
   then default ContactModel.emptyName (Some (name c))
   else ContactModel.parseName (fullName c)) = name c ->
  f_emails fields = Some (emails c) ->
  f_phones fields = Some (phones c) ->
  f_addresses fields = Some (addresses c) ->
  f_organization fields = organization c ->
  f_birthday fields = birthday c ->
  f_anniversary fields = anniversary c ->
  f_urls fields = Some (urls c) ->
  f_notes fields = notes c ->
  f_categories fields = Some (categories c) ->
  f_photo fields = photo c ->
  f_metadata fields = Some (metadata c) ->
  ContactModel.createContact now fresh fields = c.
Proof.
  intros E1 E2 E3 E4 E5 E6 E7 E8 E9 E10 E11 E12 E13 E14 E15.
  unfold ContactModel.createContact.
  rewrite E1, E2, E3, E4, E5, E6, E7, E8, E9, E10, E11, E12, E13, E14, E15.
  rewrite !default_Some. now destruct c.
Qed.

(** Where the round trip holds.  [vcardToContact] applied to
    [contactToVCard] gives back every field of a contact that satisfies
    [codec_safe]: no
    carriage return in a text; no backslash directly before an [n] in an
    escaped text; no semicolon in a part of the name, of an address or in
    the organization's name and department; no comma in a category;
    optional texts absent or not empty; [primary] set on every e-mail
    address and phone; no [originalValue] and no [etag]; plain provider
    identifiers.  Text outside ASCII, line feeds, and the backslashes,
    semicolons and commas left by these conditions are kept, and so are
    repeated entries, in their order. *)
Theorem codec_round_trip (now : str) (c : Contact) :
  codec_safe c = true -> vcardToContact now (contactToVCard c) = c.
Proof.
  intros H.
  destruct (codec_safe_parts c H)
    as (Hid & Hfn & Hname & Hparse & Hemails & Hphones & Haddrs & Horg
        & Hbday & Hanniv & Hurls & Hnotes & Hcats & Hphoto & Hmeta).
  unfold vcardToContact. cbv zeta. rewrite (card_properties c H).
  apply createContact_eq; cbn [f_id f_fullName f_name f_emails f_phones
    f_addresses f_organization f_birthday f_anniversary f_urls f_notes
    f_categories f_photo f_metadata].
  - now rewrite uid_round.
  - now apply fullName_round.
  - now rewrite decodeName_round.
  - now apply name_kept.
  - now rewrite emails_round.
  - now rewrite phones_round.
  - now rewrite addresses_round.
  - now apply organization_round.
  - exact (raw_round _ c _ Hbday (get_BDAY c)).
  - exact (raw_round _ c _ Hanniv (get_ANNIVERSARY c)).
  - now rewrite urls_round.
  - exact (esc_round _ c _ Hnotes (get_NOTE c)).
  - now rewrite categories_round.
  - exact (raw_round _ c _ Hphoto (get_PHOTO c)).
  - now rewrite metadata_round.
Qed.

(** The record [ada] satisfies the conditions and is read back as it
    was. *)
Lemma codec_round_trip_witness :
  codec_safe CodecExamples.ada = true
  /\ vcardToContact CodecExamples.stamp (contactToVCard CodecExamples.ada)
     = CodecExamples.ada.
Proof.
  split; [vm_compute; reflexivity|].
  apply (codec_round_trip CodecExamples.stamp CodecExamples.ada).
  vm_compute; reflexivity.
Defined.

(** C1 (the code departs from the claim).  The encoder escapes the
    semicolon, the comma and the backslash in every text, but the decoder
    splits the structured name at semicolons and the categories at commas
    before it unescapes, and unescapes the backslash before an [n] before
    the doubled backslash.  So a semicolon in a part of the structured name
    moves the parts, a comma in a category splits the category, and a
    backslash before an [n] in a note comes back as a backslash and a line
    feed - while the full name, which is not split, keeps its semicolon. *)
Theorem special_characters_not_preserved :
  name (CodecExamples.roundTrip CodecExamples.semicolonName)
  = {| n_prefix := None;
       n_givenName := Some (lit " Jr.");
       n_middleName := Some (lit "Ann");
       n_familyName := Some (lit "Lee" ++ [BACKSLASH]);
       n_suffix := None |}
  /\ CodecExamples.roundTrip CodecExamples.semicolonName
     <> CodecExamples.semicolonName
  /\ fullName (CodecExamples.roundTrip CodecExamples.semicolonName)
     = lit "Ann Lee; Jr."
  /\ categories (CodecExamples.roundTrip CodecExamples.commaCategory)
     = [lit "friends" ++ [BACKSLASH]; lit " close"]
  /\ CodecExamples.roundTrip CodecExamples.commaCategory
     <> CodecExamples.commaCategory
  /\ notes (CodecExamples.roundTrip CodecExamples.backslashNote)
     = Some (lit "C:" ++ [BACKSLASH; LF] ++ lit "ew")
  /\ CodecExamples.roundTrip CodecExamples.backslashNote
     <> CodecExamples.backslashNote.
Proof.
  repeat split; try (vm_compute; reflexivity).
  - intros E. apply (f_equal (fun c => n_givenName (name c))) in E.
    vm_compute in E. discriminate.
  - intros E. apply (f_equal categories) in E. vm_compute in E.
    discriminate.
  - intros E. apply (f_equal notes) in E. vm_compute in E. discriminate.
Qed.

End RoundTrip.

(** ** More on the codec *)

Module CodecMore.
Import VCard CodecSpec EscapeFacts LineFacts ParseFacts CardFacts FoldFacts
  JsFacts.

Lemma default_Some_codec {A} (x y : A) : default x (Some y) = y.
Proof. reflexivity. Qed.

(** X1.  [unescapeVCardValue] undoes [escapeVCardValue] on every text in
    which no backslash stands directly before an [n]: backslashes,
    semicolons, commas and line feeds come back as they were. *)
Theorem unescape_undoes_escape (s : str) :
  bs_n_free s = true -> unescapeVCardValue (escapeVCardValue s) = s.
Proof. apply unescape_escape. Qed.

Lemma unescape_undoes_escape_witness :
  bs_n_free CodecCases.specialText = true
  /\ unescapeVCardValue (escapeVCardValue CodecCases.specialText)
     = CodecCases.specialText.
Proof.
  split; [reflexivity|].
  apply (unescape_undoes_escape CodecCases.specialText). reflexivity.
Defined.

(** X2.  An escaped value holds no line feed, whatever the text: a value
    never ends the line it is written on by a line feed of its own. *)
Theorem escaped_value_has_no_line_feed (s : str) :
  includes LF (escapeVCardValue s) = false.
Proof. apply escape_free_LF. Qed.

(** X3.  [unfoldLines] undoes [foldLines]: logical lines that are not
    empty, hold no line break and do not start with a space or a tab are
    read back from the folded text as they were, however long they are. *)
Theorem unfold_undoes_fold (lines : list str) :
  Forall goodLine lines -> lines <> [] ->
  unfoldLines (foldLines (join CRLF lines)) = lines.
Proof. apply unfold_fold. Qed.

Lemma unfold_undoes_fold_witness :
  unfoldLines (foldLines (join CRLF CodecCases.threeLines))
  = CodecCases.threeLines.
Proof.
  apply (unfold_undoes_fold CodecCases.threeLines).
  - repeat constructor; try discriminate; vm_compute; reflexivity.
  - discriminate.
Defined.

(** *** The sizes of the physical lines *)

Lemma fold_loop_fits (fuel : nat) (s : str) (first : bool)
    (chunks : list str) :
  fold_loop fuel s first = Some chunks -> FoldSpec.fits first chunks.
Proof.
  revert s first chunks.
  induction fuel as [|fuel IH]; intros s first chunks; cbn [fold_loop].
  - destruct (Nat.ltb 75 (byteLength s)) eqn:E; [discriminate|].
    intros Hc. injection Hc as <-. apply Nat.ltb_ge in E.
    destruct s; cbn [FoldSpec.fits]; auto.
  - destruct (Nat.ltb 75 (byteLength s)) eqn:E.
    + set (limit := if first then 75 else 74).
      destruct (fold_loop fuel (skipn (lower_cut limit s limit) s) false)
        as [rest|] eqn:Erest; [|discriminate].
      cbn [option_map]. intros Hc. injection Hc as <-.
      pose proof (IH _ _ _ Erest) as Hrest.
      pose proof (lower_cut_fits limit s limit) as Hfit.
      cbn [FoldSpec.fits]. destruct rest as [|r rest].
      * subst limit. destruct first; lia.
      * split; [exact Hfit | exact Hrest].
    + intros Hc. injection Hc as <-. apply Nat.ltb_ge in E.
      destruct s; cbn [FoldSpec.fits]; auto.
Qed.

Lemma byteLength_space (c : str) : byteLength (SPACE :: c) = S (byteLength c).
Proof. reflexivity. Qed.

Lemma continuation_sized (rest : list str) :
  FoldSpec.fits false rest -> FoldSpec.sized 76 (map (cons SPACE) rest).
Proof.
  induction rest as [|c rest IH]; [auto|].
  cbn [FoldSpec.fits map FoldSpec.sized]. destruct rest as [|r rest].
  - intros Hc. cbn [map]. rewrite byteLength_space. lia.
  - intros [Hc Hrest]. cbn [map]. rewrite byteLength_space.
    split; [lia|]. now apply IH.
Qed.

Lemma physical_sized (l : str) :
  byteLength (hd [] (physical l)) <= 75 /\ FoldSpec.sized 76 (physical l).
Proof.
  unfold physical. destruct (Nat.leb (byteLength l) 75) eqn:E.
  - apply Nat.leb_le in E. cbn [hd FoldSpec.sized]. lia.
  - destruct (fold_loop_total (length l) l true (le_n _)) as [chunks Hc].
    rewrite Hc. apply fold_loop_fits in Hc.
    destruct chunks as [|c1 rest]; [cbn; lia|].
    cbn [phys hd FoldSpec.sized]. cbn [FoldSpec.fits] in Hc.
    destruct rest as [|r rest]; [cbn [map]; lia|].
    destruct Hc as [Hc1 Hrest]. split; [lia|].
    change (map (cons SPACE) (r :: rest))
      with ((SPACE :: r) :: map (cons SPACE) rest).
    cbv iota. split; [lia|].
    exact (continuation_sized (r :: rest) Hrest).
Qed.

(** X4.  The physical lines [foldLines] writes for a line without carriage
    return: the first takes at most 75 octets, and so does every other one
    but the last, which takes at most 76 (its leading space and up to 75
    octets of the rest of the line). *)
Theorem folded_lines_sizes (l : str) :
  includes CR l = false ->
  byteLength (hd [] (split_crlf (foldLines l))) <= 75
  /\ FoldSpec.sized 76 (split_crlf (foldLines l)).
Proof.
  intros Hcr. unfold foldLines.
  rewrite (split_crlf_free l Hcr). cbn [map join].
  rewrite fold_line_physical.
  destruct l as [|x l]; [cbn; lia|].
  rewrite split_crlf_join.
  - apply physical_sized.
  - apply physical_free; [reflexivity | discriminate | assumption].
  - apply physical_nonempty. discriminate.
Qed.

(** A line of 150 octets: 75 in the first physical line, 76 in the
    second. *)
Lemma folded_lines_sizes_witness :
  map byteLength (split_crlf (foldLines CodecCases.line150)) = [75; 76]
  /\ FoldSpec.sized 76 (split_crlf (foldLines CodecCases.line150)).
Proof.
  split; [vm_compute; reflexivity|].
  apply (folded_lines_sizes CodecCases.line150). vm_compute; reflexivity.
Defined.

(** *** A text without properties *)











(** X6.  What [vcardToContact] never gives back, whatever the text: an
    [etag], a phone with an [originalValue], and an e-mail address or a
    phone whose [primary] flag is left undefined. *)
Theorem decoder_sets_no_etag (now : str) (vcard : str) :
  let c := vcardToContact now vcard in
  etag (metadata c) = None
  /\ Forall (fun p => p_originalValue p = None
                      /\ defined (p_primary p) = true) (phones c)
  /\ Forall (fun e => defined (e_primary e) = true) (emails c).
Proof.
  cbv zeta. unfold vcardToContact. cbv zeta.
  unfold ContactModel.createContact.
  cbn [f_metadata f_phones f_emails metadata phones emails].
  rewrite !default_Some_codec. cbn [etag].
  repeat split; apply Forall_map, List.Forall_forall; intros p _;
    cbn [decodePhone decodeEmail p_originalValue p_primary e_primary defined];
    auto.
Qed.

End CodecMore.

(** ** Export and import *)

Module ImportFacts.
Import VCard CodecSpec EscapeFacts LineFacts ParseFacts CardFacts RoundTrip
  JsFacts ImportTool ExportTool ImportSpec StoreMoreSpec.

(** A text without a surrogate outside a pair is read from a file as it was
    written. *)
Lemma utf8_text_wellFormed (s : str) : wellFormed s = true -> utf8_text s = s.
Proof.
  enough (G : forall n s, length s <= n -> wellFormed s = true ->
                          utf8_text s = s) by (apply (G (length s)); lia).
  clear s. induction n as [|n IH]; intros [|c t] Hlen Hw;
    try reflexivity; cbn [length] in Hlen; [lia|].
  cbn [wellFormed utf8_text] in *.
  destruct (is_high c).
  - destruct t as [|d t']; [discriminate|].
    apply andb_prop in Hw as [Hd Hw]. rewrite Hd.
    cbn [length] in Hlen. rewrite (IH t') by (assumption || lia).
    reflexivity.
  - apply andb_prop in Hw as [Hc Hw]. apply negb_true_iff in Hc.
    rewrite Hc. rewrite (IH t) by (assumption || lia). reflexivity.
Qed.

Section WithCasing.
Context `{Casing}.

Lemma splitStep_inv (state : list str * list str * bool) (line : str) :
  splitInv state -> splitInv (splitStep state line).
Proof.
  destruct state as [[cards current] inCard]. unfold splitInv, splitStep.
  cbn [fst snd]. intros [Hcards Hcur].
  destruct (isBegin line) eqn:Eb; cbn [fst snd].
  - split; [exact Hcards|]. intros _. exists line, []. auto.
  - destruct (isEnd line) eqn:Ee; cbn [fst snd].
    + split; [|discriminate].
      destruct inCard; [|exact Hcards].
      destruct (Hcur eq_refl) as (b & mid & -> & Hb & Hmid).
      apply Forall_app. split; [exact Hcards|].
      constructor; [|constructor].
      exists b, mid, line. repeat split; assumption.
    + destruct inCard; cbn [fst snd]; [|split; [exact Hcards | discriminate]].
      split; [exact Hcards|]. intros _.
      destruct (Hcur eq_refl) as (b & mid & -> & Hb & Hmid).
      exists b, (mid ++ [line]). repeat split; [assumption|].
      apply Forall_app. split; [exact Hmid|].
      constructor; [split; assumption | constructor].
Qed.

Lemma fold_splitStep_inv (lines : list str)
    (state : list str * list str * bool) :
  splitInv state -> splitInv (fold_left splitStep lines state).
Proof.
  revert state. induction lines as [|l lines IH]; intros state Hinv;
    [exact Hinv|].
  cbn [fold_left]. now apply IH, splitStep_inv.
Qed.

(** The loop over inner lines, inside a card. *)
Lemma fold_splitStep_inner (mid : list str) (cards current : list str) :
  Forall inner mid ->
  fold_left splitStep mid (cards, current, true)
  = (cards, current ++ mid, true).
Proof.
  intros Hmid. revert current.
  induction Hmid as [|l mid [Hb He] _ IH]; intros current.
  - now rewrite app_nil_r.
  - cbn [fold_left]. unfold splitStep at 2. rewrite Hb, He.
    rewrite IH, <- app_assoc. reflexivity.
Qed.

(** Every reading of the lines as cards is the one the loop makes. *)
Lemma fold_splitStep_cardsOf (lines : list str) (cards : list (list str)) :
  cardsOf lines cards ->
  forall acc,
    fst (fst (fold_left splitStep lines (acc, [], false)))
    = acc ++ map (join CRLF) cards.
Proof.
  induction 1 as [ | line lines cards Hb _ IH
                   | b mid e lines cards Hb Hmid Hbe Hee _ IH
                   | b mid b' lines cards Hb Hmid Hb' _ IH
                   | b mid Hb Hmid ]; intros acc.
  - cbn. now rewrite app_nil_r.
  - cbn [fold_left]. unfold splitStep at 2. rewrite Hb.
    destruct (isEnd line); apply IH.
  - cbn [fold_left]. unfold splitStep at 2. rewrite Hb.
    rewrite fold_left_app, fold_splitStep_inner by exact Hmid.
    cbn [fold_left]. unfold splitStep at 2. rewrite Hbe, Hee.
    rewrite IH. cbn [map app]. now rewrite <- app_assoc.
  - cbn [fold_left]. unfold splitStep at 2. rewrite Hb.
    rewrite fold_left_app, fold_splitStep_inner by exact Hmid.
    specialize (IH acc). cbn [fold_left] in *.
    unfold splitStep at 2. unfold splitStep at 2 in IH.
    rewrite Hb' in *. exact IH.
  - cbn [fold_left]. unfold splitStep at 2. rewrite Hb.
    rewrite fold_splitStep_inner by exact Hmid.
    cbn. now rewrite app_nil_r.
Qed.

(** Every list of lines has a reading, outside a card and inside one. *)
Lemma cardsOf_total (lines : list str) :
  (exists cards, cardsOf lines cards)
  /\ (forall b mid, isBegin b = true -> Forall inner mid ->
                    exists cards, cardsOf (b :: mid ++ lines) cards).
Proof.
  induction lines as [|l lines [[cards IH] IHin]].
  - split; [exists []; constructor|].
    intros b mid Hb Hmid. exists []. rewrite app_nil_r.
    now apply cards_open.
  - assert (Hout : exists cards', cardsOf (l :: lines) cards').
    { destruct (isBegin l) eqn:Eb.
      - apply (IHin l [] Eb). constructor.
      - exists cards. now apply cards_outside. }
    split; [exact Hout|].
    intros b mid Hb Hmid. destruct (isBegin l) eqn:Eb.
    + destruct Hout as [cards' Hc]. exists cards'.
      now apply cards_reopened.
    + destruct (isEnd l) eqn:Ee.
      * exists ((b :: mid ++ [l]) :: cards). now apply cards_card.
      * destruct (IHin b (mid ++ [l]) Hb) as [cards' Hc].
        { apply Forall_app. split; [exact Hmid|].
          constructor; [now split | constructor]. }
        exists cards'. now rewrite <- app_assoc in Hc.
Qed.

(** X7.  [splitVCards] returns the cards of its text's lines, each joined
    by CRLF, in their order.  A card is a line that starts with
    BEGIN:VCARD, the lines after it that start with neither BEGIN:VCARD
    nor END:VCARD, and the line that starts with END:VCARD after them (in
    any case of the letters).  Everything else is dropped: the lines
    outside a card, the lines of a card that is opened again before it is
    closed, up to the second opening, and a card that is not closed.  The
    lines have one reading as cards, and every card has that shape. *)
Theorem splitVCards_cards (raw : str) :
  (exists cards, cardsOf (split_lines raw) cards)
  /\ (forall cards, cardsOf (split_lines raw) cards ->
                    splitVCards raw = map (join CRLF) cards)
  /\ Forall cardShape (splitVCards raw).
Proof.
  split; [apply cardsOf_total|]. split.
  - intros cards Hc. unfold splitVCards.
    now rewrite (fold_splitStep_cardsOf _ _ Hc []).
  - unfold splitVCards.
    apply (fold_splitStep_inv (split_lines raw) ([], [], false)).
    split; [constructor | discriminate].
Qed.

End WithCasing.

(** *** The cards of an export *)

Lemma split_lines_cons (x y : N) (t : str) :
  split_lines (x :: y :: t)
  = if N.eqb x LF then [] :: split_lines (y :: t)
    else if N.eqb x CR && N.eqb y LF then [] :: split_lines t
    else match split_lines (y :: t) with
         | h :: r => (x :: h) :: r
         | [] => [[x]]
         end.
Proof. reflexivity. Qed.

Lemma split_lines_free (p : str) :
  includes CR p = false -> includes LF p = false -> split_lines p = [p].
Proof.
  induction p as [|x p IH]; [reflexivity|].
  rewrite !includes_cons. intros Hcr Hlf.
  apply orb_false_elim in Hcr as [Hxcr Hcr], Hlf as [Hxlf Hlf].
  specialize (IH Hcr Hlf). destruct p as [|y p].
  - cbn [split_lines]. now rewrite N.eqb_sym, Hxlf.
  - rewrite split_lines_cons, (N.eqb_sym x LF), Hxlf, (N.eqb_sym x CR), Hxcr.
    cbn [andb]. now rewrite IH.
Qed.

Lemma split_lines_app (p rest : str) :
  includes CR p = false -> includes LF p = false ->
  split_lines (p ++ CR :: LF :: rest) = p :: split_lines rest.
Proof.
  induction p as [|x p IH].
  - intros _ _. reflexivity.
  - rewrite !includes_cons. intros Hcr Hlf.
    apply orb_false_elim in Hcr as [Hxcr Hcr], Hlf as [Hxlf Hlf].
    specialize (IH Hcr Hlf). cbn [app].
    destruct (p ++ CR :: LF :: rest) as [|y t] eqn:Et;
      [destruct p; discriminate|].
    rewrite split_lines_cons, (N.eqb_sym x LF), Hxlf, (N.eqb_sym x CR), Hxcr.
    cbn [andb]. now rewrite IH.
Qed.

Lemma split_lines_join (ps : list str) :
  Forall (fun p => includes CR p = false) ps ->
  Forall (fun p => includes LF p = false) ps ->
  ps <> [] ->
  split_lines (join CRLF ps) = ps.
Proof.
  induction ps as [|p ps IH]; [congruence|].
  intros Hcr Hlf _.
  inversion Hcr as [|? ? Hp Hps]; subst.
  inversion Hlf as [|? ? Hp' Hps']; subst.
  destruct ps as [|q ps].
  - cbn [join]. now apply split_lines_free.
  - change (join CRLF (p :: q :: ps))
      with (p ++ CR :: LF :: join CRLF (q :: ps)).
    rewrite split_lines_app by assumption. f_equal. now apply IH.
Qed.

(** The card of a contact is its physical lines joined by CRLF. *)
Lemma card_physical (lines : list str) :
  Forall goodLine lines -> lines <> [] ->
  foldLines (join CRLF lines) = join CRLF (concat (map physical lines)).
Proof.
  intros Hall Hne.
  assert (Hcr : Forall (fun p => includes CR p = false) lines)
    by (eapply List.Forall_impl; [|exact Hall]; intros l (_ & Hl & _);
        exact Hl).
  unfold foldLines. rewrite split_crlf_join by assumption.
  rewrite (map_ext _ _ fold_line_physical), <- map_map.
  apply join_concat, Forall_map.
  eapply List.Forall_impl; [|exact Hall].
  intros l (Hl & _). now apply physical_nonempty.
Qed.

Lemma physical_all_free (c : N) (lines : list str) :
  N.eqb c SPACE = false ->
  Forall (fun l => l <> [] /\ includes c l = false) lines ->
  Forall (fun p => includes c p = false) (concat (map physical lines)).
Proof.
  intros Hsp Hall. apply Forall_concat, Forall_map.
  eapply List.Forall_impl; [|exact Hall].
  intros l [Hl Hc]. now apply physical_free.
Qed.

Lemma goodLines_card (c : Contact) :
  codec_safe c = true -> Forall goodLine (vcardLines c).
Proof.
  intros H. pose proof (sections_ok c H) as Hok.
  rewrite vcardLines_sections. constructor.
  - repeat split; (reflexivity || discriminate).
  - apply Forall_app. split; [now apply goodLine_sections|].
    constructor; [|constructor].
    repeat split; (reflexivity || discriminate).
Qed.

Lemma contactToVCard_physical (c : Contact) :
  codec_safe c = true -> contactToVCard c = join CRLF (physLines c).
Proof.
  intros H. unfold contactToVCard, physLines.
  apply card_physical; [now apply goodLines_card|].
  rewrite vcardLines_sections. discriminate.
Qed.

Lemma physLines_free (c : Contact) :
  codec_safe c = true ->
  Forall (fun p => includes CR p = false) (physLines c)
  /\ Forall (fun p => includes LF p = false) (physLines c)
  /\ physLines c <> [].
Proof.
  intros H. pose proof (goodLines_card c H) as Hgood.
  unfold physLines. repeat split.
  - apply physical_all_free; [reflexivity|].
    eapply List.Forall_impl; [|exact Hgood]. intros l (Hl & Hc & _). auto.
  - apply physical_all_free; [reflexivity|].
    eapply List.Forall_impl; [|exact Hgood]. intros l (Hl & _ & Hc & _). auto.
  - rewrite vcardLines_sections. cbn [map concat].
    change (physical (lit "BEGIN:VCARD")) with [lit "BEGIN:VCARD"].
    discriminate.
Qed.

(** Reading back the card of a safe contact. *)
Lemma decode_encode (now : str) (c : Contact) :
  codec_safe c = true -> vcardToContact now (contactToVCard c) = c.
Proof.
  intros Hs.
  destruct (codec_safe_parts c Hs)
    as (Hid & Hfn & Hname & Hparse & Hemails & Hphones & Haddrs & Horg
        & Hbday & Hanniv & Hurls & Hnotes & Hcats & Hphoto & Hmeta).
  unfold vcardToContact. cbv zeta. rewrite (card_properties c Hs).
  apply createContact_eq; cbn [f_id f_fullName f_name f_emails f_phones
    f_addresses f_organization f_birthday f_anniversary f_urls f_notes
    f_categories f_photo f_metadata].
  - now rewrite uid_round.
  - now apply fullName_round.
  - now rewrite decodeName_round.
  - now apply name_kept.
  - now rewrite emails_round.
  - now rewrite phones_round.
  - now rewrite addresses_round.
  - now apply organization_round.
  - exact (raw_round _ c _ Hbday (get_BDAY c)).
  - exact (raw_round _ c _ Hanniv (get_ANNIVERSARY c)).
  - now rewrite urls_round.
  - exact (esc_round _ c _ Hnotes (get_NOTE c)).
  - now rewrite categories_round.
  - exact (raw_round _ c _ Hphoto (get_PHOTO c)).
  - now rewrite metadata_round.
Qed.

Lemma parseCards_cards (nowAt : nat -> str) (cs : list Contact) (i : nat) :
  forallb codec_safe cs = true ->
  parseCards nowAt i (map contactToVCard cs) = cs.
Proof.
  revert i. induction cs as [|c cs IH]; intros i Hall; [reflexivity|].
  cbn [forallb] in Hall. apply andb_prop in Hall as [Hc Hcs].
  cbn [map parseCards]. now rewrite decode_encode, IH.
Qed.

Lemma startsWith_includes (c : N) (p x : str) :
  startsWith p x = true -> includes c p = true -> includes c x = true.
Proof.
  revert x. induction p as [|y p IH]; intros x; [discriminate|].
  destruct x as [|z x]; [discriminate|]. cbn [startsWith].
  intros E. apply andb_prop in E as [Eyz E]. apply N.eqb_eq in Eyz. subst z.
  rewrite !includes_cons. intros Hc. apply orb_prop in Hc as [Hc|Hc].
  - now rewrite Hc.
  - rewrite (IH _ E Hc). apply orb_true_r.
Qed.

(** A line whose first word is [n] starts with the word [a] and a colon
    only if [n] is [a]. *)
Lemma startsWith_word (a b : str) :
  includes COLON a = false -> includes SEMI a = false ->
  forall (n : str) (sep : N) (rest : str),
    includes COLON n = false -> sep = COLON \/ sep = SEMI ->
    startsWith (a ++ COLON :: b) (n ++ sep :: rest) = true -> n = a.
Proof.
  induction a as [|y a IH]; intros Hac Has n sep rest Hn Hsep.
  - destruct n as [|x n]; [reflexivity|].
    cbn [app startsWith]. intros E. apply andb_prop in E as [E _].
    apply N.eqb_eq in E. subst x. rewrite includes_cons in Hn.
    now rewrite N.eqb_refl in Hn.
  - rewrite includes_cons in Hac, Has.
    apply orb_false_elim in Hac as [Hyc Hac], Has as [Hys Has].
    destruct n as [|x n]; cbn [app startsWith]; intros E;
      apply andb_prop in E as [Exy E]; apply N.eqb_eq in Exy.
    + subst y. destruct Hsep as [-> | ->];
        [now rewrite N.eqb_refl in Hyc | now rewrite N.eqb_refl in Hys].
    + subst x. rewrite includes_cons in Hn.
      apply orb_false_elim in Hn as [_ Hn]. f_equal.
      exact (IH Hac Has n sep rest Hn Hsep E).
Qed.

Lemma lineOf_head (n : str) (pv : list str * str) :
  exists sep rest,
    lineOf n pv = n ++ sep :: rest /\ (sep = COLON \/ sep = SEMI).
Proof.
  unfold lineOf. destruct (fst pv) as [|p ps].
  - exists COLON, (snd pv). auto.
  - exists SEMI, (join [SEMI] (p :: ps) ++ COLON :: snd pv). auto.
Qed.

Lemma toUpperCase_prefix (c1 k : str) :
  toUpperCase (c1 ++ k) = c1 ++ k -> toUpperCase c1 = c1.
Proof.
  unfold toUpperCase. rewrite map_app. intros E.
  apply app_inj_1 in E; [tauto | apply length_map].
Qed.

Section WithUpper.
Context `{Casing}.
Hypothesis Hupper : asciiUpper.

Lemma upper_ascii_prefix (n s : str) :
  forallb is_ascii n = true ->
  uppercase (n ++ s) = toUpperCase n ++ uppercase s.
Proof.
  induction n as [|x n IH]; [reflexivity|].
  cbn [forallb]. intros E. apply andb_prop in E as [Hx Hn].
  cbn [app]. destruct Hupper as [_ Hcons]. rewrite (Hcons _ _ Hx), (IH Hn).
  reflexivity.
Qed.

Lemma upper_ascii (n : str) :
  forallb is_ascii n = true -> uppercase n = toUpperCase n.
Proof.
  intros Hn. rewrite <- (app_nil_r n) at 1.
  rewrite (upper_ascii_prefix n [] Hn). destruct Hupper as [-> _].
  apply app_nil_r.
Qed.

Lemma begin_line : isBegin (lit "BEGIN:VCARD") = true.
Proof. unfold isBegin. now rewrite upper_ascii. Qed.

Lemma end_line :
  isBegin (lit "END:VCARD") = false /\ isEnd (lit "END:VCARD") = true.
Proof. unfold isBegin, isEnd. now rewrite upper_ascii. Qed.

Lemma empty_line_inner : inner [].
Proof.
  unfold inner, isBegin, isEnd. destruct Hupper as [-> _]. auto.
Qed.

Lemma continuation_inner (chunk : str) : inner (SPACE :: chunk).
Proof.
  unfold inner, isBegin, isEnd. destruct Hupper as [_ Hcons].
  rewrite (Hcons SPACE chunk eq_refl). auto.
Qed.

(** No piece of a property line opens or closes a card. *)
Lemma piece_inner (n : str) (pv : list str * str) (c1 tail : str) :
  nameOk n = true -> forallb is_ascii n = true ->
  c1 ++ tail = lineOf n pv -> inner c1.
Proof.
  intros Hn Hascii Hcat. unfold nameOk in Hn.
  apply andb_prop in Hn as [Hn _]. apply andb_prop in Hn as [Hn _].
  apply andb_prop in Hn as [Hn Hend]. apply andb_prop in Hn as [Hn Hbegin].
  apply andb_prop in Hn as [Hw Hup]. apply negb_true_iff in Hend, Hbegin.
  apply str_eqb_eq in Hup. apply str_eqb_neq in Hend, Hbegin.
  destruct (wordOk_parts _ Hw) as (Hcol & _ & _).
  destruct (lineOf_head n pv) as (sep & rest & Hline & Hsep).
  rewrite Hline in Hcat.
  apply app_eq_app in Hcat as [k [[-> Hk] | [-> Hk]]].
  - (* the piece ends inside the name or with it *)
    destruct k as [|z k].
    + rewrite app_nil_r in *.
      assert (Hfree : includes COLON (uppercase n) = false)
        by (now rewrite upper_ascii, Hup).
      unfold inner, isBegin, isEnd.
      split; apply not_true_is_false; intros E;
        apply (startsWith_includes COLON) in E; try reflexivity; congruence.
    + injection Hk as Hz _. subst z.
      unfold inner, isBegin, isEnd.
      assert (Hsepa : is_ascii sep = true) by (destruct Hsep; now subst).
      assert (Hsepu : upper_unit sep = sep) by (destruct Hsep; now subst).
      rewrite upper_ascii_prefix, Hup by assumption.
      destruct Hupper as [_ Hcons]. rewrite (Hcons _ _ Hsepa), Hsepu.
      split; apply not_true_is_false; intros E.
      * apply (startsWith_word (lit "BEGIN") (lit "VCARD")) in E;
          auto; congruence.
      * apply (startsWith_word (lit "END") (lit "VCARD")) in E;
          auto; congruence.
  - (* the piece is the start of the name *)
    rewrite forallb_app in Hascii. apply andb_prop in Hascii as [Hc1 _].
    rewrite includes_app in Hcol. apply orb_false_elim in Hcol as [Hcol _].
    apply toUpperCase_prefix in Hup.
    assert (Hfree : includes COLON (uppercase c1) = false)
      by (now rewrite upper_ascii, Hup).
    unfold inner, isBegin, isEnd.
    split; apply not_true_is_false; intros E;
      apply (startsWith_includes COLON) in E; try reflexivity; congruence.
Qed.

Lemma physical_inner (n : str) (pv : list str * str) :
  nameOk n = true -> forallb is_ascii n = true ->
  Forall inner (physical (lineOf n pv)).
Proof.
  intros Hn Hascii.
  assert (Hne : lineOf n pv <> []).
  { destruct (lineOf_head n pv) as (sep & rest & -> & _).
    destruct n; discriminate. }
  destruct (physical_pieces _ Hne) as (c1 & rest & -> & _ & Hcat).
  cbn [phys]. constructor.
  - exact (piece_inner n pv c1 (concat rest) Hn Hascii Hcat).
  - apply Forall_map, List.Forall_forall. intros chunk _.
    apply continuation_inner.
Qed.

Lemma section_inner (s : section) :
  nameOk (fst s) = true -> forallb is_ascii (fst s) = true ->
  Forall inner (concat (map physical (linesOf s))).
Proof.
  intros Hn Hascii. apply Forall_concat, Forall_map.
  unfold linesOf. apply Forall_map, List.Forall_forall. intros pv _.
  now apply physical_inner.
Qed.

Lemma sections_inner (secs : list section) :
  Forall (fun s => nameOk (fst s) = true
                   /\ forallb is_ascii (fst s) = true) secs ->
  Forall inner (concat (map physical (flat_map linesOf secs))).
Proof.
  induction 1 as [|s secs [Hn Hascii] _ IH]; [constructor|].
  cbn [flat_map]. rewrite map_app, concat_app.
  apply Forall_app. split; [now apply section_inner | exact IH].
Qed.

Lemma sections_names (c : Contact) :
  Forall (fun s => nameOk (fst s) = true
                   /\ forallb is_ascii (fst s) = true) (sections c).
Proof.
  unfold sections.
  repeat (apply List.Forall_cons; [split; reflexivity|]). constructor.
Qed.

Lemma physLines_frame (c : Contact) :
  physLines c
  = lit "BEGIN:VCARD"
    :: concat (map physical (flat_map linesOf (sections c)))
    ++ [lit "END:VCARD"].
Proof.
  unfold physLines. rewrite vcardLines_sections.
  cbn [map concat]. rewrite map_app, concat_app. reflexivity.
Qed.

Lemma fold_inner (mid : list str) (cards : list str) (current : list str) :
  Forall inner mid ->
  fold_left splitStep mid (cards, current, true)
  = (cards, current ++ mid, true).
Proof.
  intros Hmid. revert current.
  induction Hmid as [|l mid [Hb He] _ IH]; intros current.
  - now rewrite app_nil_r.
  - cbn [fold_left]. unfold splitStep at 2. rewrite Hb, He.
    rewrite IH, <- app_assoc. reflexivity.
Qed.

Lemma fold_card (b e : str) (mid : list str)
    (state : list str * list str * bool) :
  isBegin b = true -> Forall inner mid ->
  isBegin e = false -> isEnd e = true ->
  fold_left splitStep (b :: mid ++ [e]) state
  = (fst (fst state) ++ [join CRLF (b :: mid ++ [e])], [], false).
Proof.
  intros Hb Hmid Heb Hee. destruct state as [[cards current] inCard].
  cbn [fold_left fst]. unfold splitStep at 2. rewrite Hb.
  rewrite fold_left_app, (fold_inner mid cards [b] Hmid).
  cbn [fold_left]. unfold splitStep. now rewrite Heb, Hee.
Qed.

Lemma fold_cards (cs : list Contact) (cards : list str) :
  forallb codec_safe cs = true ->
  fold_left splitStep (concat (map physLines cs)) (cards, [], false)
  = (cards ++ map contactToVCard cs, [], false).
Proof.
  revert cards. induction cs as [|c cs IH]; intros cards Hall.
  - cbn. now rewrite app_nil_r.
  - cbn [forallb] in Hall. apply andb_prop in Hall as [Hc Hcs].
    cbn [map concat]. rewrite fold_left_app.
    rewrite (physLines_frame c) at 1.
    rewrite fold_card;
      [ | exact begin_line | apply sections_inner, sections_names
        | apply end_line | apply end_line ].
    cbn [fst]. rewrite <- physLines_frame, <- contactToVCard_physical
      by assumption.
    rewrite (IH _ Hcs), <- app_assoc. reflexivity.
Qed.

Lemma exportVcf_lines (cs : list Contact) :
  forallb codec_safe cs = true ->
  exportVcf cs = join CRLF (concat (map physLines cs)).
Proof.
  intros Hall. unfold exportVcf.
  assert (Hcards : map contactToVCard cs
                   = map (join CRLF) (map physLines cs)).
  { rewrite map_map. apply map_ext_in. intros c Hc.
    rewrite forallb_forall in Hall. now apply contactToVCard_physical, Hall. }
  rewrite Hcards. apply join_concat, Forall_map, List.Forall_forall.
  intros c Hc. rewrite forallb_forall in Hall.
  now apply physLines_free, Hall.
Qed.

Lemma split_export (cs : list Contact) :
  forallb codec_safe cs = true ->
  splitVCards (exportVcf cs) = map contactToVCard cs.
Proof.
  intros Hall. unfold splitVCards. destruct cs as [|c cs].
  - cbn [exportVcf map join split_lines fold_left].
    unfold splitStep. destruct empty_line_inner as [-> ->]. reflexivity.
  - rewrite exportVcf_lines by assumption.
    pose proof Hall as Hall'. rewrite forallb_forall in Hall'.
    rewrite split_lines_join.
    + now rewrite fold_cards.
    + apply Forall_concat, Forall_map, List.Forall_forall. intros x Hx.
      now apply physLines_free, Hall'.
    + apply Forall_concat, Forall_map, List.Forall_forall. intros x Hx.
      now apply physLines_free, Hall'.
    + cbn [map concat].
      destruct (physLines_free c (Hall' c (or_introl eq_refl)))
        as (_ & _ & Hne).
      destruct (physLines c); [congruence | discriminate].
Qed.

(** X8.  [splitVCards] finds in a [vcf] export the cards [contactToVCard]
    wrote, one for each contact and in their order, when the contacts
    satisfy [codec_safe]: no line of a card but its first starts with
    BEGIN:VCARD, and none but its last with END:VCARD. *)
Theorem split_finds_exported_cards (cs : list Contact) :
  forallb codec_safe cs = true ->
  splitVCards (exportVcf cs) = map contactToVCard cs.
Proof. apply split_export. Qed.

(** X9.  Importing what was exported: the contacts read from the cards of
    the file a [vcf] export wrote are the exported contacts, field by field
    and in their order, when they satisfy [codec_safe] and the exported
    text holds no surrogate outside a pair (the file is written and read as
    UTF-8, which keeps no other text as it is). *)
Theorem import_reads_export (nowAt : nat -> str) (cs : list Contact) :
  forallb codec_safe cs = true ->
  wellFormed (exportVcf cs) = true ->
  parseCards nowAt 0 (splitVCards (exportedFile cs)) = cs.
Proof.
  intros Hall Hw. unfold exportedFile. rewrite (utf8_text_wellFormed _ Hw).
  rewrite split_export by assumption.
  now apply parseCards_cards.
Qed.

End WithUpper.

Lemma asciiCasing_upper : @asciiUpper asciiCasing.
Proof. split; reflexivity. Qed.

Lemma split_finds_exported_cards_witness :
  @splitVCards asciiCasing
     (exportVcf [CodecExamples.ada; CodecCases.bob])
  = [contactToVCard CodecExamples.ada; contactToVCard CodecCases.bob].
Proof.
  apply (@split_finds_exported_cards asciiCasing asciiCasing_upper
           [CodecExamples.ada; CodecCases.bob]).
  vm_compute; reflexivity.
Defined.

Lemma import_reads_export_witness :
  parseCards (fun _ => CodecExamples.stamp) 0
    (@splitVCards asciiCasing
       (exportedFile [CodecExamples.ada; CodecCases.bob]))
  = [CodecExamples.ada; CodecCases.bob].
Proof.
  apply (@import_reads_export asciiCasing asciiCasing_upper
           (fun _ => CodecExamples.stamp)
           [CodecExamples.ada; CodecCases.bob]);
    vm_compute; reflexivity.
Defined.

(** The name that [foldLines] cuts inside a character is not read back from
    the file: the two halves of the character come back as U+FFFD. *)
Lemma import_of_cut_character :
  wellFormed (exportVcf [Examples.longNamed]) = false
  /\ map fullName
       (parseCards (fun _ => CodecExamples.stamp) 0
          (@splitVCards asciiCasing (exportedFile [Examples.longNamed])))
     = [repeat 97%N 69 ++ [65533%N; 65533%N] ++ Examples.GRIN
        ++ repeat 98%N 68].
Proof. split; vm_compute; reflexivity. Qed.

(** Text around the cards, and the lines before a second [BEGIN:VCARD],
    are dropped; the case of the two markers does not matter. *)
Lemma splitVCards_messyFile :
  splitVCards (H := asciiCasing) messyFile
  = [join CRLF [lit "begin:vcard"; lit "FN:A"; lit "END:VCARD"];
     join CRLF [lit "BEGIN:VCARD"; lit "FN:B"; lit "end:vcard"]].
Proof. vm_compute. reflexivity. Qed.

End ImportFacts.

(** ** More on the duplicate detector *)

Module DedupMore.
Import Dedup DedupSpec DedupFacts DedupReport DedupMoreSpec JsFacts.

(** *** The edit distance *)

Lemma lev_rec_cons (c d : N) (x y : str) :
  lev_rec (c :: x) (d :: y)
  = if N.eqb c d then lev_rec x y
    else 1 + Nat.min (Nat.min (lev_rec x (d :: y)) (lev_rec (c :: x) y))
                     (lev_rec x y).
Proof. reflexivity. Qed.

Lemma lev_rec_nil_l (y : str) : lev_rec [] y = length y.
Proof. reflexivity. Qed.

Lemma lev_rec_cons_nil (c : N) (x : str) : lev_rec (c :: x) [] = S (length x).
Proof. reflexivity. Qed.

Lemma lev_rec_refl (x : str) : lev_rec x x = 0.
Proof.
  induction x as [|c x IH]; [reflexivity|].
  now rewrite lev_rec_cons, N.eqb_refl.
Qed.

Lemma lev_rec_zero (x y : str) : lev_rec x y = 0 -> x = y.
Proof.
  revert y. induction x as [|c x IHx]; intros y.
  - rewrite lev_rec_nil_l. destruct y; [reflexivity | discriminate].
  - destruct y as [|d y]; [discriminate|].
    rewrite lev_rec_cons. destruct (N.eqb_spec c d) as [->|_];
      [|discriminate].
    intros E. f_equal. now apply IHx.
Qed.

Lemma lev_rec_bounds (x y : str) :
  length x <= length y + lev_rec x y
  /\ length y <= length x + lev_rec x y
  /\ lev_rec x y <= Nat.max (length x) (length y).
Proof.
  revert y. induction x as [|c x IHx]; intros y.
  - rewrite lev_rec_nil_l. cbn [length]. lia.
  - induction y as [|d y IHy].
    + rewrite lev_rec_cons_nil. cbn [length]. lia.
    + rewrite lev_rec_cons. cbn [length] in *.
      pose proof (IHx y). pose proof (IHx (d :: y)) as Hdy.
      cbn [length] in Hdy.
      destruct (N.eqb c d); lia.
Qed.

(** X10.  The edit distance of [levenshtein] is 0 for equal texts and for
    no others. *)
Theorem levenshtein_zero_iff_equal (a b : str) :
  levenshtein a b = 0 <-> a = b.
Proof.
  rewrite levenshtein_rec. split.
  - intros E. apply lev_rec_zero in E.
    rewrite <- (rev_involutive a), <- (rev_involutive b). now f_equal.
  - intros ->. apply lev_rec_refl.
Qed.

(** X11.  The edit distance lies between the difference of the two
    lengths and the greater length. *)
Theorem levenshtein_between (a b : str) :
  Nat.max (length a) (length b) - Nat.min (length a) (length b)
  <= levenshtein a b <= Nat.max (length a) (length b).
Proof.
  rewrite levenshtein_rec.
  pose proof (lev_rec_bounds (rev a) (rev b)) as Hb.
  rewrite !length_rev in Hb. lia.
Qed.

(** *** The values of a confidence *)

Section WithPlatform.
Context `{Platform}.

Lemma score_values (email phone org : bool) (sim : Q) :
  In (round2 (scoreOf email phone sim org)) confidenceValues.
Proof.
  unfold scoreOf.
  destruct email, phone, org, (Qle_bool (85 # 100) sim),
    (Qle_bool (65 # 100) sim);
    vm_compute; tauto.
Qed.

(** X12.  The confidence [compareContacts] gives a pair is one of 0, 0.50,
    0.65, 0.70, 0.85, 0.90, 0.95 and 1: it lies between 0 and 1 and is a
    whole number of hundredths. *)
Theorem confidence_is_one_of_eight (a b : Contact) :
  In (cmp_confidence (compareContacts a b)) confidenceValues
  /\ (0 <= cmp_confidence (compareContacts a b) <= 1)%Q.
Proof.
  rewrite compare_confidence.
  pose proof (score_values (emailMatch a b) (phoneMatch a b) (orgMatch a b)
                (computeNameSimilarity a b)) as Hin.
  split; [exact Hin|].
  unfold confidenceValues in Hin. cbn [In] in Hin.
  repeat (destruct Hin as [<- | Hin];
          [split; intro; discriminate|]).
  contradiction.
Qed.

Lemma firstn_In {A} (n : nat) (l : list A) (x : A) :
  In x (firstn n l) -> In x l.
Proof.
  intros Hx. rewrite <- (firstn_skipn n l). apply in_or_app. now left.
Qed.

(** *** The order and the number of the candidates *)

Lemma insert_desc_Forall (P : DuplicateCandidate -> Prop)
    (x : DuplicateCandidate) (l : list DuplicateCandidate) :
  P x -> Forall P l -> Forall P (insert_desc x l).
Proof.
  intros Hx Hl. induction Hl as [|y l Hy Hl IH]; cbn [insert_desc].
  - now constructor.
  - destruct (Qle_bool (confidence x) (confidence y));
      repeat constructor; assumption.
Qed.

Lemma insert_desc_descending (x : DuplicateCandidate)
    (l : list DuplicateCandidate) :
  descending l -> descending (insert_desc x l).
Proof.
  induction l as [|y l IH]; cbn [insert_desc descending].
  - intros _. split; [constructor | exact I].
  - intros [Hy Hl].
    destruct (Qle_bool (confidence x) (confidence y)) eqn:E.
    + apply Qle_bool_iff in E. cbn [descending]. split.
      * apply insert_desc_Forall; assumption.
      * now apply IH.
    + assert (Hlt : (confidence y <= confidence x)%Q).
      { apply Qnot_lt_le. intros Hc. apply Qlt_le_weak in Hc.
        apply Qle_bool_iff in Hc. congruence. }
      cbn [descending]. repeat split; try assumption.
      constructor; [exact Hlt|].
      eapply List.Forall_impl; [|exact Hy].
      intros z Hz. unfold notBelow in *. now apply Qle_trans with (confidence y).
Qed.

Lemma sort_desc_descending (l : list DuplicateCandidate) :
  descending (sort_desc l).
Proof.
  unfold sort_desc.
  assert (Hgen : forall acc, descending acc ->
            descending (fold_left (fun sorted x => insert_desc x sorted) l acc)).
  { induction l as [|x l IH]; intros acc Hacc; [exact Hacc|].
    cbn [fold_left]. now apply IH, insert_desc_descending. }
  apply Hgen. exact I.
Qed.

Lemma descending_firstn (n : nat) (l : list DuplicateCandidate) :
  descending l -> descending (firstn n l).
Proof.
  revert l. induction n as [|n IH]; intros [|x l]; cbn [firstn descending];
    auto.
  intros [Hx Hl]. split; [|now apply IH].
  rewrite <- (firstn_skipn n l) in Hx. now apply Forall_app in Hx.
Qed.

(** X13.  The candidates [findDuplicates] returns are sorted with the
    greatest confidence first.  With a limit of 0 or more (50 when none is
    given) there are at most [limit] of them.  A negative limit does not
    bound their number: it drops the last [-limit] of the candidates that
    are found without a limit. *)
Theorem candidates_sorted_and_limited (contacts : list Contact)
    (options : DedupOptions) :
  let limit := default 50%Z (limit options) in
  let found := findDuplicates contacts options in
  descending found
  /\ ((0 <= limit)%Z -> (Z.of_nat (length found) <= limit)%Z)
  /\ ((limit < 0)%Z ->
      forall big,
        let uncut :=
          findDuplicates contacts
            {| threshold := threshold options; limit := Some big |} in
        (Z.of_nat (length uncut) < big)%Z ->
        found = firstn (length uncut - Z.to_nat (- limit)) uncut).
Proof.
  cbv zeta. unfold findDuplicates. cbv zeta. cbn [threshold limit default].
  destruct (fold_left _ _ _) as [seen candidates]. split; [|split].
  - destruct (slice_to_prefix (default 50%Z (limit options))
                (sort_desc candidates)) as [n ->].
    apply descending_firstn, sort_desc_descending.
  - intros Hpos. unfold slice_to.
    destruct (Z.ltb_spec (default 50%Z (limit options)) 0) as [Hneg|_]; [lia|].
    rewrite length_firstn. lia.
  - intros Hneg big Hbig.
    change (default 50%Z (Some big)) with big in *.
    rewrite (slice_to_short _ _ Hbig).
    unfold slice_to.
    destruct (Z.ltb_spec (default 50%Z (limit options)) 0) as [_|Hpos]; [|lia].
    f_equal. lia.
Qed.

(** *** Where the candidates come from *)

Lemma block_push_keyed (key : str) (c : Contact)
    (blocks : list (str * list Contact)) (P : str -> Contact -> Prop) :
  P key c ->
  (forall kb x, In kb blocks -> In x (snd kb) -> P (fst kb) x) ->
  forall kb x, In kb (block_push key c blocks) -> In x (snd kb) ->
               P (fst kb) x.
Proof.
  intros Hc. induction blocks as [|[k block] rest IH]; intros Hall kb x.
  - cbn [block_push In]. intros [<- | []]. cbn [snd fst In].
    now intros [<- | []].
  - cbn [block_push]. destruct (str_eqb k key) eqn:E; cbn [In].
    + apply str_eqb_eq in E. subst k.
      intros [<- | Hin]; cbn [snd fst].
      * intros Hx. apply in_app_or in Hx as [Hx | [<- | []]];
          [|exact Hc].
        exact (Hall (key, block) x (or_introl eq_refl) Hx).
      * apply Hall. now right.
    + intros [<- | Hin].
      * apply (Hall (k, block)). now left.
      * apply IH; [|exact Hin]. intros kb' x' Hkb'. apply Hall. now right.
Qed.

Lemma addContact_keyed (c : Contact) (P : str -> Contact -> Prop)
    (keys : list str) (blocks : list (str * list Contact)) :
  (forall k, In k keys -> P k c) ->
  (forall kb x, In kb blocks -> In x (snd kb) -> P (fst kb) x) ->
  forall kb x,
    In kb (fold_left (fun bs key => block_push key c bs) keys blocks) ->
    In x (snd kb) -> P (fst kb) x.
Proof.
  revert blocks. induction keys as [|k keys IH]; intros blocks Hkeys Hall;
    [exact Hall|].
  cbn [fold_left]. apply IH.
  - intros k' Hk'. apply Hkeys. now right.
  - apply block_push_keyed; [apply Hkeys; now left | exact Hall].
Qed.

Lemma buildBlocks_keyed (contacts : list Contact)
    (kb : str * list Contact) (x : Contact) :
  In kb (buildBlocks contacts) -> In x (snd kb) ->
  In (fst kb) (blockKeys x).
Proof.
  unfold buildBlocks.
  assert (Hgen : forall blocks,
            (forall kb x, In kb blocks -> In x (snd kb) ->
                          In (fst kb) (blockKeys x)) ->
            forall kb x,
              In kb (fold_left
                       (fun blocks contact =>
                          fold_left (fun blocks key =>
                                       block_push key contact blocks)
                                    (blockKeys contact) blocks)
                       contacts blocks) ->
              In x (snd kb) -> In (fst kb) (blockKeys x)).
  { induction contacts as [|c cs IH]; intros blocks Hall; [exact Hall|].
    cbn [fold_left]. apply IH.
    apply (addContact_keyed c (fun k y => In k (blockKeys y)));
      [auto | exact Hall]. }
  apply Hgen. intros ? ? [].
Qed.

Lemma visit_sound (threshold : Q) (G : DuplicateCandidate -> Prop)
    (ps : list (Contact * Contact)) :
  (forall a b, In (a, b) ps ->
     Qle_bool threshold (cmp_confidence (compareContacts a b)) = true ->
     G (candidateOf a b)) ->
  forall seen cands,
    Forall G cands ->
    Forall G (snd (fold_left (visit threshold) ps (seen, cands))).
Proof.
  induction ps as [|[a b] ps IH]; intros Hps seen cands Hc; [exact Hc|].
  cbn [fold_left]. unfold visit at 2.
  destruct (existsb (str_eqb (pairKey a b)) seen).
  - apply IH; [|exact Hc]. intros x y Hxy. apply Hps. now right.
  - apply IH; [intros x y Hxy; apply Hps; now right|].
    destruct (Qle_bool threshold (cmp_confidence (compareContacts a b)))
      eqn:E; [|exact Hc].
    apply Forall_app. split; [exact Hc|].
    constructor; [|constructor]. apply Hps; [now left | exact E].
Qed.

Lemma candidates_sound (contacts : list Contact) (options : DedupOptions)
    (cand : DuplicateCandidate) :
  In cand (findDuplicates contacts options) ->
  exists a b,
    In a contacts /\ In b contacts /\ shareBlock a b
    /\ cand = candidateOf a b
    /\ (default (6 # 10) (threshold options) <= confidence cand)%Q.
Proof.
  unfold findDuplicates. cbv zeta.
  set (th := default (6 # 10)%Q (threshold options)).
  set (ps := flat_map (fun kb => block_pairs (snd kb)) (buildBlocks contacts)).
  pose proof (visit_sound th
    (fun cand => exists a b,
       In a contacts /\ In b contacts /\ shareBlock a b
       /\ cand = candidateOf a b /\ (th <= confidence cand)%Q) ps) as Hsound.
  destruct (fold_left (visit th) ps ([], [])) as [seen cands] eqn:Efold.
  intros Hin.
  destruct (slice_to_prefix (default 50%Z (limit options)) (sort_desc cands))
    as [n En].
  rewrite En in Hin. apply firstn_In in Hin.
  apply (proj1 (sort_desc_In _ _)) in Hin.
  assert (Hall : Forall (fun cand => exists a b,
       In a contacts /\ In b contacts /\ shareBlock a b
       /\ cand = candidateOf a b /\ (th <= confidence cand)%Q) cands).
  { change cands with (snd (seen, cands)). rewrite <- Efold.
    apply Hsound; [|constructor].
    intros a b Hab Hth. exists a, b.
    subst ps. apply in_flat_map in Hab as (kb & Hkb & Hab).
    apply block_pairs_In in Hab as [Ha Hb].
    split; [|split; [|split; [|split]]].
    - exact (buildBlocks_members contacts kb a Hkb Ha).
    - exact (buildBlocks_members contacts kb b Hkb Hb).
    - exists (fst kb).
      split; [exact (buildBlocks_keyed contacts kb a Hkb Ha)
             | exact (buildBlocks_keyed contacts kb b Hkb Hb)].
    - reflexivity.
    - now apply Qle_bool_iff. }
  rewrite List.Forall_forall in Hall. now apply Hall.
Qed.

(** X14.  Every candidate [findDuplicates] returns pairs two contacts of
    the input that have a blocking key in common (name initials, e-mail
    domain or last seven phone digits), carries the confidence and the
    matched fields [compareContacts] gives the two, and has a confidence
    of at least [threshold] (0.6 when none is given): a pair without a
    common key is never reported. *)
Theorem candidates_come_from_blocks (contacts : list Contact)
    (options : DedupOptions) (cand : DuplicateCandidate) :
  In cand (findDuplicates contacts options) ->
  exists a b,
    In a contacts /\ In b contacts /\ shareBlock a b
    /\ cand = candidateOf a b
    /\ (default (6 # 10) (threshold options) <= confidence cand)%Q.
Proof. apply candidates_sound. Qed.

(** *** One contact, no pair *)

Lemma NoDup_snoc {A} (l : list A) (x : A) :
  List.NoDup l -> ~ In x l -> List.NoDup (l ++ [x]).
Proof.
  induction 1 as [|y l Hy Hl IH]; cbn [app In]; intros Hx.
  - constructor; [intros [] | constructor].
  - constructor; [|apply IH; tauto].
    intros Hin. apply in_app_or in Hin as [Hin | [<- | []]]; tauto.
Qed.

Lemma set_add_NoDup (k : str) (keys : list str) :
  List.NoDup keys -> List.NoDup (set_add k keys).
Proof.
  intros Hnd. unfold set_add.
  destruct (existsb (str_eqb k) keys) eqn:E; [exact Hnd|].
  apply NoDup_snoc; [exact Hnd|].
  intros Hin. apply existsb_str_eqb_In in Hin. congruence.
Qed.

Lemma fold_keys_NoDup {A} (step : list str -> A -> list str) (l : list A)
    (keys : list str) :
  (forall ks x, List.NoDup ks -> List.NoDup (step ks x)) ->
  List.NoDup keys -> List.NoDup (fold_left step l keys).
Proof.
  intros Hstep. revert keys.
  induction l as [|x l IH]; intros keys Hnd; [exact Hnd|].
  cbn [fold_left]. now apply IH, Hstep.
Qed.

Lemma blockKeys_NoDup (c : Contact) : List.NoDup (blockKeys c).
Proof.
  unfold blockKeys. cbv zeta.
  apply fold_keys_NoDup.
  - intros ks phone Hks.
    destruct (Nat.leb 7 (length (List.filter is_digit (p_value phone))));
      [now apply set_add_NoDup | exact Hks].
  - apply fold_keys_NoDup.
    + intros ks email Hks.
      destruct (nth_error (split 64 (e_value email)) 1) as [d|]; [|exact Hks].
      destruct (lowercase d); [exact Hks | now apply set_add_NoDup].
    + destruct (_ ++ _); repeat constructor. intros [].
Qed.

Lemma block_push_fresh (key : str) (c : Contact)
    (blocks : list (str * list Contact)) :
  ~ In key (map fst blocks) ->
  block_push key c blocks = blocks ++ [(key, [c])].
Proof.
  induction blocks as [|[k block] rest IH]; [reflexivity|].
  cbn [map fst In block_push]. intros Hnot.
  destruct (str_eqb_spec k key) as [->|_]; [tauto|].
  rewrite IH by tauto. reflexivity.
Qed.

Lemma single_contact_blocks (c : Contact) (keys : list str)
    (blocks : list (str * list Contact)) :
  List.NoDup keys ->
  (forall k, In k keys -> ~ In k (map fst blocks)) ->
  fold_left (fun bs key => block_push key c bs) keys blocks
  = blocks ++ map (fun k => (k, [c])) keys.
Proof.
  revert blocks. induction keys as [|k keys IH]; intros blocks Hnd Hfresh.
  - cbn. now rewrite app_nil_r.
  - inversion Hnd as [|? ? Hk Hnd']; subst. cbn [fold_left map].
    rewrite block_push_fresh by (apply Hfresh; now left).
    rewrite IH; [now rewrite <- app_assoc | exact Hnd' |].
    intros k' Hk' Hin. rewrite map_app in Hin.
    apply in_app_or in Hin as [Hin | [<- | []]].
    + apply (Hfresh k'); [now right | exact Hin].
    + contradiction.
Qed.

(** X15.  With fewer than two contacts there is nothing to pair:
    [findDuplicates] returns no candidate, and a contact is never paired
    with itself through two of its own blocking keys. *)
Theorem fewer_than_two_contacts (contacts : list Contact)
    (options : DedupOptions) :
  length contacts <= 1 -> findDuplicates contacts options = [].
Proof.
  intros Hlen. unfold findDuplicates. cbv zeta.
  assert (Hpairs : flat_map (fun kb => block_pairs (snd kb))
                     (buildBlocks contacts) = []).
  { destruct contacts as [|c [|c' cs]]; [reflexivity | | cbn in Hlen; lia].
    unfold buildBlocks. cbn [fold_left].
    rewrite single_contact_blocks;
      [| apply blockKeys_NoDup | intros k _ []].
    cbn [app]. induction (blockKeys c) as [|k keys IH]; [reflexivity|].
    cbn [map flat_map snd block_pairs app]. exact IH. }
  rewrite Hpairs. cbn [fold_left].
  destruct (slice_to_prefix (default 50%Z (limit options))
              (sort_desc (@nil DuplicateCandidate))) as [n ->].
  apply firstn_nil.
Qed.

(** *** No pair twice *)

Lemma candidateKey_candidateOf (a b : Contact) :
  candidateKey (candidateOf a b) = pairKey a b.
Proof. reflexivity. Qed.

Lemma visit_keys (threshold : Q) (ps : list (Contact * Contact)) :
  forall seen cands,
    (forall cand, In cand cands -> In (candidateKey cand) seen) ->
    List.NoDup (map candidateKey cands) ->
    List.NoDup
      (map candidateKey (snd (fold_left (visit threshold) ps (seen, cands)))).
Proof.
  induction ps as [|[a b] ps IH]; intros seen cands Hsub Hnd; [exact Hnd|].
  cbn [fold_left]. unfold visit at 2.
  destruct (existsb (str_eqb (pairKey a b)) seen) eqn:Eseen.
  - now apply IH.
  - destruct (Qle_bool threshold (cmp_confidence (compareContacts a b))).
    + apply IH.
      * intros cand Hin. apply in_app_or in Hin as [Hin | [<- | []]].
        -- right. now apply Hsub.
        -- left. reflexivity.
      * rewrite map_app. cbn [map].
        fold (candidateOf a b). rewrite candidateKey_candidateOf.
        apply NoDup_snoc; [exact Hnd|].
        intros Hk. apply in_map_iff in Hk as (cand & Hkey & Hin).
        apply Hsub in Hin. rewrite Hkey in Hin.
        apply existsb_str_eqb_In in Hin. congruence.
    + apply IH; [|exact Hnd]. intros cand Hin. right. now apply Hsub.
Qed.

Lemma insert_desc_perm (x : DuplicateCandidate)
    (l : list DuplicateCandidate) :
  Permutation (insert_desc x l) (x :: l).
Proof.
  induction l as [|y l IH]; cbn [insert_desc]; [reflexivity|].
  destruct (Qle_bool (confidence x) (confidence y)); [|reflexivity].
  rewrite IH. apply perm_swap.
Qed.

Lemma sort_desc_perm (l : list DuplicateCandidate) :
  Permutation (sort_desc l) l.
Proof.
  unfold sort_desc.
  assert (Hgen : forall acc,
            Permutation
              (fold_left (fun sorted x => insert_desc x sorted) l acc)
              (acc ++ l)).
  { induction l as [|x l IH]; intros acc; cbn [fold_left].
    - now rewrite app_nil_r.
    - rewrite IH, insert_desc_perm. apply Permutation_middle. }
  exact (Hgen []).
Qed.

Lemma NoDup_firstn_keys {A} (n : nat) (l : list A) :
  List.NoDup l -> List.NoDup (firstn n l).
Proof.
  revert l. induction n as [|n IH]; intros [|x l] Hnd; cbn [firstn];
    try constructor.
  - inversion Hnd as [|? ? Hx Hl]; subst. intros Hin.
    apply Hx. now apply firstn_In in Hin.
  - inversion Hnd; subst. now apply IH.
Qed.

(** X16.  No pair of ids is reported twice: the keys of the candidates,
    the two ids of each sorted and joined by a colon as in the loop of
    [findDuplicates], are pairwise different, also when the two contacts
    meet in several blocks. *)
Theorem no_pair_reported_twice (contacts : list Contact)
    (options : DedupOptions) :
  List.NoDup (map candidateKey (findDuplicates contacts options)).
Proof.
  unfold findDuplicates. cbv zeta.
  pose proof (visit_keys (default (6 # 10)%Q (threshold options))
                (flat_map (fun kb => block_pairs (snd kb))
                   (buildBlocks contacts)) [] []) as Hkeys.
  destruct (fold_left _ _ _) as [seen cands].
  destruct (slice_to_prefix (default 50%Z (limit options)) (sort_desc cands))
    as [n ->].
  rewrite <- firstn_map. apply NoDup_firstn_keys.
  apply (Permutation_NoDup
           (Permutation_sym
              (Permutation_map candidateKey (sort_desc_perm cands)))).
  apply Hkeys; [intros ? [] | constructor].
Qed.

End WithPlatform.

(** With the limit -1 the one candidate of the two records is dropped. *)
Lemma candidates_sorted_and_limited_witness :
  length (@findDuplicates Examples.examplePlatform
            [Examples.janeSmith; Examples.jSmith] Examples.defaults) = 1
  /\ @findDuplicates Examples.examplePlatform
       [Examples.janeSmith; Examples.jSmith]
       {| threshold := None; limit := Some (-1)%Z |} = [].
Proof.
  split; [vm_compute; reflexivity|].
  destruct (@candidates_sorted_and_limited Examples.examplePlatform
              [Examples.janeSmith; Examples.jSmith]
              {| threshold := None; limit := Some (-1)%Z |})
    as (_ & _ & Hneg).
  rewrite (Hneg eq_refl 50%Z eq_refl). vm_compute. reflexivity.
Defined.

Lemma fewer_than_two_contacts_witness :
  @findDuplicates Examples.examplePlatform [Examples.janeSmith]
    Examples.defaults = [].
Proof.
  apply (@fewer_than_two_contacts Examples.examplePlatform
           [Examples.janeSmith] Examples.defaults).
  cbn [length]. lia.
Defined.

Lemma candidates_come_from_blocks_witness :
  exists a b,
    shareBlock (H := Examples.examplePlatform) a b
    /\ @findDuplicates Examples.examplePlatform
         [Examples.janeSmith; Examples.jSmith] Examples.defaults
       = [@candidateOf Examples.examplePlatform a b].
Proof.
  destruct (@candidates_come_from_blocks Examples.examplePlatform
              [Examples.janeSmith; Examples.jSmith] Examples.defaults
              (@candidateOf Examples.examplePlatform
                 Examples.janeSmith Examples.jSmith))
    as (a & b & _ & _ & Hshare & Hcand & _).
  - vm_compute. left. reflexivity.
  - exists a, b. split; [exact Hshare|]. rewrite <- Hcand.
    vm_compute. reflexivity.
Defined.

End DedupMore.

(** ** What an import skips *)

Module SelectionFacts.
Import Dedup DedupSpec DedupFacts DedupReport DedupMoreSpec DedupMore JsFacts
  ImportTool.

Section WithPlatform.
Context `{Platform}.

Lemma addId_In (i j : str) (ids : list str) :
  In i (addId j ids) -> i = j \/ In i ids.
Proof.
  unfold addId. destruct (existsb (str_eqb j) ids); [now right|].
  intros Hin. apply in_app_or in Hin as [Hin | [<- | []]]; auto.
Qed.

(** An id is marked for a candidate that pairs it with an id that is not
    among the parsed ones. *)
Lemma marked_ids (parsed : list Contact) (dupes : list DuplicateCandidate) :
  forall ids i,
    In i (fold_left (markDuplicate parsed) dupes ids) ->
    In i ids
    \/ exists dupe,
         In dupe dupes
         /\ ((i = s_id (contactA dupe)
              /\ isNew parsed (s_id (contactB dupe)) = false)
             \/ (i = s_id (contactB dupe)
                 /\ isNew parsed (s_id (contactA dupe)) = false)).
Proof.
  induction dupes as [|dupe dupes IH]; intros ids i; [now left|].
  cbn [fold_left]. intros Hin. apply IH in Hin as [Hin | (d & Hd & Hcase)].
  - unfold markDuplicate in Hin. cbv zeta in Hin.
    destruct (isNew parsed (s_id (contactA dupe))) eqn:EA;
      destruct (isNew parsed (s_id (contactB dupe))) eqn:EB;
      cbn [andb negb] in Hin; try (now left).
    + apply addId_In in Hin as [-> | Hin]; [|now left].
      right. exists dupe. split; [now left | auto].
    + apply addId_In in Hin as [-> | Hin]; [|now left].
      right. exists dupe. split; [now left | auto].
  - right. exists d. split; [now right | exact Hcase].
Qed.

Lemma isNew_false (parsed : list Contact) (c : Contact) :
  isNew parsed (id c) = false -> ~ In c parsed.
Proof.
  unfold isNew. intros E Hin.
  assert (Ht : existsb (fun p => str_eqb (id p) (id c)) parsed = true)
    by (apply existsb_exists; exists c; split;
        [exact Hin | apply str_eqb_refl]).
  congruence.
Qed.

Lemma confidence_sym (a b : Contact) :
  cmp_confidence (compareContacts a b) = cmp_confidence (compareContacts b a).
Proof. rewrite !compare_confidence. f_equal. apply scoreOf_sym. Qed.

Lemma shareBlock_sym (a b : Contact) : shareBlock a b -> shareBlock b a.
Proof. intros (k & Ha & Hb). exists k. auto. Qed.

Lemma skipped_pairs_existing (existing parsed : list Contact) (i : str) :
  In i (fold_left (markDuplicate parsed)
          (findDuplicates (existing ++ parsed)
             {| threshold := Some (8 # 10)%Q; limit := None |}) []) ->
  exists p e,
    In p (existing ++ parsed) /\ id p = i
    /\ In e existing /\ isNew parsed (id e) = false
    /\ shareBlock p e
    /\ ((8 # 10) <= cmp_confidence (compareContacts p e))%Q.
Proof.
  intros Hin. apply marked_ids in Hin as [[] | (dupe & Hdupe & Hcase)].
  apply candidates_sound in Hdupe
    as (a & b & Ha & Hb & Hshare & -> & Hconf).
  cbn [threshold default] in Hconf.
  change (confidence (candidateOf a b))
    with (cmp_confidence (compareContacts a b)) in Hconf.
  change (s_id (contactA (candidateOf a b))) with (id a) in Hcase.
  change (s_id (contactB (candidateOf a b))) with (id b) in Hcase.
  destruct Hcase as [[-> Hnew] | [-> Hnew]].
  - exists a, b. repeat split; try assumption.
    apply in_app_or in Hb as [Hb | Hb]; [exact Hb|].
    now apply isNew_false in Hnew.
  - exists b, a. repeat split; try assumption.
    + apply in_app_or in Ha as [Ha | Ha]; [exact Ha|].
      now apply isNew_false in Hnew.
    + now apply shareBlock_sym.
    + now rewrite confidence_sym.
Qed.

(** X17.  With [skipDuplicates], a contact of the file is left out only
    if it is taken for a duplicate of a stored one: some contact with its
    id and a stored contact whose id is not among the ids of the file have
    a blocking key in common and compare with a confidence of at least
    0.8.  Two contacts of the file that are duplicates of each other are
    both imported. *)
Theorem only_duplicates_of_stored_skipped (existing parsed : list Contact)
    (c : Contact) :
  In c parsed -> ~ In c (toImport existing parsed) ->
  exists p e,
    In p (existing ++ parsed) /\ id p = id c
    /\ In e existing /\ isNew parsed (id e) = false
    /\ shareBlock p e
    /\ ((8 # 10) <= cmp_confidence (compareContacts p e))%Q.
Proof.
  intros Hc Hskip. unfold toImport in Hskip. cbv zeta in Hskip.
  apply skipped_pairs_existing. apply existsb_str_eqb_In.
  destruct (existsb (str_eqb (id c)) _) eqn:E; [reflexivity|].
  exfalso. apply Hskip. apply filter_In. split; [exact Hc|].
  now rewrite E.
Qed.

(** X18.  Into a store without contacts everything is imported: nothing
    of the file is skipped, whatever duplicates it holds. *)
Theorem import_into_empty_store (parsed : list Contact) :
  toImport [] parsed = parsed.
Proof.
  unfold toImport. cbv zeta.
  set (dupeIds := fold_left _ _ _).
  assert (Hnone : dupeIds = []).
  { destruct dupeIds as [|i ids] eqn:E; [reflexivity|]. exfalso.
    destruct (skipped_pairs_existing [] parsed i)
      as (p & e & _ & _ & [] & _).
    fold dupeIds. rewrite E. now left. }
  rewrite Hnone. cbn [existsb negb]. clear Hnone dupeIds.
  induction parsed as [|c cs IH]; [reflexivity|].
  cbn [List.filter]. now rewrite IH.
Qed.

End WithPlatform.

(** "J. Smith" of the file is left out for "Jane Smith" of the store. *)
Lemma only_duplicates_of_stored_skipped_witness :
  @toImport Examples.examplePlatform [Examples.janeSmith] [Examples.jSmith]
  = []
  /\ exists p e,
       id p = id Examples.jSmith /\ In e [Examples.janeSmith]
       /\ ((8 # 10)
           <= cmp_confidence (@compareContacts Examples.examplePlatform p e))%Q.
Proof.
  split; [vm_compute; reflexivity|].
  destruct (@only_duplicates_of_stored_skipped Examples.examplePlatform
              [Examples.janeSmith] [Examples.jSmith] Examples.jSmith)
    as (p & e & _ & Hid & He & _ & _ & Hconf).
  - left. reflexivity.
  - vm_compute. intros [].
  - exists p, e. auto.
Defined.

End SelectionFacts.

(** ** More on the merge resolver *)

Module MergeMore.
Import Merge MergeSpec MergeFacts MergeMoreSpec JsFacts.

Section WithPlatform.
Context `{Platform}.

(** X19.  [mergeContacts] refuses fewer than two contacts with the error
    'Need at least 2 contacts to merge'.  Otherwise it succeeds, whatever
    the strategy and the overrides: the merged contact has the id of the
    first contact, [modified] set to the current time and [archived] set to
    false, and the ids of all the contacts are listed in their order. *)
Theorem merge_always_keeps_primary_id (now : str) (contacts : list Contact)
    (strategy : MergeStrategy) (fieldOverrides : list (str * str)) :
  match contacts with
  | primary :: _ :: _ =>
      exists r,
        mergeContacts now contacts strategy fieldOverrides = inr r
        /\ id (mergedContact r) = id primary
        /\ modified (metadata (mergedContact r)) = now
        /\ archived (metadata (mergedContact r)) = false
        /\ sourceContactIds r = map id contacts
  | _ =>
      mergeContacts now contacts strategy fieldOverrides
      = inl (PlainError (lit "Need at least 2 contacts to merge"))
  end.
Proof.
  destruct contacts as [|primary [|second rest]]; try reflexivity.
  unfold mergeContacts. cbv zeta.
  destruct (fold_left _ fieldOverrides _) as [merged fe].
  eexists. split; [reflexivity|]. cbn. auto.
Qed.

(** *** The union keeps what the contacts hold *)

Lemma union_by_prefix {A} (key : A -> str) (others : list A) :
  forall seen acc, exists more, union_by key seen acc others = acc ++ more.
Proof.
  induction others as [|x others IH]; intros seen acc; cbn [union_by].
  - exists []. now rewrite app_nil_r.
  - destruct (existsb (str_eqb (key x)) seen); [apply IH|].
    destruct (IH (key x :: seen) (acc ++ [x])) as [more ->].
    exists (x :: more). now rewrite <- app_assoc.
Qed.

Lemma union_by_holds {A} (key : A -> str) (others : list A) :
  forall seen acc,
    (forall k, In k seen -> exists y, In y acc /\ key y = k) ->
    forall x, In x others -> heldBy key (union_by key seen acc others) x.
Proof.
  induction others as [|z others IH]; intros seen acc Hseen x; [intros []|].
  cbn [union_by In]. intros [<- | Hx].
  - destruct (existsb (str_eqb (key z)) seen) eqn:E.
    + apply existsb_str_eqb_In in E. destruct (Hseen _ E) as (y & Hy & Hk).
      destruct (union_by_prefix key others seen acc) as [more ->].
      exists y. split; [apply in_or_app; now left | exact Hk].
    + destruct (union_by_prefix key others (key z :: seen) (acc ++ [z]))
        as [more ->].
      exists z. split; [|reflexivity].
      apply in_or_app. left. apply in_or_app. right. now left.
  - destruct (existsb (str_eqb (key z)) seen); [now apply IH|].
    apply IH; [|exact Hx].
    intros k [<- | Hk].
    + exists z. split; [apply in_or_app; right; now left | reflexivity].
    + destruct (Hseen k Hk) as (y & Hy & Hyk).
      exists y. split; [apply in_or_app; now left | exact Hyk].
Qed.

Lemma heldBy_prefix {A} (key : A -> str) (l more : list A) (x : A) :
  heldBy key l x -> heldBy key (l ++ more) x.
Proof.
  intros (y & Hy & Hk). exists y. split; [apply in_or_app; now left | exact Hk].
Qed.

Lemma heldBy_In {A} (key : A -> str) (l : list A) (x : A) :
  In x l -> heldBy key l x.
Proof. intros Hx. exists x. auto. Qed.

(** One step keeps what the primary holds and takes in what the other
    holds. *)
Lemma union_step_holds {A} (key : A -> str) (mine theirs : list A) (x : A) :
  heldBy key mine x \/ In x theirs ->
  heldBy key (union_by key (map key mine) mine theirs) x.
Proof.
  intros [Hx | Hx].
  - destruct (union_by_prefix key theirs (map key mine) mine) as [more ->].
    now apply heldBy_prefix.
  - apply union_by_holds; [|exact Hx].
    intros k Hk. apply in_map_iff in Hk as (y & Hy & Hin). eauto.
Qed.

Lemma heldBy_id (l : list str) (x : str) :
  heldBy (fun c => c) l x <-> In x l.
Proof.
  split; [intros (y & Hy & <-); exact Hy | apply heldBy_In].
Qed.

Lemma union_by_id (mine theirs : list str) :
  union_by (fun c => c) mine mine theirs
  = union_by (fun c => c) (map (fun c => c) mine) mine theirs.
Proof. now rewrite map_id. Qed.

Lemma unionStep_holds (primary other c : Contact) :
  allHeld primary c \/ c = other -> allHeld (unionStep primary other) c.
Proof.
  intros Hc. unfold allHeld, unionStep.
  cbn [emails phones urls categories]. repeat split.
  - intros e He. apply union_step_holds.
    destruct Hc as [(H1 & _) | ->]; auto.
  - intros p Hp. apply union_step_holds.
    destruct Hc as [(_ & H2 & _) | ->]; auto.
  - intros u Hu. apply union_step_holds.
    destruct Hc as [(_ & _ & H3 & _) | ->]; auto.
  - intros cat Hcat. apply heldBy_id. rewrite union_by_id.
    apply union_step_holds.
    destruct Hc as [(_ & _ & _ & H4) | ->]; [left | right; exact Hcat].
    apply heldBy_id. auto.
Qed.

Lemma fold_unionStep_holds (others : list Contact) (first c : Contact) :
  allHeld first c \/ In c others ->
  allHeld (fold_left unionStep others first) c.
Proof.
  revert first. induction others as [|o others IH]; intros first Hc.
  - destruct Hc as [Hc | []]. exact Hc.
  - cbn [fold_left]. apply IH. destruct Hc as [Hc | [<- | Hc]].
    + left. apply unionStep_holds. now left.
    + left. apply unionStep_holds. now right.
    + now right.
Qed.

Lemma allHeld_self (c : Contact) : allHeld c c.
Proof.
  unfold allHeld. repeat split; intros x Hx;
    try (now apply heldBy_In); exact Hx.
Qed.

(** X20.  The union strategy loses no entry: without overrides, every
    e-mail address of every merged contact is among those of the result up
    to the case of its value, every phone and every url up to its value,
    and every category as it is. *)
Theorem union_loses_no_entry (now : str) (contacts : list Contact)
    (r : MergeResult) (c : Contact) :
  mergeContacts now contacts union [] = inr r ->
  In c contacts ->
  (forall e, In e (emails c) ->
     heldBy (fun e => lowercase (e_value e)) (emails (mergedContact r)) e)
  /\ (forall p, In p (phones c) ->
        heldBy p_value (phones (mergedContact r)) p)
  /\ (forall u, In u (urls c) -> heldBy u_value (urls (mergedContact r)) u)
  /\ (forall cat, In cat (categories c) ->
        In cat (categories (mergedContact r))).
Proof.
  destruct contacts as [|primary [|second rest]]; try discriminate.
  unfold mergeContacts. cbv zeta. cbn [fold_left mergeUnion].
  intros E Hc. injection E as <-.
  change (allHeld (fold_left unionStep (second :: rest) primary) c).
  apply fold_unionStep_holds.
  destruct Hc as [<- | Hc]; [left; apply allHeld_self | now right].
Qed.

(** *** The newest and the oldest contact *)

Lemma insert_by_ranked {A} (k : A -> Z) (cmp : A -> A -> Z) (x : A)
    (l : list A) :
  (forall z, In z l -> Z.ltb (cmp x z) 0 = Z.ltb (k z) (k x)) ->
  ranked k l -> ranked k (insert_by cmp x l).
Proof.
  induction l as [|y l IH]; intros Hcmp Hl.
  - cbn. split; [intros ? []|exact I].
  - cbn [insert_by]. destruct Hl as [Hy Hl].
    rewrite (Hcmp y (or_introl eq_refl)).
    destruct (Z.ltb (k y) (k x)) eqn:E.
    + apply Z.ltb_lt in E. split; [|split; assumption].
      intros z [<- | Hz]; [lia|]. specialize (Hy z Hz). lia.
    + apply Z.ltb_ge in E. split.
      * intros z Hz. apply insert_by_In in Hz as [-> | Hz]; [exact E|auto].
      * apply IH; [|exact Hl]. intros z Hz. apply Hcmp. now right.
Qed.

Lemma sort_by_ranked {A} (k : A -> Z) (cmp : A -> A -> Z) (l : list A) :
  (forall y z, In y l -> In z l -> Z.ltb (cmp y z) 0 = Z.ltb (k z) (k y)) ->
  ranked k (sort_by cmp l).
Proof.
  intros Hcmp. unfold sort_by.
  enough (G : forall rest acc,
             (forall y, In y rest -> In y l) ->
             (forall y, In y acc -> In y l) ->
             ranked k acc ->
             ranked k (fold_left (fun s x => insert_by cmp x s) rest acc)).
  { apply G; [auto | intros ? [] | exact I]. }
  induction rest as [|x rest IH]; intros acc Hrest Hacc Hr; [exact Hr|].
  cbn [fold_left]. apply IH.
  - intros y Hy. apply Hrest. now right.
  - intros y Hy. apply insert_by_In in Hy as [-> | Hy];
      [apply Hrest; now left | auto].
  - apply insert_by_ranked; [|exact Hr].
    intros z Hz. apply Hcmp; [apply Hrest; now left | auto].
Qed.

Lemma head_sort_by_first {A} (k : A -> Z) (cmp : A -> A -> Z) (l : list A)
    (c : A) :
  (forall y z, In y l -> In z l -> Z.ltb (cmp y z) 0 = Z.ltb (k z) (k y)) ->
  head (sort_by cmp l) = Some c ->
  In c l /\ forall d, In d l -> (k d <= k c)%Z.
Proof.
  intros Hcmp Hc. split; [now apply (head_sort_by_In cmp)|].
  intros d Hd. apply (sort_by_In cmp) in Hd.
  pose proof (sort_by_ranked k cmp l Hcmp) as Hr.
  destruct (sort_by cmp l) as [|c' s]; [discriminate|].
  injection Hc as ->. destruct Hr as [Hr _].
  destruct Hd as [-> | Hd]; [lia | auto].
Qed.

Lemma timeDiff_modifiedAt (contacts : list Contact) (a b : Contact) :
  datesParse contacts -> In a contacts -> In b contacts ->
  default 0%Z (timeDiff (modified (metadata a)) (modified (metadata b)))
  = (modifiedAt a - modifiedAt b)%Z.
Proof.
  intros Hd Ha Hb. unfold timeDiff, modifiedAt.
  pose proof (Hd a Ha). pose proof (Hd b Hb).
  destruct (dateTime (modified (metadata a))); [|congruence].
  destruct (dateTime (modified (metadata b))); [|congruence].
  reflexivity.
Qed.

(** When every time is a date the comparator is a consistent order, and the
    sort is the stable one. *)
Lemma sortByTime_parsed (cmp : Contact -> Contact -> option Z)
    (contacts : list Contact) :
  datesParse contacts ->
  sortByTime (fun c => modified (metadata c)) cmp contacts
  = sort_by (fun a b => default 0%Z (cmp a b)) contacts.
Proof.
  intros Hd. unfold sortByTime.
  assert (E : forallb (fun c => match dateTime (modified (metadata c)) with
                                | Some _ => true
                                | None => false
                                end) contacts = true).
  { apply forallb_forall. intros c Hc. specialize (Hd c Hc).
    destruct (dateTime (modified (metadata c))); [reflexivity|congruence]. }
  now rewrite E.
Qed.

Lemma mergeKeepNewest_latest (contacts : list Contact) (c : Contact) :
  datesParse contacts -> mergeKeepNewest contacts = Some c ->
  In c contacts /\ forall d, In d contacts -> (modifiedAt d <= modifiedAt c)%Z.
Proof.
  intros Hd. unfold mergeKeepNewest. rewrite sortByTime_parsed by exact Hd.
  apply head_sort_by_first.
  intros y z Hy Hz. rewrite (timeDiff_modifiedAt contacts) by assumption.
  destruct (Z.ltb_spec (modifiedAt z - modifiedAt y) 0),
           (Z.ltb_spec (modifiedAt z) (modifiedAt y)); auto; lia.
Qed.

Lemma mergeKeepOldest_earliest (contacts : list Contact) (c : Contact) :
  datesParse contacts -> mergeKeepOldest contacts = Some c ->
  In c contacts /\ forall d, In d contacts -> (modifiedAt c <= modifiedAt d)%Z.
Proof.
  intros Hd Hc. unfold mergeKeepOldest in Hc.
  rewrite sortByTime_parsed in Hc by exact Hd.
  apply (head_sort_by_first (fun x => (- modifiedAt x)%Z)) in Hc.
  - destruct Hc as [Hin Hc]. split; [exact Hin|].
    intros d Hdin. specialize (Hc d Hdin). cbv beta in Hc. lia.
  - intros y z Hy Hz. rewrite (timeDiff_modifiedAt contacts) by assumption.
    destruct (Z.ltb_spec (modifiedAt y - modifiedAt z) 0),
             (Z.ltb_spec (- modifiedAt z) (- modifiedAt y)); auto; lia.
Qed.

Lemma mergeKeepNewest_defined (c : Contact) (cs : list Contact) :
  datesParse (c :: cs) -> exists start, mergeKeepNewest (c :: cs) = Some start.
Proof.
  intros Hd. unfold mergeKeepNewest. rewrite sortByTime_parsed by exact Hd.
  apply sort_by_nonempty.
Qed.

Lemma mergeKeepOldest_defined (c : Contact) (cs : list Contact) :
  datesParse (c :: cs) -> exists start, mergeKeepOldest (c :: cs) = Some start.
Proof.
  intros Hd. unfold mergeKeepOldest. rewrite sortByTime_parsed by exact Hd.
  apply sort_by_nonempty.
Qed.

(** X21.  When every contact's modification time is a date, the
    keep-newest strategy without overrides gives the content of a contact
    that none of the others was modified after, and keep-oldest the content
    of one that none was modified before. *)
Theorem newest_and_oldest_by_modified (now : str) (contacts : list Contact)
    (r : MergeResult) :
  datesParse contacts ->
  (mergeContacts now contacts keep_newest [] = inr r ->
   exists c, In c contacts /\ sameContent (mergedContact r) c
             /\ forall d, In d contacts -> (modifiedAt d <= modifiedAt c)%Z)
  /\ (mergeContacts now contacts keep_oldest [] = inr r ->
      exists c, In c contacts /\ sameContent (mergedContact r) c
                /\ forall d, In d contacts -> (modifiedAt c <= modifiedAt d)%Z).
Proof.
  intros Hd.
  destruct contacts as [|primary [|second rest]];
    [split; discriminate | split; discriminate |].
  split; unfold mergeContacts; cbv zeta; cbn [fold_left].
  - destruct (mergeKeepNewest_defined primary (second :: rest) Hd) as [c Hc].
    rewrite Hc. intros E. injection E as <-.
    apply mergeKeepNewest_latest in Hc as [Hin Hc]; [|exact Hd].
    exists c. split; [exact Hin|]. split; [|exact Hc].
    unfold sameContent. repeat split.
  - destruct (mergeKeepOldest_defined primary (second :: rest) Hd) as [c Hc].
    rewrite Hc. intros E. injection E as <-.
    apply mergeKeepOldest_earliest in Hc as [Hin Hc]; [|exact Hd].
    exists c. split; [exact Hin|]. split; [|exact Hc].
    unfold sameContent. repeat split.
Qed.

(** *** What the union leaves behind *)





(** *** Copies *)

Lemma union_by_known {A} (key : A -> str) (others : list A) (seen : list str)
    (acc : list A) :
  (forall x, In x others -> In (key x) seen) ->
  union_by key seen acc others = acc.
Proof.
  induction others as [|x others IH]; intros Hk; [reflexivity|].
  cbn [union_by].
  rewrite (proj2 (existsb_str_eqb_In (key x) seen))
    by (apply Hk; now left).
  apply IH. intros y Hy. apply Hk. now right.
Qed.

Lemma union_by_self {A} (key : A -> str) (l : list A) :
  union_by key (map key l) l l = l.
Proof. apply union_by_known. intros x Hx. now apply in_map. Qed.

Lemma option_str_eqb_refl (a : option str) : option_str_eqb a a = true.
Proof. destruct a; [apply str_eqb_refl | reflexivity]. Qed.

Lemma address_eqb_refl (a : ContactAddress) : address_eqb a a = true.
Proof. unfold address_eqb. now rewrite !option_str_eqb_refl. Qed.

Lemma union_addresses_known (others acc : list ContactAddress) :
  (forall x, In x others -> In x acc) -> union_addresses acc others = acc.
Proof.
  induction others as [|x others IH]; intros Hk; [reflexivity|].
  cbn [union_addresses].
  assert (E : existsb (address_eqb x) acc = true).
  { apply existsb_exists. exists x. split; [apply Hk; now left|].
    apply address_eqb_refl. }
  rewrite E. apply IH. intros y Hy. apply Hk. now right.
Qed.

Lemma take_if_missing (a : option str) :
  (if negb (truthy a) && truthy a then a else a) = a.
Proof. now destruct (negb (truthy a) && truthy a). Qed.

Lemma unionStep_copy (primary other : Contact) :
  sameContent other primary -> sameContent (unionStep primary other) primary.
Proof.
  intros (E1 & E2 & E3 & E4 & E5 & E6 & E7 & E8 & E9 & E10 & E11 & E12).
  unfold sameContent, unionStep.
  cbn [fullName name emails phones addresses organization birthday
       anniversary urls notes categories photo].
  rewrite E1, E2, E3, E4, E5, E6, E7, E9, E10, E11, E12.
  rewrite Nat.ltb_irrefl, !union_by_self, combineNotes_same.
  rewrite (union_by_known (fun c => c)) by auto.
  rewrite union_addresses_known by auto.
  rewrite !take_if_missing.
  repeat split.
  now destruct (negb _ && _).
Qed.

Lemma sameContent_trans (a b c : Contact) :
  sameContent a b -> sameContent b c -> sameContent a c.
Proof.
  unfold sameContent. intros Hab Hbc.
  repeat match goal with
         | E : _ /\ _ |- _ => destruct E
         end.
  repeat split; congruence.
Qed.

Lemma sameContent_sym (a b : Contact) : sameContent a b -> sameContent b a.
Proof.
  unfold sameContent. intros Hab.
  repeat match goal with
         | E : _ /\ _ |- _ => destruct E
         end.
  repeat split; congruence.
Qed.

Lemma fold_unionStep_copies (others : list Contact) (c first : Contact) :
  List.Forall (fun o => sameContent o c) others ->
  sameContent first c ->
  sameContent (fold_left unionStep others first) c.
Proof.
  intros Hall. revert first.
  induction Hall as [|o others Ho Hall IH]; intros first Hf; [exact Hf|].
  cbn [fold_left]. apply IH.
  apply sameContent_trans with first; [|exact Hf].
  apply unionStep_copy.
  apply sameContent_trans with c; [exact Ho | now apply sameContent_sym].
Qed.

(** X23.  Merging a contact with copies of it under the union strategy adds
    nothing: when the other contacts have the content of the first one
    (their ids and metadata may differ), so has the merged contact; no
    entry and no note is repeated. *)
Theorem union_of_copies_adds_nothing (now : str) (c : Contact)
    (copies : list Contact) (r : MergeResult) :
  List.Forall (fun o => sameContent o c) copies ->
  mergeContacts now (c :: copies) union [] = inr r ->
  sameContent (mergedContact r) c.
Proof.
  intros Hall. destruct copies as [|second rest]; [discriminate|].
  unfold mergeContacts. cbv zeta. cbn [fold_left mergeUnion].
  intros E. injection E as <-.
  change (sameContent (fold_left unionStep (second :: rest) c) c).
  apply fold_unionStep_copies; [exact Hall|].
  unfold sameContent. repeat split.
Qed.

End WithPlatform.

(** Two contacts whose addresses differ in case only: the second one's is
    held by the result under the first one's spelling. *)
Lemma union_loses_no_entry_witness :
  exists r,
    mergeContacts (H := Examples.examplePlatform)
      (lit "2025-02-02T00:00:00.000Z") [Examples.aliceBob; Examples.zedBob]
      union [] = inr r
    /\ emails (mergedContact r) = emails Examples.aliceBob
    /\ forall e, In e (emails Examples.zedBob) ->
         heldBy (fun e => Js.toLowerCase (e_value e))
                (emails (mergedContact r)) e.
Proof.
  eexists. split; [reflexivity|]. split; [reflexivity|].
  apply (@union_loses_no_entry Examples.examplePlatform
           (lit "2025-02-02T00:00:00.000Z")
           [Examples.aliceBob; Examples.zedBob] _ Examples.zedBob).
  - reflexivity.
  - right. left. reflexivity.
Defined.

Lemma newest_and_oldest_by_modified_witness :
  exists r c,
    mergeContacts (H := Examples.examplePlatform)
      (lit "2025-02-02T00:00:00.000Z")
      [Examples.linkedOld; Examples.linkedNew] keep_newest [] = inr r
    /\ In c [Examples.linkedOld; Examples.linkedNew]
    /\ sameContent (mergedContact r) c
    /\ forall d, In d [Examples.linkedOld; Examples.linkedNew] ->
         (modifiedAt (H := Examples.examplePlatform) d
          <= modifiedAt (H := Examples.examplePlatform) c)%Z.
Proof.
  assert (E : exists r,
             mergeContacts (H := Examples.examplePlatform)
               (lit "2025-02-02T00:00:00.000Z")
               [Examples.linkedOld; Examples.linkedNew] keep_newest []
             = inr r) by (eexists; reflexivity).
  destruct E as [r E]. exists r.
  destruct (@newest_and_oldest_by_modified Examples.examplePlatform
              (lit "2025-02-02T00:00:00.000Z")
              [Examples.linkedOld; Examples.linkedNew] r)
    as [Hnew _]; [intros c _; discriminate|].
  destruct (Hnew E) as (c & Hc).
  exists c. split; [exact E | exact Hc].
Defined.


(** The same person stored twice, with a note, under two ids. *)
Lemma union_of_copies_adds_nothing_witness :
  exists r,
    mergeContacts (H := Examples.examplePlatform)
      (lit "2025-02-02T00:00:00.000Z") [Examples.noteX1; Examples.noteX2]
      union [] = inr r
    /\ sameContent (mergedContact r) Examples.noteX1.
Proof.
  eexists. split; [reflexivity|].
  apply (@union_of_copies_adds_nothing Examples.examplePlatform
           (lit "2025-02-02T00:00:00.000Z") Examples.noteX1
           [Examples.noteX2]).
  - constructor; [|constructor]. unfold sameContent. repeat split.
  - reflexivity.
Defined.

End MergeMore.
(** ** More on the store *)

Module StoreMoreFacts.
Import Store StoreSpec StoreFacts StoreMore StoreMoreSpec HistorySpec.

Section WithPlatform.
Context `{Platform}.

(** *** The lock *)




(** *** Running an operation, step by step *)

Lemma bind_ok {A B} (m : M A) (k : A -> M B) (st st1 : State) (a : A) :
  m st = (inr a, st1) -> (m ≫= k) st = k a st1.
Proof. unfold mbind, M_bind. now intros ->. Qed.

Lemma bind_err {A B} (m : M A) (k : A -> M B) (st st1 : State) (e : Error) :
  m st = (inl e, st1) -> (m ≫= k) st = (inl e, st1).
Proof. unfold mbind, M_bind. now intros ->. Qed.


Lemma fold_applyToHead_frame (changes : list Change) (s : State) :
  tags (fold_left applyToHead changes s) = tags s
  /\ log (fold_left applyToHead changes s) = log s
  /\ lock (fold_left applyToHead changes s) = lock s.
Proof.
  revert s. induction changes as [|c cs IH]; intros s; [now repeat split|].
  cbn [fold_left]. destruct (IH (applyToHead s c)) as (-> & -> & ->).
  now repeat split.
Qed.

Lemma git_commit_frame (msg : str) (st : State) :
  exists st' ch,
    git_commit msg st = (inr (commitHash (length (log st))), st')
    /\ contactsDir st' = contactsDir st
    /\ archiveDir st' = archiveDir st
    /\ tags st' = tags st
    /\ log st' = {| hash := commitHash (length (log st)); message := msg;
                    changes := ch |} :: log st.
Proof.
  unfold git_commit. eexists. eexists. split; [reflexivity|].
  cbn [with_log with_index contactsDir archiveDir tags log].
  destruct (fold_applyToHead_dirs (map (stagedChange st) (index st)) st)
    as [-> ->].
  destruct (fold_applyToHead_frame (map (stagedChange st) (index st)) st)
    as (-> & _ & _).
  now repeat split.
Qed.



Lemma writeFile_ok (area : Area) (id text : str) (st : State) :
  dirExists area st = true ->
  writeFile area id text st
  = (inr tt, with_dir area (insert id (utf8_text text)) st).
Proof. unfold writeFile. now intros ->. Qed.

Lemma writeFile_missing (area : Area) (id text : str) (st : State) :
  dirExists area st = false -> writeFile area id text st = (inl ENOENT, st).
Proof. unfold writeFile. now intros ->. Qed.




(** *** [create], then [get] *)

Lemma create_spec (now : Clock) (fresh : str) (fields : ContactFields)
    (st : State) :
  lockFree now st = true ->
  dirExists Active st = true ->
  let c := normalizeContact
             (createContact (nowIso now) fresh
                (with_id (Some (default fresh (f_id fields))) fields)) in
  exists st',
    create now fresh fields st = (inr c, st')
    /\ contactsDir st'
       = <[id c := utf8_text (contactToVCard c)]> (contactsDir st)
    /\ archiveDir st' = archiveDir st.
Proof.
  intros Hl Hd c.
  unfold create, withLock.
  rewrite (bind_ok _ _ _ _ _ (acquireLock_free now st Hl)).
  unfold try_finally. fold c.
  erewrite bind_ok by (apply writeFile_ok; exact Hd).
  erewrite bind_ok by reflexivity.
  match goal with
  | |- context [(git_commit ?m ≫= ?k) ?s] =>
      destruct (git_commit_frame m s) as (st4 & ch & Ec & Hc & Ha & _);
      rewrite (bind_ok _ k _ _ _ Ec)
  end.
  eexists. split; [reflexivity|].
  cbn [releaseLock with_lock contactsDir archiveDir].
  rewrite Hc, Ha. split; reflexivity.
Qed.

Lemma create_missing (now : Clock) (fresh : str) (fields : ContactFields)
    (st : State) :
  lockFree now st = true ->
  dirExists Active st = false ->
  create now fresh fields st = (inl ENOENT, releaseLock st).
Proof.
  intros Hl Hd.
  unfold create, withLock.
  rewrite (bind_ok _ _ _ _ _ (acquireLock_free now st Hl)).
  unfold try_finally.
  erewrite bind_err by (apply writeFile_missing; exact Hd).
  reflexivity.
Qed.

(** X25.  On a free lock, for an id that is the name of its file: when
    [contacts/] exists, [create] succeeds; the contact has the given id, or
    else the generated one, and its card is written under that id,
    replacing a card the id already had.  A [get] of the id then decodes
    the card as the file holds it: it returns the created contact itself
    when the contact is within the codec's round-trip conditions and its
    card holds no surrogate outside a pair.  When [contacts/] does not
    exist - git removes it with its last card - [create] fails with the
    file system's [ENOENT] and writes nothing. *)
Theorem get_after_create (now now' : Clock) (fresh : str)
    (fields : ContactFields) (st : State) :
  lockFree now st = true ->
  plainId (default fresh (f_id fields)) = true ->
  if dirExists Active st then
    exists c st',
      create now fresh fields st = (inr c, st')
      /\ id c = default fresh (f_id fields)
      /\ contactsDir st'
         = <[id c := utf8_text (contactToVCard c)]> (contactsDir st)
      /\ archiveDir st' = archiveDir st
      /\ get now' (id c) st'
         = (inr (vcardToContact (nowIso now')
                   (utf8_text (contactToVCard c))), st')
      /\ (CodecSpec.codec_safe c = true ->
          wellFormed (contactToVCard c) = true ->
          get now' (id c) st' = (inr c, st'))
  else create now fresh fields st = (inl ENOENT, releaseLock st).
Proof.
  intros Hl _.
  destruct (dirExists Active st) eqn:Hd; [|now apply create_missing].
  destruct (create_spec now fresh fields st Hl Hd) as (st' & E & Hc & Ha).
  eexists. exists st'. split; [exact E|].
  split; [reflexivity|]. split; [exact Hc|]. split; [exact Ha|].
  assert (Hget : get now' (default fresh (f_id fields)) st'
                 = (inr (vcardToContact (nowIso now')
                           (utf8_text
                              (contactToVCard
                                 (normalizeContact
                                    (createContact (nowIso now) fresh
                                       (with_id
                                          (Some (default fresh (f_id fields)))
                                          fields)))))), st')).
  { rewrite get_spec, Hc.
    change (id (normalizeContact _)) with (default fresh (f_id fields)).
    now rewrite lookup_insert_eq. }
  split; [exact Hget|].
  intros Hs Hw.
  change (id (normalizeContact _)) with (default fresh (f_id fields)).
  rewrite Hget, (ImportFacts.utf8_text_wellFormed _ Hw).
  now rewrite ImportFacts.decode_encode.
Qed.

(** *** Archiving *)


(** *** Listing *)

Lemma readArea_spec (now : Clock) (area : Area) (st : State) :
  readArea now area st
  = (inr (map (fun entry => vcardToContact (nowIso now) (snd entry))
              (map_to_list (dir area st))), st).
Proof. reflexivity. Qed.

(** X27.  [list] never fails and changes nothing.  It returns one contact
    per card of [contacts/], decoded, and with [includeArchived] also one
    per card of [archive/], decoded and with [archived] set to true
    whatever the card says; [listSummaries] is the summary of each. *)
Theorem list_reads_every_card (now : Clock) (includeArchived : bool)
    (st : State) :
  exists l,
    listContacts now includeArchived st = (inr l, st)
    /\ listSummaries now includeArchived st = (inr (map toSummary l), st)
    /\ length l = (size (contactsDir st)
                   + if includeArchived then size (archiveDir st) else 0)%nat
    /\ (forall c,
          In c l <->
          (exists id text, contactsDir st !! id = Some text
                           /\ c = vcardToContact (nowIso now) text)
          \/ (includeArchived = true
              /\ exists id text,
                   archiveDir st !! id = Some text
                   /\ c = set_metadata
                            (set_archived true
                               (metadata (vcardToContact (nowIso now) text)))
                            (vcardToContact (nowIso now) text))).
Proof.
  unfold listSummaries, listContacts, mbind, M_bind, mret, M_ret.
  rewrite !readArea_spec. cbn [dir].
  assert (Hin : forall (m : gmap str str) (f : str -> Contact) c,
             In c (map (fun entry => f (snd entry)) (map_to_list m))
             <-> exists id text, m !! id = Some text /\ c = f text).
  { intros m f c. rewrite in_map_iff. split.
    - intros ([i text] & <- & Hi). exists i, text. split; [|reflexivity].
      apply elem_of_map_to_list. now apply list_elem_of_In.
    - intros (i & text & Hm & ->). exists (i, text). split; [reflexivity|].
      apply list_elem_of_In. now apply elem_of_map_to_list. }
  destruct includeArchived.
  - rewrite readArea_spec. cbn [dir].
    eexists. split; [reflexivity|]. split; [reflexivity|]. split.
    + rewrite length_app, !length_map. now rewrite !length_map_to_list.
    + intros c. rewrite in_app_iff, map_map.
      rewrite (Hin (contactsDir st) (vcardToContact (nowIso now))).
      rewrite (Hin (archiveDir st)
                 (fun text => set_metadata
                                (set_archived true
                                   (metadata (vcardToContact (nowIso now) text)))
                                (vcardToContact (nowIso now) text))).
      intuition.
  - eexists. split; [reflexivity|]. split; [reflexivity|]. split.
    + rewrite length_map, length_map_to_list. lia.
    + intros c.
      rewrite (Hin (contactsDir st) (vcardToContact (nowIso now))).
      intuition. discriminate.
Qed.

(** *** [bulkCreate] *)










End WithPlatform.

(** *** The history *)










Section WithPlatform.
Context `{Platform}.




End WithPlatform.

(** *** On the store of the examples *)

Lemma get_after_create_witness :
  (exists c st',
      create (H := Examples.examplePlatform)
        (Examples.clock 1000 (lit "2025-01-01T00:00:01.000Z")) Examples.janeId
        Examples.janeFields Examples.storeInit = (inr c, st')
      /\ id c = Examples.janeId
      /\ get (Examples.clock 2000 (lit "2025-01-01T00:00:02.000Z")) (id c) st'
         = (inr c, st'))
  /\ create (H := Examples.examplePlatform)
       (Examples.clock 3000 (lit "2025-01-01T00:00:03.000Z")) Examples.janeId
       Examples.janeFields storeEmptied
     = (inl ENOENT, releaseLock storeEmptied).
Proof.
  split.
  - pose proof (@get_after_create Examples.examplePlatform
                  (Examples.clock 1000 (lit "2025-01-01T00:00:01.000Z"))
                  (Examples.clock 2000 (lit "2025-01-01T00:00:02.000Z"))
                  Examples.janeId Examples.janeFields Examples.storeInit
                  eq_refl eq_refl) as T.
    assert (Hd : dirExists Active Examples.storeInit = true)
      by (vm_compute; reflexivity).
    rewrite Hd in T. destruct T as (c & st' & E & Hid & _ & _ & _ & Hget).
    exists c, st'. split; [exact E|]. split; [exact Hid|].
    assert (E' := E). vm_compute in E'. injection E' as <- _.
    apply Hget; vm_compute; reflexivity.
  - pose proof (@get_after_create Examples.examplePlatform
                  (Examples.clock 3000 (lit "2025-01-01T00:00:03.000Z"))
                  (Examples.clock 3000 (lit "2025-01-01T00:00:03.000Z"))
                  Examples.janeId Examples.janeFields storeEmptied
                  eq_refl eq_refl) as T.
    assert (Hd : dirExists Active storeEmptied = false)
      by (vm_compute; reflexivity).
    rewrite Hd in T. exact T.
Defined.




End StoreMoreFacts.
(** ** The CSV export *)

Module CsvFacts.
Import ExportTool CsvSpec LineFacts.










End CsvFacts.
(** ** The conflict resolver *)

Module ConflictFacts.
Import Conflict.

Section WithPlatform.
Context `{Platform}.

(** The resolver returns one of its two contacts, names the one it
    returned unless the strategy is [manual], and under [newest_wins] gives
    the remote contact exactly when the local one is older or one of the
    two times is no date. *)
Lemma resolveConflict_returns_a_side (local remote : Contact)
    (strategy : ConflictStrategy) :
  let r := resolveConflict local remote strategy in
  match winner r with
  | winner_local => contact r = local /\ resolved r = true
  | winner_remote => contact r = remote /\ resolved r = true
  | winner_none =>
      contact r = local /\ resolved r = false /\ strategy = manual
  end
  /\ (strategy = newest_wins ->
      (winner r = winner_remote <-> notOlder local remote = false)).
Proof.
  destruct strategy; cbn; try (split; [auto | discriminate]).
  destruct (notOlder local remote); cbn; split; auto; intros _; split;
    congruence.
Qed.

End WithPlatform.
End ConflictFacts.
